(** * asd-dashboard: a shallow embedding of the dashboard's cores

    The development follows the JavaScript sources module by module:
    - [Js]                : the few JavaScript builtins the sources rely on;
    - [Chunker]           : utils/chunker.js;
    - [Types]             : types.js, the persisted boards, views and widgets;
    - [SnapshotDedup]     : utils/snapshotDedup.js and utils/merge.js;
    - [MergeSpec]         : the merge as the specification words it;
    - [Snapshots]         : the snapshot store of storage/StorageManager.js;
    - [EvictionViewModel] : component/modal/evictionModalViewModel.js;
    - [JsMap], [Dom]      : insertion-ordered maps and the widget elements;
    - [WidgetStore]       : component/widget/widgetStore.js;
    - [Minimizer]         : utils/minimizer.js, with [deepEqual];
    - [App]               : addWidget, confirmCapacity, saveWidgetState and
                            switchView over the whole state;
    - [Scenario]          : two small dashboards for the examples;
    - [Manifest]          : the chunk manifest of utils/chunker.js;
    - [ObjectUtils], [DeepMerge] : utils/objectUtils.js;
    - [Keymap]            : utils/keymap.js and utils/fragmentKeyMap.js;
    - [Checksum]          : utils/checksum.js;
    - [Base64Url], [ConfigCodec] : utils/compression.js;
    - [Html], [SilentImport] : escapeHtml and sanitizeName;
    - [SnapshotRuns]      : series of saveStateSnapshot calls;
    - [Config]            : mergeWithDefaults of storage/StorageManager.js;
    - [WidgetManagement], [DragDrop] : removeWidget, updateWidgetOrders
                            and handleDrop;
    - [EvictionSelect]    : autoSelectLru of the eviction view-model;
    - [Uuid]              : getUUID of utils/utils.js;
    - [Fragment]          : the parameters that exportConfig writes and
                            loadFromFragment reads.
    The properties come after the definitions, in the same order.

    Strings are [String.string], a character standing for a code unit
    below 256; JavaScript numbers that are only ever used as integers
    are [nat] or [Z]; a value of type [string | undefined] is an
    [option string].  Loops that JavaScript may run forever take fuel
    and return [None] when it runs out. *)

From stdpp Require Import gmap strings list sorting.
From Stdlib Require Import ZArith Lia Bool.
From Stdlib Require Import Strings.Ascii.
From Stdlib Require Import Numbers.DecimalString Numbers.DecimalNat.
From Stdlib Require Import Init.Decimal.

(** ** JavaScript builtins *)
Module Js.

(** Truthiness of a string: only the empty string is falsy. *)
Definition truthy (s : string) : bool :=
  match s with EmptyString => false | String _ _ => true end.

(** [`${i}`] for a non-negative integer [i]. *)
Definition decimal (i : nat) : string :=
  NilEmpty.string_of_uint (Nat.to_uint i).

(** [s.slice(a, b)] for integer bounds [0 <= a <= b]. *)
Definition slice (s : string) (a b : nat) : string :=
  String.substring a (b - a) s.

(** [s.slice(n)] for an integer [0 <= n]. *)
Fixpoint slice_from (n : nat) (s : string) : string :=
  match n, s with
  | O, _ => s
  | S n', EmptyString => EmptyString
  | S n', String _ s' => slice_from n' s'
  end.

(** [Number(s)] composed with [Number.isInteger]: [Some n] when [s]
    denotes the integer [n].  The model covers the strings made of
    decimal digits only, the empty string included ([Number('')] is
    [0]); signs, blanks, exponents and radix prefixes, which the chunker
    never writes, are classified as non-integers. *)
Definition integerOfString (s : string) : option nat :=
  match NilEmpty.uint_of_string s with
  | Some d => Some (Nat.of_uint d)
  | None => None
  end.

(** [parts.join('')] *)
Definition join (parts : list string) : string :=
  fold_right String.append EmptyString parts.

(** [Some n] when [k] is an array index: the canonical decimal numeral
    of an integer [n < 2^32 - 1]. *)
Definition arrayIndex (k : string) : option N :=
  match NilEmpty.uint_of_string k with
  | Some d =>
      let n := N.of_uint d in
      if String.eqb (NilEmpty.string_of_uint (N.to_uint n)) k && (n <? 4294967295)%N
      then Some n else None
  | None => None
  end.

(** Stable sort of array indices in ascending numeric order. *)
Fixpoint insert_index (p : N * string) (l : list (N * string)) : list (N * string) :=
  match l with
  | [] => [p]
  | q :: l' => if (fst p <=? fst q)%N then p :: l else q :: insert_index p l'
  end.

Fixpoint sort_indices (l : list (N * string)) : list (N * string) :=
  match l with
  | [] => []
  | p :: l' => insert_index p (sort_indices l')
  end.

Fixpoint indices (keys : list string) : list (N * string) :=
  match keys with
  | [] => []
  | k :: keys' =>
      match arrayIndex k with
      | Some n => (n, k) :: indices keys'
      | None => indices keys'
      end
  end.

Definition named (k : string) : bool :=
  match arrayIndex k with Some _ => false | None => true end.

(** The order in which JavaScript lists the own property names of an
    ordinary object ([Object.keys], [Object.entries], spread, [for in])
    whose properties were created in the order [keys]: the array
    indices in ascending numeric order, then the other names in the
    order of creation. *)
Definition ownKeys (keys : list string) : list string :=
  (map snd (sort_indices (indices keys)) ++ List.filter named keys)%list.

(** The names that every object inherits from [Object.prototype]. *)
Definition objectPrototype : list string :=
  ["constructor"; "__defineGetter__"; "__defineSetter__"; "hasOwnProperty";
   "__lookupGetter__"; "__lookupSetter__"; "isPrototypeOf";
   "propertyIsEnumerable"; "toString"; "valueOf"; "__proto__";
   "toLocaleString"].

Definition inherits (k : string) : bool := bool_decide (k ∈ objectPrototype).

End Js.

(** ** utils/chunker.js *)
Module Chunker.
Import Js.

(** A [URLSearchParams] is an ordered list of key/value pairs;
    [params.get(k)] is the first value stored under [k]. *)
Definition Params := list (string * string).

Fixpoint params_get (k : string) (ps : Params) : option string :=
  match ps with
  | [] => None
  | (k', v) :: ps' => if String.eqb k k' then Some v else params_get k ps'
  end.

(** The [for (let off = 0; off < data.length; off += maxLen)] loop of
    [splitIntoParams]; [fuel] bounds the number of iterations, and
    [None] stands for a loop that is still running when it is used up. *)
Fixpoint split_loop (fuel : nat) (name data : string) (maxLen off i : nat)
    (out : Params) : option Params :=
  if off <? String.length data then
    match fuel with
    | O => None
    | S fuel' =>
        let part := slice data off (off + maxLen) in
        split_loop fuel' name data maxLen (off + maxLen) (S i)
                   (out ++ [(name +:+ decimal i, part)])
    end
  else Some out.

Definition splitIntoParams (name data : string) (maxLen : nat) : option Params :=
  if String.length data <=? maxLen then Some [(name, data)]
  else split_loop (String.length data) name data maxLen 0 0 [].

(** [parts.sort((a, b) => a[0] - b[0])]: a stable sort on the index. *)
Fixpoint insert_part (p : nat * string) (l : list (nat * string)) : list (nat * string) :=
  match l with
  | [] => [p]
  | q :: l' => if fst q <=? fst p then q :: insert_part p l' else p :: l
  end.

Definition sort_parts (l : list (nat * string)) : list (nat * string) :=
  fold_left (fun acc p => insert_part p acc) l [].

(** The [for (const [k, v] of params.entries())] loop of [joinFromParams]. *)
Fixpoint collect_parts (name : string) (ps : Params) : list (nat * string) :=
  match ps with
  | [] => []
  | (k, v) :: ps' =>
      if String.prefix name k then
        match integerOfString (slice_from (String.length name) k) with
        | Some idx => (idx, v) :: collect_parts name ps'
        | None => collect_parts name ps'
        end
      else collect_parts name ps'
  end.

Definition joinFromParams (name : string) (ps : Params) : option string :=
  let numbered :=
    match collect_parts name ps with
    | [] => None
    | parts => Some (join (map snd (sort_parts parts)))
    end in
  match params_get name ps with
  | Some single => if truthy single then Some single else numbered
  | None => numbered
  end.

(** What the loop of [joinFromParams] makes of one parameter. *)
Definition part_of (name : string) (kv : string * string) : option (nat * string) :=
  if String.prefix name (fst kv) then
    (fun idx => (idx, snd kv))
      <$> integerOfString (slice_from (String.length name) (fst kv))
  else None.

(** The keys the loop writes for [n] chunks, numbered from [i]. *)
Definition numbered_keys (name : string) (i n : nat) : list string :=
  map (fun j => name +:+ decimal j) (seq i n).

End Chunker.

(** ** types.js: the persisted data model *)
Module Types.

(** A value of JavaScript type [string | undefined]. *)
Definition ostring := option string.

(** [!!s] for [s : string | undefined]. *)
Definition truthyS (s : ostring) : bool :=
  match s with Some s => Js.truthy s | None => false end.

(** Widget persisted in a board view ([metadata] and [settings] are
    opaque payloads and are left out). *)
Record Widget := mkWidget {
  w_dataid : ostring;
  w_serviceId : ostring;
  w_url : string;
  w_columns : option Z;
  w_rows : option Z;
  w_type : ostring;
  w_order : option Z
}.

Record View := mkView {
  v_id : string;
  v_name : string;
  widgetState : list Widget
}.

Record Board := mkBoard {
  b_id : string;
  b_name : string;
  views : list View
}.

End Types.

(** ** utils/snapshotDedup.js and utils/merge.js *)
Module SnapshotDedup.
Import Js Types.

(** Characters are code units below 256.  [is_space] is the white space
    that [String.prototype.trim] strips in that range. *)
Definition is_space (c : ascii) : bool :=
  let n := nat_of_ascii c in
  (Nat.leb 9 n && Nat.leb n 13) || Nat.eqb n 32 || Nat.eqb n 160.

Fixpoint trimStart (s : string) : string :=
  match s with
  | EmptyString => EmptyString
  | String c s' => if is_space c then trimStart s' else s
  end.

Fixpoint trimEnd (s : string) : string :=
  match s with
  | EmptyString => EmptyString
  | String c s' =>
      match trimEnd s' with
      | EmptyString => if is_space c then EmptyString else String c EmptyString
      | t => String c t
      end
  end.

Definition trim (s : string) : string := trimEnd (trimStart s).

Definition lower_char (c : ascii) : ascii :=
  let n := nat_of_ascii c in
  if (Nat.leb 65 n && Nat.leb n 90)
     || (Nat.leb 192 n && Nat.leb n 222 && negb (Nat.eqb n 215))
  then ascii_of_nat (n + 32) else c.

Fixpoint toLowerCase (s : string) : string :=
  match s with
  | EmptyString => EmptyString
  | String c s' => String (lower_char c) (toLowerCase s')
  end.

(** [(n || '').trim().toLowerCase()] *)
Definition norm (n : ostring) : string :=
  toLowerCase (trim (default EmptyString n)).

Section Dedup.
Context {T : Type}.
Variables getId getName : T -> ostring.

(** The [for (const item of items)] loop, with its two [Set]s and the
    output array. *)
Fixpoint dedup_loop (items : list T) (seenIds seenNames : gset string)
    (out : list T) : list T :=
  match items with
  | [] => out
  | item :: rest =>
      let id := getId item in
      let name := norm (getName item) in
      if (truthyS id && bool_decide (default EmptyString id ∈ seenIds))
         || (truthy name && bool_decide (name ∈ seenNames))
      then dedup_loop rest seenIds seenNames out
      else
        let seenIds' :=
          if truthyS id then {[default EmptyString id]} ∪ seenIds else seenIds in
        let seenNames' :=
          if truthy name then {[name]} ∪ seenNames else seenNames in
        dedup_loop rest seenIds' seenNames' (out ++ [item])
  end.

Definition snapshotDedup (items : list T) : list T :=
  dedup_loop items ∅ ∅ [].

End Dedup.

(** External service definition, with the fields the merge reads. *)
Record Service := mkService {
  s_id : ostring;
  s_url : ostring;
  s_name : ostring
}.

(** [a || b] on [string | undefined]. *)
Definition or_else (a b : ostring) : ostring := if truthyS a then a else b.

Definition mergeBoards (existingBoards newBoards : list Board) : list Board :=
  snapshotDedup (fun b => Some (b_id b)) (fun b => Some (b_name b))
                (existingBoards ++ newBoards).


Definition mergeServices (existingServices newServices : list Service) : list Service :=
  snapshotDedup (fun s => or_else (s_id s) (s_url s)) s_name
                (existingServices ++ newServices).

(** The loop without its two sets: walk the list and keep an item
    unless an earlier kept item carries the same id or the same
    normalized name; an absent (falsy) id or an empty normalized name is
    never a match. *)
Section DedupSpec.
Context {T : Type}.
Variables getId getName : T -> ostring.

Definition same_id (y x : T) : bool :=
  truthyS (getId x) && bool_decide (getId y = getId x).

Definition same_name (y x : T) : bool :=
  truthy (norm (getName x))
  && bool_decide (norm (getName y) = norm (getName x)).

Definition seen_in (kept : list T) (x : T) : bool :=
  existsb (fun y => same_id y x || same_name y x) kept.

Definition dedup_spec (items : list T) : list T :=
  fold_left (fun kept x => if seen_in kept x then kept else kept ++ [x]) items [].

(** An item without id and without name. *)
Definition blank (x : T) : bool :=
  negb (truthyS (getId x)) && negb (truthy (norm (getName x))).

(** What the two sets hold while the loop runs: the ids and the
    normalized names of the items kept so far. *)
Definition sets_of (out : list T) (seenIds seenNames : gset string) : Prop :=
  (forall s, s ∈ seenIds <-> exists y, y ∈ out /\ getId y = Some s /\ truthy s = true)
  /\ (forall s, s ∈ seenNames <->
        exists y, y ∈ out /\ norm (getName y) = s /\ truthy s = true).

End DedupSpec.

Definition board (id name : string) : Board := mkBoard id name [].
Definition boardId (b : Board) : ostring := Some (b_id b).
Definition boardName (b : Board) : ostring := Some (b_name b).
Definition serviceKey (s : Service) : ostring := or_else (s_id s) (s_url s).

End SnapshotDedup.

(** ** The merge in the words of the specification

    Concatenate, then keep first occurrences: an item is dropped when an
    earlier kept item has the same stable identifier (board [id];
    service [id], or [url] where the service has no id) or the same name
    up to white space at both ends and the case of letters.  These
    definitions use none of the functions of the code above, only the
    character classes [is_space] and [lower_char]. *)
Module MergeSpec.
Import Js Types SnapshotDedup.

(** A stable identifier is present when it is a non-empty string. *)
Definition present (id : ostring) : bool :=
  match id with
  | Some (String _ _) => true
  | _ => false
  end.

Definition board_id (b : Board) : ostring := Some (b_id b).
Definition board_name (b : Board) : ostring := Some (b_name b).

(** Service [id-or-url]: the id where there is one, the url otherwise. *)
Definition id_or_url (s : Service) : ostring :=
  match s_id s with
  | Some (String c r) => Some (String c r)
  | _ => s_url s
  end.

Fixpoint drop_spaces (s : list ascii) : list ascii :=
  match s with
  | [] => []
  | c :: s' => if is_space c then drop_spaces s' else s
  end.

(** The characters of a name without the white space at both ends; a
    missing name has none. *)
Definition trimmed (name : ostring) : list ascii :=
  match name with
  | Some s => List.rev (drop_spaces (List.rev (drop_spaces (String.list_ascii_of_string s))))
  | None => []
  end.

(** Equal up to the case of letters. *)
Fixpoint same_letters (a b : list ascii) : bool :=
  match a, b with
  | [], [] => true
  | c :: a', d :: b' => Ascii.eqb (lower_char c) (lower_char d) && same_letters a' b'
  | _, _ => false
  end.

Definition ids_match (seen id : ostring) : bool :=
  present id && bool_decide (seen = id).

Definition names_match (seen name : ostring) : bool :=
  match trimmed name with
  | [] => false
  | t => same_letters (trimmed seen) t
  end.

Section FirstOccurrences.
Context {T : Type}.
Variables id_of name_of : T -> ostring.

(** [x] repeats the id or the name of an item kept before it. *)
Definition seen (kept : list T) (x : T) : bool :=
  existsb (fun y => ids_match (id_of y) (id_of x)
                    || names_match (name_of y) (name_of x)) kept.

Fixpoint keep_from (kept items : list T) : list T :=
  match items with
  | [] => kept
  | x :: rest => keep_from (if seen kept x then kept else kept ++ [x]) rest
  end.

Definition first_occurrences (items : list T) : list T := keep_from [] items.

End FirstOccurrences.

End MergeSpec.

(** ** storage/StorageManager.js: the snapshot store *)
Module Snapshots.
Import Js.

Record Snapshot := mkSnapshot {
  snap_name : string;
  snap_type : string;
  snap_md5 : string;
  snap_cfg : string;
  snap_svc : string;
  snap_ts : Z
}.

(** The state store [{version, states}].  [states] is [None] when the
    stored value is not an array, [version] is [None] when the key is
    missing. *)
Record StateStore := mkStore {
  version : option Z;
  states : option (list Snapshot)
}.

Definition CURRENT_VERSION : Z := 1.

Record UpsertResult := mkUpsert {
  r_store : StateStore;
  r_md5 : string;
  r_updated : bool
}.

(** [list.findIndex(p)], [None] standing for [-1]. *)
Fixpoint findIndex {A} (p : A -> bool) (l : list A) : option nat :=
  match l with
  | [] => None
  | x :: l' => if p x then Some 0 else S <$> findIndex p l'
  end.

Section Upsert.
(** The vendored MD5 digest and the clock are parameters. *)
Variable md5Hex : string -> string.

Definition refresh (name : string) (ts : Z) (existing : Snapshot) : Snapshot :=
  {| snap_name := if truthy name then name else snap_name existing;
     snap_type := snap_type existing;
     snap_md5 := snap_md5 existing;
     snap_cfg := snap_cfg existing;
     snap_svc := snap_svc existing;
     snap_ts := ts |}.

(** [lst] is [store.states] itself when that is an array, so that the
    updates of [lst] are updates of the store; otherwise it is a fresh
    array that the returned store does not hold. *)
Definition upsertSnapshotByMd5 (now : Z) (store : StateStore)
    (name type cfg svc : string) : UpsertResult :=
  let md5 := md5Hex (cfg +:+ svc) in
  let lst := default [] (states store) in
  let commit (list' : list Snapshot) : StateStore :=
    match states store with
    | Some _ => {| version := version store; states := Some list' |}
    | None => store
    end in
  match findIndex (fun s => String.eqb (snap_md5 s) md5) lst with
  | Some idx =>
      match lst !! idx with
      | Some existing0 =>
          let existing := refresh name now existing0 in
          let list1 := <[idx := existing]> lst in
          let list2 :=
            if Nat.eqb idx 0 then list1 else existing :: delete idx list1 in
          {| r_store := commit list2; r_md5 := md5; r_updated := true |}
      | None => {| r_store := store; r_md5 := md5; r_updated := true |}
      end
  | None =>
      let fresh := mkSnapshot name type md5 cfg svc now in
      {| r_store := commit (fresh :: lst); r_md5 := md5; r_updated := false |}
  end.

(** [localStorage['asd-dashboard-state']]: [None] when nothing that
    parses is stored. *)
Definition loadStateStore (stored : option StateStore) : StateStore :=
  match stored with
  | None => {| version := Some CURRENT_VERSION; states := Some [] |}
  | Some store =>
      match version store with
      | Some _ => store
      | None => {| version := Some CURRENT_VERSION; states := states store |}
      end
  end.

Definition saveStateStore (store : StateStore) : option StateStore := Some store.

(** [saveStateSnapshot]: the storage cell afterwards and the hash
    returned. *)
Definition saveStateSnapshot (now : Z) (stored : option StateStore)
    (name type cfg svc : string) : option StateStore * string :=
  let store := loadStateStore stored in
  let r := upsertSnapshotByMd5 now store name type cfg svc in
  (saveStateStore (r_store r), r_md5 r).

End Upsert.

End Snapshots.

(** ** component/modal/evictionModalViewModel.js *)
Module EvictionViewModel.
Import Js.

(** A JavaScript [Set] of strings, in insertion order. *)
Definition set_has (x : string) (s : list string) : bool :=
  existsb (String.eqb x) s.
Definition set_add (x : string) (s : list string) : list string :=
  if set_has x s then s else s ++ [x].
Definition set_delete (x : string) (s : list string) : list string :=
  List.filter (fun y => negb (String.eqb x y)) s.

(** [arr.splice(arr.indexOf(x), 1)] when [x] occurs in [arr]. *)
Fixpoint remove_first (x : string) (arr : list string) : list string :=
  match arr with
  | [] => []
  | y :: arr' => if String.eqb x y then arr' else y :: remove_first x arr'
  end.

Record State := mkState {
  selectedIds : list string;
  selectedOrder : list string;
  canProceed : bool
}.

(** [(opts.requiredCount && opts.requiredCount > 0) ? opts.requiredCount : 1] *)
Definition selectionLimit (requiredCount : option Z) : Z :=
  match requiredCount with
  | Some n => if (0 <? n)%Z then n else 1%Z
  | None => 1%Z
  end.

Definition initial : State :=
  {| selectedIds := []; selectedOrder := []; canProceed := false |}.

Definition size (s : list string) : Z := Z.of_nat (length s).

Definition update (limit : Z) (ids order : list string) : State :=
  {| selectedIds := ids; selectedOrder := order;
     canProceed := (size ids =? limit)%Z |}.

(** [toggle(id)]: the state afterwards and the id removed by overflow. *)
Definition toggle (limit : Z) (id : string) (st : State) : State * option string :=
  if set_has id (selectedIds st) then
    (update limit (set_delete id (selectedIds st))
                  (remove_first id (selectedOrder st)), None)
  else
    let '(removed, ids, order) :=
      if (size (selectedIds st) =? limit)%Z then
        match selectedOrder st with
        | [] => (None, selectedIds st, [])
        | r :: rest =>
            (Some r,
             if truthy r then set_delete r (selectedIds st) else selectedIds st,
             rest)
        end
      else (None, selectedIds st, selectedOrder st) in
    (update limit (set_add id ids) (order ++ [id]), removed).

(** A sequence of [toggle] calls on a fresh view-model. *)
Definition toggles (limit : Z) (ids : list string) : State :=
  fold_left (fun st id => fst (toggle limit id st)) ids initial.

(** What holds of the selection between two [toggle] calls. *)
Definition selection_ok (limit : Z) (st : State) : Prop :=
  selectedOrder st = selectedIds st
  /\ NoDup (selectedIds st)
  /\ Forall (fun x => truthy x = true) (selectedIds st)
  /\ (size (selectedIds st) <= limit)%Z
  /\ canProceed st = (size (selectedIds st) =? limit)%Z.

End EvictionViewModel.

(** ** A JavaScript [Map] with string keys, in insertion order *)
Module JsMap.
Section JsMap.
Context {V : Type}.

Definition has (k : string) (m : list (string * V)) : bool :=
  existsb (fun kv => String.eqb k (fst kv)) m.

Fixpoint get (k : string) (m : list (string * V)) : option V :=
  match m with
  | [] => None
  | (k', v) :: m' => if String.eqb k k' then Some v else get k m'
  end.

Definition delete (k : string) (m : list (string * V)) : list (string * V) :=
  List.filter (fun kv => negb (String.eqb k (fst kv))) m.

(** [m.set(k, v)]: an existing key keeps its place, a new one goes last. *)
Fixpoint set (k : string) (v : V) (m : list (string * V)) : list (string * V) :=
  match m with
  | [] => [(k, v)]
  | (k', v') :: m' =>
      if String.eqb k k' then (k, v) :: m' else (k', v') :: set k v m'
  end.

Definition size (m : list (string * V)) : Z := Z.of_nat (length m).

End JsMap.
End JsMap.

(** ** The part of the document the widgets live in *)
Module Dom.
Import Types.

(** A widget wrapper element: its [dataset], the [src] of its iframe,
    its [data-order] attribute and whether [style.display] is ['none']. *)
Record Element := mkElement {
  ds_dataid : ostring;
  ds_service : ostring;
  ds_serviceId : ostring;
  ds_url : ostring;
  ds_columns : Z;
  ds_rows : Z;
  ds_type : ostring;
  iframe_src : string;
  data_order : option Z;
  hidden : bool
}.

(** Elements are objects: the store, the container and the callers hold
    the same element through its identity, a number. *)
Record t := mkDom {
  elements : gmap nat Element;
  container : list nat;      (* the children of #widget-container *)
  boardElId : string;        (* the id of .board *)
  viewElId : string;         (* the id of .board-view *)
  nextElement : nat          (* the identity of the next element created *)
}.

Definition with_elements (e : gmap nat Element) (d : t) : t :=
  mkDom e (container d) (boardElId d) (viewElId d) (nextElement d).
Definition with_container (c : list nat) (d : t) : t :=
  mkDom (elements d) c (boardElId d) (viewElId d) (nextElement d).
Definition with_viewElId (v : string) (d : t) : t :=
  mkDom (elements d) (container d) (boardElId d) v (nextElement d).
Definition with_boardElId (b : string) (d : t) : t :=
  mkDom (elements d) (container d) b (viewElId d) (nextElement d).

Definition set_hidden (b : bool) (e : Element) : Element :=
  mkElement (ds_dataid e) (ds_service e) (ds_serviceId e) (ds_url e)
            (ds_columns e) (ds_rows e) (ds_type e) (iframe_src e)
            (data_order e) b.

Definition set_order (o : Z) (e : Element) : Element :=
  mkElement (ds_dataid e) (ds_service e) (ds_serviceId e) (ds_url e)
            (ds_columns e) (ds_rows e) (ds_type e) (iframe_src e)
            (Some o) (hidden e).

(** [el.style.display = ...] *)
Definition setDisplayNone (h : nat) (b : bool) (d : t) : t :=
  with_elements (alter (set_hidden b) h (elements d)) d.

(** [el.remove()] *)
Definition remove (h : nat) (d : t) : t :=
  with_container (List.filter (fun h' => negb (Nat.eqb h h')) (container d)) d.

(** [widgetContainer.appendChild(el)]: a child already there moves last. *)
Definition appendChild (h : nat) (d : t) : t :=
  with_container
    (List.filter (fun h' => negb (Nat.eqb h h')) (container d) ++ [h]) d.

(** [document.createElement] followed by the initialisation of the
    element. *)
Definition create (e : Element) (d : t) : nat * t :=
  (nextElement d,
   mkDom (<[nextElement d := e]> (elements d)) (container d)
         (boardElId d) (viewElId d) (S (nextElement d))).

End Dom.

(** ** component/widget/widgetStore.js *)
Module WidgetStore.
Import Js Types.

Record t := mkStore {
  maxSize : Z;
  widgets : list (string * nat);   (* Map<string, HTMLElement> *)
  serviceLocks : gmap string Z;    (* service -> ref-count *)
  evictLog : list string           (* the ids of [logger.log('Evicted widget:', id)] *)
}.

(** [new WidgetStore(maxSize)] *)
Definition new (maxSize : Z) : t := mkStore maxSize [] ∅ [].

Definition with_widgets (w : list (string * nat)) (s : t) : t :=
  mkStore (maxSize s) w (serviceLocks s) (evictLog s).
Definition with_locks (l : gmap string Z) (s : t) : t :=
  mkStore (maxSize s) (widgets s) l (evictLog s).

(** The methods touch the store and the elements it holds. *)
Definition state : Type := Dom.t * t.

(** [_evict(id)], [id] being [undefined] for the first key of an empty
    map. *)
Definition _evict (id : ostring) (st : state) : state :=
  let '(dom, s) := st in
  match id with
  | None => st
  | Some id =>
      match JsMap.get id (widgets s) with
      | Some el =>
          (Dom.remove el dom,
           mkStore (maxSize s) (JsMap.delete id (widgets s)) (serviceLocks s)
                   (evictLog s ++ [id]))
      | None => st
      end
  end.

(** [this.widgets.keys().next().value] *)
Definition oldestId (s : t) : ostring :=
  match widgets s with
  | [] => None
  | (k, _) :: _ => Some k
  end.

(** The [while] loop of [_ensureLimit]; [None] stands for a loop that is
    still running when [fuel] is used up. *)
Fixpoint ensureLimit_loop (fuel : nat) (st : state) : option state :=
  if (maxSize st.2 <? JsMap.size (widgets st.2))%Z then
    match fuel with
    | O => None
    | S fuel' => ensureLimit_loop fuel' (_evict (oldestId st.2) st)
    end
  else Some st.

Definition _ensureLimit (st : state) : option state :=
  ensureLimit_loop (length (widgets st.2)) st.

(** [add(element)] *)
Definition add (element : nat) (st : state) : option state :=
  let '(dom, s) := st in
  match Dom.elements dom !! element with
  | None => Some st
  | Some e =>
      match Dom.ds_dataid e with
      | Some id =>
          if truthy id then
            let w1 :=
              if JsMap.has id (widgets s) then JsMap.delete id (widgets s)
              else widgets s in
            let w2 := JsMap.set id element w1 in
            _ensureLimit (dom, with_widgets w2 s)
          else Some st
      | None => Some st
      end
  end.

(** [get(id)]: the state afterwards and the element returned. *)
Definition get (id : string) (st : state) : state * option nat :=
  let '(dom, s) := st in
  if JsMap.has id (widgets s) then
    match JsMap.get id (widgets s) with
    | Some el =>
        ((dom, with_widgets (JsMap.set id el (JsMap.delete id (widgets s))) s),
         Some el)
    | None => (st, None)
    end
  else (st, None).

Definition has (id : string) (st : state) : bool := JsMap.has id (widgets st.2).

Definition show (id : string) (st : state) : state :=
  let '((dom, s), el) := get id st in
  match el with
  | Some el => (Dom.setDisplayNone el false dom, s)
  | None => (dom, s)
  end.

Definition hide (id : string) (st : state) : state :=
  let '(dom, s) := st in
  match JsMap.get id (widgets s) with
  | Some el => (Dom.setDisplayNone el true dom, s)
  | None => st
  end.

Definition isAdding (serviceName : string) (s : t) : bool :=
  bool_decide (is_Some (serviceLocks s !! serviceName)).

Definition lock (serviceName : string) (s : t) : t :=
  with_locks
    (<[serviceName := (default 0 (serviceLocks s !! serviceName) + 1)%Z]>
       (serviceLocks s)) s.

Definition unlock (serviceName : string) (s : t) : t :=
  let n := (default 1 (serviceLocks s !! serviceName) - 1)%Z in
  if (n =? 0)%Z then with_locks (delete serviceName (serviceLocks s)) s
  else with_locks (<[serviceName := n]> (serviceLocks s)) s.

(** [evictRuntimeOnly(id)] *)
Definition evictRuntimeOnly (id : string) (st : state) : state :=
  let '(dom, s) := st in
  match JsMap.get id (widgets s) with
  | Some el => (Dom.remove el dom, with_widgets (JsMap.delete id (widgets s)) s)
  | None => st
  end.

(** Calls made on a store, for statements about sequences of calls. *)
Inductive Call :=
| CallAdd (element : nat)
| CallGet (id : string)
| CallShow (id : string)
| CallHide (id : string).

Definition call (c : Call) (st : state) : option state :=
  match c with
  | CallAdd el => add el st
  | CallGet id => Some (get id st).1
  | CallShow id => Some (show id st)
  | CallHide id => Some (hide id st)
  end.

Fixpoint calls (cs : list Call) (st : state) : option state :=
  match cs with
  | [] => Some st
  | c :: cs' =>
      match call c st with
      | Some st' => calls cs' st'
      | None => None
      end
  end.

Inductive LockCall :=
| CallLock (serviceName : string)
| CallUnlock (serviceName : string).

Definition lockCall (c : LockCall) (s : t) : t :=
  match c with
  | CallLock n => lock n s
  | CallUnlock n => unlock n s
  end.

Definition lockCalls (cs : list LockCall) (s : t) : t :=
  fold_left (fun s c => lockCall c s) cs s.

(** The number of [lock] calls for [name] that are still to be released
    after [cs], starting from [held]; [None] when some [unlock] finds
    nothing to release. *)
Fixpoint pending (name : string) (cs : list LockCall) (held : nat) : option nat :=
  match cs with
  | [] => Some held
  | CallLock n :: cs' =>
      pending name cs' (if String.eqb n name then S held else held)
  | CallUnlock n :: cs' =>
      if String.eqb n name then
        match held with
        | O => None
        | S held' => pending name cs' held'
        end
      else pending name cs' held
  end.

Definition count_locks (name : string) (cs : list LockCall) : nat :=
  length (List.filter (fun c => match c with
                                | CallLock n => String.eqb n name
                                | CallUnlock _ => false end) cs).

Definition count_unlocks (name : string) (cs : list LockCall) : nat :=
  length (List.filter (fun c => match c with
                                | CallUnlock n => String.eqb n name
                                | CallLock _ => false end) cs).

(** Every count stored is at least one. *)
Definition counts_positive (s : t) : Prop :=
  forall k v, serviceLocks s !! k = Some v -> (1 <= v)%Z.

(** [held] locks of [name] are recorded as the count [held], and as no
    entry when [held] is zero. *)
Definition records (name : string) (held : nat) (s : t) : Prop :=
  serviceLocks s !! name
  = match held with O => None | S _ => Some (Z.of_nat held) end.

(** What every call keeps: the capacity, the keys of a map, the bound. *)
Definition within (M : Z) (st : state) : Prop :=
  maxSize st.2 = M /\ NoDup (widgets st.2).*1
  /\ (JsMap.size (widgets st.2) <= M)%Z.

(** A widget element that only carries a data id and a service name. *)
Definition plainElement (dataid service : string) : Dom.Element :=
  Dom.mkElement (Some dataid) (Some service) None None 1 1 None EmptyString None false.

End WidgetStore.

(** ** utils/minimizer.js and the [deepEqual] of utils/objectUtils.js *)
Module Minimizer.
Import Js.

(** JavaScript values as JSON gives them, with [undefined].  An object
    is the list of its own enumerable properties, in the order of their
    creation; JavaScript enumerates the names that are array indices
    first ([Js.ownKeys]), which [DeepMerge] follows, the other modules
    taking the list as it stands.  The members that a value inherits
    from its prototypes are functions, no values of this type: where
    the sources can read one, the result is an [option]. *)
#[local] Set Warnings "-register-all".
Inductive jsvalue :=
| VUndef
| VNull
| VBool (b : bool)
| VNum (n : Z)
| VStr (s : string)
| VArr (elems : list jsvalue)
| VObj (fields : list (string * jsvalue)).
#[local] Set Warnings "register-all".

(** [v !== null && typeof v === 'object' && !Array.isArray(v)] *)
Definition isObj (v : jsvalue) : bool :=
  match v with VObj _ => true | _ => false end.

Definition is_undefined (v : jsvalue) : bool :=
  match v with VUndef => true | _ => false end.

(** [a ?? b] *)
Definition coalesce (a b : jsvalue) : jsvalue :=
  match a with VUndef | VNull => b | _ => a end.

Definition truthyV (v : jsvalue) : bool :=
  match v with
  | VUndef | VNull => false
  | VBool b => b
  | VNum n => negb (n =? 0)%Z
  | VStr s => truthy s
  | VArr _ | VObj _ => true
  end.

Fixpoint obj_get (k : string) (fields : list (string * jsvalue)) : jsvalue :=
  match fields with
  | [] => VUndef
  | (k', v) :: fields' => if String.eqb k k' then v else obj_get k fields'
  end.

Definition obj_has (k : string) (fields : list (string * jsvalue)) : bool :=
  existsb (fun kv => String.eqb k (fst kv)) fields.

(** The array index a property name denotes, if it is one. *)
Definition index_of_key (k : string) : option nat :=
  match integerOfString k with
  | Some i => if String.eqb (decimal i) k then Some i else None
  | None => None
  end.

Section Members.
(** [member v k]: [k] names a method or an accessor that the array, the
    string, the number or the boolean [v] inherits from its own
    prototype ([Array.prototype] and the like), the members of
    [Object.prototype] apart.  Which names these are is the engine's
    to say. *)
Variable member : jsvalue -> string -> bool.

(** [v?.[k]], and [v[k]] for an object [v].  [None] when the property
    read is one that [v] inherits: a function, or the prototype itself
    for [__proto__], which are no values of JSON. *)
Definition get_prop (v : jsvalue) (k : string) : option jsvalue :=
  match v with
  | VUndef | VNull => Some VUndef
  | VObj fields =>
      if obj_has k fields then Some (obj_get k fields)
      else if inherits k then None else Some VUndef
  | VArr elems =>
      match index_of_key k with
      | Some i => Some (nth i elems VUndef)
      | None =>
          if String.eqb k "length" then Some (VNum (Z.of_nat (length elems)))
          else if inherits k || member v k then None else Some VUndef
      end
  | VStr s =>
      match index_of_key k with
      | Some i =>
          match String.get i s with
          | Some c => Some (VStr (String c EmptyString))
          | None => Some VUndef
          end
      | None =>
          if String.eqb k "length" then Some (VNum (Z.of_nat (String.length s)))
          else if inherits k || member v k then None else Some VUndef
      end
  | VNum _ | VBool _ =>
      if inherits k || member v k then None else Some VUndef
  end.

(** [Object.keys(v || {})] *)
Definition own_keys (v : jsvalue) : list string :=
  match v with
  | VObj fields => map fst fields
  | VArr elems => map decimal (seq 0 (length elems))
  | VStr s => map decimal (seq 0 (String.length s))
  | _ => []
  end.

(** [k in (defaults || {})]: own or inherited.  [None] is the
    [TypeError] that [in] raises on a primitive. *)
Definition in_op (k : string) (defaults : jsvalue) : option bool :=
  if truthyV defaults then
    match defaults with
    | VObj fields => Some (obj_has k fields || inherits k)
    | VArr elems =>
        Some (match index_of_key k with
              | Some i => Nat.ltb i (length elems)
              | None => String.eqb k "length" || inherits k || member defaults k
              end)
    | _ => None
    end
  else Some (inherits k).

(** [a === b] on two arrays asks whether they are the same object; the
    answer is a parameter. *)
Variable sameArray : list jsvalue -> list jsvalue -> bool.

(** [value === defaults] for a [value] that is not a plain object. *)
Definition strict_eq (a b : jsvalue) : bool :=
  match a, b with
  | VUndef, VUndef => true
  | VNull, VNull => true
  | VBool x, VBool y => Bool.eqb x y
  | VNum x, VNum y => (x =? y)%Z
  | VStr x, VStr y => String.eqb x y
  | VArr x, VArr y => sameArray x y
  | _, _ => false
  end.

(** The first branch of [minimizeDeep], for a [value] that is no plain
    object: [same] is [value === defaults]. *)
Definition prune_scalar (dropEmpties same : bool) (value : jsvalue) : jsvalue :=
  if same then VUndef
  else if dropEmpties
          && match value with
             | VStr EmptyString | VNull => true
             | _ => false
             end
  then VUndef
  else value.

(** [minimizeDeep(value, defaults, {dropEmpties})].  Arrays are not
    plain objects, so they leave through the first branch of the source
    and its branch for arrays is never entered.  [None] is a
    [TypeError] raised on the way, or a run that the values of JSON do
    not cover: a property of [value] named [__proto__], whose
    assignment to [out] reaches the inherited setter, and an object
    found under a name that [defaults] inherits, which the source
    prunes against the inherited function.  A value that is no object
    is never [===] to such a function. *)
Fixpoint minimizeDeep (dropEmpties : bool) (value defaults : jsvalue)
    {struct value} : option jsvalue :=
  match value with
  | VObj fields =>
      let fix entries (fs : list (string * jsvalue)) : option (list (string * jsvalue)) :=
        match fs with
        | [] => Some []
        | (k, v) :: fs' =>
            if String.eqb k "__proto__" then None
            else
              match (if isObj defaults then get_prop defaults k else Some VUndef) with
              | None =>
                  match v with
                  | VObj _ => None
                  | _ =>
                      let pruned := prune_scalar dropEmpties false v in
                      if is_undefined pruned then entries fs'
                      else cons (k, pruned) <$> entries fs'
                  end
              | Some def =>
                  let untouched :=
                    if is_undefined def then negb <$> in_op k defaults else Some false in
                  match untouched with
                  | None => None
                  | Some true => cons (k, v) <$> entries fs'
                  | Some false =>
                      match minimizeDeep dropEmpties v def with
                      | None => None
                      | Some pruned =>
                          if is_undefined pruned then entries fs'
                          else cons (k, pruned) <$> entries fs'
                      end
                  end
              end
        end in
      match entries fields with
      | None => None
      | Some out =>
          if Nat.eqb (length out) 0 && dropEmpties then Some VUndef
          else Some (VObj out)
      end
  | _ => Some (prune_scalar dropEmpties (strict_eq value defaults) value)
  end.

(** The loop over [Object.entries(value)], on its own. *)
Fixpoint minimize_entries (dropEmpties : bool) (defaults : jsvalue)
    (fs : list (string * jsvalue)) : option (list (string * jsvalue)) :=
  match fs with
  | [] => Some []
  | (k, v) :: fs' =>
      if String.eqb k "__proto__" then None
      else
        match (if isObj defaults then get_prop defaults k else Some VUndef) with
        | None =>
            match v with
            | VObj _ => None
            | _ =>
                let pruned := prune_scalar dropEmpties false v in
                if is_undefined pruned then minimize_entries dropEmpties defaults fs'
                else cons (k, pruned) <$> minimize_entries dropEmpties defaults fs'
            end
        | Some def =>
            let untouched :=
              if is_undefined def then negb <$> in_op k defaults else Some false in
            match untouched with
            | None => None
            | Some true => cons (k, v) <$> minimize_entries dropEmpties defaults fs'
            | Some false =>
                match minimizeDeep dropEmpties v def with
                | None => None
                | Some pruned =>
                    if is_undefined pruned then minimize_entries dropEmpties defaults fs'
                    else cons (k, pruned) <$> minimize_entries dropEmpties defaults fs'
                end
            end
        end
  end.

(** The property names an object does not have. *)
Definition outside (fields : list (string * jsvalue)) (k : string) : bool :=
  negb (obj_has k fields).

(** The keys of [minimized] that [defaults] lacks, in the loop of
    [restoreDeep]: [defaults?.[k]] is [undefined] and the call returns
    [minimized[k] ?? undefined], unless [defaults] inherits a member
    under that name, which the call returns for a [minimized[k]] that
    is null. *)
Fixpoint restore_others (minimized : jsvalue) (keys : list string)
    : option (list (string * jsvalue)) :=
  match keys with
  | [] => Some []
  | k :: keys' =>
      if String.eqb k "__proto__" then None
      else
        match get_prop minimized k with
        | None => None
        | Some x =>
            if inherits k then
              match x with
              | VUndef | VNull => None
              | _ => cons (k, x) <$> restore_others minimized keys'
              end
            else cons (k, coalesce x VUndef) <$> restore_others minimized keys'
        end
  end.

(** [restoreDeep(minimized, defaults)].  The keys are those of
    [defaults] followed by those of [minimized] that [defaults] lacks.
    As in [minimizeDeep] the branch for arrays is never entered.
    [None] when the result is no value of JSON: a member that
    [minimized] or [defaults] inherits was read and kept, or a property
    named [__proto__] was assigned to [out]. *)
Fixpoint restoreDeep (minimized defaults : jsvalue) {struct defaults} : option jsvalue :=
  match defaults with
  | VObj dfields =>
      let fix fromDefaults (ds : list (string * jsvalue))
          : option (list (string * jsvalue)) :=
        match ds with
        | [] => Some []
        | (k, d) :: ds' =>
            if String.eqb k "__proto__" then None
            else
              match get_prop minimized k with
              | None => None
              | Some x =>
                  match restoreDeep x d with
                  | None => None
                  | Some r => cons (k, r) <$> fromDefaults ds'
                  end
              end
        end in
      match fromDefaults dfields,
            restore_others minimized
              (List.filter (outside dfields) (own_keys minimized)) with
      | Some a, Some b => Some (VObj (a ++ b))
      | _, _ => None
      end
  | _ => Some (coalesce minimized defaults)
  end.

(** The loop over the keys of [defaults], on its own. *)
Fixpoint restore_defaults (minimized : jsvalue) (ds : list (string * jsvalue))
    : option (list (string * jsvalue)) :=
  match ds with
  | [] => Some []
  | (k, d) :: ds' =>
      if String.eqb k "__proto__" then None
      else
        match get_prop minimized k with
        | None => None
        | Some x =>
            match restoreDeep x d with
            | None => None
            | Some r => cons (k, r) <$> restore_defaults minimized ds'
            end
        end
  end.

End Members.

(** [deepEqual(a, b)] of utils/objectUtils.js. *)
Fixpoint deepEqual (a b : jsvalue) {struct a} : bool :=
  match a, b with
  | VUndef, VUndef => true
  | VNull, VNull => true
  | VBool x, VBool y => Bool.eqb x y
  | VNum x, VNum y => (x =? y)%Z
  | VStr x, VStr y => String.eqb x y
  | VArr xs, VArr ys =>
      Nat.eqb (length xs) (length ys)
      && (fix go (xs ys : list jsvalue) : bool :=
            match xs, ys with
            | x :: xs', y :: ys' => deepEqual x y && go xs' ys'
            | _, _ => true
            end) xs ys
  | VObj fa, VObj fb =>
      Nat.eqb (length fa) (length fb)
      && (fix go (fa : list (string * jsvalue)) : bool :=
            match fa with
            | [] => true
            | (k, x) :: fa' => obj_has k fb && deepEqual x (obj_get k fb) && go fa'
            end) fa
  | _, _ => false
  end.

(** Values as they come out of [JSON.parse]: no [undefined], and no
    property name twice in an object. *)
Fixpoint json (v : jsvalue) : bool :=
  match v with
  | VUndef => false
  | VArr elems => forallb json elems
  | VObj fields =>
      (fix go (fs : list (string * jsvalue)) : bool :=
         match fs with
         | [] => true
         | (k, x) :: fs' => negb (obj_has k fs') && json x && go fs'
         end) fields
  | _ => true
  end.

(** Objects without a property name twice, at every depth. *)
Fixpoint distinct_keys (v : jsvalue) : bool :=
  match v with
  | VObj fields =>
      (fix go (fs : list (string * jsvalue)) : bool :=
         match fs with
         | [] => true
         | (k, x) :: fs' => negb (obj_has k fs') && distinct_keys x && go fs'
         end) fields
  | _ => true
  end.

(** Induction on values, through the elements of arrays and the
    properties of objects. *)
Section Induction.
Variable P : jsvalue -> Prop.
Hypothesis Hundef : P VUndef.
Hypothesis Hnull : P VNull.
Hypothesis Hbool : forall b, P (VBool b).
Hypothesis Hnum : forall n, P (VNum n).
Hypothesis Hstr : forall s, P (VStr s).
Hypothesis Harr : forall elems, Forall P elems -> P (VArr elems).
Hypothesis Hobj : forall fields, Forall (fun kv => P (snd kv)) fields -> P (VObj fields).

Fixpoint jsvalue_nested_ind (v : jsvalue) : P v :=
  match v with
  | VUndef => Hundef
  | VNull => Hnull
  | VBool b => Hbool b
  | VNum n => Hnum n
  | VStr s => Hstr s
  | VArr elems =>
      Harr elems
        ((fix go (l : list jsvalue) : Forall P l :=
            match l with
            | [] => @List.Forall_nil _ P
            | x :: l' => @List.Forall_cons _ P x l' (jsvalue_nested_ind x) (go l')
            end) elems)
  | VObj fields =>
      Hobj fields
        ((fix go (l : list (string * jsvalue)) : Forall (fun kv => P (snd kv)) l :=
            match l with
            | [] => @List.Forall_nil _ _
            | kv :: l' =>
                @List.Forall_cons _ (fun kv => P (snd kv)) kv l'
                  (jsvalue_nested_ind (snd kv)) (go l')
            end) fields)
  end.

End Induction.

(** The fields of [json] and [distinct_keys], on lists of properties. *)
Fixpoint json_fields (fs : list (string * jsvalue)) : bool :=
  match fs with
  | [] => true
  | (k, x) :: fs' => negb (obj_has k fs') && json x && json_fields fs'
  end.

Fixpoint distinct_fields (fs : list (string * jsvalue)) : bool :=
  match fs with
  | [] => true
  | (k, x) :: fs' => negb (obj_has k fs') && distinct_keys x && distinct_fields fs'
  end.

(** [storage/defaultConfig.js] *)
Definition DEFAULT_CONFIG_TEMPLATE : jsvalue :=
  VObj [
    ("globalSettings", VObj [
       ("theme", VStr "light");
       ("widgetStoreUrl", VArr []);
       ("database", VStr "localStorage");
       ("hideBoardControl", VBool false);
       ("hideViewControl", VBool false);
       ("hideServiceControl", VBool false);
       ("showMenuWidget", VBool true);
       ("views", VObj [("showViewOptionsAsButtons", VBool false);
                       ("viewToShow", VStr "")]);
       ("localStorage", VObj [("enabled", VStr "true");
                              ("loadDashboardFromConfig", VStr "true")])]);
    ("boards", VArr []);
    ("serviceTemplates", VObj [
       ("default", VObj [
          ("type", VStr "iframe");
          ("maxInstances", VNum 1);
          ("config", VObj [("minColumns", VNum 1); ("maxColumns", VNum 8);
                           ("minRows", VNum 1); ("maxRows", VNum 6)])]);
       ("api-service", VObj [
          ("type", VStr "api");
          ("maxInstances", VNum 5);
          ("config", VObj [("minColumns", VNum 1); ("maxColumns", VNum 2);
                           ("minRows", VNum 1); ("maxRows", VNum 2)])])]);
    ("styling", VObj [
       ("widget", VObj [("minColumns", VNum 1); ("maxColumns", VNum 8);
                        ("minRows", VNum 1); ("maxRows", VNum 6)])])
  ].

(** No property of an object is named like a member of
    [Object.prototype], in the value and in the objects inside its
    objects. *)
Fixpoint plain_keys (v : jsvalue) : bool :=
  match v with
  | VObj fields =>
      (fix go (fs : list (string * jsvalue)) : bool :=
         match fs with
         | [] => true
         | (k, x) :: fs' => negb (inherits k) && plain_keys x && go fs'
         end) fields
  | _ => true
  end.

Fixpoint plain_fields (fs : list (string * jsvalue)) : bool :=
  match fs with
  | [] => true
  | (k, x) :: fs' => negb (inherits k) && plain_keys x && plain_fields fs'
  end.

(** Restoring what [minimizeDeep] left of [x] is restoring [x]. *)
Definition restores (member : jsvalue -> string -> bool)
    (sameArray : list jsvalue -> list jsvalue -> bool) (x : jsvalue) : Prop :=
  forall d m, json x = true -> distinct_keys d = true -> plain_keys d = true ->
    minimizeDeep member sameArray false x d = Some m ->
    restoreDeep member m d = restoreDeep member x d.

(** Two arrays met by [===] are never the same object when the two
    values were parsed apart. *)
Definition apart (_ _ : list jsvalue) : bool := false.

(** An answer for the values that are read under no name of their own
    prototype, where the engine is not asked. *)
Definition unasked (_ : jsvalue) (_ : string) : bool := false.

End Minimizer.

(** ** The application state: storage, document, widget store

    The asynchronous functions are run to completion one after the
    other.  The document has its scaffold ([#widget-container], [.board],
    [.board-view]).  [fetchServices()] and [getConfig()] resolve to what
    the storage holds: no URL override, no network answer comes in
    between.  The calls that touch nothing of the state below
    ([fetchData] for services of type ['api'], [initializeResizeHandles],
    the logger) are left out. *)
Module App.
Import Js Types.

(** *** The service catalogue and its templates *)

Record ServiceConfig := mkServiceConfig {
  minColumns : option Z;
  maxColumns : option Z;
  minRows : option Z;
  maxRows : option Z;
  columns : option Z;
  rows : option Z
}.

Definition noServiceConfig : ServiceConfig :=
  mkServiceConfig None None None None None None.

(** A catalogue entry as [setServices] stores it.  [maxInstances] is
    [None] when the key is missing, [Some None] when it holds [null]
    and [Some (Some n)] when it holds the number [n]. *)
Record Service := mkService {
  id : ostring;
  name : string;
  url : string;
  type : ostring;
  maxInstances : option (option Z);
  config : option ServiceConfig;
  template : ostring;
  fallback : bool
}.

Record ServiceTemplate := mkTemplate {
  t_type : ostring;
  t_maxInstances : option Z;
  t_config : option ServiceConfig
}.

(** [config.styling.widget] *)
Record Styling := mkStyling {
  st_minColumns : Z;
  st_maxColumns : Z;
  st_minRows : Z;
  st_maxRows : Z
}.

(** What [StorageManager] reads from [localStorage]. *)
Record Storage := mkStorage {
  boards : list Board;
  maxTotalInstances : option Z;     (* globalSettings.maxTotalInstances *)
  maxPerService : option Z;         (* globalSettings.maxPerService *)
  serviceTemplates : list (string * ServiceTemplate);
  styling : Styling;
  services : list Service;
  lastBoardId : ostring;
  lastViewId : ostring
}.

Definition with_boards (b : list Board) (s : Storage) : Storage :=
  mkStorage b (maxTotalInstances s) (maxPerService s) (serviceTemplates s)
            (styling s) (services s) (lastBoardId s) (lastViewId s).
Definition with_lastViewId (v : ostring) (s : Storage) : Storage :=
  mkStorage (boards s) (maxTotalInstances s) (maxPerService s) (serviceTemplates s)
            (styling s) (services s) (lastBoardId s) v.

(** The service object that [resolveServiceConfig] returns, with the
    fields that the widget code reads. *)
Record ResolvedService := mkResolved {
  r_id : ostring;
  r_type : ostring;
  r_maxInstances : option Z;        (* [Some n] when [typeof] is ['number'] *)
  r_config : option ServiceConfig;
  r_fallback : bool
}.

(** [a ?? b] and [a || b] on optional numbers. *)
Definition orElse {A} (a b : option A) : option A :=
  match a with Some _ => a | None => b end.
Definition orTruthy (a : option Z) (b : Z) : Z :=
  match a with Some n => if (n =? 0)%Z then b else n | None => b end.

(** [deepMerge] of two [config] objects: the keys of the source win. *)
Definition mergeConfig (target source : ServiceConfig) : ServiceConfig :=
  mkServiceConfig
    (orElse (minColumns source) (minColumns target))
    (orElse (maxColumns source) (maxColumns target))
    (orElse (minRows source) (minRows target))
    (orElse (maxRows source) (maxRows target))
    (orElse (columns source) (columns target))
    (orElse (rows source) (rows target)).

Fixpoint assoc {A} (k : string) (l : list (string * A)) : option A :=
  match l with
  | [] => None
  | (k', a) :: l' => if String.eqb k k' then Some a else assoc k l'
  end.

Definition emptyTemplate : ServiceTemplate := mkTemplate None None None.

(** [resolveServiceConfig(rawService)], [rawService] being [{}] when the
    catalogue has no entry: [deepMerge(baseTemplate, rawService)]. *)
Definition resolveServiceConfig (st : Storage) (raw : option Service)
    : ResolvedService :=
  let templates := serviceTemplates st in
  let templateName :=
    match raw with
    | Some s => if truthyS (template s) then default EmptyString (template s)
                else "default"
    | None => "default"
    end in
  let base :=
    match assoc templateName templates with
    | Some t => t
    | None => default emptyTemplate (assoc "default" templates)
    end in
  match raw with
  | None =>
      mkResolved None (t_type base) (t_maxInstances base) (t_config base) false
  | Some s =>
      mkResolved
        (id s)
        (orElse (type s) (t_type base))
        (match maxInstances s with
         | Some m => m
         | None => t_maxInstances base
         end)
        (match config s with
         | Some c => Some (mergeConfig (default noServiceConfig (t_config base)) c)
         | None => t_config base
         end)
        (fallback s)
  end.

(** *** The state and what is observed of a run *)

(** An entry of the eviction dialog. *)
Record EvictionItem := mkItem {
  item_id : string;
  item_serviceName : string;
  item_boardIndex : nat;
  item_viewIndex : nat;
  item_lruRank : nat
}.

(** How the user leaves the eviction dialog. *)
Inductive ModalAnswer :=
| Cancelled
| Confirmed (ids : list string).

Inductive Event :=
| EvSaveWidgetState (viewId : string)
| EvModal (requiredCount : Z) (items : list EvictionItem)
| EvEvictRuntime (id : string)
| EvConfirmCapacity (needed : Z) (proceed : bool)
| EvSetViewElId (viewId : string)
| EvHide (id : string)
| EvShow (id : string)
| EvCreateWidget (dataid : string)
| EvSetLastViewId (viewId : string)
| EvNotify (message : string).

Record State := mkState {
  dom : Dom.t;
  store : WidgetStore.t;
  storage : Storage;
  answers : list ModalAnswer;   (* the user's answers to the dialogs to come *)
  uuids : nat;                  (* how many ids [getUUID] has handed out *)
  notifications : list string;
  trace : list Event            (* what has happened so far, oldest first *)
}.

Definition with_dom (d : Dom.t) (s : State) : State :=
  mkState d (store s) (storage s) (answers s) (uuids s) (notifications s) (trace s).
Definition with_store (w : WidgetStore.t) (s : State) : State :=
  mkState (dom s) w (storage s) (answers s) (uuids s) (notifications s) (trace s).
Definition with_runtime (r : WidgetStore.state) (s : State) : State :=
  mkState r.1 r.2 (storage s) (answers s) (uuids s) (notifications s) (trace s).
Definition with_storage (g : Storage) (s : State) : State :=
  mkState (dom s) (store s) g (answers s) (uuids s) (notifications s) (trace s).
Definition with_answers (a : list ModalAnswer) (s : State) : State :=
  mkState (dom s) (store s) (storage s) a (uuids s) (notifications s) (trace s).
Definition log (e : Event) (s : State) : State :=
  mkState (dom s) (store s) (storage s) (answers s) (uuids s) (notifications s)
          (trace s ++ [e]).

Definition runtime (s : State) : WidgetStore.state := (dom s, store s).

(** [showNotification(message, 3000, 'error')] *)
Definition showNotification (message : string) (s : State) : State :=
  log (EvNotify message)
      (mkState (dom s) (store s) (storage s) (answers s) (uuids s)
               (notifications s ++ [message]) (trace s)).

(** [widgetGetUUID()]: the ids are told apart by their rank. *)
Definition widgetGetUUID (s : State) : string * State :=
  ("widget-" +:+ decimal (uuids s),
   mkState (dom s) (store s) (storage s) (answers s) (S (uuids s))
           (notifications s) (trace s)).

(** *** storage/widgetStatePersister.js *)

Definition serializeWidgetState (e : Dom.Element) : Widget :=
  mkWidget (Dom.ds_dataid e) (Dom.ds_serviceId e) (Dom.iframe_src e)
           (Some (Dom.ds_columns e)) (Some (Dom.ds_rows e))
           (Some (if truthyS (Dom.ds_type e) then default EmptyString (Dom.ds_type e)
                  else "iframe"))
           (Dom.data_order e).

(** [Array.prototype.sort] with [orderA - orderB]: a stable sort. *)
Fixpoint insert_by_order (x : nat * Z) (l : list (nat * Z)) : list (nat * Z) :=
  match l with
  | [] => [x]
  | y :: l' => if (snd y <=? snd x)%Z then y :: insert_by_order x l' else x :: l
  end.

Definition sort_by_order (l : list (nat * Z)) : list (nat * Z) :=
  fold_left (fun acc x => insert_by_order x acc) l [].

(** The children of the container that are not hidden. *)
Definition visibleWidgets (d : Dom.t) : list nat :=
  List.filter
    (fun h => match Dom.elements d !! h with
              | Some e => negb (Dom.hidden e)
              | None => false
              end)
    (Dom.container d).

(** [forEach((widget, index) => widget.setAttribute('data-order', index))] *)
Fixpoint renumber (hs : list nat) (index : Z) (els : gmap nat Dom.Element)
    : gmap nat Dom.Element :=
  match hs with
  | [] => els
  | h :: hs' => renumber hs' (index + 1)%Z (alter (Dom.set_order index) h els)
  end.

Definition hasView (viewId : string) (b : Board) : bool :=
  existsb (fun v => String.eqb (v_id v) viewId) (views b).

(** [view.widgetState = ...] on the first view with that id. *)
Fixpoint setWidgetState (viewId : string) (ws : list Widget) (vs : list View)
    : list View :=
  match vs with
  | [] => []
  | v :: vs' =>
      if String.eqb (v_id v) viewId then mkView (v_id v) (v_name v) ws :: vs'
      else v :: setWidgetState viewId ws vs'
  end.

(** The updater of [saveWidgetState] on the first board that has the
    view. *)
Fixpoint updateBoardOfView (viewId : string) (ws : list Widget) (bs : list Board)
    : list Board :=
  match bs with
  | [] => []
  | b :: bs' =>
      if hasView viewId b
      then mkBoard (b_id b) (b_name b) (setWidgetState viewId ws (views b)) :: bs'
      else b :: updateBoardOfView viewId ws bs'
  end.

Definition saveWidgetState (boardId viewId : string) (s : State) : State :=
  if negb (truthy boardId) || negb (truthy viewId) then s
  else if existsb (hasView viewId) (boards (storage s)) then
    let d := dom s in
    let keyed :=
      map (fun h => (h, default 0%Z (Dom.elements d !! h ≫= Dom.data_order)))
          (visibleWidgets d) in
    let sorted := map fst (sort_by_order keyed) in
    let els := renumber sorted 0 (Dom.elements d) in
    let ws := omap (fun h => serializeWidgetState <$> els !! h) sorted in
    log (EvSaveWidgetState viewId)
      (with_storage (with_boards (updateBoardOfView viewId ws (boards (storage s)))
                                 (storage s))
         (with_dom (Dom.with_elements els d) s))
  else s.

(** *** The instance limit of a service (widgetManagement.js) *)

(** [getServiceFromUrl(url)] *)
Definition getServiceFromUrl (u : string) (s : State) : string :=
  match List.find (fun svc => String.prefix (url svc) u) (services (storage s)) with
  | Some svc => name svc
  | None => "defaultService"
  end.

(** [Array.from(widgetStore.widgets.values())
      .filter(el => el.dataset.service === serviceName)
      .map(el => el.dataset.dataid)] *)
Definition liveDataIds (serviceName : string) (s : State) : list ostring :=
  omap (fun kv =>
          match Dom.elements (dom s) !! snd kv with
          | Some e =>
              if bool_decide (Dom.ds_service e = Some serviceName)
              then Some (Dom.ds_dataid e) else None
          | None => None
          end)
       (WidgetStore.widgets (store s)).

(** [boards.flatMap(views).flatMap(widgetState).map(w => w?.dataid)
      .filter(Boolean)] *)
Definition persistedDataIds (s : State) : list ostring :=
  List.filter truthyS
    (map w_dataid
         (flat_map widgetState (flat_map views (boards (storage s))))).

(** [new Set([...liveDataIds, ...persistedDataIds]).size] *)
Definition effectiveCount (serviceName : string) (s : State) : Z :=
  Z.of_nat (length (remove_dups (liveDataIds serviceName s ++ persistedDataIds s))).

Definition includes (x : ostring) (l : list ostring) : bool := bool_decide (x ∈ l).

Definition alreadyExists (serviceName : string) (dataid : ostring) (s : State) : bool :=
  truthyS dataid
  && (includes dataid (liveDataIds serviceName s)
      || includes dataid (persistedDataIds s)).

Definition dquote : string := String (ascii_of_nat 34) EmptyString.

Definition limitMessage (n : Z) (serviceName : string) : string :=
  "Cannot add more: limit (" +:+ decimal (Z.to_nat n) +:+ ") reached for "
  +:+ dquote +:+ serviceName +:+ dquote +:+ ".".

(** *** confirmCapacity (widgetStore.js) *)

Definition hasWidget (id : string) (v : View) : bool :=
  existsb (fun w => bool_decide (w_dataid w = Some id)) (widgetState v).

(** [getIdx(id)]: the indices of the first board and view that persist
    the widget, [{0, 0}] when there is none. *)
Fixpoint locate (id : string) (bs : list Board) (b : nat) : nat * nat :=
  match bs with
  | [] => (0, 0)
  | board :: bs' =>
      match Snapshots.findIndex (hasWidget id) (views board) with
      | Some v => (b, v)
      | None => locate id bs' (S b)
      end
  end.

Fixpoint evictionItems (s : State) (ws : list (string * nat)) (rank : nat)
    : list EvictionItem :=
  match ws with
  | [] => []
  | (id, el) :: ws' =>
      let service :=
        default EmptyString (Dom.elements (dom s) !! el ≫= Dom.ds_service) in
      let '(b, v) := locate id (boards (storage s)) 0 in
      mkItem id service b v rank :: evictionItems s ws' (S rank)
  end.

(** [for (const id of ids) await this.evictRuntimeOnly(id)] *)
Fixpoint evictAll (ids : list string) (s : State) : State :=
  match ids with
  | [] => s
  | id :: ids' =>
      evictAll ids'
        (log (EvEvictRuntime id)
             (with_runtime (WidgetStore.evictRuntimeOnly id (runtime s)) s))
  end.

(** The promise of [openEvictionModal]: the next answer of the user,
    a dialog left unanswered being a cancellation. *)
Definition openEvictionModal (requiredCount : Z) (items : list EvictionItem)
    (s : State) : option (bool * State) :=
  let s := log (EvModal requiredCount items) s in
  match answers s with
  | [] => Some (false, s)
  | Cancelled :: rest => Some (false, with_answers rest s)
  | Confirmed ids :: rest =>
      let s1 := evictAll (remove_dups ids) (with_answers rest s) in
      match WidgetStore._ensureLimit (runtime s1) with
      | Some r => Some (true, with_runtime r s1)
      | None => None
      end
  end.

(** [confirmCapacity(needed)]: whether the caller may proceed, and the
    state afterwards; [None] when [_ensureLimit] does not return. *)
Definition confirmCapacity (needed : Z) (s : State) : option (bool * State) :=
  let allowedMax :=
    match maxTotalInstances (storage s) with
    | Some maxTotal => Z.min (WidgetStore.maxSize (store s)) maxTotal
    | None => WidgetStore.maxSize (store s)
    end in
  let overBy := (JsMap.size (WidgetStore.widgets (store s)) + needed - allowedMax)%Z in
  let resolved :=
    if (0 <? overBy)%Z then
      openEvictionModal overBy (evictionItems s (WidgetStore.widgets (store s)) 0) s
    else Some (true, s) in
  match resolved with
  | Some (proceed, s') => Some (proceed, log (EvConfirmCapacity needed proceed) s')
  | None => None
  end.

(** *** createWidget and addWidget (widgetManagement.js) *)

Definition findService (serviceName : string) (s : State) : option Service :=
  List.find (fun svc => String.eqb (name svc) serviceName) (services (storage s)).

(** [Math.min(Math.max(span, min), max)] *)
Definition clamp (span lo hi : Z) : Z := Z.min (Z.max span lo) hi.

(** [createWidget(service, url, gridColumnSpan, gridRowSpan, dataid)]:
    the new element and the state afterwards.  A [dataset] holds
    strings: for a service without [id] the text ['undefined'] is
    stored. *)
Definition createWidget (service u : string) (gridColumnSpan gridRowSpan : Z)
    (dataid : ostring) (s : State) : nat * State :=
  let serviceObj := resolveServiceConfig (storage s) (findService service s) in
  let cfg := default noServiceConfig (r_config serviceObj) in
  let sty := styling (storage s) in
  let minC := orTruthy (minColumns cfg) (st_minColumns sty) in
  let maxC := orTruthy (maxColumns cfg) (st_maxColumns sty) in
  let minR := orTruthy (minRows cfg) (st_minRows sty) in
  let maxR := orTruthy (maxRows cfg) (st_maxRows sty) in
  let '(did, s1) :=
    if truthyS dataid then (default EmptyString dataid, s) else widgetGetUUID s in
  let e :=
    Dom.mkElement (Some did) (Some service)
                  (Some (default "undefined" (r_id serviceObj))) (Some u)
                  (clamp gridColumnSpan minC maxC) (clamp gridRowSpan minR maxR)
                  None u None false in
  let '(h, d) := Dom.create e (dom s1) in
  (h, log (EvCreateWidget did) (with_dom d s1)).

(** The body of the [try] block of [addWidget]. *)
Definition addWidgetLocked (serviceName u : string) (cols rws : option Z)
    (boardId viewId : string) (dataid : ostring) (skipCapacity : bool)
    (s : State) : option State :=
  let serviceObj := resolveServiceConfig (storage s) (findService serviceName s) in
  let cfg := default noServiceConfig (r_config serviceObj) in
  let finalColumns := default 1%Z (orElse cols (columns cfg)) in
  let finalRows := default 1%Z (orElse rws (rows cfg)) in
  let limited :=
    match r_maxInstances serviceObj with
    | Some n =>
        (0 <? n)%Z && negb (alreadyExists serviceName dataid s)
        && (n <=? effectiveCount serviceName s)%Z
    | None => false
    end in
  if limited then
    Some (showNotification
            (limitMessage (default 0%Z (r_maxInstances serviceObj)) serviceName) s)
  else
    match (if skipCapacity then Some (true, s) else confirmCapacity 1 s) with
    | None => None
    | Some (false, s1) => Some s1
    | Some (true, s1) =>
        let cached :=
          if truthyS dataid
          then WidgetStore.has (default EmptyString dataid) (runtime s1)
          else false in
        if cached then
          let id := default EmptyString dataid in
          let '(r, widget) := WidgetStore.get id (runtime s1) in
          let s2 := with_runtime r s1 in
          match widget with
          | Some w =>
              let d := Dom.setDisplayNone w false (dom s2) in
              let d :=
                if bool_decide (w ∈ Dom.container d) then d else Dom.appendChild w d in
              Some (saveWidgetState boardId viewId (log (EvShow id) (with_dom d s2)))
          | None => Some s2
          end
        else
          let '(w, s2) := createWidget serviceName u finalColumns finalRows dataid s1 in
          let visibleWidgetCount := Z.of_nat (length (visibleWidgets (dom s2))) in
          let d :=
            Dom.with_elements
              (alter (Dom.set_order visibleWidgetCount) w (Dom.elements (dom s2)))
              (dom s2) in
          let s3 := with_dom (Dom.appendChild w d) s2 in
          match WidgetStore.add w (runtime s3) with
          | None => None
          | Some r => Some (saveWidgetState boardId viewId (with_runtime r s3))
          end
    end.

(** [addWidget(url, columns, rows, type, boardId, viewId, dataid, opts)].
    The services and the configuration are those in storage; the
    [type] argument is not read by the source. *)
Definition addWidget (u : string) (cols rws : option Z) (boardId viewId dataid : ostring)
    (skipCapacity : bool) (s : State) : option State :=
  let boardId :=
    if truthyS boardId then default EmptyString boardId else Dom.boardElId (dom s) in
  let viewId :=
    if truthyS viewId then default EmptyString viewId else Dom.viewElId (dom s) in
  let serviceName := getServiceFromUrl u s in
  if WidgetStore.isAdding serviceName (store s) then Some s
  else
    let s := with_store (WidgetStore.lock serviceName (store s)) s in
    match addWidgetLocked serviceName u cols rws boardId viewId dataid skipCapacity s with
    | Some s' => Some (with_store (WidgetStore.unlock serviceName (store s')) s')
    | None => None
    end.

(** *** switchView (boardManagement.js) *)

(** [StorageManager.misc.setLastViewId(id)] *)
Definition setLastViewId (viewId : string) (s : State) : State :=
  log (EvSetLastViewId viewId)
      (with_storage
         (with_lastViewId (if truthy viewId then Some viewId else None) (storage s)) s).

Definition storeHas (dataid : ostring) (s : State) : bool :=
  match dataid with
  | Some id => WidgetStore.has id (runtime s)
  | None => false
  end.

(** [for (const id of widgetStore.widgets.keys())
      if (!activeIds.has(id)) widgetStore.hide(id)] *)
Fixpoint hideInactive (activeIds : list ostring) (keys : list string) (s : State)
    : State :=
  match keys with
  | [] => s
  | id :: keys' =>
      if includes (Some id) activeIds then hideInactive activeIds keys' s
      else hideInactive activeIds keys'
             (log (EvHide id) (with_runtime (WidgetStore.hide id (runtime s)) s))
  end.

(** [for (const widget of view.widgetState)], showing what is in the
    store and creating what is missing. *)
Fixpoint showOrCreate (boardId viewId : string) (ws : list Widget) (s : State)
    : option State :=
  match ws with
  | [] => Some s
  | widget :: ws' =>
      if storeHas (w_dataid widget) s then
        let id := default EmptyString (w_dataid widget) in
        showOrCreate boardId viewId ws'
          (log (EvShow id) (with_runtime (WidgetStore.show id (runtime s)) s))
      else
        match addWidget (w_url widget) (w_columns widget) (w_rows widget)
                        (Some boardId) (Some viewId) (w_dataid widget) true s with
        | Some s' => showOrCreate boardId viewId ws' s'
        | None => None
        end
  end.

(** The part of [switchView] that follows the capacity check. *)
Definition switchViewConfirmed (boardId viewId : string) (view : View) (s : State)
    : option State :=
  let s1 := log (EvSetViewElId viewId) (with_dom (Dom.with_viewElId viewId (dom s)) s) in
  let activeIds := map w_dataid (widgetState view) in
  let s2 := hideInactive activeIds (map fst (WidgetStore.widgets (store s1))) s1 in
  match showOrCreate boardId viewId (widgetState view) s2 with
  | Some s3 => Some (setLastViewId viewId s3)
  | None => None
  end.

(** The part of [switchView] that precedes the capacity check: the
    state of the view that is left is saved. *)
Definition switchViewSaved (boardId viewId : string) (s : State) : State :=
  let oldViewId := Dom.viewElId (dom s) in
  if truthy oldViewId && negb (String.eqb oldViewId viewId)
  then saveWidgetState boardId oldViewId s else s.

(** [switchView(boardId, viewId)], [boardId] being [None] for the
    default argument [getCurrentBoardId()]. *)
Definition switchView (boardId : ostring) (viewId : string) (s : State)
    : option State :=
  let boardId := default (Dom.boardElId (dom s)) boardId in
  let s0 := switchViewSaved boardId viewId s in
  match List.find (fun b => String.eqb (b_id b) boardId) (boards (storage s0)) with
  | None => Some s0
  | Some board =>
      match List.find (fun v => String.eqb (v_id v) viewId) (views board) with
      | None => Some s0
      | Some view =>
          let missing :=
            List.filter (fun w => negb (storeHas (w_dataid w) s0)) (widgetState view) in
          match confirmCapacity (Z.of_nat (length missing)) s0 with
          | None => None
          | Some (false, s1) => Some s1
          | Some (true, s1) => switchViewConfirmed boardId viewId view s1
          end
      end
  end.

(** The events that the claim on [switchView] speaks of. *)
Definition isMutation (e : Event) : bool :=
  match e with
  | EvSetViewElId _ | EvHide _ | EvShow _ | EvCreateWidget _ | EvSetLastViewId _ => true
  | _ => false
  end.

Definition isConfirm (e : Event) : bool :=
  match e with EvConfirmCapacity _ _ => true | _ => false end.

(** Neither a mutation nor a capacity confirmation. *)
Definition quiet (e : Event) : bool := negb (isMutation e) && negb (isConfirm e).

Definition notConfirm (e : Event) : bool := negb (isConfirm e).

(** [s'] has the trace of [s] followed by events that satisfy [P]. *)
Definition emits (P : Event -> bool) (s s' : State) : Prop :=
  exists evs, trace s' = (trace s ++ evs)%list /\ forallb P evs = true.

(** What a cancelled [switchView] leaves as it was. *)
Definition sameView (s s' : State) : Prop :=
  Dom.viewElId (dom s') = Dom.viewElId (dom s)
  /\ Dom.boardElId (dom s') = Dom.boardElId (dom s)
  /\ Dom.container (dom s') = Dom.container (dom s)
  /\ (forall h, Dom.hidden <$> Dom.elements (dom s') !! h
                = Dom.hidden <$> Dom.elements (dom s) !! h)
  /\ store s' = store s
  /\ lastViewId (storage s') = lastViewId (storage s).

End App.

(** ** Two dashboards used in the examples *)
Module Scenario.
Import Types App.

Definition defaultTemplates : list (string * ServiceTemplate) :=
  [("default",
    mkTemplate (Some "iframe") (Some 1%Z)
      (Some (mkServiceConfig (Some 1%Z) (Some 8%Z) (Some 1%Z) (Some 6%Z) None None)));
   ("api-service",
    mkTemplate (Some "api") (Some 5%Z)
      (Some (mkServiceConfig (Some 1%Z) (Some 2%Z) (Some 1%Z) (Some 2%Z) None None)))].

Definition defaultStyling : Styling := mkStyling 1 8 1 6.

Definition clock : Service :=
  mkService (Some "srv-clock") "clock" "http://clock.local/" (Some "iframe")
            (Some (Some 1%Z)) (Some noServiceConfig) None false.

Definition news : Service :=
  mkService (Some "srv-news") "news" "http://news.local/" (Some "iframe")
            (Some (Some 1%Z)) (Some noServiceConfig) None false.

Definition persisted (dataid serviceId url : string) : Widget :=
  mkWidget (Some dataid) (Some serviceId) url (Some 1%Z) (Some 1%Z) (Some "iframe")
           (Some 0%Z).

(** One board, one view, showing one widget of the service [news]. *)
Definition newsOnly : State :=
  mkState
    (Dom.mkDom {[ 0 := Dom.mkElement (Some "widget-news") (Some "news") (Some "srv-news")
                         (Some "http://news.local/") 1 1 None "http://news.local/"
                         (Some 0%Z) false ]}
               [0] "b1" "v1" 1)
    (WidgetStore.mkStore 10 [("widget-news", 0)] ∅ [])
    (mkStorage
       [mkBoard "b1" "Main"
          [mkView "v1" "Default View"
             [persisted "widget-news" "srv-news" "http://news.local/"]]]
       None None defaultTemplates defaultStyling [clock; news] None (Some "v1"))
    [] 0 [] [].

(** A store of capacity one holding the widget of view [v1]; view [v2]
    wants two widgets that are not live, and the user will cancel the
    eviction dialog. *)
Definition fullStore : State :=
  mkState
    (Dom.mkDom {[ 0 := Dom.mkElement (Some "widget-1") (Some "clock") (Some "srv-clock")
                         (Some "http://clock.local/") 1 1 None "http://clock.local/"
                         (Some 0%Z) false ]}
               [0] "b1" "v1" 1)
    (WidgetStore.mkStore 1 [("widget-1", 0)] ∅ [])
    (mkStorage
       [mkBoard "b1" "Main"
          [mkView "v1" "First"
             [persisted "widget-1" "srv-clock" "http://clock.local/"];
           mkView "v2" "Second"
             [persisted "widget-2" "srv-news" "http://news.local/";
              persisted "widget-3" "srv-clock" "http://clock.local/"]]]
       None None defaultTemplates defaultStyling [clock; news] None (Some "v1"))
    [Cancelled] 0 [] [].

End Scenario.

(** ** utils/chunker.js: the chunk manifest *)
Module Manifest.
Import Js.

(** [s.includes(c)] for a character [c]. *)
Fixpoint contains (c : ascii) (s : string) : bool :=
  match s with
  | EmptyString => false
  | String c' s' => Ascii.eqb c' c || contains c s'
  end.

(** [s.split(sep)] for a one-character separator: the pieces between
    the separators, [['']] for the empty string. *)
Fixpoint split (sep : ascii) (s : string) : list string :=
  match s with
  | EmptyString => [EmptyString]
  | String c s' =>
      if Ascii.eqb c sep then EmptyString :: split sep s'
      else match split sep s' with
           | piece :: pieces => String c piece :: pieces
           | [] => [String c EmptyString]
           end
  end.

(** [pieces.join(sep)] *)
Fixpoint join_with (sep : string) (pieces : list string) : string :=
  match pieces with
  | [] => EmptyString
  | [p] => p
  | p :: ps => p +:+ sep +:+ join_with sep ps
  end.

(** What [Number(v)] is for the second piece [v] of a segment.
    [NaN] for [undefined]; the integer for a string of decimal digits,
    [0] for the empty one.  The other strings (signs, fractions,
    exponents, blanks, radix prefixes, [Infinity]) are outside the
    model. *)
Inductive number :=
| NaN
| Int (n : nat)
| Unmodelled.

Definition Number (v : option string) : number :=
  match v with
  | None => NaN
  | Some s => match integerOfString s with
              | Some n => Int n
              | None => Unmodelled
              end
  end.

(** The body of the [for (const seg of s.split(';'))] loop.  In
    [out[k] = n] the name [__proto__] reaches the setter inherited from
    [Object.prototype], which ignores a number: no property is made. *)
Definition parse_segment (out : gmap string nat) (seg : string)
    : option (gmap string nat) :=
  let pieces := split ":" seg in
  let k := default EmptyString (pieces !! 0) in
  let v := pieces !! 1 in
  if negb (truthy k) then Some out
  else match Number v with
       | NaN => Some out
       | Int n => if String.eqb k "__proto__" then Some out else Some (<[k := n]> out)
       | Unmodelled => None
       end.

Fixpoint parse_segments (out : gmap string nat) (segs : list string)
    : option (gmap string nat) :=
  match segs with
  | [] => Some out
  | seg :: segs' =>
      match parse_segment out seg with
      | Some out' => parse_segments out' segs'
      | None => None
      end
  end.

(** [parseChunksManifest(s)]: the record as a finite map, [None] when a
    count is outside the model of [Number]. *)
Definition parseChunksManifest (s : string) : option (gmap string nat) :=
  if negb (truthy s) then Some ∅
  else parse_segments ∅ (split ";" s).

(** [formatChunksManifest(m)], [entries] being [Object.entries(m)] for
    a record of non-negative integers. *)
Definition formatChunksManifest (entries : list (string * nat)) : string :=
  join_with ";"
    (map (fun kn => fst kn +:+ ":" +:+ decimal (snd kn))
         (List.filter (fun kn => 0 <? snd kn) entries)).

(** A key that a manifest can carry. *)
Definition key_ok (k : string) : Prop :=
  k <> EmptyString /\ contains ";" k = false /\ contains ":" k = false
  /\ k <> "__proto__"%string.

End Manifest.

(** ** utils/objectUtils.js *)
Module ObjectUtils.
Import Js Minimizer.

(** The lists that stand for objects: no property name comes twice, in
    the value and in every value inside it. *)
Fixpoint well_formed (v : jsvalue) : bool :=
  match v with
  | VArr elems => forallb well_formed elems
  | VObj fields =>
      (fix go (fs : list (string * jsvalue)) : bool :=
         match fs with
         | [] => true
         | (k, x) :: fs' => negb (obj_has k fs') && well_formed x && go fs'
         end) fields
  | _ => true
  end.

Fixpoint well_formed_fields (fs : list (string * jsvalue)) : bool :=
  match fs with
  | [] => true
  | (k, x) :: fs' => negb (obj_has k fs') && well_formed x && well_formed_fields fs'
  end.

(** The two loops of [deepEqual], on their own. *)
Fixpoint deepEqual_elems (xs ys : list jsvalue) : bool :=
  match xs, ys with
  | x :: xs', y :: ys' => deepEqual x y && deepEqual_elems xs' ys'
  | _, _ => true
  end.

Fixpoint deepEqual_fields (fa fb : list (string * jsvalue)) : bool :=
  match fa with
  | [] => true
  | (k, x) :: fa' =>
      obj_has k fb && deepEqual x (obj_get k fb) && deepEqual_fields fa' fb
  end.

End ObjectUtils.

(** ** utils/keymap.js *)
Module Keymap.
Import Js Minimizer ObjectUtils.

(** A [Record<string,string>]: its own properties. *)
Definition Record := list (string * string).

(** The names that every object inherits from [Object.prototype]. *)
Definition prototype_names : list string := objectPrototype.

Definition inherited (k : string) : bool := bool_decide (k ∈ prototype_names).

(** [invert(map)].  In [inv[map[key]] = key] the name [__proto__]
    reaches the inherited setter, which ignores a string. *)
Definition invert (map : Record) : Record :=
  fold_left
    (fun inv kv =>
       if String.eqb (snd kv) "__proto__" then inv
       else JsMap.set (snd kv) (fst kv) inv)
    map [].

(** [m[k] ?? k]: the own property, else [k] itself; [None] when [m[k]]
    is a member that [m] inherits, which is not a string. *)
Definition rename (m : Record) (k : string) : option string :=
  match JsMap.get k m with
  | Some token => Some token
  | None => if inherited k then None else Some k
  end.

(** The [walk] of [applyKeyMap].  The object [out] lists its properties
    in insertion order (JavaScript enumerates the names that are array
    indices first).  [None] when a name of [Object.prototype] is met:
    [rename] has no string, or [out[nk]] would be [out.__proto__]. *)
Fixpoint walk (m : Record) (node : jsvalue) {struct node} : option jsvalue :=
  match node with
  | VArr elems =>
      VArr <$>
        (fix go (l : list jsvalue) : option (list jsvalue) :=
           match l with
           | [] => Some []
           | x :: l' =>
               match walk m x, go l' with
               | Some y, Some ys => Some (y :: ys)
               | _, _ => None
               end
           end) elems
  | VObj fields =>
      VObj <$>
        (fix go (fs out : list (string * jsvalue)) : option (list (string * jsvalue)) :=
           match fs with
           | [] => Some out
           | (k, v) :: fs' =>
               match rename m k, walk m v with
               | Some nk, Some w =>
                   if String.eqb nk "__proto__" then None
                   else go fs' (JsMap.set nk w out)
               | _, _ => None
               end
           end) fields []
  | _ => Some node
  end.

Inductive Direction := Encode | Decode.

Definition applyKeyMap (value : jsvalue) (map : Record) (direction : Direction)
    : option jsvalue :=
  walk (match direction with Encode => map | Decode => invert map end) value.

(** utils/fragmentKeyMap.js *)
Definition KEY_MAP : Record :=
  [("version", "v"); ("name", "n"); ("id", "i"); ("type", "t"); ("url", "u");
   ("config", "c"); ("settings", "S"); ("data", "d"); ("state", "st");
   ("params", "p"); ("options", "o"); ("description", "ds"); ("board", "b");
   ("boards", "B"); ("view", "vw"); ("views", "V"); ("serviceId", "si");
   ("service", "sv"); ("services", "s"); ("widgetId", "wi"); ("widget", "wg");
   ("widgets", "w"); ("globalSettings", "gs"); ("localStorage", "ls");
   ("widgetState", "ws"); ("columns", "c2"); ("rows", "r2");
   ("maxInstances", "mi"); ("order", "or"); ("dataid", "di")].

(** The two loops of [walk], on their own. *)
Fixpoint walk_elems (m : Record) (l : list jsvalue) : option (list jsvalue) :=
  match l with
  | [] => Some []
  | x :: l' =>
      match walk m x, walk_elems m l' with
      | Some y, Some ys => Some (y :: ys)
      | _, _ => None
      end
  end.

Fixpoint walk_fields (m : Record) (fs out : list (string * jsvalue))
    : option (list (string * jsvalue)) :=
  match fs with
  | [] => Some out
  | (k, v) :: fs' =>
      match rename m k, walk m v with
      | Some nk, Some w =>
          if String.eqb nk "__proto__" then None
          else walk_fields m fs' (JsMap.set nk w out)
      | _, _ => None
      end
  end.

(** The value [v] with every property name [k] replaced by [f k]. *)
Fixpoint rename_keys (f : string -> string) (v : jsvalue) : jsvalue :=
  match v with
  | VArr elems => VArr (map (rename_keys f) elems)
  | VObj fields => VObj (map (fun kv => (f (fst kv), rename_keys f (snd kv))) fields)
  | _ => v
  end.

(** Every property name of [v], at every depth, satisfies [P]. *)
Fixpoint all_keys (P : string -> bool) (v : jsvalue) : bool :=
  match v with
  | VArr elems => forallb (all_keys P) elems
  | VObj fields => forallb (fun kv => P (fst kv) && all_keys P (snd kv)) fields
  | _ => true
  end.

(** A property name that [map] carries there and back: it names no
    member of [Object.prototype], and it is a key of [map] or else not
    one of its tokens. *)
Definition carried (map : Record) (k : string) : bool :=
  negb (inherited k)
  && (JsMap.has k map || negb (bool_decide (k ∈ map.*2))).

(** The name that [map] gives to [k], and the name that the inverted
    map gives. *)
Definition encoded (map : Record) (k : string) : string :=
  default k (JsMap.get k map).
Definition decoded (map : Record) (k : string) : string :=
  default k (JsMap.get k (invert map)).

End Keymap.

(** ** utils/checksum.js *)
Module Checksum.

(** The 32-bit integers of the bit operators are kept as the numbers
    below [2^32] that have the same bits: [^] and [&] are then
    [Z.lxor] and [Z.land], and [x >>> n] shifts [x] taken modulo
    [2^32]. *)
Definition ushr (x n : Z) : Z := Z.shiftr (x mod 2 ^ 32)%Z n.

(** [(c & 1) ? (0xedb88320 ^ (c >>> 1)) : (c >>> 1)] *)
Definition step_bit (c : Z) : Z :=
  if Z.eqb (Z.land c 1) 0 then ushr c 1 else Z.lxor 3988292384%Z (ushr c 1).

(** [makeTable()]: the entry of [n] is [n] after eight steps. *)
Definition table_entry (n : Z) : Z :=
  ushr (Nat.iter 8 step_bit n) 0.

Definition makeTable : list Z :=
  map (fun n => table_entry (Z.of_nat n)) (seq 0 256).

(** [table[i]], [0] standing for [undefined]. *)
Definition table_get (i : Z) : Z := nth (Z.to_nat i) makeTable 0%Z.

(** The body of the loop of [computeCRC32], [ch] being
    [s.charCodeAt(i)]. *)
Definition update (crc ch : Z) : Z :=
  let byte := Z.land ch 255 in
  Z.lxor (ushr crc 8) (table_get (Z.land (Z.lxor crc byte) 255)).

(** [computeCRC32(s)], [s] given by its UTF-16 code units. *)
Definition computeCRC32 (s : list Z) : Z :=
  ushr (Z.lxor (fold_left update s 4294967295%Z) 4294967295%Z) 0.

(** The digit of [d] in [n.toString(16)]. *)
Definition hex_digit (d : Z) : ascii :=
  nth (Z.to_nat d) (String.list_ascii_of_string "0123456789abcdef") "0"%char.

(** [n.toString(16)] for an integer [0 <= n]: the digits are produced
    from the last to the first, until the quotient is zero. *)
Fixpoint toString16_loop (fuel : nat) (n : Z) (acc : string) : string :=
  match fuel with
  | O => acc
  | S fuel' =>
      let acc' := String (hex_digit (n mod 16)) acc in
      if (n / 16 =? 0)%Z then acc' else toString16_loop fuel' (n / 16)%Z acc'
  end.

Definition toString16 (n : Z) : string :=
  toString16_loop (S (Z.to_nat (Z.log2 n))) n EmptyString.

(** [s.padStart(len, c)] for a character [c]. *)
Definition padStart (len : nat) (c : ascii) (s : string) : string :=
  String.string_of_list_ascii (repeat c (len - String.length s)) +:+ s.

(** [computeCRC32Hex(s)] *)
Definition computeCRC32Hex (s : list Z) : string :=
  padStart 8 "0" (toString16 (computeCRC32 s)).

Definition is_hex (c : ascii) : bool :=
  existsb (Ascii.eqb c) (String.list_ascii_of_string "0123456789abcdef").

End Checksum.

(** ** utils/compression.js: base64url *)
Module Base64Url.
Import Js.

(** The base64 alphabet; [sextet_char n] is the character of the six
    bits [n]. *)
Definition alphabet : list ascii :=
  String.list_ascii_of_string
    "ABCDEFGHIJKLMNOPQRSTUVWXYZabcdefghijklmnopqrstuvwxyz0123456789+/".

Definition sextet_char (n : nat) : ascii := nth n alphabet "A"%char.

Fixpoint index_of (c : ascii) (l : list ascii) : option nat :=
  match l with
  | [] => None
  | c' :: l' => if Ascii.eqb c c' then Some 0 else S <$> index_of c l'
  end.

Definition sextet_of (c : ascii) : option nat := index_of c alphabet.

Definition code (c : ascii) : nat := nat_of_ascii c.

(** [btoa(binary)]: three characters, taken as bytes, give four
    characters of the alphabet; a last group of one or two bytes is
    filled with [=]. *)
Fixpoint btoa (binary : string) : string :=
  match binary with
  | EmptyString => EmptyString
  | String a EmptyString =>
      String (sextet_char (code a / 4))
        (String (sextet_char (code a mod 4 * 16)) "==")
  | String a (String b EmptyString) =>
      String (sextet_char (code a / 4))
        (String (sextet_char (code a mod 4 * 16 + code b / 16))
           (String (sextet_char (code b mod 16 * 4)) "="))
  | String a (String b (String c rest)) =>
      String (sextet_char (code a / 4))
        (String (sextet_char (code a mod 4 * 16 + code b / 16))
           (String (sextet_char (code b mod 16 * 4 + code c / 64))
              (String (sextet_char (code c mod 64)) (btoa rest))))
  end.

(** ASCII white space: tab, line feed, form feed, carriage return and
    space. *)
Definition is_ascii_whitespace (c : ascii) : bool :=
  let n := code c in
  Nat.eqb n 9 || Nat.eqb n 10 || Nat.eqb n 12 || Nat.eqb n 13 || Nat.eqb n 32.

(** The bytes that a run of sextets stands for: four sextets give three
    bytes, a last group of two or three gives one or two, its spare
    bits being dropped. *)
Fixpoint bytes_of_sextets (vals : list nat) : list ascii :=
  match vals with
  | a :: b :: c :: d :: rest =>
      ascii_of_nat (a * 4 + b / 16)
      :: ascii_of_nat (b mod 16 * 16 + c / 4)
      :: ascii_of_nat (c mod 4 * 64 + d)
      :: bytes_of_sextets rest
  | [a; b; c] =>
      [ascii_of_nat (a * 4 + b / 16); ascii_of_nat (b mod 16 * 16 + c / 4)]
  | [a; b] => [ascii_of_nat (a * 4 + b / 16)]
  | _ => []
  end.

(** [l] without its last character when that is [=]. *)
Definition drop_last_equals (l : list ascii) : option (list ascii) :=
  match List.rev l with
  | c :: r => if Ascii.eqb c "=" then Some (List.rev r) else None
  | [] => None
  end.

(** [l] without one or two [=] at its end. *)
Definition strip_padding (l : list ascii) : list ascii :=
  match drop_last_equals l with
  | Some l1 => default l1 (drop_last_equals l1)
  | None => l
  end.

(** [atob(data)], the forgiving decoder of browsers: white space is
    dropped, one or two [=] at the end of a text whose length is a
    multiple of four are dropped, and what is left is decoded; [None]
    is the exception raised for a length that leaves one character over
    and for a character outside the alphabet. *)
Definition atob (data : string) : option string :=
  let l := List.filter (fun c => negb (is_ascii_whitespace c))
             (String.list_ascii_of_string data) in
  let l := if Nat.eqb (length l mod 4) 0 then strip_padding l else l in
  if Nat.eqb (length l mod 4) 1 then None
  else String.string_of_list_ascii <$> (bytes_of_sextets <$> mapM sextet_of l).

(** [s.replace(/x/g, y)] for two characters. *)
Fixpoint replace_char (x y : ascii) (s : string) : string :=
  match s with
  | EmptyString => EmptyString
  | String c s' => String (if Ascii.eqb c x then y else c) (replace_char x y s')
  end.

(** [s.replace(/=+$/, '')] *)
Fixpoint strip_equals (s : string) : string :=
  match s with
  | EmptyString => EmptyString
  | String c s' =>
      match strip_equals s' with
      | EmptyString => if Ascii.eqb c "=" then EmptyString else String c EmptyString
      | t => String c t
      end
  end.

(** [base64UrlEncode(bytes)] *)
Definition base64UrlEncode (bytes : list Byte.byte) : string :=
  let binary := String.string_of_list_byte bytes in
  let b64 := btoa binary in
  strip_equals (replace_char "/" "_" (replace_char "+" "-" b64)).

(** [base64UrlDecode(str)], [None] when [atob] raises. *)
Definition base64UrlDecode (str : string) : option (list Byte.byte) :=
  let pad := slice "====" 0 ((4 - String.length str mod 4) mod 4) in
  let b64 := replace_char "_" "/" (replace_char "-" "+" str) +:+ pad in
  String.list_byte_of_string <$> atob b64.

(** The characters that need no escaping in a URL fragment. *)
Definition url_safe (c : ascii) : bool :=
  let n := code c in
  (Nat.leb 65 n && Nat.leb n 90) || (Nat.leb 97 n && Nat.leb n 122)
  || (Nat.leb 48 n && Nat.leb n 57) || Nat.eqb n 45 || Nat.eqb n 95.

(** The six-bit values that [btoa] writes for [binary], and the number
    of [=] that follow them. *)
Fixpoint sextets (binary : string) : list nat :=
  match binary with
  | EmptyString => []
  | String a EmptyString => [code a / 4; code a mod 4 * 16]
  | String a (String b EmptyString) =>
      [code a / 4; code a mod 4 * 16 + code b / 16; code b mod 16 * 4]
  | String a (String b (String c rest)) =>
      code a / 4 :: code a mod 4 * 16 + code b / 16
      :: code b mod 16 * 4 + code c / 64 :: code c mod 64 :: sextets rest
  end.

Fixpoint padding (binary : string) : nat :=
  match binary with
  | EmptyString => 0
  | String a EmptyString => 2
  | String a (String b EmptyString) => 1
  | String a (String b (String c rest)) => padding rest
  end.

Definition to_url (c : ascii) : ascii :=
  if Ascii.eqb c "+" then "-"%char else if Ascii.eqb c "/" then "_"%char else c.

Definition of_url (c : ascii) : ascii :=
  if Ascii.eqb c "-" then "+"%char else if Ascii.eqb c "_" then "/"%char else c.

End Base64Url.

(** ** component/modal/configModal.js: escapeHtml *)
Module Html.
Import Js.

(** The five characters that [escapeHtml] replaces. *)
Definition special (c : ascii) : bool :=
  Ascii.eqb c "&" || Ascii.eqb c "<" || Ascii.eqb c ">"
  || Ascii.eqb c (ascii_of_nat 34) || Ascii.eqb c "'".

(** The replacement of one character. *)
Definition entity (c : ascii) : string :=
  if Ascii.eqb c "&" then "&amp;"
  else if Ascii.eqb c "<" then "&lt;"
  else if Ascii.eqb c ">" then "&gt;"
  else if Ascii.eqb c (ascii_of_nat 34) then "&quot;"
  else if Ascii.eqb c "'" then "&#39;"
  else String c EmptyString.

(** [escapeHtml(s)] for a string [s]. *)
Fixpoint escapeHtml (s : string) : string :=
  match s with
  | EmptyString => EmptyString
  | String c s' => entity c +:+ escapeHtml s'
  end.

(** The characters that open or close a tag or an attribute value. *)
Definition markup (c : ascii) : bool :=
  Ascii.eqb c "<" || Ascii.eqb c ">"
  || Ascii.eqb c (ascii_of_nat 34) || Ascii.eqb c "'".

End Html.

(** ** flows/silentImportFlow.js: sanitizeName *)
Module SilentImport.
Import Js SnapshotDedup.

(** [s.replace(/[p]+/g, ' ')] for a class [p] of characters: every run
    of such characters becomes one space. *)
Fixpoint collapse (p : ascii -> bool) (s : string) : string :=
  match s with
  | EmptyString => EmptyString
  | String c s' =>
      if p c then
        match s' with
        | String c' _ => if p c' then collapse p s' else String " " (collapse p s')
        | EmptyString => String " " EmptyString
        end
      else String c (collapse p s')
  end.

(** [\x20-\x7E] *)
Definition printable (c : ascii) : bool :=
  let n := nat_of_ascii c in Nat.leb 32 n && Nat.leb n 126.

(** [sanitizeName(raw)] for a string [raw]. *)
Definition sanitizeName (raw : string) : string :=
  if negb (truthy raw) then EmptyString
  else slice (trim (collapse is_space (collapse (fun c => negb (printable c)) raw)))
             0 120.

(** No two characters of the class [q] in a row. *)
Fixpoint separated (q : ascii -> bool) (s : string) : bool :=
  match s with
  | String c ((String c' _) as s') => negb (q c && q c') && separated q s'
  | _ => true
  end.

(** No two spaces in a row. *)
Definition single_spaced (s : string) : bool :=
  separated (fun c => Ascii.eqb c " ") s.

Fixpoint all_chars (p : ascii -> bool) (s : string) : bool :=
  match s with
  | EmptyString => true
  | String c s' => p c && all_chars p s'
  end.

End SilentImport.

(** ** Runs of the snapshot store *)
Module SnapshotRuns.
Import Js Snapshots.

(** One call of [saveStateSnapshot], with the time it is made at. *)
Record Save := mkSave {
  save_at : Z;
  save_name : string;
  save_type : string;
  save_cfg : string;
  save_svc : string
}.

(** The storage cell after a series of calls. *)
Definition saveAll (md5Hex : string -> string) (saves : list Save)
    (stored : option StateStore) : option StateStore :=
  fold_left
    (fun stored sv =>
       (saveStateSnapshot md5Hex (save_at sv) stored (save_name sv) (save_type sv)
                          (save_cfg sv) (save_svc sv)).1)
    saves stored.

(** What holds of the list of a store: the digests are those of the
    contents, and no digest comes twice. *)
Definition coherent (md5Hex : string -> string) (l : list Snapshot) : Prop :=
  NoDup (snap_md5 <$> l)
  /\ Forall (fun s => snap_md5 s = md5Hex (snap_cfg s +:+ snap_svc s)) l.

End SnapshotRuns.



(** ** utils/objectUtils.js: deepMerge *)
Module DeepMerge.
Import Js Minimizer ObjectUtils.

(** [{ ...(target && typeof target === 'object' ? target : {}) }]: the
    own properties of an object, the elements of an array under their
    indices, nothing for the other values. *)
Definition spread (target : jsvalue) : list (string * jsvalue) :=
  match target with
  | VObj fields => fields
  | VArr elems => map (fun i => (decimal i, nth i elems VUndef)) (seq 0 (length elems))
  | _ => []
  end.

(** The [for (const key of Object.keys(source))] loop, the recursive
    call on [source[key]] being given as [merge key]. *)
Fixpoint merge_loop (merge : string -> jsvalue -> option jsvalue)
    (keys : list string) (out : list (string * jsvalue))
    : option (list (string * jsvalue)) :=
  match keys with
  | [] => Some out
  | key :: keys' =>
      if String.eqb key "__proto__" then None
      else match merge key (obj_get key out) with
           | Some merged => merge_loop merge keys' (JsMap.set key merged out)
           | None => None
           end
  end.

(** [deepMerge(target, source)] on the values of JSON.  An object is
    the list of its properties in the order of their creation, which
    JavaScript shows through [ownKeys] only: [out] starts with the
    properties of [target], and the loop visits the keys of [source] in
    the order of [Object.keys], a new key being created after the
    others.  A member that [out] inherits is read as [undefined]: it is
    a function, which the next call replaces or spreads to nothing.
    [None] when [source] has a property named [__proto__], for which
    [out[key] = ...] sets no property. *)
Fixpoint deepMerge (target source : jsvalue) {struct source} : option jsvalue :=
  match source with
  | VObj sfields =>
      let calls :=
        map (fun kv => (fst kv, fun t => deepMerge t (snd kv))) sfields in
      VObj <$>
        merge_loop
          (fun key t =>
             match JsMap.get key calls with
             | Some call => call t
             | None => None
             end)
          (ownKeys sfields.*1) (spread target)
  | VArr elems => Some (VArr elems)
  | _ => Some source
  end.

(** The loop over [Object.keys(source)], on its own. *)
Fixpoint merge_fields (fs out : list (string * jsvalue))
    : option (list (string * jsvalue)) :=
  match fs with
  | [] => Some out
  | (key, v) :: fs' =>
      if String.eqb key "__proto__" then None
      else match deepMerge (obj_get key out) v with
           | Some merged => merge_fields fs' (JsMap.set key merged out)
           | None => None
           end
  end.

(** The properties of an object as [Object.keys] lists them. *)
Definition entries (fields : list (string * jsvalue)) : list (string * jsvalue) :=
  (fun k => (k, obj_get k fields)) <$> ownKeys fields.*1.

(** No property is named [__proto__], at any depth. *)
Definition clean (v : jsvalue) : bool :=
  Keymap.all_keys (fun k => negb (String.eqb k "__proto__")) v.

End DeepMerge.

(** ** storage/StorageManager.js: mergeWithDefaults *)
Module Config.
Import Js Minimizer DeepMerge.

(** What a call comes to: a value of JSON, a [TypeError], or an object
    that is no value of JSON (an array that was given a named
    property) or a merge that [deepMerge] does not model. *)
Inductive outcome :=
  | Returns (v : jsvalue)
  | TypeError
  | Unmodelled.

(** [mergeWithDefaults(userConfig = {})].  The module is strict code:
    assigning a property to a string, a number or a boolean throws.
    When [userConfig] has no [globalSettings], [merged.globalSettings]
    is the template's own object, and the assignment writes the theme
    it holds, ['light'], back to it. *)
Definition mergeWithDefaults (userConfig : jsvalue) : outcome :=
  let userConfig := match userConfig with VUndef => VObj [] | _ => userConfig end in
  match deepMerge DEFAULT_CONFIG_TEMPLATE userConfig with
  | None => Unmodelled
  | Some (VObj merged) =>
      let merged :=
        if truthyV (obj_get "globalSettings" merged) then merged
        else JsMap.set "globalSettings" (VObj []) merged in
      match obj_get "globalSettings" merged with
      | VObj settings =>
          let theme :=
            match obj_get "theme" settings with
            | VStr t => if String.eqb t "dark" then "dark" else "light"
            | _ => "light"
            end in
          Returns (VObj (JsMap.set "globalSettings"
                           (VObj (JsMap.set "theme" (VStr theme) settings)) merged))
      | VArr _ => Unmodelled
      | _ => TypeError
      end
  | Some (VArr _) => Unmodelled
  | Some _ => TypeError
  end.

End Config.

(** ** component/widget/widgetManagement.js: removing a widget *)
Module WidgetManagement.
Import Js Types App.

(** [widgetStore.requestRemoval(id)]: [_evict(id)], then the wait for
    the next animation frame. *)
Definition requestRemoval (id : ostring) (s : State) : State :=
  with_runtime (WidgetStore._evict id (runtime s)) s.

(** [updateWidgetOrders()]: the visible children of the container are
    numbered in document order, then [saveWidgetState()] saves the
    current view. *)
Definition updateWidgetOrders (s : State) : State :=
  let d := dom s in
  let els := renumber (visibleWidgets d) 0 (Dom.elements d) in
  saveWidgetState (Dom.boardElId d) (Dom.viewElId d)
    (with_dom (Dom.with_elements els d) s).

(** [removeWidget(widgetElement)] *)
Definition removeWidget (widgetElement : nat) (s : State) : State :=
  match Dom.elements (dom s) !! widgetElement with
  | Some e => updateWidgetOrders (requestRemoval (Dom.ds_dataid e) s)
  | None => s
  end.

End WidgetManagement.

(** ** evictionModalViewModel.js: the automatic selection *)
Module EvictionSelect.
Import Js App EvictionViewModel.

(** [Array.prototype.sort] with [a.lruRank - b.lruRank]: a stable sort. *)
Fixpoint insert_by_rank (x : EvictionItem) (l : list EvictionItem)
    : list EvictionItem :=
  match l with
  | [] => [x]
  | y :: l' =>
      if item_lruRank y <=? item_lruRank x then y :: insert_by_rank x l' else x :: l
  end.

Definition sort_by_rank (l : list EvictionItem) : list EvictionItem :=
  fold_left (fun acc x => insert_by_rank x acc) l [].

(** [lruPick(n)], for an integer [n]: a negative [n] counts from the
    end of the array. *)
Definition lruPick (items : list EvictionItem) (n : Z) : list EvictionItem :=
  let sorted := sort_by_rank items in
  if (n <? 0)%Z then take (length sorted - Z.to_nat (- n)) sorted
  else take (Z.to_nat n) sorted.

(** [autoSelectLru()]: the state afterwards and the ids returned. *)
Definition autoSelectLru (limit : Z) (items : list EvictionItem)
    : State * list string :=
  let pick := lruPick items limit in
  let ids := fold_left (fun s item => set_add (item_id item) s) pick [] in
  let order := map item_id pick in
  (update limit ids order, ids).

End EvictionSelect.

(** ** utils/utils.js: getUUID *)
Module Uuid.
Import Js Checksum.

(** [template.replace(/[xy]/g, c => ...)]: [random k] is the value of
    [Math.random() * 16 | 0] at the call number [k]. *)
Fixpoint replace_xy (random : nat -> Z) (template : string) (k : nat) : string :=
  match template with
  | EmptyString => EmptyString
  | String c rest =>
      if Ascii.eqb c "x"%char || Ascii.eqb c "y"%char then
        let r := random k in
        let v := if Ascii.eqb c "x"%char then r else Z.lor (Z.land r 3%Z) 8%Z in
        toString16 v +:+ replace_xy random rest (S k)
      else String c (replace_xy random rest k)
  end.

(** [getUUID()]: [randomUUID] is what [crypto.randomUUID()] returns,
    [None] in a browser that has no such function. *)
Definition getUUID (randomUUID : option string) (random : nat -> Z) : string :=
  match randomUUID with
  | Some uuid => uuid
  | None => replace_xy random "xxxxxxxx-xxxx-4xxx-yxxx-xxxxxxxxxxxx" 0
  end.

(** [u] has the shape of [pattern]: a hexadecimal digit for an [x], one
    of 8, 9, a, b for a [y], the same character elsewhere. *)
Fixpoint shaped (pattern u : string) : bool :=
  match pattern, u with
  | EmptyString, EmptyString => true
  | String p pattern', String c u' =>
      (if Ascii.eqb p "x"%char then is_hex c
       else if Ascii.eqb p "y"%char then existsb (Ascii.eqb c) (String.list_ascii_of_string "89ab")
       else Ascii.eqb p c)
      && shaped pattern' u'
  | _, _ => false
  end.

End Uuid.

(** ** component/widget/events/dragDrop.js: handleDrop *)
Module DragDrop.
Import Js Types App WidgetManagement.

(** [target.after(node)] and [target.before(node)] on the children of
    the container, [node] having been taken out of them. *)
Fixpoint insert_after (target node : nat) (children : list nat) : list nat :=
  match children with
  | [] => []
  | x :: rest =>
      if Nat.eqb x target then x :: node :: rest
      else x :: insert_after target node rest
  end.

Fixpoint insert_before (target node : nat) (children : list nat) : list nat :=
  match children with
  | [] => []
  | x :: rest =>
      if Nat.eqb x target then node :: x :: rest
      else x :: insert_before target node rest
  end.

Definition order_of (d : Dom.t) (h : nat) : Z :=
  default 0%Z (Dom.elements d !! h ≫= Dom.data_order).

(** [widgetContainer.querySelector(`[data-dataid='${draggedId}']`)]:
    the first widget with that [dataid]. *)
Definition querySelector (draggedId : string) (d : Dom.t) : option nat :=
  List.find
    (fun h => match Dom.elements d !! h with
              | Some e => bool_decide (Dom.ds_dataid e = Some draggedId)
              | None => false
              end)
    (Dom.container d).

(** [handleDrop(e, targetWidgetWrapper)], [draggedId] being the text of
    the drag.  The widgets are the children of the container; [None]
    stands for a target that is not one of them.  A widget dropped on
    itself stays where it is ([before] on the node itself). *)
Definition handleDrop (draggedId : string) (targetWidgetWrapper : option nat)
    (s : State) : option State :=
  let d := dom s in
  match querySelector draggedId d, targetWidgetWrapper with
  | Some dragged, Some target =>
      if bool_decide (target ∈ Dom.container d) then
        let without := List.filter (fun h => negb (Nat.eqb dragged h)) (Dom.container d) in
        let children :=
          if Nat.eqb dragged target then Dom.container d
          else if (order_of d dragged <? order_of d target)%Z
               then insert_after target dragged without
               else insert_before target dragged without in
        Some (updateWidgetOrders (with_dom (Dom.with_container children d) s))
      else None
  | _, _ => Some s
  end.

(** Two visible widgets of the current view, numbered 0 and 1. *)
Definition twoWidgets : State :=
  mkState
    (Dom.mkDom {[ 0 := Dom.mkElement (Some "widget-1") (Some "clock") (Some "srv-clock")
                         (Some "http://clock.local/") 1 1 None "http://clock.local/"
                         (Some 0%Z) false;
                  1 := Dom.mkElement (Some "widget-2") (Some "news") (Some "srv-news")
                         (Some "http://news.local/") 1 1 None "http://news.local/"
                         (Some 1%Z) false ]}
               [0; 1] "b1" "v1" 2)
    (WidgetStore.mkStore 10 [("widget-1", 0); ("widget-2", 1)] ∅ [])
    (mkStorage
       [mkBoard "b1" "Main"
          [mkView "v1" "First"
             [Scenario.persisted "widget-1" "srv-clock" "http://clock.local/";
              Scenario.persisted "widget-2" "srv-news" "http://news.local/"]]]
       None None Scenario.defaultTemplates Scenario.defaultStyling
       [Scenario.clock; Scenario.news] None (Some "v1"))
    [] 0 [] [].

End DragDrop.

(** ** utils/compression.js: encodeConfig and decodeConfig *)
Module ConfigCodec.
Import Js Minimizer Keymap Checksum Base64Url.

Inductive Algo := Gzip | Deflate.

(** [opts] of [encodeConfig]: [algo] and [keyMap] may be missing. *)
Record EncodeOpts := mkEncodeOpts {
  e_algo : option Algo;
  e_keyMap : option Keymap.Record;
  withChecksum : bool
}.

Record Encoded := mkEncoded {
  data : string;
  checksum : option string
}.

(** [opts] of [decodeConfig] *)
Record DecodeOpts := mkDecodeOpts {
  d_algo : option Algo;
  d_keyMap : option Keymap.Record;
  expectChecksum : option string
}.

(** The ways in which [decodeConfig] rejects. *)
Inductive Failure :=
  | InvalidCharacter     (* atob *)
  | StreamError          (* the decompression stream *)
  | ChecksumMismatch
  | SyntaxError.         (* JSON.parse *)

Inductive Decoded :=
  | Value (v : jsvalue)
  | Throws (f : Failure)
  | Unmodelled.

(** The code units of a text, as [computeCRC32] reads them. *)
Definition codes (s : string) : list Z :=
  map (fun c => Z.of_nat (nat_of_ascii c)) (String.list_ascii_of_string s).

(** The number that a text of hexadecimal digits denotes. *)
Definition hex_value (s : string) : Z :=
  fold_left
    (fun acc c =>
       (acc * 16
        + Z.of_nat (default 0%nat (index_of c (String.list_ascii_of_string "0123456789abcdef"))))%Z)
    (String.list_ascii_of_string s) 0%Z.

Section Codec.

(** What the platform provides: [JSON.stringify] ([None] for
    [undefined]), [JSON.parse] ([None] for a [SyntaxError]) and the
    compression streams ([None] for a stream that fails). *)
Variable stringify : jsvalue -> option string.
Variable parse : string -> option jsvalue.
Variable compressString : string -> Algo -> list Byte.byte.
Variable decompressToString : list Byte.byte -> Algo -> option string.

(** [encodeConfig(obj, opts)]; [None] where [applyKeyMap] is not
    modelled or [JSON.stringify] gives no text. *)
Definition encodeConfig (obj : jsvalue) (opts : EncodeOpts) : option Encoded :=
  let algo := default Gzip (e_algo opts) in
  match (match e_keyMap opts with
         | Some map => applyKeyMap obj map Encode
         | None => Some obj
         end) with
  | Some toEncode =>
      match stringify toEncode with
      | Some json =>
          let checksum :=
            if withChecksum opts then Some (computeCRC32Hex (codes json)) else None in
          let bytes := compressString json algo in
          Some (mkEncoded (base64UrlEncode bytes) checksum)
      | None => None
      end
  | None => None
  end.

(** [decodeConfig(str, opts)] *)
Definition decodeConfig (str : string) (opts : DecodeOpts) : Decoded :=
  let algo := default Gzip (d_algo opts) in
  match base64UrlDecode str with
  | None => Throws InvalidCharacter
  | Some bytes =>
      match decompressToString bytes algo with
      | None => Throws StreamError
      | Some json =>
          let mismatch :=
            match expectChecksum opts with
            | Some expect =>
                truthy expect && negb (String.eqb (computeCRC32Hex (codes json)) expect)
            | None => false
            end in
          if mismatch then Throws ChecksumMismatch
          else
            match parse json with
            | None => Throws SyntaxError
            | Some parsed =>
                match d_keyMap opts with
                | Some map =>
                    match applyKeyMap parsed map Decode with
                    | Some v => Value v
                    | None => Unmodelled
                    end
                | None => Value parsed
                end
            end
      end
  end.

End Codec.

End ConfigCodec.

(** ** The parameters of the fragment: exportConfig.js and fragmentLoader.js *)
Module Fragment.
Import Js Chunker Manifest.

(** [params.set(k, v)]: the first value stored under [k] is replaced
    and the others are deleted; a new key goes last. *)
Fixpoint params_set (k v : string) (ps : Params) : Params :=
  match ps with
  | [] => [(k, v)]
  | (k', v') :: ps' =>
      if String.eqb k k'
      then (k, v) :: List.filter (fun kv => negb (String.eqb k (fst kv))) ps'
      else (k', v') :: params_set k v ps'
  end.

(** The parameters that [exportConfig] writes, from the name, the
    algorithm, the two checksums, the checksum of both, and the two
    encoded texts; [None] stands for a loop of [splitIntoParams] that
    does not end.  [maxLen] is [FRAG_CHUNK_MAX_LEN] when a limit is
    configured (with none the constant is [Infinity], and a text is
    never cut). *)
Definition exportParams (name algo cfgCrc svcCrc ccw cfgEnc svcEnc : string)
    (maxLen : nat) : option Params :=
  match splitIntoParams "cfg" cfgEnc maxLen, splitIntoParams "svc" svcEnc maxLen with
  | Some cfgPairs, Some svcPairs =>
      let params :=
        params_set "ccw" ccw
          (params_set "cc" (cfgCrc +:+ "," +:+ svcCrc)
             (params_set "algo" algo (params_set "name" name []))) in
      let params :=
        fold_left (fun ps kv => params_set (fst kv) (snd kv) ps)
                  (cfgPairs ++ svcPairs) params in
      let count := fun pairs : Params =>
        if 1 <? length pairs then length pairs else 0 in
      let manifest :=
        formatChunksManifest [("cfg", count cfgPairs); ("svc", count svcPairs)] in
      Some (if truthy manifest then params_set "chunks" manifest params else params)
  | _, _ => None
  end.

(** What [loadFromFragment] reads from the parameters of the fragment,
    once [URLSearchParams] has parsed them. *)
Record Fragment := mkFragment {
  nameParam : string;
  algoParam : string;
  cfgChecksum : option string;
  svcChecksum : option string;
  ccw : option string;
  cfgParam : option string;
  svcParam : option string
}.

(** [v || d] and [v || null] for [v : string | null | undefined] *)
Definition or_else (v : option string) (d : string) : string :=
  match v with
  | Some s => if truthy s then s else d
  | None => d
  end.

Definition or_null (v : option string) : option string :=
  match v with
  | Some s => if truthy s then Some s else None
  | None => None
  end.

Definition readFragment (params : Params) : Fragment :=
  let checks :=
    match params_get "cc" params with
    | Some ccParam => if truthy ccParam then split "," ccParam else []
    | None => []
    end in
  mkFragment
    (or_else (params_get "name" params) "imported")
    (or_else (params_get "algo" params) "gzip")
    (or_null (checks !! 0))
    (or_null (checks !! 1))
    (params_get "ccw" params)
    (joinFromParams "cfg" params)
    (joinFromParams "svc" params).

End Fragment.

(* ===================================================================== *)
(** * Properties *)
(* ===================================================================== *)

(** ** Facts about the builtins *)
Section JsFacts.
Import Js.

Lemma slice_from_empty n : slice_from n EmptyString = EmptyString.
Proof. by destruct n. Qed.

Lemma slice_from_all s n : String.length s <= n -> slice_from n s = EmptyString.
Proof.
  revert n; induction s as [|c s IH]; intros n Hn.
  - apply slice_from_empty.
  - destruct n as [|n]; simpl in *; [lia|]. apply IH; lia.
Qed.

Lemma append_cons c s t : String c s +:+ t = String c (s +:+ t).
Proof. reflexivity. Qed.

Lemma append_nil t : EmptyString +:+ t = t.
Proof. reflexivity. Qed.

Lemma substring_slice_from s a m :
  String.substring a m s +:+ slice_from (a + m) s = slice_from a s.
Proof.
  revert a m; induction s as [|c s IH]; intros a m.
  - rewrite !slice_from_empty. by destruct a, m.
  - destruct a as [|a]; simpl.
    + destruct m as [|m]; simpl; [done|].
      rewrite append_cons. f_equal. apply (IH 0 m).
    + apply IH.
Qed.

Lemma slice_from_append s t : slice_from (String.length s) (s +:+ t) = t.
Proof. induction s; [done|]. rewrite append_cons. simpl. auto. Qed.

Lemma prefix_append s t : String.prefix s (s +:+ t) = true.
Proof.
  induction s as [|c s IH]; [by destruct t|].
  rewrite append_cons. simpl.
  destruct (ascii_dec c c); [done|congruence].
Qed.

Lemma prefix_refl s : String.prefix s s = true.
Proof.
  induction s as [|c s IH]; simpl; [done|].
  destruct (ascii_dec c c); [done|congruence].
Qed.

Lemma slice_from_length s : slice_from (String.length s) s = EmptyString.
Proof. apply slice_from_all; lia. Qed.

Lemma integerOfString_decimal i : integerOfString (decimal i) = Some i.
Proof.
  unfold integerOfString, decimal.
  rewrite NilEmpty.usu. f_equal. apply DecimalNat.Unsigned.of_to.
Qed.

Lemma decimal_nonempty i : decimal i <> EmptyString.
Proof.
  intros H. pose proof (integerOfString_decimal i) as Hi.
  rewrite H in Hi. cbv in Hi. injection Hi as <-. discriminate H.
Qed.

Lemma append_length s t : String.length (s +:+ t) = String.length s + String.length t.
Proof. induction s; [done|]. rewrite append_cons. simpl. auto. Qed.

Lemma append_decimal_neq name i : String.eqb name (name +:+ decimal i) = false.
Proof.
  apply String.eqb_neq. intros H.
  apply (f_equal String.length) in H. rewrite append_length in H.
  pose proof (decimal_nonempty i). destruct (decimal i); [done|simpl in H; lia].
Qed.

End JsFacts.

(** ** Chunker: splitting and joining are inverse *)
Section ChunkerFacts.
Import Js Chunker.

Variable name : string.

Lemma split_loop_shape data maxLen fuel :
  1 <= maxLen ->
  forall off i out,
    String.length data - off <= fuel ->
    exists res,
      split_loop fuel name data maxLen off i out = Some (out ++ res)%list
      /\ map fst res = numbered_keys name i (length res)
      /\ join (map snd res) = slice_from off data
      /\ (off < String.length data -> res <> [])%list.
Proof.
  intros Hmax. induction fuel as [|fuel IH]; intros off i out Hfuel; simpl.
  - destruct (Nat.ltb_spec off (String.length data)); [lia|].
    exists []. rewrite app_nil_r. repeat split; try done.
    + simpl. by rewrite slice_from_all.
    + lia.
  - destruct (Nat.ltb_spec off (String.length data)) as [Hlt|Hge].
    + destruct (IH (off + maxLen) (S i)
                   (out ++ [(name +:+ decimal i, slice data off (off + maxLen))]))
        as (res & Hres & Hkeys & Hjoin & _); [lia|].
      exists ((name +:+ decimal i, slice data off (off + maxLen)) :: res).
      rewrite Hres, <- app_assoc. repeat split; try done.
      * simpl. unfold numbered_keys in *. simpl. by rewrite Hkeys.
      * simpl. rewrite Hjoin. unfold slice.
        replace (off + maxLen - off) with maxLen by lia.
        apply substring_slice_from.
    + exists []. rewrite app_nil_r. repeat split; try done.
      * simpl. by rewrite slice_from_all.
      * lia.
Qed.

Lemma params_get_numbered res i :
  map fst res = numbered_keys name i (length res) -> params_get name res = None.
Proof.
  revert i; induction res as [|[k v] res IH]; intros i H; [done|].
  simpl in *. injection H as -> H.
  rewrite append_decimal_neq. by apply (IH (S i)).
Qed.

Lemma collect_parts_numbered res i :
  map fst res = numbered_keys name i (length res) ->
  collect_parts name res = combine (seq i (length res)) (map snd res).
Proof.
  revert i; induction res as [|[k v] res IH]; intros i H; [done|].
  simpl in *. injection H as -> H.
  rewrite prefix_append, slice_from_append, integerOfString_decimal.
  f_equal. by apply IH.
Qed.

Lemma insert_part_last p l :
  Forall (fun q => fst q <= fst p) l -> insert_part p l = (l ++ [p])%list.
Proof.
  induction 1 as [|q l Hq _ IH]; [done|]. simpl.
  destruct (Nat.leb_spec (fst q) (fst p)); [|lia]. by rewrite IH.
Qed.

Lemma sort_parts_numbered vs : forall i acc,
  Forall (fun q => fst q < i) acc ->
  fold_left (fun acc p => insert_part p acc) (combine (seq i (length vs)) vs) acc
  = (acc ++ combine (seq i (length vs)) vs)%list.
Proof.
  induction vs as [|v vs IH]; intros i acc Hacc; simpl.
  - by rewrite app_nil_r.
  - rewrite insert_part_last.
    + rewrite IH, <- app_assoc; [done|].
      apply Forall_app; split.
      * eapply Forall_impl; [exact Hacc|]. simpl. lia.
      * repeat constructor.
    + eapply Forall_impl; [exact Hacc|]. simpl. lia.
Qed.

Lemma map_snd_combine_seq (vs : list string) i :
  map snd (combine (seq i (length vs)) vs) = vs.
Proof. revert i; induction vs; intros i; simpl; [done|]. by rewrite IHvs. Qed.

Lemma join_numbered res i S :
  res <> [] ->
  map fst res = numbered_keys name i (length res) ->
  join (map snd res) = S ->
  joinFromParams name res = Some S.
Proof.
  intros Hne Hkeys Hjoin. unfold joinFromParams.
  rewrite (params_get_numbered _ _ Hkeys), (collect_parts_numbered _ _ Hkeys).
  pose proof (sort_parts_numbered (map snd res) i [] (List.Forall_nil _)) as Hs.
  rewrite length_map in Hs. simpl in Hs.
  destruct (combine (seq i (length res)) (map snd res)) as [|p parts] eqn:Hparts.
  - destruct res; [done|discriminate Hparts].
  - unfold sort_parts. rewrite Hs, <- Hparts.
    rewrite <- (length_map snd res). by rewrite map_snd_combine_seq, Hjoin.
Qed.

Lemma join_single S : joinFromParams name [(name, S)] = Some S.
Proof.
  unfold joinFromParams. simpl. rewrite String.eqb_refl.
  destruct S as [|c S]; simpl; [|done].
  by rewrite prefix_refl, slice_from_length.
Qed.

(** The order in which the parameters are enumerated does not matter. *)
Lemma collect_parts_omap ps : collect_parts name ps = omap (part_of name) ps.
Proof.
  induction ps as [|[k v] ps IH]; [done|]. simpl. unfold part_of at 1. simpl.
  destruct (String.prefix name k); [|done].
  destruct (integerOfString _); simpl; by rewrite IH.
Qed.

Lemma insert_part_comm p q l :
  fst p <> fst q ->
  insert_part p (insert_part q l) = insert_part q (insert_part p l).
Proof.
  intros Hne. induction l as [|h l IH]; simpl.
  - destruct (Nat.leb_spec (fst q) (fst p)), (Nat.leb_spec (fst p) (fst q));
      try done; lia.
  - destruct (Nat.leb_spec (fst h) (fst q)), (Nat.leb_spec (fst h) (fst p)); simpl.
    + destruct (Nat.leb_spec (fst h) (fst q)), (Nat.leb_spec (fst h) (fst p));
        try lia. by rewrite IH.
    + destruct (Nat.leb_spec (fst h) (fst p)); [lia|].
      destruct (Nat.leb_spec (fst p) (fst q)); [|lia]. simpl.
      by destruct (Nat.leb_spec (fst h) (fst q)); [|lia].
    + destruct (Nat.leb_spec (fst h) (fst q)); [lia|].
      destruct (Nat.leb_spec (fst q) (fst p)); [|lia]. simpl.
      by destruct (Nat.leb_spec (fst h) (fst p)); [|lia].
    + destruct (Nat.leb_spec (fst q) (fst p)), (Nat.leb_spec (fst p) (fst q));
        simpl; try lia.
      * by destruct (Nat.leb_spec (fst h) (fst p)); [lia|].
      * by destruct (Nat.leb_spec (fst h) (fst q)); [lia|].
Qed.

Lemma sort_parts_permutation l l' :
  Permutation l l' -> NoDup l.*1 ->
  forall acc,
    fold_left (fun acc p => insert_part p acc) l acc
    = fold_left (fun acc p => insert_part p acc) l' acc.
Proof.
  induction 1 as [|x l l' _ IH|x y l|l l' l'' H1 IH1 H2 IH2]; intros Hnd acc.
  - done.
  - simpl. apply IH. by apply NoDup_cons in Hnd as [_ ?].
  - simpl. f_equal. apply insert_part_comm.
    apply NoDup_cons in Hnd as [Hy _]. intros Heq. apply Hy.
    rewrite <- Heq. simpl. set_solver.
  - rewrite IH1 by done. apply IH2. by rewrite <- H1.
Qed.

Lemma params_get_none k ps : params_get k ps = None <-> k ∉ ps.*1.
Proof.
  induction ps as [|[k' v] ps IH]; simpl.
  - split; [intros _ H; by apply elem_of_nil in H|done].
  - rewrite not_elem_of_cons. destruct (String.eqb_spec k k') as [->|Hne].
    + split; [done|]. by intros [? _].
    + rewrite IH. naive_solver.
Qed.

Lemma join_numbered_permuted res ps' i S :
  res <> [] ->
  map fst res = numbered_keys name i (length res) ->
  join (map snd res) = S ->
  Permutation ps' res ->
  joinFromParams name ps' = Some S.
Proof.
  intros Hne Hkeys Hjoin Hperm.
  pose proof (join_numbered res i S Hne Hkeys Hjoin) as Hres.
  unfold joinFromParams in *.
  assert (params_get name ps' = None) as ->.
  { apply params_get_none. rewrite Hperm. apply params_get_none.
    by apply (params_get_numbered res i). }
  rewrite (params_get_numbered res i Hkeys) in Hres.
  assert (Permutation (collect_parts name ps') (collect_parts name res)) as Hparts.
  { rewrite !collect_parts_omap. by rewrite Hperm. }
  assert (NoDup (collect_parts name ps').*1) as Hnd.
  { rewrite Hparts, (collect_parts_numbered res i Hkeys).
    rewrite <- (length_map snd res). generalize (map snd res) i.
    intros vs. induction vs as [|v vs IH]; intros j; simpl; [apply NoDup_nil_2|].
    apply NoDup_cons. split; [|apply IH].
    intros Hin. apply list_elem_of_fmap in Hin as ([j' v'] & -> & Hin).
    apply list_elem_of_In, in_combine_l, in_seq in Hin. simpl in *. lia. }
  pose proof (sort_parts_permutation _ _ Hparts Hnd []) as Hsort.
  destruct (collect_parts name res) as [|p parts] eqn:Hc; [done|].
  destruct (collect_parts name ps') as [|p' parts'] eqn:Hc'.
  { by apply Permutation_nil_l in Hparts. }
  unfold sort_parts in *. by rewrite Hsort.
Qed.

Lemma numbered_keys_nodup i n : NoDup (numbered_keys name i n).
Proof.
  unfold numbered_keys. apply NoDup_fmap_2_strong; [|apply NoDup_seq].
  intros a b _ _ Heq.
  assert (decimal a = decimal b) as Hd.
  { rewrite <- (slice_from_append name (decimal a)), Heq.
    apply slice_from_append. }
  pose proof (integerOfString_decimal a) as Ha.
  rewrite Hd, integerOfString_decimal in Ha. by injection Ha.
Qed.

End ChunkerFacts.

(** With [maxLen = 0] the loop of [splitIntoParams] never advances. *)
Lemma split_loop_zero_spins name data fuel : forall i out,
  0 < String.length data ->
  Chunker.split_loop fuel name data 0 0 i out = None.
Proof.
  induction fuel as [|fuel IH]; intros i out Hlen; simpl;
    destruct (Nat.ltb_spec 0 (String.length data)); try lia; [done|].
  by apply IH.
Qed.

(** Two runs of the chunker, below and above the limit. *)
Example chunker_small :
  Chunker.splitIntoParams "cfg" "abc" 5 = Some [("cfg", "abc")]%string.
Proof. reflexivity. Qed.

Example chunker_split :
  Chunker.splitIntoParams "cfg" "abcdefg" 3
  = Some [("cfg0", "abc"); ("cfg1", "def"); ("cfg2", "g")]%string
  /\ Chunker.joinFromParams "cfg"
       [("cfg0", "abc"); ("cfg1", "def"); ("cfg2", "g")]%string = Some "abcdefg"%string.
Proof. split; reflexivity. Qed.

(** C6. For every string [S], every [name] and every [maxLen >= 1],
    [splitIntoParams name S maxLen] returns a parameter list with
    distinct keys, joining that list with [joinFromParams name] returns
    exactly [S], in whatever order the parameters are enumerated, and
    when [S.length <= maxLen] the list is the single parameter whose
    key is the unsuffixed [name]. *)
Theorem chunker_roundtrip (name S : string) (maxLen : nat) :
  1 <= maxLen ->
  exists ps,
    Chunker.splitIntoParams name S maxLen = Some ps
    /\ Chunker.joinFromParams name ps = Some S
    /\ (String.length S <= maxLen -> ps = [(name, S)])
    /\ NoDup ps.*1
    /\ (forall ps', Permutation ps' ps -> Chunker.joinFromParams name ps' = Some S).
Proof.
  intros Hmax. unfold Chunker.splitIntoParams.
  destruct (Nat.leb_spec (String.length S) maxLen) as [Hle|Hgt].
  - exists [(name, S)]. split; [done|]. split; [apply join_single|].
    split; [done|]. split; [apply NoDup_singleton|].
    intros ps' ->%Permutation_singleton_r. apply join_single.
  - destruct (split_loop_shape name S maxLen (String.length S) Hmax 0 0 [])
      as (res & Hres & Hkeys & Hjoin & Hne); [lia|].
    exists res. split; [exact Hres|].
    split; [eapply join_numbered; [apply Hne; lia|exact Hkeys|exact Hjoin]|].
    split; [lia|]. split.
    + change (res.*1) with (map fst res). rewrite Hkeys. apply numbered_keys_nodup.
    + intros ps' Hperm.
      eapply join_numbered_permuted; [apply Hne; lia|exact Hkeys|exact Hjoin|done].
Qed.

Lemma chunker_roundtrip_witness :
  1 <= 4 /\
  exists ps,
    Chunker.splitIntoParams "svc" "0123456789" 4 = Some ps
    /\ Chunker.joinFromParams "svc" ps = Some "0123456789"%string
    /\ (String.length "0123456789" <= 4 -> ps = [("svc", "0123456789")]%string)
    /\ NoDup ps.*1
    /\ (forall ps', Permutation ps' ps ->
          Chunker.joinFromParams "svc" ps' = Some "0123456789"%string).
Proof. split; [lia|]. apply (chunker_roundtrip "svc" "0123456789" 4). lia. Defined.

(** ** snapshotDedup, mergeBoards, mergeServices *)
Section DedupFacts.
Import Js Types SnapshotDedup.
Context {T : Type}.
Variables getId getName : T -> ostring.

Local Abbreviation step :=
  (fun kept x => if seen_in getId getName kept x then kept else (kept ++ [x])%list).

Lemma sets_of_empty : sets_of getId getName [] ∅ ∅.
Proof.
  split; intros s; split; try set_solver.
  all: intros (y & Hy & _); by apply elem_of_nil in Hy.
Qed.

Lemma loop_test out sI sN x :
  sets_of getId getName out sI sN ->
  (truthyS (getId x) && bool_decide (default EmptyString (getId x) ∈ sI))
  || (truthy (norm (getName x)) && bool_decide (norm (getName x) ∈ sN))
  = seen_in getId getName out x.
Proof.
  intros [HI HN]. apply eq_true_iff_eq.
  unfold seen_in. rewrite existsb_exists, orb_true_iff, !andb_true_iff.
  rewrite !bool_decide_eq_true. split.
  - intros [[Ht Hin]|[Ht Hin]].
    + apply HI in Hin as (y & Hy & Hid & _). exists y. split.
      { by apply list_elem_of_In. }
      apply orb_true_iff; left. unfold same_id. rewrite Ht. simpl.
      apply bool_decide_eq_true. rewrite Hid.
      destruct (getId x); [done|discriminate Ht].
    + apply HN in Hin as (y & Hy & Hname & _). exists y. split.
      { by apply list_elem_of_In. }
      apply orb_true_iff; right. unfold same_name. rewrite Ht. simpl.
      by apply bool_decide_eq_true.
  - intros (y & Hy & Hsame). apply list_elem_of_In in Hy.
    apply orb_true_iff in Hsame as [Hs|Hs].
    + left. unfold same_id in Hs. apply andb_true_iff in Hs as [Ht Heq].
      apply bool_decide_eq_true in Heq. split; [done|].
      apply HI. exists y. split; [done|].
      destruct (getId x) as [s|]; [|discriminate Ht]. by simpl.
    + right. unfold same_name in Hs. apply andb_true_iff in Hs as [Ht Heq].
      apply bool_decide_eq_true in Heq. split; [done|].
      apply HN. by exists y.
Qed.

Lemma sets_of_push out sI sN x :
  sets_of getId getName out sI sN ->
  sets_of getId getName (out ++ [x])
    (if truthyS (getId x) then {[default EmptyString (getId x)]} ∪ sI else sI)
    (if truthy (norm (getName x)) then {[norm (getName x)]} ∪ sN else sN).
Proof.
  intros [HI HN]. split; intros s.
  - split.
    + intros Hin.
      assert (s ∈ sI \/ (truthyS (getId x) = true /\ getId x = Some s)) as [H|[Ht H]].
      { destruct (getId x) as [i|] eqn:E; simpl in *; [|by left].
        destruct (truthy i) eqn:Ei; [|by left].
        apply elem_of_union in Hin as [Hin|Hin]; [|by left].
        apply elem_of_singleton in Hin as ->. by right. }
      * apply HI in H as (y & Hy & Hid & Hs). exists y.
        rewrite elem_of_app. auto.
      * exists x. rewrite elem_of_app, list_elem_of_singleton.
        rewrite H in Ht. auto.
    + intros (y & Hy & Hid & Hs). apply elem_of_app in Hy as [Hy|Hy].
      * assert (s ∈ sI) by (apply HI; eauto).
        destruct (truthyS (getId x)); set_solver.
      * apply list_elem_of_singleton in Hy as ->. rewrite Hid. simpl.
        rewrite Hs. set_solver.
  - split.
    + intros Hin.
      assert (s ∈ sN \/ (truthy s = true /\ norm (getName x) = s)) as [H|[Ht H]].
      { destruct (truthy (norm (getName x))) eqn:E; [|by left].
        apply elem_of_union in Hin as [Hin|Hin]; [|by left].
        apply elem_of_singleton in Hin as ->. by right. }
      * apply HN in H as (y & Hy & Hid & Hs). exists y.
        rewrite elem_of_app. auto.
      * exists x. rewrite elem_of_app, list_elem_of_singleton. auto.
    + intros (y & Hy & Hid & Hs). apply elem_of_app in Hy as [Hy|Hy].
      * assert (s ∈ sN) by (apply HN; eauto).
        destruct (truthy (norm (getName x))); set_solver.
      * apply list_elem_of_singleton in Hy as ->. rewrite Hid, Hs. set_solver.
Qed.

Lemma dedup_loop_fold items : forall out sI sN,
  sets_of getId getName out sI sN ->
  dedup_loop getId getName items sI sN out = fold_left step items out.
Proof.
  induction items as [|x items IH]; intros out sI sN Hsets; [done|].
  simpl. rewrite (loop_test _ _ _ _ Hsets).
  destruct (seen_in getId getName out x).
  - by apply IH.
  - apply IH. by apply sets_of_push.
Qed.

(** The loop with its two sets computes the deduplication of the
    specification. *)
Lemma snapshotDedup_spec items :
  snapshotDedup getId getName items = dedup_spec getId getName items.
Proof. apply dedup_loop_fold, sets_of_empty. Qed.

Lemma dedup_spec_snoc items x :
  dedup_spec getId getName (items ++ [x])
  = if seen_in getId getName (dedup_spec getId getName items) x
    then dedup_spec getId getName items
    else (dedup_spec getId getName items ++ [x])%list.
Proof. unfold dedup_spec. by rewrite fold_left_app. Qed.

Lemma blank_not_seen kept x : blank getId getName x = true -> seen_in getId getName kept x = false.
Proof.
  unfold blank. intros [Hi Hn]%andb_true_iff.
  apply negb_true_iff in Hi, Hn.
  unfold seen_in. induction kept as [|y kept IH]; [done|]. simpl.
  rewrite IH. unfold same_id, same_name. by rewrite Hi, Hn.
Qed.

Lemma fold_step_blank items : forall acc,
  List.filter (blank getId getName) (fold_left step items acc)
  = (List.filter (blank getId getName) acc ++ List.filter (blank getId getName) items)%list.
Proof.
  induction items as [|x items IH]; intros acc; simpl.
  - by rewrite app_nil_r.
  - rewrite IH. destruct (blank getId getName x) eqn:Hb.
    + rewrite (blank_not_seen _ _ Hb), List.filter_app. simpl. rewrite Hb.
      by rewrite <- app_assoc.
    + destruct (seen_in getId getName acc x); [done|].
      rewrite List.filter_app. simpl. rewrite Hb. by rewrite app_nil_r.
Qed.

End DedupFacts.

Section MergeSpecFacts.
Import Js Types SnapshotDedup MergeSpec.

Lemma trimEnd_app_space s c :
  is_space c = true ->
  trimEnd (s +:+ String c EmptyString) = trimEnd s.
Proof.
  intros Hc. induction s as [|d s IH]; simpl.
  - by rewrite Hc.
  - by rewrite IH.
Qed.

Lemma trimEnd_app_letter s c :
  is_space c = false ->
  trimEnd (s +:+ String c EmptyString) = s +:+ String c EmptyString.
Proof.
  intros Hc. induction s as [|d s IH]; simpl.
  - by rewrite Hc.
  - rewrite IH. by destruct s.
Qed.

Lemma list_ascii_app s t :
  String.list_ascii_of_string (s +:+ t) = (String.list_ascii_of_string s ++ String.list_ascii_of_string t)%list.
Proof. induction s as [|c s IH]; simpl; [done|by rewrite IH]. Qed.

Lemma string_of_list_app a b :
  String.string_of_list_ascii (a ++ b) = String.string_of_list_ascii a +:+ String.string_of_list_ascii b.
Proof. induction a as [|c a IH]; simpl; [done|by rewrite IH]. Qed.

(** [trimEnd] removes the white space at the end: read from the end,
    it drops the leading white space. *)
Lemma trimEnd_rev (l : list ascii) :
  String.list_ascii_of_string (trimEnd (String.string_of_list_ascii (List.rev l)))
  = List.rev (drop_spaces l).
Proof.
  induction l as [|c l IH]; [done|]. simpl.
  rewrite string_of_list_app. simpl.
  destruct (is_space c) eqn:Hc.
  - by rewrite trimEnd_app_space.
  - rewrite trimEnd_app_letter by done.
    change (String c EmptyString) with (String.string_of_list_ascii [c]).
    rewrite <- string_of_list_app.
    by rewrite String.list_ascii_of_string_of_list_ascii.
Qed.

Lemma trimStart_drop s :
  String.list_ascii_of_string (trimStart s) = drop_spaces (String.list_ascii_of_string s).
Proof.
  induction s as [|c s IH]; [done|]. simpl. by destruct (is_space c).
Qed.

Lemma trim_trimmed s : String.list_ascii_of_string (trim s) = trimmed (Some s).
Proof.
  unfold trim, trimmed.
  rewrite <- trimStart_drop.
  rewrite <- trimEnd_rev, List.rev_involutive.
  by rewrite String.string_of_list_ascii_of_string.
Qed.

Lemma toLowerCase_same a b :
  bool_decide (toLowerCase a = toLowerCase b)
  = same_letters (String.list_ascii_of_string a) (String.list_ascii_of_string b).
Proof.
  revert b. induction a as [|c a IH]; intros [|d b]; simpl; try done.
  rewrite <- IH. destruct (Ascii.eqb_spec (lower_char c) (lower_char d)) as [->|Hne]; simpl.
  - apply bool_decide_ext. split; [by intros [= ->]|by intros ->].
  - apply bool_decide_eq_false. intros [= ? ?]. done.
Qed.

Lemma truthy_toLowerCase s :
  truthy (toLowerCase s) = match String.list_ascii_of_string s with [] => false | _ => true end.
Proof. by destruct s. Qed.

Lemma norm_trimmed n : String.list_ascii_of_string (trim (default EmptyString n)) = trimmed n.
Proof. destruct n as [s|]; [apply trim_trimmed|done]. Qed.

(** The test on names of the loop is the one of the specification. *)
Lemma same_name_spec {T} (getName : T -> ostring) y x :
  same_name getName y x = names_match (getName y) (getName x).
Proof.
  unfold same_name, names_match, norm.
  rewrite truthy_toLowerCase, toLowerCase_same, !norm_trimmed.
  by destruct (trimmed (getName x)).
Qed.

Lemma same_id_spec {T} (getId id_of : T -> ostring) y x :
  (forall z, truthyS (getId z) = present (id_of z)) ->
  (forall z, present (id_of z) = true -> getId z = id_of z) ->
  same_id getId y x = ids_match (id_of y) (id_of x).
Proof.
  intros Hp He. unfold same_id, ids_match. rewrite Hp.
  destruct (present (id_of x)) eqn:Hx; [|done]. simpl.
  pose proof (Hp x) as Htx. rewrite Hx, (He x Hx) in Htx.
  rewrite (He x Hx). apply bool_decide_ext. split.
  - intros Hy. rewrite <- (He y); [done|]. by rewrite <- Hp, Hy.
  - intros Hy. rewrite (He y); [done|]. by rewrite Hy.
Qed.

Lemma dedup_spec_first {T} (getId getName id_of : T -> ostring) items :
  (forall z, truthyS (getId z) = present (id_of z)) ->
  (forall z, present (id_of z) = true -> getId z = id_of z) ->
  dedup_spec getId getName items = first_occurrences id_of getName items.
Proof.
  intros Hp He. unfold dedup_spec, first_occurrences.
  assert (forall kept,
    fold_left (fun kept x => if seen_in getId getName kept x then kept else kept ++ [x])
              items kept
    = keep_from id_of getName kept items) as H; [|apply H].
  induction items as [|x items IH]; intros kept; [done|].
  simpl. rewrite <- IH.
  assert (seen_in getId getName kept x = seen id_of getName kept x) as ->; [|done].
  unfold seen, seen_in. clear IH. induction kept as [|y kept IHk]; [done|]. simpl.
  by rewrite IHk, (same_id_spec getId id_of y x Hp He), same_name_spec.
Qed.

Lemma keep_from_snoc {T} (id_of name_of : T -> ostring) items x : forall kept,
  keep_from id_of name_of kept (items ++ [x])
  = if seen id_of name_of (keep_from id_of name_of kept items) x
    then keep_from id_of name_of kept items
    else (keep_from id_of name_of kept items ++ [x])%list.
Proof. induction items as [|y items IH]; intros kept; [done|]. simpl. apply IH. Qed.

End MergeSpecFacts.

Section MergeFacts.
Import Js Types SnapshotDedup MergeSpec.

(** The two merges of the specification's examples. *)
Example merge_same_id :
  mergeBoards [board "b1" "Work"] [board "b1" "Work-renamed"] = [board "b1" "Work"].
Proof. vm_compute. reflexivity. Qed.

Example merge_same_name :
  mergeBoards [board "b1" "X"] [board "b2" " x "] = [board "b1" "X"].
Proof. vm_compute. reflexivity. Qed.

Example merge_services_by_url :
  mergeServices [mkService None (Some "http://a") (Some "A")]
                [mkService None (Some "http://a") (Some "B");
                 mkService (Some "srv-1") (Some "http://c") (Some "C")]
  = [mkService None (Some "http://a") (Some "A");
     mkService (Some "srv-1") (Some "http://c") (Some "C")].
Proof. vm_compute. reflexivity. Qed.

(** Several identical boards without id and with a blank name are all
    kept. *)
Example merge_blank_boards :
  mergeBoards [board "" " "; board "" " "] [board "" ""]
  = [board "" " "; board "" " "; board "" ""].
Proof. vm_compute. reflexivity. Qed.

(** C7. [mergeBoards] and [mergeServices] return the concatenation
    existing++incoming deduplicated with first occurrences preserved
    ([first_occurrences], written from the specification): an item is
    dropped if and only if its stable id (board id; service id, or url
    for a service without id) is present and is the one of an earlier
    kept item, or its name, trimmed and compared without regard to
    case, is not empty and is the one of an earlier kept item.  Two
    boards with the same id keep only the first, and two boards with
    different ids and the same normalized name keep only the first,
    also when the names differ in case and surrounding white space;
    two services without id and with the same url keep only the first,
    and two services with different ids are not matched by their
    url. *)
Theorem merge_dedup_first_occurrence :
  (forall existing incoming : list Board,
      mergeBoards existing incoming
      = first_occurrences board_id board_name (existing ++ incoming))
  /\ (forall existing incoming : list Service,
      mergeServices existing incoming
      = first_occurrences id_or_url s_name (existing ++ incoming))
  /\ (forall (T : Type) (id_of name_of : T -> ostring) items x,
      first_occurrences id_of name_of (items ++ [x])
      = if seen id_of name_of (first_occurrences id_of name_of items) x
        then first_occurrences id_of name_of items
        else (first_occurrences id_of name_of items ++ [x])%list)
  /\ mergeBoards [board "b1" "Work"] [board "b1" "Work-renamed"]
     = [board "b1" "Work"]
  /\ mergeBoards [board "b1" "X"] [board "b2" "X"] = [board "b1" "X"]
  /\ mergeBoards [board "b1" "My Board"] [board "b2" "  my BOARD "]
     = [board "b1" "My Board"]
  /\ mergeBoards [board "b1" "Work"] [board "b2" "Works"]
     = [board "b1" "Work"; board "b2" "Works"]
  /\ mergeServices [mkService None (Some "http://a") (Some "A")]
                   [mkService None (Some "http://a") (Some "B")]
     = [mkService None (Some "http://a") (Some "A")]
  /\ mergeServices [mkService (Some "") (Some "http://a") (Some "A")]
                   [mkService None (Some "http://a") (Some "B")]
     = [mkService (Some "") (Some "http://a") (Some "A")]
  /\ mergeServices [mkService (Some "s1") (Some "http://a") (Some "A")]
                   [mkService (Some "s2") (Some "http://a") (Some "B")]
     = [mkService (Some "s1") (Some "http://a") (Some "A");
        mkService (Some "s2") (Some "http://a") (Some "B")].
Proof.
  split; [|split; [|split]].
  - intros. unfold mergeBoards. rewrite snapshotDedup_spec.
    apply (dedup_spec_first _ _ board_id); [done|done].
  - intros. unfold mergeServices. rewrite snapshotDedup_spec.
    apply (dedup_spec_first _ _ id_or_url).
    + intros z. unfold or_else, id_or_url.
      by destruct (s_id z) as [[|c r]|]; simpl; destruct (s_url z) as [[|d u]|].
    + intros z. unfold or_else, id_or_url.
      by destruct (s_id z) as [[|c r]|]; simpl; destruct (s_url z) as [[|d u]|].
  - intros. apply keep_from_snoc.
  - repeat split; vm_compute; reflexivity.
Qed.

(** C9. [snapshotDedup], hence [mergeBoards] and [mergeServices], never
    drops an item whose id accessor yields a falsy value and whose name
    is empty or blank after trimming: the id-less, name-less items of
    the output are those of the input, in the same order and as many
    times, identical ones included. *)
Theorem dedup_keeps_blank_items :
  (forall (T : Type) (getId getName : T -> ostring) (items : list T),
      List.filter (blank getId getName) (snapshotDedup getId getName items)
      = List.filter (blank getId getName) items)
  /\ (forall existing incoming : list Board,
      List.filter (blank boardId boardName) (mergeBoards existing incoming)
      = List.filter (blank boardId boardName) (existing ++ incoming))
  /\ (forall existing incoming : list Service,
      List.filter (blank serviceKey s_name) (mergeServices existing incoming)
      = List.filter (blank serviceKey s_name) (existing ++ incoming)).
Proof.
  assert (forall (T : Type) (getId getName : T -> ostring) (items : list T),
      List.filter (blank getId getName) (snapshotDedup getId getName items)
      = List.filter (blank getId getName) items) as H.
  { intros. rewrite snapshotDedup_spec. unfold dedup_spec.
    by rewrite fold_step_blank. }
  split; [exact H|]. split; intros; apply H.
Qed.

End MergeFacts.

(** ** Snapshot coalescing *)
Section SnapshotFacts.
Import Js Snapshots.
Variable md5Hex : string -> string.

Lemma findIndex_first {A} (p : A -> bool) pre x post :
  Forall (fun y => p y = false) pre -> p x = true ->
  findIndex p (pre ++ x :: post) = Some (length pre).
Proof.
  induction 1 as [|y pre Hy _ IH]; intros Hx; simpl.
  - by rewrite Hx.
  - rewrite Hy, IH; done.
Qed.

Lemma findIndex_none {A} (p : A -> bool) l :
  Forall (fun y => p y = false) l -> findIndex p l = None.
Proof. induction 1 as [|y l Hy _ IH]; simpl; [done|]. by rewrite Hy, IH. Qed.

Lemma md5_test_false m l :
  Forall (fun s => snap_md5 s <> m) l ->
  Forall (fun s => String.eqb (snap_md5 s) m = false) l.
Proof. intros H. eapply Forall_impl; [exact H|]. intros s. by rewrite String.eqb_neq. Qed.

(** An entry with the same digest is refreshed and moved to the head. *)
Lemma upsert_existing now v pre e post name type cfg svc :
  snap_md5 e = md5Hex (cfg +:+ svc) ->
  Forall (fun s => snap_md5 s <> md5Hex (cfg +:+ svc)) pre ->
  upsertSnapshotByMd5 md5Hex now (mkStore v (Some (pre ++ e :: post))) name type cfg svc
  = mkUpsert (mkStore v (Some (refresh name now e :: pre ++ post)))
             (md5Hex (cfg +:+ svc)) true.
Proof.
  intros He Hpre. unfold upsertSnapshotByMd5. simpl.
  rewrite (findIndex_first _ pre e post).
  2: by apply md5_test_false.
  2: by apply String.eqb_eq.
  rewrite list_lookup_middle by done.
  rewrite insert_app_r_alt by done. rewrite Nat.sub_diag. simpl.
  destruct pre as [|p pre]; simpl; [done|].
  do 3 f_equal. by rewrite (delete_middle pre post).
Qed.

(** Without such an entry a new one is put at the head. *)
Lemma upsert_fresh now v l name type cfg svc :
  Forall (fun s => snap_md5 s <> md5Hex (cfg +:+ svc)) l ->
  upsertSnapshotByMd5 md5Hex now (mkStore v (Some l)) name type cfg svc
  = mkUpsert
      (mkStore v (Some (mkSnapshot name type (md5Hex (cfg +:+ svc)) cfg svc now :: l)))
      (md5Hex (cfg +:+ svc)) false.
Proof.
  intros Hl. unfold upsertSnapshotByMd5. simpl.
  by rewrite findIndex_none by by apply md5_test_false.
Qed.

End SnapshotFacts.

Section SnapshotSaves.
Import Js Snapshots.
Variable md5Hex : string -> string.

Lemma load_states stored l :
  states (loadStateStore stored) = Some l ->
  exists v, loadStateStore stored = mkStore v (Some l).
Proof.
  intros H. destruct (loadStateStore stored) as [v st]. simpl in H. subst.
  by exists v.
Qed.

Lemma load_saved v l :
  exists v', loadStateStore (Some (mkStore v (Some l))) = mkStore v' (Some l).
Proof. destruct v; simpl; eauto. Qed.

Lemma save_existing now stored pre e post name type cfg svc :
  states (loadStateStore stored) = Some (pre ++ e :: post) ->
  snap_md5 e = md5Hex (cfg +:+ svc) ->
  Forall (fun s => snap_md5 s <> md5Hex (cfg +:+ svc)) pre ->
  exists v,
    saveStateSnapshot md5Hex now stored name type cfg svc
    = (Some (mkStore v (Some (refresh name now e :: pre ++ post))),
       md5Hex (cfg +:+ svc)).
Proof.
  intros Hl He Hpre. apply load_states in Hl as [v Hl].
  exists v. unfold saveStateSnapshot. rewrite Hl.
  by rewrite upsert_existing.
Qed.

Lemma save_fresh now stored l name type cfg svc :
  states (loadStateStore stored) = Some l ->
  Forall (fun s => snap_md5 s <> md5Hex (cfg +:+ svc)) l ->
  exists v,
    saveStateSnapshot md5Hex now stored name type cfg svc
    = (Some (mkStore v
         (Some (mkSnapshot name type (md5Hex (cfg +:+ svc)) cfg svc now :: l))),
       md5Hex (cfg +:+ svc)).
Proof.
  intros Hl Hfresh. apply load_states in Hl as [v Hl].
  exists v. unfold saveStateSnapshot. rewrite Hl.
  by rewrite upsert_fresh.
Qed.

End SnapshotSaves.

(** C4. In every state store (an object whose [states] is an array), a
    snapshot whose MD5 of cfg+svc equals that of an existing entry adds
    no entry: the first such entry gets the new timestamp, gets the new
    name only when that is not empty, and moves to the head of the list;
    when no entry has that MD5 a new entry is prepended.  Hence two
    saves with identical cfg+svc content leave exactly one entry for it,
    at the head, and a save with different content (another digest)
    adds a distinct entry. *)
Theorem snapshot_coalescing (md5Hex : string -> string) :
  (forall now v pre e post name type cfg svc,
      Snapshots.snap_md5 e = md5Hex (cfg +:+ svc) ->
      Forall (fun s => Snapshots.snap_md5 s <> md5Hex (cfg +:+ svc)) pre ->
      Snapshots.upsertSnapshotByMd5 md5Hex now
        (Snapshots.mkStore v (Some (pre ++ e :: post))) name type cfg svc
      = Snapshots.mkUpsert
          (Snapshots.mkStore v (Some (Snapshots.refresh name now e :: pre ++ post)))
          (md5Hex (cfg +:+ svc)) true)
  /\ (forall now v l name type cfg svc,
      Forall (fun s => Snapshots.snap_md5 s <> md5Hex (cfg +:+ svc)) l ->
      Snapshots.upsertSnapshotByMd5 md5Hex now
        (Snapshots.mkStore v (Some l)) name type cfg svc
      = Snapshots.mkUpsert
          (Snapshots.mkStore v
             (Some (Snapshots.mkSnapshot name type (md5Hex (cfg +:+ svc)) cfg svc now :: l)))
          (md5Hex (cfg +:+ svc)) false)
  /\ (forall now1 now2 stored l n1 t1 cfg1 svc1 n2 t2 cfg2 svc2,
      Snapshots.states (Snapshots.loadStateStore stored) = Some l ->
      Forall (fun s => Snapshots.snap_md5 s <> md5Hex (cfg1 +:+ svc1)) l ->
      cfg1 +:+ svc1 = cfg2 +:+ svc2 ->
      let stored1 := (Snapshots.saveStateSnapshot md5Hex now1 stored n1 t1 cfg1 svc1).1 in
      let stored2 := (Snapshots.saveStateSnapshot md5Hex now2 stored1 n2 t2 cfg2 svc2).1 in
      Snapshots.states <$> stored2
      = Some (Some (Snapshots.mkSnapshot (if Js.truthy n2 then n2 else n1) t1
                      (md5Hex (cfg1 +:+ svc1)) cfg1 svc1 now2 :: l)))
  /\ (forall now1 now2 stored l n1 t1 cfg1 svc1 n2 t2 cfg2 svc2,
      Snapshots.states (Snapshots.loadStateStore stored) = Some l ->
      Forall (fun s => Snapshots.snap_md5 s <> md5Hex (cfg1 +:+ svc1)) l ->
      Forall (fun s => Snapshots.snap_md5 s <> md5Hex (cfg2 +:+ svc2)) l ->
      md5Hex (cfg1 +:+ svc1) <> md5Hex (cfg2 +:+ svc2) ->
      let stored1 := (Snapshots.saveStateSnapshot md5Hex now1 stored n1 t1 cfg1 svc1).1 in
      let stored2 := (Snapshots.saveStateSnapshot md5Hex now2 stored1 n2 t2 cfg2 svc2).1 in
      Snapshots.states <$> stored2
      = Some (Some (Snapshots.mkSnapshot n2 t2 (md5Hex (cfg2 +:+ svc2)) cfg2 svc2 now2
                    :: Snapshots.mkSnapshot n1 t1 (md5Hex (cfg1 +:+ svc1)) cfg1 svc1 now1
                    :: l))).
Proof.
  split; [|split; [|split]].
  - intros. by apply upsert_existing.
  - intros. by apply upsert_fresh.
  - intros now1 now2 stored l n1 t1 cfg1 svc1 n2 t2 cfg2 svc2 Hl Hfresh Hsame.
    destruct (save_fresh md5Hex now1 stored l n1 t1 cfg1 svc1 Hl Hfresh) as [v1 H1].
    cbv zeta. rewrite H1. cbn [fst].
    destruct (load_saved v1
      (Snapshots.mkSnapshot n1 t1 (md5Hex (cfg1 +:+ svc1)) cfg1 svc1 now1 :: l))
      as [v1' Hload].
    edestruct (save_existing md5Hex now2
      (Some (Snapshots.mkStore v1
         (Some (Snapshots.mkSnapshot n1 t1 (md5Hex (cfg1 +:+ svc1)) cfg1 svc1 now1 :: l))))
      [] (Snapshots.mkSnapshot n1 t1 (md5Hex (cfg1 +:+ svc1)) cfg1 svc1 now1)
      l n2 t2 cfg2 svc2) as [v2 H2].
    { rewrite Hload. reflexivity. }
    { simpl. by rewrite Hsame. }
    { constructor. }
    rewrite H2. reflexivity.
  - intros now1 now2 stored l n1 t1 cfg1 svc1 n2 t2 cfg2 svc2 Hl Hf1 Hf2 Hdiff.
    destruct (save_fresh md5Hex now1 stored l n1 t1 cfg1 svc1 Hl Hf1) as [v1 H1].
    cbv zeta. rewrite H1. cbn [fst].
    destruct (load_saved v1
      (Snapshots.mkSnapshot n1 t1 (md5Hex (cfg1 +:+ svc1)) cfg1 svc1 now1 :: l))
      as [v1' Hload].
    edestruct (save_fresh md5Hex now2
      (Some (Snapshots.mkStore v1
         (Some (Snapshots.mkSnapshot n1 t1 (md5Hex (cfg1 +:+ svc1)) cfg1 svc1 now1 :: l))))
      (Snapshots.mkSnapshot n1 t1 (md5Hex (cfg1 +:+ svc1)) cfg1 svc1 now1 :: l)
      n2 t2 cfg2 svc2) as [v2 H2].
    { rewrite Hload. reflexivity. }
    { constructor; [simpl; done|done]. }
    rewrite H2. reflexivity.
Qed.

(** Two saves of the same content under two names into an empty storage,
    with the identity standing for the digest. *)
Lemma snapshot_coalescing_witness :
  Snapshots.states <$>
    (Snapshots.saveStateSnapshot (fun s => s) 20
       (Snapshots.saveStateSnapshot (fun s => s) 10 None
          "first" "autosave" "cfg" "svc").1
       "second" "exported" "cfg" "svc").1
  = Some (Some [Snapshots.mkSnapshot "second" "autosave" "cfgsvc" "cfg" "svc" 20]).
Proof.
  apply (proj1 (proj2 (proj2 (snapshot_coalescing (fun s => s))))
           10%Z 20%Z None [] "first" "autosave" "cfg" "svc"
           "second" "exported" "cfg" "svc").
  - reflexivity.
  - constructor.
  - reflexivity.
Defined.

(** ** The eviction view-model *)
Section EvictionFacts.
Import Js EvictionViewModel.

Lemma set_has_true x s : set_has x s = true <-> x ∈ s.
Proof.
  unfold set_has. rewrite existsb_exists. split.
  - intros (y & Hy & Heq). apply String.eqb_eq in Heq as ->.
    by apply list_elem_of_In.
  - intros Hx. exists x. split; [by apply list_elem_of_In|apply String.eqb_refl].
Qed.

Lemma set_has_false x s : set_has x s = false <-> x ∉ s.
Proof.
  rewrite <- set_has_true. destruct (set_has x s); naive_solver.
Qed.

Lemma set_delete_absent x s : x ∉ s -> set_delete x s = s.
Proof.
  induction s as [|y s IH]; [done|]. intros Hx.
  apply not_elem_of_cons in Hx as [Hne Hx]. simpl.
  destruct (String.eqb_spec x y); [done|]. simpl. by rewrite IH.
Qed.

Lemma remove_first_nodup x s : NoDup s -> remove_first x s = set_delete x s.
Proof.
  induction 1 as [|y s Hy _ IH]; [done|]. simpl.
  destruct (String.eqb_spec x y) as [->|Hne]; simpl.
  - by rewrite set_delete_absent.
  - by rewrite IH.
Qed.

Lemma set_delete_sub x s y : y ∈ set_delete x s -> y ∈ s /\ y <> x.
Proof.
  unfold set_delete. rewrite !list_elem_of_In, List.filter_In.
  intros [Hy Hne]. split; [done|]. intros ->.
  by rewrite String.eqb_refl in Hne.
Qed.

Lemma set_delete_nodup x s : NoDup s -> NoDup (set_delete x s).
Proof.
  induction 1 as [|y s Hy _ IH]; simpl; [constructor|].
  destruct (String.eqb x y); simpl; [done|].
  constructor; [|done]. intros Hin. by apply set_delete_sub in Hin as [??].
Qed.

Lemma set_delete_length x s : length (set_delete x s) <= length s.
Proof. induction s as [|y s IH]; simpl; [lia|]. destruct (String.eqb x y); simpl; lia. Qed.

Lemma toggle_selection_ok limit id st :
  (0 < limit)%Z -> truthy id = true ->
  selection_ok limit st -> selection_ok limit (toggle limit id st).1.
Proof.
  intros Hlim Hid (Hord & Hnd & Htr & Hsz & _). unfold toggle.
  destruct (set_has id (selectedIds st)) eqn:Hhas; simpl.
  - rewrite Hord, (remove_first_nodup _ _ Hnd). unfold selection_ok, update. simpl.
    repeat split; try done.
    + by apply set_delete_nodup.
    + apply Forall_forall. intros y Hy. apply set_delete_sub in Hy as [Hy _].
      by eapply Forall_forall in Htr.
    + pose proof (set_delete_length id (selectedIds st)). unfold size in *. lia.
  - apply set_has_false in Hhas.
    destruct (Z.eqb_spec (size (selectedIds st)) limit) as [Heq|Hne].
    + rewrite Hord. destruct (selectedIds st) as [|r rest] eqn:Hids.
      { unfold size in Heq. simpl in Heq. lia. }
      apply NoDup_cons in Hnd as [Hr Hnd].
      apply Forall_cons in Htr as [Hrt Htr]. rewrite Hrt. simpl.
      rewrite String.eqb_refl. simpl. rewrite (set_delete_absent _ _ Hr).
      apply not_elem_of_cons in Hhas as [_ Hhas].
      unfold set_add. rewrite (proj2 (set_has_false id rest) Hhas).
      unfold selection_ok, update. simpl.
      repeat split; try done.
      * apply NoDup_app. repeat split; [done| |apply NoDup_singleton].
        intros y Hy ->%list_elem_of_singleton. done.
      * apply Forall_app. split; [done|]. by repeat constructor.
      * unfold size in *. rewrite length_app. simpl in *. lia.
    + simpl. unfold set_add. rewrite (proj2 (set_has_false id _) Hhas).
      rewrite Hord. unfold selection_ok, update. simpl. repeat split; try done.
      * apply NoDup_app. repeat split; [done| |apply NoDup_singleton].
        intros y Hy ->%list_elem_of_singleton. done.
      * apply Forall_app. split; [done|]. by repeat constructor.
      * unfold size in *. rewrite length_app. simpl in *. lia.
Qed.

Lemma toggles_snoc limit ids id :
  toggles limit (ids ++ [id]) = (toggle limit id (toggles limit ids)).1.
Proof. unfold toggles. by rewrite fold_left_app. Qed.

(** With non-empty ids the selection never exceeds the limit, and
    [canProceed] tells whether the limit is reached. *)
Lemma toggles_bounded (n : Z) ids :
  (0 < n)%Z -> Forall (fun x => truthy x = true) ids ->
  selection_ok (selectionLimit (Some n)) (toggles (selectionLimit (Some n)) ids).
Proof.
  intros Hn. assert (selectionLimit (Some n) = n) as ->.
  { unfold selectionLimit. destruct (Z.ltb_spec 0 n); [done|lia]. }
  induction ids as [|id ids IH] using rev_ind; intros Hids.
  - unfold toggles, selection_ok, size. simpl. repeat split; try constructor.
    + lia.
    + by destruct n.
  - rewrite toggles_snoc. apply Forall_app in Hids as [Hids Hid].
    apply toggle_selection_ok; [done| |by apply IH].
    by inversion Hid.
Qed.

(** At the limit, a new non-empty id replaces the earliest selected
    one. *)
Lemma toggle_fifo limit id st r rest :
  selection_ok limit st ->
  selectedIds st = r :: rest -> size (selectedIds st) = limit ->
  id ∉ selectedIds st ->
  toggle limit id st
  = (update limit (rest ++ [id]) (rest ++ [id]), Some r).
Proof.
  intros (Hord & Hnd & Htr & _) Hids Hsz Hid. unfold toggle.
  rewrite (proj2 (set_has_false _ _) Hid), Hord, Hids.
  rewrite Hids in Hsz, Hnd, Htr, Hid. rewrite Hsz, Z.eqb_refl.
  apply NoDup_cons in Hnd as [Hr _]. apply Forall_cons in Htr as [-> _].
  simpl. rewrite String.eqb_refl. simpl. rewrite (set_delete_absent _ _ Hr).
  apply not_elem_of_cons in Hid as [_ Hid].
  unfold set_add. by rewrite (proj2 (set_has_false id rest) Hid).
Qed.

End EvictionFacts.

(** The bound of the specification's example: three non-empty ids under
    [requiredCount = 2]. *)
Example toggle_three_ids :
  EvictionViewModel.toggles (EvictionViewModel.selectionLimit (Some 2%Z)) ["a"; "b"; "c"]
  = EvictionViewModel.mkState ["b"; "c"] ["b"; "c"] true.
Proof. reflexivity. Qed.

(** ** The per-service add-lock of the widget store *)
Section LockFacts.
Import WidgetStore.

Lemma lock_counts_positive n s : counts_positive s -> counts_positive (lock n s).
Proof.
  intros Hs k v. unfold lock. simpl. rewrite lookup_insert.
  case_decide as Hk.
  - intros [= <-]. destruct (serviceLocks s !! n) as [c|] eqn:E; simpl; [|lia].
    apply Hs in E. lia.
  - apply Hs.
Qed.

Lemma unlock_counts_positive n s : counts_positive s -> counts_positive (unlock n s).
Proof.
  intros Hs k v. unfold unlock.
  destruct (Z.eqb_spec (default 1%Z (serviceLocks s !! n) - 1) 0) as [H0|H0]; simpl.
  - rewrite lookup_delete. case_decide; [done|apply Hs].
  - rewrite lookup_insert. case_decide; [|apply Hs].
    intros [= <-]. destruct (serviceLocks s !! n) as [c|] eqn:E; simpl in *; [|lia].
    apply Hs in E. lia.
Qed.

Lemma lockCalls_counts_positive cs s :
  counts_positive s -> counts_positive (lockCalls cs s).
Proof.
  revert s; induction cs as [|c cs IH]; intros s Hs; [done|].
  simpl. apply IH. destruct c; [by apply lock_counts_positive|by apply unlock_counts_positive].
Qed.

Lemma lock_other n name s : n <> name ->
  serviceLocks (lock n s) !! name = serviceLocks s !! name.
Proof. intros Hne. unfold lock. simpl. by rewrite lookup_insert_ne. Qed.

Lemma unlock_other n name s : n <> name ->
  serviceLocks (unlock n s) !! name = serviceLocks s !! name.
Proof.
  intros Hne. unfold unlock.
  destruct (default 1%Z (serviceLocks s !! n) - 1 =? 0)%Z; simpl.
  - by rewrite lookup_delete_ne.
  - by rewrite lookup_insert_ne.
Qed.

Lemma lock_records name held s :
  records name held s -> records name (S held) (lock name s).
Proof.
  unfold records, lock. intros H. simpl. rewrite lookup_insert_eq, H.
  f_equal. destruct held; simpl; lia.
Qed.

Lemma unlock_records name held s :
  records name (S held) s -> records name held (unlock name s).
Proof.
  unfold records, unlock. intros H. rewrite H. simpl default.
  destruct held as [|held].
  - simpl. by rewrite lookup_delete_eq.
  - destruct (Z.eqb_spec (Z.of_nat (S (S held)) - 1) 0) as [H0|H0]; [lia|].
    simpl. rewrite lookup_insert_eq. f_equal. lia.
Qed.

Lemma lockCalls_records name cs : forall held s k,
  records name held s -> pending name cs held = Some k ->
  records name k (lockCalls cs s).
Proof.
  induction cs as [|c cs IH]; intros held s k Hs Hp; simpl in *.
  - by injection Hp as <-.
  - destruct c as [n|n]; simpl; destruct (String.eqb_spec n name) as [->|Hne].
    + eapply IH; [|exact Hp]. by apply lock_records.
    + eapply IH; [|exact Hp]. unfold records. by rewrite lock_other.
    + destruct held as [|held]; [done|].
      eapply IH; [|exact Hp]. by apply unlock_records.
    + eapply IH; [|exact Hp]. unfold records. by rewrite unlock_other.
Qed.

Lemma pending_counts name cs : forall held k,
  pending name cs held = Some k ->
  held + count_locks name cs = count_unlocks name cs + k.
Proof.
  unfold count_locks, count_unlocks.
  induction cs as [|c cs IH]; intros held k Hp; simpl in *.
  - injection Hp as <-. lia.
  - destruct c as [n|n]; destruct (String.eqb n name); simpl.
    + apply IH in Hp. lia.
    + by apply IH.
    + destruct held as [|held]; [done|]. apply IH in Hp. lia.
    + by apply IH.
Qed.

End LockFacts.

(** The claim as first stated fails when an [unlock] comes before the
    [lock] it is counted against: one call of each, and the service is
    still marked as being added. *)
Lemma unlock_before_lock_still_adding :
  ~ (forall cs maxSize name,
        WidgetStore.count_locks name cs = WidgetStore.count_unlocks name cs ->
        WidgetStore.isAdding name
          (WidgetStore.lockCalls cs (WidgetStore.new maxSize)) = false).
Proof.
  intros H.
  specialize (H [WidgetStore.CallUnlock "svc"; WidgetStore.CallLock "svc"]
                10%Z "svc" eq_refl).
  vm_compute in H. discriminate H.
Qed.

(** C10 (amended).  The per-service reference count is never stored as
    zero or negative: after any sequence of [lock]/[unlock] calls every
    entry of the lock map is at least 1; [unlock] on a service with
    count 1, or with no entry, leaves no entry, so that [isAdding] is
    false; and after a sequence with equally many [lock] and [unlock]
    calls for a name in which every [unlock] for that name releases a
    [lock] taken before it, [isAdding] is false for that name. *)
Theorem lock_counts_never_zero :
  (forall cs maxSize k v,
      WidgetStore.serviceLocks
        (WidgetStore.lockCalls cs (WidgetStore.new maxSize)) !! k = Some v ->
      (1 <= v)%Z)
  /\ (forall name s,
      WidgetStore.serviceLocks s !! name = Some 1%Z
      \/ WidgetStore.serviceLocks s !! name = None ->
      WidgetStore.serviceLocks (WidgetStore.unlock name s) !! name = None
      /\ WidgetStore.isAdding name (WidgetStore.unlock name s) = false)
  /\ (forall cs maxSize name,
      WidgetStore.pending name cs 0 <> None ->
      WidgetStore.count_locks name cs = WidgetStore.count_unlocks name cs ->
      WidgetStore.isAdding name
        (WidgetStore.lockCalls cs (WidgetStore.new maxSize)) = false).
Proof.
  split; [|split].
  - intros cs maxSize. apply lockCalls_counts_positive.
    intros k v. simpl. by rewrite lookup_empty.
  - intros name s Hs.
    assert (WidgetStore.serviceLocks (WidgetStore.unlock name s) !! name = None) as Hn.
    { unfold WidgetStore.unlock. destruct Hs as [-> | ->]; simpl.
      all: by rewrite lookup_delete_eq. }
    split; [done|]. unfold WidgetStore.isAdding. rewrite Hn.
    apply bool_decide_eq_false. by intros [? ?].
  - intros cs maxSize name Hp Heq.
    destruct (WidgetStore.pending name cs 0) as [k|] eqn:Hk; [|done].
    pose proof (pending_counts _ _ _ _ Hk) as Hc.
    assert (k = 0) as -> by lia.
    pose proof (lockCalls_records name cs 0 (WidgetStore.new maxSize) 0) as Hr.
    unfold WidgetStore.records in Hr. unfold WidgetStore.isAdding.
    rewrite Hr; [|by simpl; rewrite lookup_empty|done].
    apply bool_decide_eq_false. by intros [? ?].
Qed.

Lemma lock_counts_never_zero_witness :
  WidgetStore.isAdding "api"
    (WidgetStore.lockCalls
       [WidgetStore.CallLock "api"; WidgetStore.CallLock "web";
        WidgetStore.CallLock "api"; WidgetStore.CallUnlock "api";
        WidgetStore.CallUnlock "api"]
       (WidgetStore.new 10)) = false.
Proof.
  apply (proj2 (proj2 lock_counts_never_zero)).
  - vm_compute. discriminate.
  - reflexivity.
Defined.

(** ** The recency order of the widget store *)
Section JsMapFacts.
Context {V : Type}.
Implicit Types m : list (string * V).

Lemma jsmap_has_true k m : JsMap.has k m = true <-> k ∈ m.*1.
Proof.
  unfold JsMap.has. rewrite existsb_exists, list_elem_of_fmap. split.
  - intros ([k' v] & Hin & Heq). apply String.eqb_eq in Heq. simpl in Heq. subst.
    exists (k', v). split; [done|by apply list_elem_of_In].
  - intros ([k' v] & -> & Hin). exists (k', v).
    split; [by apply list_elem_of_In|apply String.eqb_refl].
Qed.

Lemma jsmap_has_false k m : JsMap.has k m = false <-> k ∉ m.*1.
Proof. rewrite <- jsmap_has_true. destruct (JsMap.has k m); naive_solver. Qed.

Lemma jsmap_delete_absent k m : k ∉ m.*1 -> JsMap.delete k m = m.
Proof.
  induction m as [|[k' v] m IH]; [done|]. simpl. intros Hk.
  apply not_elem_of_cons in Hk as [Hne Hk].
  destruct (String.eqb_spec k k'); [done|]. simpl. by rewrite IH.
Qed.

Lemma jsmap_delete_keys k m k' : k' ∈ (JsMap.delete k m).*1 -> k' ∈ m.*1 /\ k' <> k.
Proof.
  induction m as [|[k0 v] m IH]; simpl; [by intros ?%elem_of_nil|].
  destruct (String.eqb_spec k k0) as [->|Hne]; simpl.
  - intros [? ?]%IH. split; [by right|done].
  - intros [->|[? ?]%IH]%elem_of_cons.
    + split; [by left|done].
    + split; [by right|done].
Qed.

Lemma jsmap_delete_nodup k m : NoDup m.*1 -> NoDup (JsMap.delete k m).*1.
Proof.
  induction m as [|[k0 v] m IH]; simpl; [done|].
  intros [Hk0 Hnd]%NoDup_cons. destruct (String.eqb k k0); simpl; [by apply IH|].
  apply NoDup_cons. split; [|by apply IH].
  intros Hin. by apply jsmap_delete_keys in Hin as [? ?].
Qed.

Lemma jsmap_delete_not_in k m : k ∉ (JsMap.delete k m).*1.
Proof. intros Hin. by apply jsmap_delete_keys in Hin as [? ?]. Qed.

Lemma jsmap_set_absent k v m : k ∉ m.*1 -> JsMap.set k v m = (m ++ [(k, v)])%list.
Proof.
  induction m as [|[k' v'] m IH]; [done|]. simpl. intros Hk.
  apply not_elem_of_cons in Hk as [Hne Hk].
  destruct (String.eqb_spec k k'); [done|]. by rewrite IH.
Qed.

Lemma jsmap_delete_length k m : length (JsMap.delete k m) <= length m.
Proof.
  induction m as [|[k' v'] m IH]; simpl; [lia|].
  destruct (String.eqb k k'); simpl; lia.
Qed.

Lemma jsmap_delete_present k m :
  k ∈ m.*1 -> S (length (JsMap.delete k m)) <= length m.
Proof.
  induction m as [|[k' v'] m IH]; simpl; [by intros ?%elem_of_nil|].
  intros Hin. destruct (String.eqb_spec k k') as [->|Hne]; simpl.
  - pose proof (jsmap_delete_length k' m). lia.
  - apply elem_of_cons in Hin as [->|Hin]; [done|]. apply IH in Hin. lia.
Qed.

Lemma jsmap_get_some k m v : JsMap.get k m = Some v -> k ∈ m.*1.
Proof.
  induction m as [|[k' v'] m IH]; simpl; [done|].
  destruct (String.eqb_spec k k') as [->|Hne]; [by left|]. right. by apply IH.
Qed.

End JsMapFacts.

Section StoreFacts.
Import Js Types WidgetStore.

Lemma ensureLimit_loop_unfold fuel st :
  ensureLimit_loop fuel st
  = if (maxSize st.2 <? JsMap.size (widgets st.2))%Z then
      match fuel with
      | O => None
      | S fuel' => ensureLimit_loop fuel' (_evict (oldestId st.2) st)
      end
    else Some st.
Proof. by destruct fuel. Qed.

Lemma evict_oldest dom M k v rest locks log :
  k ∉ rest.*1 ->
  _evict (oldestId (mkStore M ((k, v) :: rest) locks log))
         (dom, mkStore M ((k, v) :: rest) locks log)
  = (Dom.remove v dom, mkStore M rest locks (log ++ [k])).
Proof.
  intros Hk. cbn. rewrite String.eqb_refl. cbn.
  change (List.filter _ rest) with (JsMap.delete k rest).
  by rewrite (jsmap_delete_absent _ _ Hk).
Qed.

Lemma ensureLimit_loop_front fuel : forall dom s,
  (0 <= maxSize s)%Z -> NoDup (widgets s).*1 -> length (widgets s) <= fuel ->
  exists gone dom' w',
    ensureLimit_loop fuel (dom, s)
    = Some (dom', mkStore (maxSize s) w' (serviceLocks s) (evictLog s ++ gone.*1))
    /\ widgets s = (gone ++ w')%list
    /\ (JsMap.size w' <= maxSize s)%Z
    /\ Dom.elements dom' = Dom.elements dom.
Proof.
  induction fuel as [|fuel IH]; intros dom [M w locks log] HM Hnd Hfuel;
    rewrite ensureLimit_loop_unfold;
    cbn [maxSize widgets serviceLocks evictLog snd] in *;
    destruct (Z.ltb_spec M (JsMap.size w)) as [Hover|Hok].
  - unfold JsMap.size in Hover. lia.
  - exists [], dom, w. rewrite app_nil_r. by repeat split.
  - destruct w as [|[k v] rest]; [unfold JsMap.size in Hover; simpl in Hover; lia|].
    rewrite fmap_cons in Hnd. apply NoDup_cons in Hnd as [Hk Hnd].
    rewrite (evict_oldest _ _ _ _ _ _ _ Hk).
    destruct (IH (Dom.remove v dom) (mkStore M rest locks (log ++ [k])))
      as (gone & dom' & w' & Hloop & Hw & Hsz & Hel);
      cbn [maxSize widgets serviceLocks evictLog] in *;
      [done|done|simpl in Hfuel; lia|].
    cbn [fst]. exists ((k, v) :: gone), dom', w'. rewrite Hloop, <- app_assoc. cbn.
    repeat split; try done. by rewrite Hw.
  - exists [], dom, w. rewrite app_nil_r. by repeat split.
Qed.

(** [add] of an element with a data id: the element becomes the most
    recent entry, and what is evicted is the front of the order. *)
Lemma add_evicts_front el e id dom s :
  Dom.elements dom !! el = Some e -> Dom.ds_dataid e = Some id -> truthy id = true ->
  (0 <= maxSize s)%Z -> NoDup (widgets s).*1 ->
  exists gone dom' s',
    add el (dom, s) = Some (dom', s')
    /\ (gone ++ widgets s')%list = (JsMap.delete id (widgets s) ++ [(id, el)])%list
    /\ evictLog s' = (evictLog s ++ gone.*1)%list
    /\ (JsMap.size (widgets s') <= maxSize s)%Z
    /\ maxSize s' = maxSize s
    /\ NoDup (widgets s').*1.
Proof.
  intros He Hid Ht HM Hnd. unfold add. rewrite He, Hid, Ht.
  set (w1 := if JsMap.has id (widgets s) then JsMap.delete id (widgets s)
             else widgets s).
  assert (w1 = JsMap.delete id (widgets s)) as ->.
  { subst w1. destruct (JsMap.has id (widgets s)) eqn:Hhas; [done|].
    apply jsmap_has_false in Hhas. by rewrite jsmap_delete_absent. }
  rewrite jsmap_set_absent by apply jsmap_delete_not_in.
  assert (NoDup (JsMap.delete id (widgets s) ++ [(id, el)]).*1) as Hnd'.
  { rewrite fmap_app. apply NoDup_app. repeat split.
    - by apply jsmap_delete_nodup.
    - intros k Hk ->%list_elem_of_singleton. by apply jsmap_delete_not_in in Hk.
    - apply NoDup_singleton. }
  unfold _ensureLimit.
  destruct (ensureLimit_loop_front
              (length (JsMap.delete id (widgets s) ++ [(id, el)])) dom
              (with_widgets (JsMap.delete id (widgets s) ++ [(id, el)]) s))
    as (gone & dom' & w' & Hloop & Hw & Hsz & _); simpl; [done|done|done|].
  simpl in *. exists gone, dom', (mkStore (maxSize s) w' (serviceLocks s)
                                    (evictLog s ++ gone.*1)).
  rewrite Hloop. simpl. repeat split; [done|done|].
  rewrite Hw, fmap_app in Hnd'. by apply NoDup_app in Hnd' as (_ & _ & ?).
Qed.

Lemma get_recency id dom s :
  NoDup (widgets s).*1 ->
  match JsMap.get id (widgets s) with
  | Some el =>
      get id (dom, s)
      = ((dom, with_widgets (JsMap.delete id (widgets s) ++ [(id, el)]) s), Some el)
  | None => get id (dom, s) = ((dom, s), None)
  end.
Proof.
  intros Hnd. unfold get. destruct (JsMap.get id (widgets s)) as [el|] eqn:Hget.
  - rewrite (proj2 (jsmap_has_true id (widgets s))) by by eapply jsmap_get_some.
    by rewrite jsmap_set_absent by apply jsmap_delete_not_in.
  - by destruct (JsMap.has id (widgets s)).
Qed.

Lemma get_within M id st : within M st -> within M (get id st).1.
Proof.
  destruct st as [dom s]. intros (HM & Hnd & Hsz).
  pose proof (get_recency id dom s Hnd) as Hg.
  destruct (JsMap.get id (widgets s)) as [el|] eqn:Hget; rewrite Hg; [|done].
  unfold within, with_widgets. cbn [fst snd widgets maxSize] in *.
  repeat split; [done| |].
  - rewrite fmap_app. apply NoDup_app. repeat split.
    + by apply jsmap_delete_nodup.
    + intros k Hk ->%list_elem_of_singleton. by apply jsmap_delete_not_in in Hk.
    + apply NoDup_singleton.
  - apply jsmap_get_some, (jsmap_delete_present id) in Hget.
    unfold JsMap.size in *. rewrite length_app. simpl. lia.
Qed.

Lemma show_within M id st : within M st -> within M (show id st).
Proof.
  intros H. apply (get_within M id) in H. unfold show.
  destruct (get id st) as [[dom s] [el|]]; exact H.
Qed.

Lemma hide_within M id st : within M st -> within M (hide id st).
Proof.
  destruct st as [dom s]. unfold hide.
  by destruct (JsMap.get id (widgets s)).
Qed.

Lemma add_within M el st :
  (0 <= M)%Z -> within M st -> exists st', add el st = Some st' /\ within M st'.
Proof.
  destruct st as [dom s]. intros HM (HMs & Hnd & Hsz). cbn [fst snd] in *.
  destruct (Dom.elements dom !! el) as [e|] eqn:He.
  2: { exists (dom, s). unfold add. rewrite He. by repeat split. }
  destruct (Dom.ds_dataid e) as [id|] eqn:Hid.
  2: { exists (dom, s). unfold add. rewrite He, Hid. by repeat split. }
  destruct (truthy id) eqn:Ht.
  2: { exists (dom, s). unfold add. rewrite He, Hid, Ht. by repeat split. }
  destruct (add_evicts_front el e id dom s He Hid Ht) as
    (gone & dom' & s' & Hadd & _ & _ & Hsz' & HM' & Hnd'); [lia|done|].
  exists (dom', s'). split; [done|]. repeat split; cbn [fst snd]; [congruence|done|lia].
Qed.

Lemma calls_within M cs : forall st,
  (0 <= M)%Z -> within M st -> exists st', calls cs st = Some st' /\ within M st'.
Proof.
  induction cs as [|c cs IH]; intros st HM Hst; simpl.
  - by exists st.
  - destruct c as [el|id|id|id]; simpl.
    + destruct (add_within M el st HM Hst) as (st' & -> & Hst'). by apply IH.
    + apply IH; [done|]. by apply get_within.
    + apply IH; [done|]. by apply show_within.
    + apply IH; [done|]. by apply hide_within.
Qed.

End StoreFacts.

(** A negative capacity makes [_ensureLimit] spin: no amount of fuel
    lets the loop return. *)
Lemma ensureLimit_negative_capacity fuel : forall st,
  (WidgetStore.maxSize st.2 < 0)%Z -> WidgetStore.ensureLimit_loop fuel st = None.
Proof.
  induction fuel as [|fuel IH]; intros [dom s] Hneg;
    rewrite ensureLimit_loop_unfold; cbn [snd] in *;
    destruct (Z.ltb_spec (WidgetStore.maxSize s) (JsMap.size (WidgetStore.widgets s)))
      as [_|Hok]; try done.
  1,3: unfold JsMap.size in Hok; lia.
  apply IH. unfold WidgetStore._evict.
  destruct (WidgetStore.oldestId s) as [k|]; [|done].
  by destruct (JsMap.get k (WidgetStore.widgets s)).
Qed.

(** Three adds into a store of capacity two: the first id is evicted. *)
Example store_add_three :
  let dom0 :=
    Dom.mkDom {[ 0 := WidgetStore.plainElement "a" "svc";
                 1 := WidgetStore.plainElement "b" "svc";
                 2 := WidgetStore.plainElement "c" "svc" ]} [0; 1; 2] "" "" 3 in
  (fun st => (WidgetStore.widgets st.2, WidgetStore.evictLog st.2, Dom.container st.1))
    <$> WidgetStore.calls
          [WidgetStore.CallAdd 0; WidgetStore.CallAdd 1; WidgetStore.CallGet "a";
           WidgetStore.CallAdd 2]
          (dom0, WidgetStore.new 2)
  = Some ([("a", 0); ("c", 2)], ["b"], [0; 2]).
Proof. vm_compute. reflexivity. Qed.

(** C3. With a capacity [maxSize >= 0], every sequence of [add] calls,
    interleaved with [get]/[show]/[hide], runs to its end and leaves
    [widgets.size <= maxSize]; the same holds after any further [add],
    whose evicted entries are the front of the map's insertion order,
    the id added (or re-added) being moved to the most recent end
    before; and [get] moves its id to the most recent end. *)
Theorem store_capacity_lru (M : Z) (dom0 : Dom.t) (cs : list WidgetStore.Call) :
  (0 <= M)%Z ->
  exists dom s,
    WidgetStore.calls cs (dom0, WidgetStore.new M) = Some (dom, s)
    /\ (JsMap.size (WidgetStore.widgets s) <= M)%Z
    /\ (forall el e id,
          Dom.elements dom !! el = Some e -> Dom.ds_dataid e = Some id ->
          Js.truthy id = true ->
          exists gone dom' s',
            WidgetStore.add el (dom, s) = Some (dom', s')
            /\ (gone ++ WidgetStore.widgets s')%list
               = (JsMap.delete id (WidgetStore.widgets s) ++ [(id, el)])%list
            /\ WidgetStore.evictLog s' = (WidgetStore.evictLog s ++ gone.*1)%list
            /\ (JsMap.size (WidgetStore.widgets s') <= M)%Z)
    /\ (forall id el,
          JsMap.get id (WidgetStore.widgets s) = Some el ->
          WidgetStore.get id (dom, s)
          = ((dom, WidgetStore.with_widgets
                     (JsMap.delete id (WidgetStore.widgets s) ++ [(id, el)]) s),
             Some el)).
Proof.
  intros HM.
  destruct (calls_within M cs (dom0, WidgetStore.new M) HM)
    as ([dom s] & Hcalls & HMs & Hnd & Hsz).
  { repeat split; cbn; [apply NoDup_nil_2|unfold JsMap.size; simpl; lia]. }
  cbn [fst snd] in *. exists dom, s. split; [done|]. split; [done|]. split.
  - intros el e id He Hid Ht.
    destruct (add_evicts_front el e id dom s He Hid Ht) as
      (gone & dom' & s' & Hadd & Hfront & Hlog & Hsz' & _); [lia|done|].
    exists gone, dom', s'. repeat split; try done. lia.
  - intros id el Hget. pose proof (get_recency id dom s Hnd) as Hg.
    by rewrite Hget in Hg.
Qed.

Lemma store_capacity_lru_witness :
  (0 <= 1)%Z /\
  exists dom s,
    WidgetStore.calls [WidgetStore.CallAdd 0; WidgetStore.CallShow "a";
                       WidgetStore.CallAdd 1; WidgetStore.CallHide "b"]
      (Dom.mkDom {[ 0 := WidgetStore.plainElement "a" "svc";
                    1 := WidgetStore.plainElement "b" "svc" ]} [0; 1] "" "" 2,
       WidgetStore.new 1) = Some (dom, s)
    /\ (JsMap.size (WidgetStore.widgets s) <= 1)%Z.
Proof.
  split; [lia|].
  destruct (store_capacity_lru 1
              (Dom.mkDom {[ 0 := WidgetStore.plainElement "a" "svc";
                            1 := WidgetStore.plainElement "b" "svc" ]} [0; 1] "" "" 2)
              [WidgetStore.CallAdd 0; WidgetStore.CallShow "a";
               WidgetStore.CallAdd 1; WidgetStore.CallHide "b"])
    as (dom & s & Hcalls & Hsz & _); [lia|].
  exists dom, s. by split.
Defined.

(** ** The eviction dialog's selection, for the ids it can pass *)
(** The ids that can be toggled are never empty: the items of the
    dialog are the entries of the widget store, and [add] does not
    store a widget whose [dataid] is missing or empty. *)
Section StoreKeys.
Import Js WidgetStore.

Local Abbreviation keys_ok :=
  (fun st : state => Forall (fun kv : string * nat => truthy kv.1 = true) (widgets st.2)).

Lemma keys_ok_delete id (w : list (string * nat)) :
  Forall (fun kv : string * nat => truthy kv.1 = true) w ->
  Forall (fun kv : string * nat => truthy kv.1 = true) (JsMap.delete id w).
Proof. intros H. unfold JsMap.delete. apply Forall_forall. intros kv Hkv.
  apply list_elem_of_In, filter_In in Hkv as [Hkv _]. rewrite Forall_forall in H.
  by apply H, list_elem_of_In. Qed.

Lemma keys_ok_set id el (w : list (string * nat)) :
  truthy id = true ->
  Forall (fun kv : string * nat => truthy kv.1 = true) w ->
  Forall (fun kv : string * nat => truthy kv.1 = true) (JsMap.set id el w).
Proof.
  intros Hid. induction 1 as [|[k v] w Hk Hw IH]; simpl; [by repeat constructor|].
  destruct (String.eqb id k); constructor; done.
Qed.

Lemma keys_ok_evict id st : keys_ok st -> keys_ok (_evict id st).
Proof.
  destruct st as [d s]. unfold _evict. destruct id as [id|]; [|done].
  destruct (JsMap.get id (widgets s)); [|done]. simpl. apply keys_ok_delete.
Qed.

Lemma keys_ok_loop fuel : forall st st',
  keys_ok st -> ensureLimit_loop fuel st = Some st' -> keys_ok st'.
Proof.
  induction fuel as [|fuel IH]; intros st st' Hst Hrun; simpl in Hrun.
  - destruct (_ <? _)%Z; [done|]. by injection Hrun as <-.
  - destruct (_ <? _)%Z; [|by injection Hrun as <-].
    eapply IH; [|exact Hrun]. by apply keys_ok_evict.
Qed.

Lemma keys_ok_call c st st' : keys_ok st -> call c st = Some st' -> keys_ok st'.
Proof.
  destruct st as [d s]. intros Hst. destruct c as [el|id|id|id]; simpl.
  - destruct (Dom.elements d !! el) as [e|]; [|by intros [= <-]].
    destruct (Dom.ds_dataid e) as [id|]; [|by intros [= <-]].
    destruct (truthy id) eqn:Hid; [|by intros [= <-]].
    apply keys_ok_loop. simpl. apply keys_ok_set; [done|].
    destruct (JsMap.has id (widgets s)); [by apply keys_ok_delete|done].
  - intros [= <-]. destruct (JsMap.has id (widgets s)) eqn:Hhas; [|done].
    destruct (JsMap.get id (widgets s)) eqn:Hget; [|done]. simpl.
    apply keys_ok_set; [|by apply keys_ok_delete].
    apply jsmap_has_true in Hhas. simpl in Hst. rewrite Forall_forall in Hst.
    apply list_elem_of_fmap in Hhas as ([k v] & -> & Hin). by apply (Hst _ Hin).
  - intros [= <-]. unfold show, get.
    destruct (JsMap.has id (widgets s)) eqn:Hhas; [|done].
    destruct (JsMap.get id (widgets s)) eqn:Hget; [|done]. simpl.
    apply keys_ok_set; [|by apply keys_ok_delete].
    apply jsmap_has_true in Hhas. simpl in Hst. rewrite Forall_forall in Hst.
    apply list_elem_of_fmap in Hhas as ([k v] & -> & Hin). by apply (Hst _ Hin).
  - intros [= <-]. unfold hide. by destruct (JsMap.get id (widgets s)).
Qed.

Lemma keys_ok_calls cs : forall st st',
  keys_ok st -> calls cs st = Some st' -> keys_ok st'.
Proof.
  induction cs as [|c cs IH]; intros st st' Hst Hrun; simpl in Hrun.
  - by injection Hrun as <-.
  - destruct (call c st) as [st1|] eqn:Hc; [|done].
    eapply IH; [|exact Hrun]. by eapply keys_ok_call.
Qed.

End StoreKeys.



(** The condition on the ids is needed.  With [requiredCount = 1],
    toggling the empty id and then another id would leave two ids
    selected: [shift] hands back the empty string, the test
    [if (removed)] takes it for "nothing removed", and the id stays in
    the set. *)
Example toggle_empty_id_exceeds_limit :
  let limit := EvictionViewModel.selectionLimit (Some 1%Z) in
  let st := EvictionViewModel.toggles limit [""; "a"] in
  EvictionViewModel.selectedIds st = [""; "a"]
  /\ EvictionViewModel.selectedOrder st = ["a"]
  /\ (EvictionViewModel.size (EvictionViewModel.selectedIds st) > limit)%Z.
Proof. repeat split. Qed.

(** ** Minimizing and restoring *)
Section MinimizerFacts.
Import Js Minimizer.
Variable member : jsvalue -> string -> bool.
Variable sameArray : list jsvalue -> list jsvalue -> bool.
Hypothesis sameArray_sound : forall a b, sameArray a b = true -> a = b.

Local Abbreviation minimize := (minimizeDeep member sameArray false).
Local Abbreviation entries := (minimize_entries member sameArray false).

Lemma strict_eq_sound a b : strict_eq sameArray a b = true -> a = b.
Proof.
  destruct a, b; simpl; try done.
  - intros ->%Bool.eqb_prop. done.
  - intros ->%Z.eqb_eq. done.
  - intros ->%String.eqb_eq. done.
  - intros ->%sameArray_sound. done.
Qed.

Lemma minimizeDeep_obj b fields defaults :
  minimizeDeep member sameArray b (VObj fields) defaults
  = match minimize_entries member sameArray b defaults fields with
    | None => None
    | Some out =>
        if Nat.eqb (length out) 0 && b then Some VUndef else Some (VObj out)
    end.
Proof.
  simpl.
  match goal with
  | |- match ?f fields with _ => _ end = _ =>
      assert (forall l, f l = minimize_entries member sameArray b defaults l) as H;
        [|rewrite H; reflexivity]
  end.
  induction l as [|[k v] l IH]; [reflexivity|]. simpl. rewrite IH. reflexivity.
Qed.

Lemma minimizeDeep_scalar value defaults :
  isObj value = false ->
  minimize value defaults
  = if strict_eq sameArray value defaults then Some VUndef else Some value.
Proof.
  destruct value; try done; intros _; cbn [minimizeDeep prune_scalar andb];
    by case_match.
Qed.

Lemma obj_get_absent k fs : obj_has k fs = false -> obj_get k fs = VUndef.
Proof.
  induction fs as [|[k' v] fs IH]; [done|]. unfold obj_has. simpl.
  destruct (String.eqb k k'); [done|]. apply IH.
Qed.

Lemma json_obj fs : json (VObj fs) = json_fields fs.
Proof. induction fs as [|[k x] fs IH]; [done|]. simpl in *. by rewrite IH. Qed.

Lemma distinct_obj fs : distinct_keys (VObj fs) = distinct_fields fs.
Proof. induction fs as [|[k x] fs IH]; [done|]. simpl in *. by rewrite IH. Qed.

Lemma distinct_fields_get k fs :
  distinct_fields fs = true -> distinct_keys (obj_get k fs) = true.
Proof.
  induction fs as [|[k' x] fs IH]; [done|]. simpl.
  intros [[_ Hx]%andb_true_iff Hfs]%andb_true_iff.
  destruct (String.eqb k k'); auto.
Qed.

Lemma distinct_fields_entry k d fs :
  distinct_fields fs = true -> In (k, d) fs -> obj_get k fs = d.
Proof.
  induction fs as [|[k' x] fs IH]; [done|]. simpl.
  intros [[Hk _]%andb_true_iff Hfs]%andb_true_iff [[= -> ->]|Hin].
  - by rewrite String.eqb_refl.
  - destruct (String.eqb_spec k k') as [->|_]; [|by apply IH].
    apply negb_true_iff in Hk. unfold obj_has in Hk.
    assert (existsb (fun kv => String.eqb k' kv.1) fs = true) as Hex; [|congruence].
    apply existsb_exists. exists (k', d). split; [done|apply String.eqb_refl].
Qed.

Lemma json_defined v : json v = true -> is_undefined v = false.
Proof. by destruct v. Qed.

(** Against the default [undefined] nothing is pruned. *)
Lemma minimize_undef v :
  json v = true -> forall p, minimize v VUndef = Some p -> p = v.
Proof.
  induction v as [| | | | |elems _|fs IH] using jsvalue_nested_ind;
    intros Hj p Hp; try (simpl in Hp; by injection Hp as <-).
  rewrite minimizeDeep_obj in Hp.
  destruct (entries VUndef fs) as [out|] eqn:Hout; [|done].
  rewrite andb_false_r in Hp. injection Hp as <-. f_equal.
  rewrite json_obj in Hj. clear -IH Hj Hout.
  revert out Hout. induction fs as [|[k v] fs IHfs]; intros out Hout.
  - by injection Hout as <-.
  - simpl in Hj. apply andb_true_iff in Hj as [[_ Hv]%andb_true_iff Hfs].
    apply Forall_cons in IH as [IHv IH]. specialize (IHfs IH Hfs).
    cbn [minimize_entries isObj is_undefined in_op truthyV] in Hout.
    destruct (String.eqb k "__proto__"); [done|].
    cbn [fmap option_fmap option_map] in Hout.
    destruct (negb (inherits k)).
    + destruct (entries VUndef fs) as [out'|]; [|done].
      injection Hout as <-. by rewrite (IHfs out').
    + destruct (minimize v VUndef) as [p|] eqn:Hp; [|done].
      pose proof (IHv Hv p Hp) as Hpv. simpl in Hpv. subst p.
      rewrite (json_defined v Hv) in Hout.
      destruct (entries VUndef fs) as [out'|]; [|done].
      injection Hout as <-. by rewrite (IHfs out').
Qed.

(** Against a default that is not a plain object the properties of an
    object are all kept. *)
Lemma entries_nonobj d fs out :
  isObj d = false -> json_fields fs = true ->
  entries d fs = Some out -> out = fs.
Proof.
  intros Hd. revert out. induction fs as [|[k v] fs IH]; intros out Hj Hout.
  - by injection Hout.
  - simpl in Hj. apply andb_true_iff in Hj as [[_ Hv]%andb_true_iff Hfs].
    simpl in Hout. rewrite Hd in Hout. simpl in Hout.
    destruct (String.eqb k "__proto__"); [done|].
    destruct (in_op member k d) as [[|]|]; simpl in Hout; [| |done].
    + destruct (minimize v VUndef) as [p|] eqn:Hp; [|done].
      rewrite (minimize_undef v Hv p Hp), (json_defined v Hv) in Hout.
      destruct (entries d fs) as [out'|]; [|done].
      injection Hout as <-. by rewrite (IH out').
    + destruct (entries d fs) as [out'|]; [|done].
      injection Hout as <-. by rewrite (IH out').
Qed.

End MinimizerFacts.

Section MinimizerRoundTrip.
Import Js Minimizer.
Variable member : jsvalue -> string -> bool.
Variable sameArray : list jsvalue -> list jsvalue -> bool.
Hypothesis sameArray_sound : forall a b, sameArray a b = true -> a = b.

Local Abbreviation minimize := (minimizeDeep member sameArray false).
Local Abbreviation entries := (minimize_entries member sameArray false).
Local Abbreviation restores := (Minimizer.restores member sameArray).
Local Abbreviation restore := (restoreDeep member).

Lemma obj_has_cons k k0 (v0 : jsvalue) fs :
  obj_has k ((k0, v0) :: fs) = String.eqb k k0 || obj_has k fs.
Proof. reflexivity. Qed.

Lemma filter_outside_in k df l :
  obj_has k df = true ->
  List.filter (outside df) (k :: l) = List.filter (outside df) l.
Proof. intros H. cbn [List.filter]. unfold outside at 1. by rewrite H. Qed.

Lemma filter_outside_out k df l :
  obj_has k df = false ->
  List.filter (outside df) (k :: l) = k :: List.filter (outside df) l.
Proof. intros H. cbn [List.filter]. unfold outside at 1. by rewrite H. Qed.

Lemma plain_obj fs : plain_keys (VObj fs) = plain_fields fs.
Proof. induction fs as [|[k x] fs IH]; [done|]. simpl in *. by rewrite IH. Qed.

Lemma plain_fields_get k fs :
  plain_fields fs = true -> plain_keys (obj_get k fs) = true.
Proof.
  induction fs as [|[k' x] fs IH]; [done|]. simpl.
  intros [[_ Hx]%andb_true_iff Hfs]%andb_true_iff.
  destruct (String.eqb k k'); auto.
Qed.

Lemma plain_fields_has k fs :
  plain_fields fs = true -> obj_has k fs = true -> inherits k = false.
Proof.
  induction fs as [|[k' x] fs IH]; [done|]. rewrite obj_has_cons. simpl.
  intros [[Hk _]%andb_true_iff Hfs]%andb_true_iff.
  destruct (String.eqb_spec k k') as [->|_]; [by apply negb_true_iff in Hk|].
  simpl. by apply IH.
Qed.

Lemma inherits_proto k : inherits k = false -> String.eqb k "__proto__" = false.
Proof.
  intros Hk. destruct (String.eqb_spec k "__proto__") as [->|]; [|done].
  by vm_compute in Hk.
Qed.

(** An object read under a name that is no member of [Object.prototype]. *)
Lemma get_prop_plain fs k :
  inherits k = false -> get_prop member (VObj fs) k = Some (obj_get k fs).
Proof.
  intros Hk. unfold get_prop. rewrite Hk.
  destruct (obj_has k fs) eqn:Hh; [done|]. by rewrite (obj_get_absent _ _ Hh).
Qed.

Lemma get_prop_own fs k :
  obj_has k fs = true -> get_prop member (VObj fs) k = Some (obj_get k fs).
Proof. intros Hk. unfold get_prop. by rewrite Hk. Qed.

Lemma entries_obj df vf :
  Forall (fun kv => restores kv.2) vf ->
  json_fields vf = true -> distinct_fields df = true -> plain_fields df = true ->
  forall out, entries (VObj df) vf = Some out ->
    (forall k, obj_has k out = true -> obj_has k vf = true)
    /\ (forall k, obj_has k df = true ->
          restore (obj_get k out) (obj_get k df)
          = restore (obj_get k vf) (obj_get k df))
    /\ (forall k, obj_has k df = false ->
          obj_has k out = obj_has k vf /\ obj_get k out = obj_get k vf)
    /\ List.filter (outside df) (map fst out) = List.filter (outside df) (map fst vf).
Proof.
  intros Hall. induction Hall as [|[k0 v0] vf Hv0 _ IH]; intros Hj Hd Hpl out Hout.
  - injection Hout as <-. by repeat split.
  - simpl in Hj. apply andb_true_iff in Hj as [[Hk0 Hjv]%andb_true_iff Hjf].
    apply negb_true_iff in Hk0. specialize (IH Hjf Hd Hpl).
    cbn [minimize_entries isObj] in Hout.
    destruct (String.eqb k0 "__proto__") eqn:Hproto; [done|].
    destruct (obj_has k0 df) eqn:Hin.
    + (* the key is in the defaults: the property is pruned *)
      rewrite (get_prop_own df k0 Hin) in Hout.
      assert ((if is_undefined (obj_get k0 df)
               then negb <$> in_op member k0 (VObj df) else Some false) = Some false) as Hu.
      { destruct (is_undefined (obj_get k0 df)); [|done].
        cbn [in_op truthyV]. by rewrite Hin. }
      rewrite Hu in Hout.
      destruct (minimize v0 (obj_get k0 df)) as [pruned|] eqn:Hp; [|done].
      assert (restore pruned (obj_get k0 df) = restore v0 (obj_get k0 df)) as Hr.
      { apply Hv0; [done|by apply distinct_fields_get|by apply plain_fields_get|done]. }
      destruct (is_undefined pruned) eqn:Hund.
      * destruct (IH out Hout) as (Hsub & Hin' & Hout' & Hfil).
        assert (obj_has k0 out = false) as Hk0out.
        { destruct (obj_has k0 out) eqn:E; [|done]. apply Hsub in E. congruence. }
        repeat split.
        -- intros k Hk. rewrite obj_has_cons. by rewrite (Hsub k Hk), orb_true_r.
        -- intros k Hk. simpl. destruct (String.eqb_spec k k0) as [->|_]; [|by apply Hin'].
           rewrite (obj_get_absent _ _ Hk0out). rewrite <- Hr. by destruct pruned.
        -- rewrite obj_has_cons. destruct (String.eqb_spec k k0) as [->|_]; [congruence|].
           by apply Hout'.
        -- simpl. destruct (String.eqb_spec k k0) as [->|_]; [congruence|].
           by apply Hout'.
        -- cbn [map fst]. by rewrite (filter_outside_in k0) by done.
      * destruct (entries (VObj df) vf) as [out'|] eqn:Hout'; [|done].
        injection Hout as <-. destruct (IH out' eq_refl) as (Hsub & Hin' & Hget & Hfil).
        repeat split.
        -- intros k. rewrite !obj_has_cons. intros [->|Hk]%orb_true_iff; [done|].
           by rewrite (Hsub k Hk), orb_true_r.
        -- intros k Hk. simpl. destruct (String.eqb_spec k k0) as [->|_]; [done|by apply Hin'].
        -- rewrite !obj_has_cons. destruct (String.eqb_spec k k0) as [->|_]; [done|].
           by apply Hget.
        -- simpl. destruct (String.eqb_spec k k0) as [->|_]; [congruence|].
           by apply Hget.
        -- cbn [map fst]. by rewrite !(filter_outside_in k0) by done.
    + (* the key is not in the defaults: the property passes through *)
      assert (exists rest, (cons (k0, v0) <$> entries (VObj df) vf) = Some out
                           /\ entries (VObj df) vf = Some rest) as (rest & Hcons & Hrest).
      { unfold get_prop in Hout. rewrite Hin in Hout.
        destruct (inherits k0) eqn:Hinh.
        - destruct v0; try done; cbn [prune_scalar andb is_undefined] in Hout;
            destruct (entries (VObj df) vf) as [rest|]; try done; by exists rest.
        - cbn [is_undefined in_op truthyV] in Hout. rewrite Hin, Hinh in Hout.
          cbn [orb negb fmap option_fmap option_map] in Hout.
          destruct (entries (VObj df) vf) as [rest|]; try done; by exists rest. }
      rewrite Hrest in Hcons. injection Hcons as <-.
      destruct (IH rest Hrest) as (Hsub & Hin' & Hget & Hfil).
      repeat split.
      * intros k. rewrite !obj_has_cons. intros [->|Hk]%orb_true_iff; [done|].
        by rewrite (Hsub k Hk), orb_true_r.
      * intros k Hk. simpl. destruct (String.eqb_spec k k0) as [->|_]; [done|by apply Hin'].
      * rewrite !obj_has_cons. destruct (String.eqb_spec k k0) as [->|_]; [done|].
        by apply Hget.
      * simpl. destruct (String.eqb_spec k k0) as [->|_]; [done|by apply Hget].
      * cbn [map fst]. rewrite !(filter_outside_out k0) by done. by rewrite Hfil.
Qed.

Lemma restoreDeep_obj minimized dfields :
  restore minimized (VObj dfields)
  = match restore_defaults member minimized dfields,
          restore_others member minimized
            (List.filter (outside dfields) (own_keys minimized)) with
    | Some a, Some b => Some (VObj (a ++ b))
    | _, _ => None
    end.
Proof.
  cbn [restoreDeep].
  match goal with
  | |- match ?f dfields with _ => _ end = _ =>
      assert (forall l, f l = restore_defaults member minimized l) as H;
        [|rewrite H; reflexivity]
  end.
  induction l as [|[k d] l IH]; [reflexivity|]. simpl. rewrite IH. reflexivity.
Qed.

Lemma restore_defaults_ext m1 m2 ds :
  (forall k d, In (k, d) ds ->
     get_prop member m1 k ≫= (fun x => restore x d)
     = get_prop member m2 k ≫= (fun x => restore x d)) ->
  restore_defaults member m1 ds = restore_defaults member m2 ds.
Proof.
  induction ds as [|[k d] ds IH]; intros H; [done|]. cbn [restore_defaults].
  destruct (String.eqb k "__proto__"); [done|].
  pose proof (H k d (or_introl eq_refl)) as Hk.
  rewrite IH by (intros k' d' Hin; apply H; by right).
  destruct (get_prop member m1 k) as [x1|], (get_prop member m2 k) as [x2|];
    cbn [mbind option_bind] in Hk; try done.
  - by rewrite Hk.
  - by rewrite Hk.
  - by rewrite <- Hk.
Qed.

Lemma restore_others_ext m1 m2 ks :
  (forall k, In k ks -> get_prop member m1 k = get_prop member m2 k) ->
  restore_others member m1 ks = restore_others member m2 ks.
Proof.
  induction ks as [|k ks IH]; intros H; [done|]. cbn [restore_others].
  rewrite (H k (or_introl eq_refl)), IH; [done|]. intros k' Hin. apply H. by right.
Qed.

Lemma restores_all x : restores x.
Proof.
  induction x as [| | | | |elems _|vf IH] using jsvalue_nested_ind;
    intros d m Hj Hd Hpl Hm.
  1-6: rewrite minimizeDeep_scalar in Hm by done;
       destruct (strict_eq sameArray _ d) eqn:Heq;
       [apply strict_eq_sound in Heq; [|done]; subst d; by injection Hm as <-
       |by injection Hm as <-].
  rewrite minimizeDeep_obj in Hm.
  destruct (entries d vf) as [out|] eqn:Hout; [|done].
  rewrite andb_false_r in Hm. injection Hm as <-.
  rewrite json_obj in Hj.
  destruct d as [| | | | | |df];
    try (match type of Hout with
         | minimize_entries _ _ _ ?d _ = _ =>
             by rewrite (entries_nonobj member sameArray d vf out eq_refl Hj Hout)
         end).
  rewrite distinct_obj in Hd. rewrite plain_obj in Hpl.
  destruct (entries_obj df vf IH Hj Hd Hpl out Hout) as (_ & Hin & Hget & Hfil).
  rewrite !restoreDeep_obj. cbn [own_keys]. rewrite Hfil.
  rewrite (restore_defaults_ext (VObj out) (VObj vf)).
  - rewrite (restore_others_ext (VObj out) (VObj vf)); [done|].
    intros k Hk. apply List.filter_In in Hk as [_ Hk]. apply negb_true_iff in Hk.
    destruct (Hget k Hk) as [Hh Hg]. unfold get_prop. by rewrite Hh, Hg.
  - intros k d Hkd.
    assert (obj_has k df = true) as Hk.
    { unfold obj_has. apply existsb_exists. exists (k, d). split; [done|apply String.eqb_refl]. }
    rewrite !get_prop_plain by (by apply (plain_fields_has k df)).
    cbn [mbind option_bind].
    rewrite <- (distinct_fields_entry k d df Hd Hkd). by apply Hin.
Qed.

End MinimizerRoundTrip.

Section MinimizerFields.
Import Js Minimizer.
Variable member : jsvalue -> string -> bool.

Local Abbreviation restore := (restoreDeep member).

Lemma obj_get_app k (a b : list (string * jsvalue)) :
  obj_get k (a ++ b) = if obj_has k a then obj_get k a else obj_get k b.
Proof.
  induction a as [|[k' v] a IH]; [done|]. rewrite obj_has_cons. simpl.
  by destruct (String.eqb k k').
Qed.

Lemma restore_defaults_get mm ds : forall a,
  restore_defaults member mm ds = Some a ->
  forall k,
    obj_has k a = obj_has k ds
    /\ (obj_has k ds = true ->
        exists x, get_prop member mm k = Some x
                  /\ restore x (obj_get k ds) = Some (obj_get k a)).
Proof.
  induction ds as [|[k0 d0] ds IH]; intros a Ha k.
  - injection Ha as <-. by split.
  - cbn [restore_defaults] in Ha.
    destruct (String.eqb k0 "__proto__"); [done|].
    destruct (get_prop member mm k0) as [x0|] eqn:Hx0; [|done].
    destruct (restore x0 d0) as [r0|] eqn:Hr0; [|done].
    destruct (restore_defaults member mm ds) as [a'|]; [|done].
    injection Ha as <-. destruct (IH a' eq_refl k) as [Hh Hg].
    rewrite !obj_has_cons. simpl.
    destruct (String.eqb_spec k k0) as [->|_]; simpl.
    + split; [done|]. intros _. by exists x0.
    + by split.
Qed.

Lemma restore_others_get mm ks : forall b,
  restore_others member mm ks = Some b ->
  forall k, In k ks ->
    exists x, get_prop member mm k = Some x
              /\ obj_get k b = (if inherits k then x else coalesce x VUndef)
              /\ (inherits k = true -> x <> VUndef /\ x <> VNull).
Proof.
  induction ks as [|k0 ks IH]; intros b Hb k Hk; [done|].
  cbn [restore_others] in Hb.
  destruct (String.eqb k0 "__proto__"); [done|].
  destruct (get_prop member mm k0) as [x0|] eqn:Hx0; [|done].
  assert (exists b', restore_others member mm ks = Some b'
            /\ b = (k0, if inherits k0 then x0 else coalesce x0 VUndef) :: b'
            /\ (inherits k0 = true -> x0 <> VUndef /\ x0 <> VNull)) as (b' & Hb' & -> & Hx).
  { destruct (inherits k0).
    - destruct x0; try done;
        destruct (restore_others member mm ks) as [b'|]; try done;
        injection Hb as <-; by exists b'.
    - destruct (restore_others member mm ks) as [b'|]; try done.
      injection Hb as <-. by exists b'. }
  simpl. destruct (String.eqb_spec k k0) as [->|Hne].
  - by exists x0.
  - destruct Hk as [?|Hk]; [congruence|]. by apply (IH b').
Qed.

Lemma obj_has_keys k (fs : list (string * jsvalue)) :
  obj_has k fs = true -> In k (map fst fs).
Proof.
  unfold obj_has. rewrite existsb_exists. intros ([k' v] & Hin & ->%String.eqb_eq).
  apply in_map_iff. by exists (k', v).
Qed.

Lemma json_fields_get k fs :
  json_fields fs = true -> obj_has k fs = true -> json (obj_get k fs) = true.
Proof.
  induction fs as [|[k' x] fs IH]; [done|]. rewrite obj_has_cons. simpl.
  intros [[_ Hx]%andb_true_iff Hfs]%andb_true_iff.
  destruct (String.eqb k k'); [done|]. simpl. by apply IH.
Qed.

End MinimizerFields.


(** A null field under a name that the defaults inherit comes back as
    the inherited function, which is no value of JSON. *)
Example restore_inherited_member :
  forall member,
    Minimizer.minimizeDeep member Minimizer.apart false
      (Minimizer.VObj [("constructor", Minimizer.VNull); ("note", Minimizer.VStr "n")])
      (Minimizer.VObj [])
    = Some (Minimizer.VObj [("constructor", Minimizer.VNull);
                            ("note", Minimizer.VStr "n")])
    /\ Minimizer.restoreDeep member
         (Minimizer.VObj [("constructor", Minimizer.VNull); ("note", Minimizer.VStr "n")])
         (Minimizer.VObj [])
       = None.
Proof. intros member. split; reflexivity. Qed.



(** The restored configuration of the example above is a value of
    JSON, whatever the engine: the template with the database, the
    board and the extra property of [C]. *)
Example restore_example :
  forall member,
    exists rf,
      Minimizer.restoreDeep member
        (Minimizer.VObj
           [("globalSettings", Minimizer.VObj [("database", Minimizer.VStr "indexedDB")]);
            ("boards", Minimizer.VArr [Minimizer.VStr "b1"]);
            ("servicesUrl", Minimizer.VStr "services.json")])
        Minimizer.DEFAULT_CONFIG_TEMPLATE
      = Some (Minimizer.VObj rf)
      /\ map fst rf = ["globalSettings"; "boards"; "serviceTemplates"; "styling";
                       "servicesUrl"]
      /\ Minimizer.obj_get "boards" rf = Minimizer.VArr [Minimizer.VStr "b1"]
      /\ Minimizer.obj_get "servicesUrl" rf = Minimizer.VStr "services.json"
      /\ Minimizer.obj_get "database" (match Minimizer.obj_get "globalSettings" rf with
                                       | Minimizer.VObj g => g
                                       | _ => []
                                       end)
         = Minimizer.VStr "indexedDB".
Proof. intros member. eexists. split; [vm_compute; reflexivity|]. by vm_compute. Qed.

(** ** The instance limit of addWidget *)
Section AddWidgetFacts.
Import Js Types App.

(** When the limit test of [addWidget] fires, the add is rejected: the
    notification is shown and the document, the widget map and the
    storage are as before. *)
Lemma addWidget_limit_reached u cols rws boardId viewId dataid skip s n :
  let serviceName := getServiceFromUrl u s in
  WidgetStore.isAdding serviceName (store s) = false ->
  r_maxInstances (resolveServiceConfig (storage s) (findService serviceName s)) = Some n ->
  (0 < n)%Z ->
  alreadyExists serviceName dataid s = false ->
  (n <= effectiveCount serviceName s)%Z ->
  exists s',
    addWidget u cols rws boardId viewId dataid skip s = Some s'
    /\ dom s' = dom s
    /\ storage s' = storage s
    /\ WidgetStore.widgets (store s') = WidgetStore.widgets (store s)
    /\ notifications s' = (notifications s ++ [limitMessage n serviceName])%list
    /\ trace s' = (trace s ++ [EvNotify (limitMessage n serviceName)])%list.
Proof.
  intros serviceName Hfree Hmax Hn Hnew Hcount. unfold addWidget.
  fold serviceName. rewrite Hfree. unfold addWidgetLocked.
  change (storage (with_store ?w s)) with (storage s).
  change (findService serviceName (with_store ?w s)) with (findService serviceName s).
  rewrite Hmax.
  change (alreadyExists serviceName dataid (with_store ?w s))
    with (alreadyExists serviceName dataid s).
  change (effectiveCount serviceName (with_store ?w s))
    with (effectiveCount serviceName s).
  rewrite Hnew. destruct (Z.ltb_spec 0 n); [|lia].
  destruct (Z.leb_spec n (effectiveCount serviceName s)); [|lia].
  cbn [andb negb]. eexists. split; [reflexivity|]. simpl.
  unfold WidgetStore.unlock, WidgetStore.lock. simpl.
  repeat split; by destruct (_ =? 0)%Z.
Qed.

End AddWidgetFacts.

(** C1 (the code departs from the claim).  The service [clock] has
    [maxInstances = 1] and no widget at all, live or persisted; the
    only widget, live and persisted, belongs to [news].  The persisted
    ids are collected without looking at their service, so the count
    is 1 and the add is rejected with the limit notification. *)
Theorem addWidget_counts_other_services :
  App.liveDataIds "clock" Scenario.newsOnly = []
  /\ List.filter
       (fun w => bool_decide (Types.w_serviceId w = Some "srv-clock")
                 || String.prefix "http://clock.local/" (Types.w_url w))
       (flat_map Types.widgetState
          (flat_map Types.views (App.boards (App.storage Scenario.newsOnly)))) = []
  /\ App.persistedDataIds Scenario.newsOnly = [Some "widget-news"]
  /\ App.effectiveCount "clock" Scenario.newsOnly = 1%Z
  /\ (fun s => (App.notifications s, Dom.container (App.dom s),
                WidgetStore.widgets (App.store s)))
       <$> App.addWidget "http://clock.local/" None None None None None false
             Scenario.newsOnly
     = Some ([App.limitMessage 1 "clock"], [0], [("widget-news", 0)]).
Proof. vm_compute. repeat split. Qed.

(** ** switchView: the capacity check comes first *)
Section TraceFacts.
Import Js Types App.
Variable P : Event -> bool.

Lemma emits_refl s : emits P s s.
Proof. exists []. by rewrite app_nil_r. Qed.

Lemma emits_trans s1 s2 s3 : emits P s1 s2 -> emits P s2 s3 -> emits P s1 s3.
Proof.
  intros (e1 & H1 & F1) (e2 & H2 & F2). exists (e1 ++ e2)%list.
  rewrite H2, H1, <- app_assoc, forallb_app, F1, F2. done.
Qed.

Lemma emits_same s0 s s' : trace s' = trace s -> emits P s0 s -> emits P s0 s'.
Proof. intros Ht (evs & H & F). exists evs. by rewrite Ht. Qed.

Lemma emits_log s0 s e : P e = true -> emits P s0 s -> emits P s0 (log e s).
Proof.
  intros He (evs & H & F). exists (evs ++ [e])%list. simpl.
  rewrite H, <- app_assoc, forallb_app, F. simpl. by rewrite He.
Qed.

Lemma emits_saveWidgetState s0 s b v :
  P (EvSaveWidgetState v) = true -> emits P s0 s -> emits P s0 (saveWidgetState b v s).
Proof.
  intros He Hs. unfold saveWidgetState.
  destruct (negb (truthy b) || negb (truthy v)); [done|].
  destruct (existsb (hasView v) (boards (storage s))); [|done].
  apply emits_log; [done|]. by eapply emits_same.
Qed.

Lemma emits_showNotification s0 s m :
  P (EvNotify m) = true -> emits P s0 s -> emits P s0 (showNotification m s).
Proof. intros He Hs. apply emits_log; [done|]. by eapply emits_same. Qed.

Lemma emits_evictAll ids : forall s0 s,
  (forall id, P (EvEvictRuntime id) = true) ->
  emits P s0 s -> emits P s0 (evictAll ids s).
Proof.
  induction ids as [|id ids IH]; intros s0 s He Hs; [done|]. simpl.
  apply IH; [done|]. apply emits_log; [done|]. by eapply emits_same.
Qed.

Lemma emits_hideInactive active keys : forall s0 s,
  (forall id, P (EvHide id) = true) ->
  emits P s0 s -> emits P s0 (hideInactive active keys s).
Proof.
  induction keys as [|id keys IH]; intros s0 s He Hs; [done|]. simpl.
  destruct (includes (Some id) active); [by apply IH|].
  apply IH; [done|]. apply emits_log; [done|]. by eapply emits_same.
Qed.

Lemma emits_createWidget s0 s service u c r dataid :
  (forall id, P (EvCreateWidget id) = true) ->
  emits P s0 s -> emits P s0 (createWidget service u c r dataid s).2.
Proof.
  intros He Hs. unfold createWidget.
  destruct (truthyS dataid); simpl; (apply emits_log; [done|]); by eapply emits_same.
Qed.

End TraceFacts.

Section SwitchViewFacts.
Import Js Types App.

(** With [skipCapacity] set, [addWidget] confirms no capacity. *)
Lemma emits_addWidgetLocked serviceName u cols rws b v dataid s0 s s' :
  emits notConfirm s0 s ->
  addWidgetLocked serviceName u cols rws b v dataid true s = Some s' ->
  emits notConfirm s0 s'.
Proof.
  intros Hs. unfold addWidgetLocked.
  destruct (match r_maxInstances _ with Some _ => _ | None => _ end).
  { intros [= <-]. by apply emits_showNotification. }
  destruct (if truthyS dataid then _ else _).
  - destruct (WidgetStore.get _ (runtime s)) as [r [w|]]; intros [= <-].
    + apply emits_saveWidgetState; [done|]. apply emits_log; [done|].
      by eapply emits_same.
    + by eapply emits_same.
  - pose proof (emits_createWidget notConfirm s0 s serviceName u
                  (default 1%Z (orElse cols (columns (default noServiceConfig
                     (r_config (resolveServiceConfig (storage s)
                                  (findService serviceName s)))))))
                  (default 1%Z (orElse rws (rows (default noServiceConfig
                     (r_config (resolveServiceConfig (storage s)
                                  (findService serviceName s)))))))
                  dataid (fun _ => eq_refl) Hs) as Hc.
    destruct (createWidget _ _ _ _ _ s) as [w s2]. simpl in Hc.
    destruct (WidgetStore.add w _) as [r|]; intros [= <-].
    apply emits_saveWidgetState; [done|]. by eapply emits_same.
Qed.

Lemma emits_addWidget u cols rws b v dataid s0 s s' :
  emits notConfirm s0 s ->
  addWidget u cols rws b v dataid true s = Some s' ->
  emits notConfirm s0 s'.
Proof.
  intros Hs. unfold addWidget.
  destruct (WidgetStore.isAdding _ _); [by intros [= <-]|].
  destruct (addWidgetLocked _ _ _ _ _ _ _ _ _) as [s1|] eqn:Hadd; intros [= <-].
  apply (emits_same _ s0 s1); [done|].
  eapply emits_addWidgetLocked; [|exact Hadd]. by apply (emits_same _ s0 s).
Qed.

Lemma emits_showOrCreate b v ws : forall s0 s s',
  emits notConfirm s0 s ->
  showOrCreate b v ws s = Some s' -> emits notConfirm s0 s'.
Proof.
  induction ws as [|w ws IH]; intros s0 s s' Hs; simpl.
  - by intros [= <-].
  - destruct (storeHas (w_dataid w) s).
    + apply IH. apply emits_log; [done|]. by eapply emits_same.
    + destruct (addWidget _ _ _ _ _ _ _ s) as [s1|] eqn:Hadd; [|done].
      apply IH. by eapply emits_addWidget.
Qed.

Lemma emits_switchViewConfirmed b v view s s' :
  switchViewConfirmed b v view s = Some s' -> emits notConfirm s s'.
Proof.
  unfold switchViewConfirmed.
  destruct (showOrCreate _ _ _ _) as [s3|] eqn:Hshow; intros [= <-].
  apply emits_log; [done|]. apply (emits_same _ s s3); [done|].
  eapply emits_showOrCreate; [|exact Hshow].
  apply emits_hideInactive; [done|]. apply emits_log; [done|].
  apply (emits_same _ s s); [done|]. apply emits_refl.
Qed.

(** The eviction dialog: a refusal leaves the document, the store and
    the storage as they were. *)
Lemma openEvictionModal_trace requiredCount items s proceed s1 :
  openEvictionModal requiredCount items s = Some (proceed, s1) ->
  emits quiet s s1
  /\ (proceed = false ->
      dom s1 = dom s /\ store s1 = store s /\ storage s1 = storage s
      /\ notifications s1 = notifications s).
Proof.
  unfold openEvictionModal. cbn [answers log].
  assert (emits quiet s (log (EvModal requiredCount items) s)) as Hlog.
  { apply emits_log; [done|apply emits_refl]. }
  destruct (answers s) as [|[|ids] rest].
  - by intros [= <- <-].
  - intros [= <- <-]. split; [|done]. by eapply emits_same.
  - destruct (WidgetStore._ensureLimit _) as [r|]; [|done]. intros [= <- <-].
    split; [|done].
    eapply emits_same; [reflexivity|].
    apply emits_evictAll; [done|]. by eapply emits_same.
Qed.

(** The capacity check: some dialog events, then its outcome. *)
Lemma confirmCapacity_trace needed s proceed s1 :
  confirmCapacity needed s = Some (proceed, s1) ->
  exists mid,
    trace s1 = (trace s ++ mid ++ [EvConfirmCapacity needed proceed])%list
    /\ forallb quiet mid = true
    /\ (proceed = false ->
        dom s1 = dom s /\ store s1 = store s /\ storage s1 = storage s
        /\ notifications s1 = notifications s).
Proof.
  unfold confirmCapacity. destruct (0 <? _)%Z.
  - destruct (openEvictionModal _ _ s) as [[p s']|] eqn:Hopen; [|done].
    intros [= <- <-].
    apply openEvictionModal_trace in Hopen as [(mid & Hmid & Fmid) Hsame].
    exists mid. simpl. rewrite Hmid, <- app_assoc.
    split; [done|]. split; [done|]. exact Hsame.
  - intros [= <- <-]. exists []. by repeat split.
Qed.

Lemma renumber_hidden hs : forall index els h,
  Dom.hidden <$> renumber hs index els !! h = Dom.hidden <$> els !! h.
Proof.
  induction hs as [|h0 hs IH]; intros index els h; [done|]. simpl.
  rewrite IH, lookup_alter. case_decide as Hh; [|done]. subst.
  by destruct (els !! _).
Qed.

Lemma saveWidgetState_sameView b v s : sameView s (saveWidgetState b v s).
Proof.
  unfold saveWidgetState.
  destruct (negb (truthy b) || negb (truthy v)); [by repeat split|].
  destruct (existsb (hasView v) (boards (storage s))); [|by repeat split].
  repeat split. intros h. simpl. apply renumber_hidden.
Qed.

Lemma switchViewSaved_sameView b v s : sameView s (switchViewSaved b v s).
Proof.
  unfold switchViewSaved.
  destruct (truthy (Dom.viewElId (dom s)) && _); [apply saveWidgetState_sameView|].
  by repeat split.
Qed.

Lemma switchViewSaved_emits b v s : emits quiet s (switchViewSaved b v s).
Proof.
  unfold switchViewSaved.
  destruct (truthy (Dom.viewElId (dom s)) && _); [|apply emits_refl].
  apply emits_saveWidgetState; [done|apply emits_refl].
Qed.

Lemma quiet_not_mutation evs i e :
  forallb quiet evs = true -> evs !! i = Some e -> isMutation e = false.
Proof.
  intros H Hi. rewrite forallb_forall in H.
  apply list_elem_of_lookup_2, list_elem_of_In, H in Hi.
  unfold quiet in Hi. apply andb_true_iff in Hi as [Hm _]. by apply negb_true_iff.
Qed.

Lemma quiet_not_confirm evs n b :
  forallb quiet evs = true -> EvConfirmCapacity n b ∉ evs.
Proof.
  intros H Hin. rewrite forallb_forall in H.
  apply list_elem_of_In, H in Hin. discriminate Hin.
Qed.

Lemma notConfirm_not_confirm evs n b :
  forallb notConfirm evs = true -> EvConfirmCapacity n b ∉ evs.
Proof.
  intros H Hin. rewrite forallb_forall in H.
  apply list_elem_of_In, H in Hin. discriminate Hin.
Qed.

End SwitchViewFacts.

Section SwitchViewOrder.
Import Js Types App.

Lemma quiet_forall_not_mutation evs :
  forallb quiet evs = true -> forallb (fun e => negb (isMutation e)) evs = true.
Proof.
  rewrite !forallb_forall. intros H e He. apply H in He.
  unfold quiet in He. by apply andb_true_iff in He as [? _].
Qed.

Lemma no_mutation_lookup evs i e :
  forallb (fun e => negb (isMutation e)) evs = true ->
  evs !! i = Some e -> isMutation e = true -> False.
Proof.
  intros H Hi He. rewrite forallb_forall in H.
  apply list_elem_of_lookup_2, list_elem_of_In, H in Hi. by rewrite He in Hi.
Qed.

(** A call that stops before or at a refused capacity check. *)
Lemma stopped_early s s' evs :
  trace s' = (trace s ++ evs)%list ->
  forallb (fun e => negb (isMutation e)) evs = true ->
  (forall n, EvConfirmCapacity n false ∈ evs -> sameView s s') ->
  exists evs,
    trace s' = (trace s ++ evs)%list
    /\ (forall i e, evs !! i = Some e -> isMutation e = true ->
          exists j n, j < i /\ evs !! j = Some (EvConfirmCapacity n true))
    /\ (forall n, EvConfirmCapacity n false ∈ evs ->
          sameView s s' /\ forallb (fun e => negb (isMutation e)) evs = true).
Proof.
  intros Htr Hno Hsame. exists evs. split; [done|]. split.
  - intros i e Hi He. by destruct (no_mutation_lookup evs i e).
  - intros n Hin. split; [by apply (Hsame n)|done].
Qed.

Lemma sameView_refused s s0 s1 :
  sameView s s0 -> dom s1 = dom s0 -> store s1 = store s0 -> storage s1 = storage s0 ->
  sameView s s1.
Proof. unfold sameView. by intros H -> -> ->. Qed.

End SwitchViewOrder.

(** C2. In every [switchView(boardId, viewId)] call the capacity
    confirmation comes strictly before the mutations: each retargeting
    of the [.board-view] id, each widget hidden, shown or created and
    the write of [lastUsedViewId] is preceded by a capacity
    confirmation that resolved true, and the state in which the
    confirmation is asked has them all as before the call.  When the
    confirmation resolves
    false the call returns at once, with the document, the widget
    store, the storage and the notifications of that point, and
    nothing of the kind happens: the [.board-view] id, the children of
    the container, the display of every widget (none is created), the
    widget store and [lastUsedViewId] are those from before the call. *)
Theorem switchView_capacity_before_mutation boardId viewId s :
  (forall s', App.switchView boardId viewId s = Some s' ->
     exists evs,
       App.trace s' = (App.trace s ++ evs)%list
       /\ (forall i e, evs !! i = Some e -> App.isMutation e = true ->
             exists j n, j < i /\ evs !! j = Some (App.EvConfirmCapacity n true))
       /\ (forall n, App.EvConfirmCapacity n false ∈ evs ->
             App.sameView s s'
             /\ forallb (fun e => negb (App.isMutation e)) evs = true))
  /\ (forall board view s1,
        let b := default (Dom.boardElId (App.dom s)) boardId in
        let s0 := App.switchViewSaved b viewId s in
        List.find (fun x => String.eqb (Types.b_id x) b) (App.boards (App.storage s0))
        = Some board ->
        List.find (fun v => String.eqb (Types.v_id v) viewId) (Types.views board)
        = Some view ->
        App.confirmCapacity
          (Z.of_nat (length (List.filter
                               (fun w => negb (App.storeHas (Types.w_dataid w) s0))
                               (Types.widgetState view)))) s0
        = Some (false, s1) ->
        App.switchView boardId viewId s = Some s1
        /\ App.dom s1 = App.dom s0 /\ App.store s1 = App.store s0
        /\ App.storage s1 = App.storage s0
        /\ App.notifications s1 = App.notifications s0)
  /\ App.sameView s
       (App.switchViewSaved (default (Dom.boardElId (App.dom s)) boardId) viewId s).
Proof.
  split; [|split; [|apply switchViewSaved_sameView]].
  - intros s'. unfold App.switchView.
    set (b := default (Dom.boardElId (App.dom s)) boardId).
    pose proof (switchViewSaved_emits b viewId s) as (pre & Hpre & Fpre).
    pose proof (switchViewSaved_sameView b viewId s) as Hsaved.
    set (s0 := App.switchViewSaved b viewId s) in *.
    destruct (List.find _ (App.boards (App.storage s0))) as [board|].
    2: { intros [= <-]. apply (stopped_early s s0 pre); [done| |].
         - by apply quiet_forall_not_mutation.
         - intros n Hin. by apply quiet_not_confirm in Hin. }
    destruct (List.find _ (Types.views board)) as [view|].
    2: { intros [= <-]. apply (stopped_early s s0 pre); [done| |].
         - by apply quiet_forall_not_mutation.
         - intros n Hin. by apply quiet_not_confirm in Hin. }
    destruct (App.confirmCapacity _ s0) as [[proceed s1]|] eqn:Hconf; [|done].
    apply confirmCapacity_trace in Hconf as (mid & Hmid & Fmid & Hrefused).
    destruct proceed.
    + intros Hrest. apply emits_switchViewConfirmed in Hrest as (post & Hpost & Fpost).
      exists ((pre ++ mid) ++ App.EvConfirmCapacity
                (Z.of_nat (length (List.filter
                   (fun w => negb (App.storeHas (Types.w_dataid w) s0))
                   (Types.widgetState view)))) true :: post)%list.
      split; [|split].
      * rewrite Hpost, Hmid, Hpre, <- !app_assoc. reflexivity.
      * intros i e Hi He.
        destruct (decide (i < length (pre ++ mid)%list)) as [Hlt|Hge].
        { rewrite lookup_app_l in Hi by done.
          destruct (no_mutation_lookup (pre ++ mid)%list i e); [|done|done].
          rewrite forallb_app. by rewrite !quiet_forall_not_mutation. }
        destruct (decide (i = length (pre ++ mid)%list)) as [->|Hne].
        { rewrite list_lookup_middle in Hi by done. by injection Hi as <-. }
        eexists (length (pre ++ mid)%list), _. split; [lia|].
        by apply list_lookup_middle.
      * intros n Hin. exfalso.
        apply elem_of_app in Hin as [Hin|Hin].
        { apply elem_of_app in Hin as [Hin|Hin]; by apply quiet_not_confirm in Hin. }
        apply elem_of_cons in Hin as [Hin|Hin]; [done|].
        by apply notConfirm_not_confirm in Hin.
    + intros [= <-]. destruct (Hrefused eq_refl) as (Hdom & Hstore & Hstorage & _).
      apply (stopped_early s s1
               (pre ++ mid ++ [App.EvConfirmCapacity
                  (Z.of_nat (length (List.filter
                     (fun w => negb (App.storeHas (Types.w_dataid w) s0))
                     (Types.widgetState view)))) false])%list).
      * rewrite Hmid, Hpre, <- !app_assoc. reflexivity.
      * rewrite !forallb_app, !quiet_forall_not_mutation by done. reflexivity.
      * intros _ _. by apply (sameView_refused s s0 s1).
  - intros board view s1 b s0 Hboard Hview Hconf. split.
    + unfold App.switchView. fold b. fold s0. by rewrite Hboard, Hview, Hconf.
    + apply confirmCapacity_trace in Hconf as (_ & _ & _ & Hrefused).
      by apply Hrefused.
Qed.

(** With the store at capacity and a view that needs two more widgets,
    the user cancels the eviction dialog: nothing moves. *)
Lemma switchView_capacity_before_mutation_witness :
  exists s',
    App.switchView (Some "b1") "v2" Scenario.fullStore = Some s'
    /\ App.sameView Scenario.fullStore s'.
Proof.
  destruct (App.switchView (Some "b1") "v2" Scenario.fullStore) as [s'|] eqn:E.
  2: { vm_compute in E. discriminate E. }
  exists s'. split; [reflexivity|].
  destruct (proj1 (switchView_capacity_before_mutation
                     (Some "b1") "v2" Scenario.fullStore) s' E)
    as (evs & Htr & _ & Hcancel).
  apply (Hcancel 2%Z).
  change (App.trace Scenario.fullStore) with (@nil App.Event) in Htr.
  rewrite app_nil_l in Htr. rewrite <- Htr.
  vm_compute in E. injection E as <-.
  apply list_elem_of_In. vm_compute. auto.
Defined.

(** ** The chunk manifest *)
Section ManifestFacts.
Import Js Manifest.

Lemma contains_append c s t : contains c (s +:+ t) = contains c s || contains c t.
Proof.
  induction s as [|c' s IH]; [done|].
  change (String c' s +:+ t) with (String c' (s +:+ t)). simpl.
  by rewrite IH, orb_assoc.
Qed.

Lemma split_absent sep s : contains sep s = false -> split sep s = [s].
Proof.
  induction s as [|c s IH]; simpl; [done|].
  intros [Hc Hs]%orb_false_elim. rewrite Hc, (IH Hs). done.
Qed.

Lemma split_append sep s t :
  contains sep s = false ->
  split sep (s +:+ String sep t) = s :: split sep t.
Proof.
  induction s as [|c s IH]; intros H.
  - change (EmptyString +:+ String sep t) with (String sep t). simpl.
    by rewrite Ascii.eqb_refl.
  - simpl in H. apply orb_false_elim in H as [Hc Hs].
    change (String c s +:+ String sep t) with (String c (s +:+ String sep t)).
    simpl. by rewrite Hc, (IH Hs).
Qed.

Lemma split_join sep segs :
  segs <> [] -> Forall (fun s => contains sep s = false) segs ->
  split sep (join_with (String sep EmptyString) segs) = segs.
Proof.
  induction segs as [|s segs IH]; [done|]. intros _ Hall.
  apply Forall_cons in Hall as [Hs Hall].
  destruct segs as [|s' segs].
  - simpl. by apply split_absent.
  - change (join_with (String sep EmptyString) (s :: s' :: segs))
      with (s +:+ String sep EmptyString +:+ join_with (String sep EmptyString) (s' :: segs)).
    change (String sep EmptyString +:+ ?x) with (String sep x).
    rewrite split_append by done. f_equal. by apply IH.
Qed.

Lemma uint_no_sep c d :
  (nat_of_ascii c < 48 \/ 57 < nat_of_ascii c) ->
  contains c (NilEmpty.string_of_uint d) = false.
Proof.
  intros Hc.
  assert (forall n, 48 <= n <= 57 -> Ascii.eqb (ascii_of_nat n) c = false) as Hd.
  { intros n Hn. apply Ascii.eqb_neq. intros <-.
    rewrite nat_ascii_embedding in Hc; lia. }
  induction d; simpl; [done|..]; rewrite IHd, orb_false_r.
  - apply (Hd 48); lia.
  - apply (Hd 49); lia.
  - apply (Hd 50); lia.
  - apply (Hd 51); lia.
  - apply (Hd 52); lia.
  - apply (Hd 53); lia.
  - apply (Hd 54); lia.
  - apply (Hd 55); lia.
  - apply (Hd 56); lia.
  - apply (Hd 57); lia.
Qed.

Lemma decimal_no_colon n : contains ":" (decimal n) = false.
Proof. apply uint_no_sep. right. vm_compute. lia. Qed.

Lemma decimal_no_semicolon n : contains ";" (decimal n) = false.
Proof. apply uint_no_sep. right. vm_compute. lia. Qed.

Lemma parse_segment_entry out k n :
  key_ok k ->
  parse_segment out (k +:+ ":" +:+ decimal n) = Some (<[k := n]> out).
Proof.
  intros (Hne & _ & Hcolon & Hproto). unfold parse_segment.
  change (":" +:+ decimal n) with (String ":" (decimal n)).
  rewrite split_append by done.
  rewrite (split_absent _ _ (decimal_no_colon n)). simpl.
  destruct k as [|c k]; [done|]. simpl.
  rewrite integerOfString_decimal.
  apply String.eqb_neq in Hproto. simpl in Hproto. by rewrite Hproto.
Qed.

Lemma parse_segments_entries es out :
  Forall key_ok es.*1 ->
  parse_segments out (map (fun kn => fst kn +:+ ":" +:+ decimal (snd kn)) es)
  = Some (fold_left (fun m kn => <[fst kn := snd kn]> m) es out).
Proof.
  revert out. induction es as [|[k n] es IH]; intros out Hall; [done|].
  apply Forall_cons in Hall as [Hk Hall]. simpl.
  rewrite parse_segment_entry by done. by apply IH.
Qed.

Lemma fold_insert_list_to_map (es : list (string * nat)) :
  NoDup es.*1 ->
  forall out : gmap string nat, (forall k, k ∈ es.*1 -> out !! k = None) ->
  fold_left (fun m kn => <[fst kn := snd kn]> m) es out = list_to_map es ∪ out.
Proof.
  induction es as [|[k n] es IH]; intros Hnd out Hout; simpl.
  - by rewrite (left_id_L ∅ (∪)).
  - apply NoDup_cons in Hnd as [Hk Hnd].
    rewrite IH; [|done|].
    + rewrite <- insert_union_r by (by apply not_elem_of_list_to_map_1).
      by rewrite insert_union_l.
    + intros k' Hk'. rewrite lookup_insert_ne; [|set_solver].
      apply Hout. set_solver.
Qed.

End ManifestFacts.

(** X1. Formatting a manifest and parsing it back returns the entries
    whose count is positive. *)
Theorem manifest_roundtrip (entries : list (string * nat)) :
  NoDup entries.*1 ->
  Forall Manifest.key_ok entries.*1 ->
  Manifest.parseChunksManifest (Manifest.formatChunksManifest entries)
  = Some (list_to_map (List.filter (fun kn => 0 <? snd kn) entries)).
Proof.
  intros Hnd Hkeys. unfold Manifest.parseChunksManifest, Manifest.formatChunksManifest.
  set (pos := List.filter _ entries).
  assert (Forall Manifest.key_ok pos.*1) as Hpos.
  { apply Forall_fmap, Forall_forall. intros kn Hin.
    apply list_elem_of_In, filter_In in Hin as [Hin _].
    rewrite Forall_fmap, Forall_forall in Hkeys. apply Hkeys.
    by apply list_elem_of_In. }
  assert (NoDup pos.*1) as Hndpos.
  { clear -Hnd. subst pos. induction entries as [|[k n] es IH]; simpl; [done|].
    apply NoDup_cons in Hnd as [Hk Hnd]. destruct (0 <? n); simpl; [|by apply IH].
    apply NoDup_cons. split; [|by apply IH].
    intros Hin. apply Hk. apply list_elem_of_fmap in Hin as ([k' n'] & -> & Hin).
    apply list_elem_of_In, filter_In in Hin as [Hin _].
    apply list_elem_of_fmap. exists (k', n'). split; [done|by apply list_elem_of_In]. }
  destruct pos as [|p pos'] eqn:Hp; [done|].
  set (segs := map _ (p :: pos')).
  assert (Js.truthy (Manifest.join_with ";" segs) = true) as ->.
  { subst segs. destruct p as [k n]. apply Forall_cons in Hpos as [(Hk & _) _].
    destruct k as [|c k]; [done|]. simpl. by destruct (map _ pos'). }
  simpl negb. cbv iota.
  rewrite (split_join ";" segs).
  - subst segs. rewrite parse_segments_entries by done.
    rewrite fold_insert_list_to_map by done. by rewrite (right_id_L ∅ (∪)).
  - done.
  - subst segs. apply Forall_fmap, Forall_forall. intros [k n] Hin. simpl.
    rewrite Forall_fmap, Forall_forall in Hpos.
    destruct (Hpos _ Hin) as (_ & Hsemi & _). simpl in Hsemi.
    rewrite contains_append, Hsemi. simpl. apply decimal_no_semicolon.
Qed.

Lemma manifest_roundtrip_witness :
  Manifest.parseChunksManifest
    (Manifest.formatChunksManifest [("cfg", 3); ("svc", 2); ("old", 0)]%string)
  = Some (list_to_map [("cfg", 3); ("svc", 2)]%string).
Proof.
  apply (manifest_roundtrip [("cfg", 3); ("svc", 2); ("old", 0)]%string).
  - apply (bool_decide_unpack _). vm_compute. exact I.
  - repeat constructor; done.
Defined.

(** ** The size of the chunks *)
Section ChunkSizes.
Import Js Chunker.

Lemma substring_length_le s a m : String.length (String.substring a m s) <= m.
Proof.
  revert a m. induction s as [|c s IH]; intros a m.
  - destruct a, m; simpl; lia.
  - destruct a as [|a]; simpl.
    + destruct m as [|m]; simpl; [lia|]. specialize (IH 0 m). lia.
    + apply IH.
Qed.

Lemma split_loop_sizes name data maxLen fuel :
  1 <= maxLen ->
  forall off i out,
    String.length data - off <= fuel ->
    exists res,
      split_loop fuel name data maxLen off i out = Some (out ++ res)%list
      /\ Forall (fun kv => String.length (snd kv) <= maxLen) res
      /\ String.length data - off <= length res * maxLen
      /\ (off < String.length data ->
          (length res - 1) * maxLen < String.length data - off)
      /\ (String.length data <= off -> res = []).
Proof.
  intros Hmax. induction fuel as [|fuel IH]; intros off i out Hfuel; simpl.
  - destruct (Nat.ltb_spec off (String.length data)); [lia|].
    exists []. rewrite app_nil_r. repeat split; try done; simpl; lia.
  - destruct (Nat.ltb_spec off (String.length data)) as [Hlt|Hge].
    + destruct (IH (off + maxLen) (S i)
                   (out ++ [(name +:+ decimal i, slice data off (off + maxLen))]))
        as (res & Hres & Hall & Hcover & Htight & Hdone); [lia|].
      exists ((name +:+ decimal i, slice data off (off + maxLen)) :: res).
      rewrite Hres, <- app_assoc. repeat split; try done.
      * apply Forall_cons. split; [|done]. simpl. unfold slice.
        replace (off + maxLen - off) with maxLen by lia. apply substring_length_le.
      * simpl. lia.
      * intros _. simpl. rewrite Nat.sub_0_r.
        destruct (Nat.ltb_spec (off + maxLen) (String.length data)) as [Hmore|Hlast].
        -- specialize (Htight Hmore). destruct res; simpl in *; lia.
        -- rewrite (Hdone Hlast). simpl. lia.
      * lia.
    + exists []. rewrite app_nil_r. repeat split; try done; simpl; lia.
Qed.

End ChunkSizes.

(** X2. Every value that [splitIntoParams] writes is at most [maxLen]
    characters long, and the values are as few as that bound allows. *)
Theorem chunker_chunks_bounded (name S : string) (maxLen : nat) :
  1 <= maxLen ->
  exists ps,
    Chunker.splitIntoParams name S maxLen = Some ps
    /\ Forall (fun kv => String.length (snd kv) <= maxLen) ps
    /\ 1 <= length ps
    /\ String.length S <= length ps * maxLen
    /\ (length ps - 1) * maxLen < Nat.max 1 (String.length S).
Proof.
  intros Hmax. unfold Chunker.splitIntoParams.
  destruct (Nat.leb_spec (String.length S) maxLen) as [Hle|Hgt].
  - exists [(name, S)]. repeat split; simpl; try lia. by apply Forall_singleton.
  - destruct (split_loop_sizes name S maxLen (String.length S) Hmax 0 0 [])
      as (res & Hres & Hall & Hcover & Htight & _); [lia|].
    exists res. split; [exact Hres|]. split; [done|].
    rewrite Nat.sub_0_r in *. specialize (Htight ltac:(lia)).
    destruct res; simpl in *; [lia|]. repeat split; lia.
Qed.

Lemma chunker_chunks_bounded_witness :
  exists ps,
    Chunker.splitIntoParams "svc" "0123456789" 4 = Some ps
    /\ Forall (fun kv => String.length (snd kv) <= 4) ps
    /\ 1 <= length ps
    /\ String.length "0123456789" <= length ps * 4
    /\ (length ps - 1) * 4 < Nat.max 1 (String.length "0123456789").
Proof. apply (chunker_chunks_bounded "svc" "0123456789" 4). lia. Defined.

(** ** Well-formed values *)
Section WellFormedFacts.
Import Js Minimizer ObjectUtils.

Lemma well_formed_obj fs : well_formed (VObj fs) = well_formed_fields fs.
Proof. induction fs as [|[k v] fs IH]; simpl in *; [done|]. by rewrite IH. Qed.

Lemma obj_has_elem k (fs : list (string * jsvalue)) : obj_has k fs = true <-> k ∈ fs.*1.
Proof.
  unfold obj_has. rewrite existsb_exists, list_elem_of_fmap. split.
  - intros ([k' v] & Hin & Heq). apply String.eqb_eq in Heq. simpl in Heq. subst.
    exists (k', v). split; [done|by apply list_elem_of_In].
  - intros ([k' v] & -> & Hin). exists (k', v).
    split; [by apply list_elem_of_In|apply String.eqb_refl].
Qed.

Lemma well_formed_fields_nodup fs : well_formed_fields fs = true -> NoDup fs.*1.
Proof.
  induction fs as [|[k v] fs IH]; simpl; [intros _; apply NoDup_nil_2|].
  intros [[Hk _]%andb_prop Hfs]%andb_prop. apply NoDup_cons. split; [|by apply IH].
  apply negb_true_iff in Hk. intros Hin%obj_has_elem. congruence.
Qed.

Lemma well_formed_fields_values fs :
  well_formed_fields fs = true -> Forall (fun kv => well_formed (snd kv) = true) fs.
Proof.
  induction fs as [|[k v] fs IH]; simpl; [done|].
  intros [[_ Hv]%andb_prop Hfs]%andb_prop. apply Forall_cons. split; [done|by apply IH].
Qed.

Lemma nodup_well_formed_fields fs :
  NoDup fs.*1 -> Forall (fun kv => well_formed (snd kv) = true) fs ->
  well_formed_fields fs = true.
Proof.
  induction fs as [|[k v] fs IH]; simpl; [done|].
  intros [Hk Hnd]%NoDup_cons [Hv Hall]%Forall_cons. simpl in Hv.
  rewrite Hv, IH by done. rewrite !andb_true_r. apply negb_true_iff.
  destruct (obj_has k fs) eqn:Hhas; [|done]. by apply obj_has_elem in Hhas.
Qed.

Lemma json_well_formed v : json v = true -> well_formed v = true.
Proof.
  induction v as [| | | | |elems IH|fields IH] using jsvalue_nested_ind; try done.
  - simpl. rewrite !forallb_forall. intros H x Hx.
    rewrite Forall_forall in IH. apply IH; [by apply list_elem_of_In|by apply H].
  - rewrite json_obj, well_formed_obj.
    induction fields as [|[k v] fs IHfs]; simpl; [done|].
    apply Forall_cons in IH as [Hv IH]. simpl in Hv.
    intros [[-> Hj]%andb_prop Hfs]%andb_prop. rewrite (Hv Hj). simpl. by apply IHfs.
Qed.

Lemma obj_get_nodup k x (fs : list (string * jsvalue)) :
  NoDup fs.*1 -> (k, x) ∈ fs -> obj_get k fs = x.
Proof.
  induction fs as [|[k' v'] fs IH]; simpl; [by intros _ ?%elem_of_nil|].
  intros [Hk Hnd]%NoDup_cons [[= -> ->]|Hin]%elem_of_cons.
  - by rewrite String.eqb_refl.
  - destruct (String.eqb_spec k k') as [->|Hne]; [|by apply IH].
    exfalso. apply Hk. apply list_elem_of_fmap. by exists (k', x).
Qed.

Lemma obj_get_elem k (fs : list (string * jsvalue)) :
  k ∈ fs.*1 -> (k, obj_get k fs) ∈ fs.
Proof.
  induction fs as [|[k' v'] fs IH]; simpl; [by intros ?%elem_of_nil|].
  destruct (String.eqb_spec k k') as [->|Hne]; [by left|].
  intros [?|Hin]%elem_of_cons; [done|]. right. by apply IH.
Qed.

End WellFormedFacts.

(** ** deepEqual *)
Section DeepEqualFacts.
Import Js Minimizer ObjectUtils.

Lemma deepEqual_arr xs ys :
  deepEqual (VArr xs) (VArr ys)
  = Nat.eqb (length xs) (length ys) && deepEqual_elems xs ys.
Proof.
  simpl. f_equal. 
Qed.

Lemma deepEqual_obj fa fb :
  deepEqual (VObj fa) (VObj fb)
  = Nat.eqb (length fa) (length fb) && deepEqual_fields fa fb.
Proof.
  simpl. f_equal. induction fa as [|[k x] fa IH]; simpl; [done|]. by rewrite IH.
Qed.

Lemma deepEqual_fields_spec fa fb :
  deepEqual_fields fa fb = true
  <-> Forall (fun kx => fst kx ∈ fb.*1
                        /\ deepEqual (snd kx) (obj_get (fst kx) fb) = true) fa.
Proof.
  induction fa as [|[k x] fa IH]; simpl; [by split|].
  rewrite Forall_cons, <- IH, !andb_true_iff, obj_has_elem. simpl. tauto.
Qed.

Lemma deepEqual_elems_spec xs ys :
  length xs = length ys ->
  deepEqual_elems xs ys = true <-> Forall2 (fun x y => deepEqual x y = true) xs ys.
Proof.
  revert ys. induction xs as [|x xs IH]; intros [|y ys] Hlen; simpl in *; try done.
  injection Hlen as Hlen. rewrite andb_true_iff, (IH ys Hlen). split.
  - intros [? ?]. by constructor.
  - intros H. inversion H. done.
Qed.

Lemma deepEqual_refl a : well_formed a = true -> deepEqual a a = true.
Proof.
  induction a as [| | |n|s|elems IH|fields IH] using jsvalue_nested_ind;
    intros Hwf; try done.
  - by destruct b.
  - simpl. apply Z.eqb_refl.
  - simpl. apply String.eqb_refl.
  - rewrite deepEqual_arr, Nat.eqb_refl. simpl. simpl in Hwf.
    apply deepEqual_elems_spec; [done|]. rewrite forallb_forall in Hwf.
    apply Forall2_same_length_lookup_2; [done|]. intros i x y Hx Hy.
    rewrite Hx in Hy. injection Hy as <-.
    rewrite Forall_forall in IH. apply list_elem_of_lookup_2 in Hx.
    apply IH; [done|]. by apply Hwf, list_elem_of_In.
  - rewrite deepEqual_obj, Nat.eqb_refl. simpl. rewrite well_formed_obj in Hwf.
    apply deepEqual_fields_spec. apply Forall_forall. intros [k x] Hin. simpl.
    pose proof (well_formed_fields_nodup _ Hwf) as Hnd.
    pose proof (well_formed_fields_values _ Hwf) as Hvals.
    split; [apply list_elem_of_fmap; by exists (k, x)|].
    rewrite (obj_get_nodup k x fields Hnd Hin).
    rewrite Forall_forall in IH, Hvals. apply (IH (k, x) Hin). by apply (Hvals (k, x)).
Qed.

Lemma deepEqual_sym a : forall b,
  well_formed a = true -> well_formed b = true ->
  deepEqual a b = true -> deepEqual b a = true.
Proof.
  induction a as [| | |n|s|elems IH|fields IH] using jsvalue_nested_ind;
    intros [| |b'|n'|s'|elems'|fields'] Hwa Hwb Heq; try done.
  - simpl in *. by destruct b, b'.
  - simpl in *. by rewrite Z.eqb_sym.
  - simpl in *. by rewrite String.eqb_sym.
  - rewrite deepEqual_arr in *. apply andb_prop in Heq as [Hlen%Nat.eqb_eq Hel].
    rewrite <- Hlen, Nat.eqb_refl. simpl.
    apply deepEqual_elems_spec; [done|]. apply deepEqual_elems_spec in Hel; [|done].
    simpl in Hwa, Hwb. rewrite forallb_forall in Hwa, Hwb.
    apply Forall2_flip. apply Forall2_same_length_lookup_2.
    { by apply Forall2_length in Hel. }
    intros i x y Hx Hy. rewrite Forall_forall in IH.
    pose proof (Forall2_lookup_lr _ _ _ _ _ _ Hel Hx Hy) as Hxy. simpl.
    apply IH; [by eapply list_elem_of_lookup_2| | |done].
    + apply Hwa, list_elem_of_In. by eapply list_elem_of_lookup_2.
    + apply Hwb, list_elem_of_In. by eapply list_elem_of_lookup_2.
  - rewrite deepEqual_obj in *. apply andb_prop in Heq as [Hlen%Nat.eqb_eq Hf].
    rewrite <- Hlen, Nat.eqb_refl. simpl.
    rewrite well_formed_obj in Hwa, Hwb.
    pose proof (well_formed_fields_nodup _ Hwa) as Hnda.
    pose proof (well_formed_fields_nodup _ Hwb) as Hndb.
    pose proof (well_formed_fields_values _ Hwa) as Hva.
    pose proof (well_formed_fields_values _ Hwb) as Hvb.
    apply deepEqual_fields_spec in Hf. apply deepEqual_fields_spec.
    rewrite Forall_forall in Hf, IH, Hva, Hvb |- *.
    assert (fields.*1 ⊆+ fields'.*1) as Hsub.
    { apply NoDup_submseteq; [done|]. intros k ([k' x] & -> & Hin)%list_elem_of_fmap.
      by apply (Hf (k', x)). }
    assert (fields'.*1 ≡ₚ fields.*1) as Hperm.
    { symmetry. apply submseteq_length_Permutation; [done|].
      rewrite !length_fmap. lia. }
    intros [k y] Hin. simpl.
    assert (k ∈ fields.*1) as Hk.
    { rewrite <- Hperm. apply list_elem_of_fmap. by exists (k, y). }
    split; [done|]. apply obj_get_elem in Hk as Hx.
    destruct (Hf _ Hx) as [_ Hxy]. simpl in Hxy.
    rewrite (obj_get_nodup k y fields' Hndb Hin) in Hxy.
    apply (IH _ Hx); [by apply (Hva _ Hx)|by apply (Hvb _ Hin)|done].
Qed.

Lemma deepEqual_trans a : forall b c,
  deepEqual a b = true -> deepEqual b c = true -> deepEqual a c = true.
Proof.
  induction a as [| |x|n|s|elems IH|fields IH] using jsvalue_nested_ind;
    intros [| |x'|n'|s'|elems'|fields'] [| |x''|n''|s''|elems''|fields''] Hab Hbc;
    try done.
  - simpl in *. apply Bool.eqb_prop in Hab, Hbc. subst. by destruct x''.
  - simpl in *. apply Z.eqb_eq in Hab, Hbc. subst. apply Z.eqb_refl.
  - simpl in *. apply String.eqb_eq in Hab, Hbc. subst. apply String.eqb_refl.
  - rewrite deepEqual_arr in *.
    apply andb_prop in Hab as [Hl1%Nat.eqb_eq H1], Hbc as [Hl2%Nat.eqb_eq H2].
    rewrite Hl1, Hl2, Nat.eqb_refl. simpl.
    apply deepEqual_elems_spec; [lia|].
    apply deepEqual_elems_spec in H1; [|done]. apply deepEqual_elems_spec in H2; [|done].
    apply Forall2_same_length_lookup_2; [lia|]. intros i x z Hx Hz.
    destruct (Forall2_lookup_l _ _ _ _ _ H1 Hx) as (y & Hy & Hxy).
    pose proof (Forall2_lookup_lr _ _ _ _ _ _ H2 Hy Hz) as Hyz.
    rewrite Forall_forall in IH. eapply IH; [by eapply list_elem_of_lookup_2|done|done].
  - rewrite deepEqual_obj in *.
    apply andb_prop in Hab as [Hl1%Nat.eqb_eq H1], Hbc as [Hl2%Nat.eqb_eq H2].
    rewrite Hl1, Hl2, Nat.eqb_refl. simpl.
    apply deepEqual_fields_spec in H1, H2. apply deepEqual_fields_spec.
    rewrite Forall_forall in H1, H2, IH |- *. intros [k x] Hin. simpl.
    destruct (H1 _ Hin) as [Hk Hxy]. simpl in *.
    destruct (H2 _ (obj_get_elem k fields' Hk)) as [Hk' Hyz]. simpl in *.
    split; [done|]. by eapply (IH _ Hin).
Qed.

Lemma deepEqual_permuted fa fb :
  well_formed (VObj fa) = true -> fa ≡ₚ fb ->
  deepEqual (VObj fa) (VObj fb) = true.
Proof.
  intros Hwf Hperm. rewrite deepEqual_obj, (Permutation_length Hperm), Nat.eqb_refl.
  simpl. rewrite well_formed_obj in Hwf.
  pose proof (well_formed_fields_nodup _ Hwf) as Hnd.
  pose proof (well_formed_fields_values _ Hwf) as Hvals.
  apply deepEqual_fields_spec, Forall_forall. intros [k x] Hin. simpl.
  rewrite Hperm in Hin, Hnd. split; [apply list_elem_of_fmap; by exists (k, x)|].
  rewrite (obj_get_nodup k x fb Hnd Hin). apply deepEqual_refl.
  rewrite Forall_forall in Hvals. apply (Hvals (k, x)). by rewrite Hperm.
Qed.

End DeepEqualFacts.

(** ** The key map *)
Section KeymapFacts.
Import Js Minimizer ObjectUtils Keymap.

Lemma walk_arr m elems : walk m (VArr elems) = VArr <$> walk_elems m elems.
Proof.
  simpl. f_equal. induction elems as [|x l IH]; simpl; [done|]. by rewrite IH.
Qed.

Lemma walk_obj m fields : walk m (VObj fields) = VObj <$> walk_fields m fields [].
Proof.
  simpl. f_equal. generalize (@nil (string * jsvalue)).
  induction fields as [|[k v] fs IH]; intros out; simpl; [done|].
  destruct (rename m k), (walk m v); try done.
  destruct (String.eqb _ _); [done|]. apply IH.
Qed.

Lemma walk_elems_renamed m f l :
  Forall (fun x => walk m x = Some (rename_keys f x)) l ->
  walk_elems m l = Some (map (rename_keys f) l).
Proof.
  induction 1 as [|x l Hx _ IH]; simpl; [done|]. by rewrite Hx, IH.
Qed.

Lemma walk_fields_renamed m f fs : forall out,
  Forall (fun kv => rename m (fst kv) = Some (f (fst kv))
                    /\ f (fst kv) <> "__proto__"%string
                    /\ walk m (snd kv) = Some (rename_keys f (snd kv))) fs ->
  NoDup (out.*1 ++ map f fs.*1) ->
  walk_fields m fs out
  = Some (out ++ map (fun kv => (f (fst kv), rename_keys f (snd kv))) fs)%list.
Proof.
  induction fs as [|[k v] fs IH]; intros out Hall Hnd; simpl.
  - by rewrite app_nil_r.
  - apply Forall_cons in Hall as [(Hk & Hp & Hv) Hall]. simpl in *.
    rewrite Hk, Hv. apply String.eqb_neq in Hp. rewrite Hp.
    assert (f k ∉ out.*1) as Hout.
    { apply NoDup_app in Hnd as (_ & Hdisj & _). intros Hin.
      apply (Hdisj _ Hin). by left. }
    rewrite jsmap_set_absent by done. rewrite IH; [|done|].
    + by rewrite <- app_assoc.
    + rewrite fmap_app. simpl. rewrite <- app_assoc. simpl.
      by rewrite <- Permutation_middle in Hnd |- *.
Qed.

Section Renaming.
Variable m : Record.
Variable f : string -> string.
(** On the names that satisfy [P], [m] renames as [f] does, and [f] is
    one to one. *)
Variable P : string -> bool.
Hypothesis Hrename : forall k, P k = true -> rename m k = Some (f k).
Hypothesis Hproto : forall k, P k = true -> f k <> "__proto__"%string.
Hypothesis Hinj : forall k k', P k = true -> P k' = true -> f k = f k' -> k = k'.

Lemma renamed_nodup (ks : list string) :
  Forall (fun k => P k = true) ks -> NoDup ks -> NoDup (map f ks).
Proof.
  induction 1 as [|k ks Hk Hall IH]; simpl; [done|].
  intros [Hnk Hnd]%NoDup_cons. apply NoDup_cons. split; [|by apply IH].
  intros Hin. apply list_elem_of_fmap in Hin as (k' & Heq & Hin).
  rewrite Forall_forall in Hall. apply Hinj in Heq; [|done|by apply Hall].
  by subst.
Qed.

Lemma walk_renamed v :
  all_keys P v = true -> well_formed v = true ->
  walk m v = Some (rename_keys f v) /\ well_formed (rename_keys f v) = true.
Proof.
  induction v as [| | | | |elems IH|fields IH] using jsvalue_nested_ind;
    intros Hkeys Hjson; try done.
  - rewrite walk_arr. simpl in Hkeys, Hjson.
    rewrite forallb_forall in Hkeys, Hjson.
    assert (Forall (fun x => walk m x = Some (rename_keys f x)
                             /\ well_formed (rename_keys f x) = true) elems) as Hall.
    { rewrite Forall_forall in IH |- *. intros x Hx.
      apply IH; [done|apply Hkeys|apply Hjson]; by apply list_elem_of_In. }
    split.
    + rewrite (walk_elems_renamed m f elems); [done|].
      eapply Forall_impl; [exact Hall|]. by intros x [? _].
    + simpl. apply forallb_forall. intros y Hy.
      apply in_map_iff in Hy as (x & <- & Hx).
      rewrite Forall_forall in Hall. by apply Hall, list_elem_of_In.
  - rewrite walk_obj. rewrite well_formed_obj in Hjson. simpl in Hkeys.
    pose proof (well_formed_fields_nodup _ Hjson) as Hnd.
    pose proof (well_formed_fields_values _ Hjson) as Hvals.
    rewrite forallb_forall in Hkeys.
    assert (Forall (fun kv => P (fst kv) = true) fields) as HP.
    { apply Forall_forall. intros kv Hin.
      apply list_elem_of_In, Hkeys, andb_prop in Hin as [? _]. done. }
    assert (Forall (fun kv => walk m (snd kv) = Some (rename_keys f (snd kv))
                              /\ well_formed (rename_keys f (snd kv)) = true)
              fields) as Hrec.
    { rewrite Forall_forall in IH, Hvals |- *. intros kv Hin.
      apply IH; [done| |by apply Hvals].
      apply list_elem_of_In, Hkeys, andb_prop in Hin as [_ ?]. done. }
    assert (NoDup (map f fields.*1)) as Hnd'.
    { apply renamed_nodup; [|done]. by apply Forall_fmap. }
    split.
    + rewrite (walk_fields_renamed m f fields []); [done| |done].
      rewrite Forall_forall in HP, Hrec |- *. intros kv Hin.
      split; [by apply Hrename, HP|]. split; [by apply Hproto, HP|].
      by apply Hrec.
    + change (rename_keys f (VObj fields))
        with (VObj (map (fun kv => (f (fst kv), rename_keys f (snd kv))) fields)).
      rewrite well_formed_obj. apply nodup_well_formed_fields.
      * replace ((map (fun kv => (f (fst kv), rename_keys f (snd kv))) fields).*1)
          with (map f fields.*1); [done|].
        clear. induction fields as [|[k v] fs IH]; [done|].
        cbn [map fmap list_fmap fst]. f_equal. exact IH.
      * apply Forall_fmap. rewrite Forall_forall in Hrec |- *.
        intros kv Hin. simpl. by apply Hrec.
Qed.

End Renaming.

Lemma jsmap_get_none {V} k (m : list (string * V)) : k ∉ m.*1 -> JsMap.get k m = None.
Proof.
  induction m as [|[k' v] m IH]; simpl; [done|].
  intros [Hne Hk]%not_elem_of_cons.
  destruct (String.eqb_spec k k'); [done|by apply IH].
Qed.

Lemma jsmap_get_elem {V} k (v : V) (m : list (string * V)) :
  JsMap.get k m = Some v -> (k, v) ∈ m.
Proof.
  induction m as [|[k' v'] m IH]; simpl; [done|].
  destruct (String.eqb_spec k k') as [->|Hne].
  - intros [= ->]. by left.
  - intros H. right. by apply IH.
Qed.

Lemma jsmap_get_nodup {V} k (v : V) (m : list (string * V)) :
  NoDup m.*1 -> (k, v) ∈ m -> JsMap.get k m = Some v.
Proof.
  induction m as [|[k' v'] m IH]; simpl; [by intros _ ?%elem_of_nil|].
  intros [Hk Hnd]%NoDup_cons [[= -> ->]|Hin]%elem_of_cons.
  - by rewrite String.eqb_refl.
  - destruct (String.eqb_spec k k') as [->|Hne]; [|by apply IH].
    exfalso. apply Hk. apply list_elem_of_fmap. by exists (k', v).
Qed.

Lemma invert_swap (map : Record) :
  NoDup map.*2 -> Forall (fun t => inherited t = false) map.*2 ->
  invert map = (fun kv => (snd kv, fst kv)) <$> map.
Proof.
  unfold invert. intros Hnd Hplain.
  assert (forall acc : Record, NoDup (acc.*1 ++ map.*2) ->
            fold_left (fun inv kv => if String.eqb (snd kv) "__proto__" then inv
                                     else JsMap.set (snd kv) (fst kv) inv) map acc
            = (acc ++ ((fun kv => (snd kv, fst kv)) <$> map))%list) as H.
  { clear Hnd. induction map as [|[k t] map IH]; intros acc Hnd; simpl.
    - by rewrite app_nil_r.
    - apply Forall_cons in Hplain as [Ht Hplain]. simpl in Ht.
      destruct (String.eqb_spec t "__proto__") as [->|_]; [done|].
      simpl in Hnd. rewrite jsmap_set_absent.
      + rewrite IH; [by rewrite <- app_assoc|done|].
        rewrite fmap_app. simpl. rewrite <- app_assoc. done.
      + apply NoDup_app in Hnd as (_ & Hdisj & _). intros Hin.
        apply (Hdisj _ Hin). by left. }
  by apply (H []).
Qed.

Section RoundTrip.
Variable map : Record.
Hypothesis Hkeys : NoDup map.*1.
Hypothesis Htokens : NoDup map.*2.
Hypothesis Hplain : Forall (fun t => inherited t = false) map.*2.

Lemma decoded_token k t : (k, t) ∈ map -> JsMap.get t (invert map) = Some k.
Proof.
  intros Hin. rewrite invert_swap by done. apply jsmap_get_nodup.
  - rewrite <- list_fmap_compose. exact Htokens.
  - apply list_elem_of_fmap. by exists (k, t).
Qed.

Lemma decoded_other k : k ∉ map.*2 -> JsMap.get k (invert map) = None.
Proof.
  intros Hk. rewrite invert_swap by done. apply jsmap_get_none.
  by rewrite <- list_fmap_compose.
Qed.

Lemma carried_plain k : carried map k = true -> inherited k = false.
Proof. unfold carried. intros [H _]%andb_prop. by apply negb_true_iff. Qed.

Lemma carried_other k :
  carried map k = true -> JsMap.get k map = None -> k ∉ map.*2.
Proof.
  unfold carried. intros [_ [Hhas|Hno]%orb_prop]%andb_prop Hget.
  - apply jsmap_has_true in Hhas. apply list_elem_of_fmap in Hhas as ([k' t] & -> & Hin).
    simpl in Hget. by rewrite (jsmap_get_nodup _ _ _ Hkeys Hin) in Hget.
  - apply negb_true_iff, bool_decide_eq_false in Hno. done.
Qed.

Lemma token_plain k t : JsMap.get k map = Some t -> inherited t = false.
Proof.
  intros Hin%jsmap_get_elem. rewrite Forall_forall in Hplain. apply Hplain.
  apply list_elem_of_fmap. by exists (k, t).
Qed.

Lemma decoded_encoded k : carried map k = true -> decoded map (encoded map k) = k.
Proof.
  intros Hc. unfold decoded, encoded.
  destruct (JsMap.get k map) as [t|] eqn:Hget; simpl.
  - by rewrite (decoded_token k t (jsmap_get_elem _ _ _ Hget)).
  - by rewrite (decoded_other k (carried_other k Hc Hget)).
Qed.

Lemma encode_rename k : carried map k = true -> rename map k = Some (encoded map k).
Proof.
  intros Hc. unfold rename, encoded.
  destruct (JsMap.get k map); [done|]. by rewrite (carried_plain k Hc).
Qed.

Lemma plain_not_proto k : inherited k = false -> k <> "__proto__"%string.
Proof. by intros H ->. Qed.

Lemma encode_proto k : carried map k = true -> encoded map k <> "__proto__"%string.
Proof.
  intros Hc. apply plain_not_proto. unfold encoded.
  destruct (JsMap.get k map) as [t|] eqn:Hget; simpl.
  - by apply (token_plain k).
  - by apply carried_plain.
Qed.

Lemma encode_inj k k' :
  carried map k = true -> carried map k' = true ->
  encoded map k = encoded map k' -> k = k'.
Proof.
  intros Hc Hc' Heq.
  by rewrite <- (decoded_encoded k Hc), <- (decoded_encoded k' Hc'), Heq.
Qed.

(** The names that an encoded value carries. *)
Let back (k' : string) : bool :=
  carried map (decoded map k') && String.eqb (encoded map (decoded map k')) k'.

Lemma back_encoded k : carried map k = true -> back (encoded map k) = true.
Proof.
  intros Hc. unfold back. rewrite (decoded_encoded k Hc), Hc. apply String.eqb_refl.
Qed.

Lemma decode_rename k' : back k' = true -> rename (invert map) k' = Some (decoded map k').
Proof.
  unfold back. intros [Hc Heq%String.eqb_eq]%andb_prop. unfold rename, decoded in *.
  destruct (JsMap.get k' (invert map)) as [k|] eqn:Hget; simpl in *; [done|].
  by rewrite (carried_plain k' Hc).
Qed.

Lemma decode_proto k' : back k' = true -> decoded map k' <> "__proto__"%string.
Proof.
  unfold back. intros [Hc _]%andb_prop. by apply plain_not_proto, carried_plain.
Qed.

Lemma decode_inj k1 k2 :
  back k1 = true -> back k2 = true -> decoded map k1 = decoded map k2 -> k1 = k2.
Proof.
  unfold back. intros [_ H1%String.eqb_eq]%andb_prop [_ H2%String.eqb_eq]%andb_prop Heq.
  by rewrite <- H1, <- H2, Heq.
Qed.

Lemma all_keys_encoded v :
  all_keys (carried map) v = true -> all_keys back (rename_keys (encoded map) v) = true.
Proof.
  induction v as [| | | | |elems IH|fields IH] using jsvalue_nested_ind; try done.
  - simpl. rewrite !forallb_forall. intros H y Hy.
    apply in_map_iff in Hy as (x & <- & Hx). rewrite Forall_forall in IH.
    apply IH; [by apply list_elem_of_In|by apply H].
  - simpl. rewrite !forallb_forall. intros H [k' y] Hy.
    apply in_map_iff in Hy as ([k x] & [= <- <-] & Hx). simpl.
    apply H in Hx as Hkx. simpl in Hkx. apply andb_prop in Hkx as [Hk Hx'].
    rewrite (back_encoded k Hk). simpl. rewrite Forall_forall in IH.
    by apply (IH (k, x)); [apply list_elem_of_In|].
Qed.

Lemma decoded_encoded_value v :
  all_keys (carried map) v = true ->
  rename_keys (decoded map) (rename_keys (encoded map) v) = v.
Proof.
  induction v as [| | | | |elems IH|fields IH] using jsvalue_nested_ind; try done.
  - simpl. intros H. f_equal. rewrite forallb_forall in H.
    rewrite map_map. rewrite <- (map_id elems) at 2. apply map_ext_in.
    intros x Hx. rewrite Forall_forall in IH.
    apply IH; [by apply list_elem_of_In|by apply H].
  - simpl. intros H. f_equal. rewrite forallb_forall in H.
    rewrite map_map. rewrite <- (map_id fields) at 2. apply map_ext_in.
    intros [k x] Hx. simpl. apply H in Hx as Hkx. simpl in Hkx.
    apply andb_prop in Hkx as [Hk Hx']. rewrite (decoded_encoded k Hk). f_equal.
    rewrite Forall_forall in IH. by apply (IH (k, x)); [apply list_elem_of_In|].
Qed.

Lemma keymap_there_and_back v :
  all_keys (carried map) v = true -> well_formed v = true ->
  exists e,
    applyKeyMap v map Encode = Some e
    /\ applyKeyMap e map Decode = Some v.
Proof.
  intros Hall Hwf. unfold applyKeyMap.
  destruct (walk_renamed map (encoded map) (carried map)
              encode_rename encode_proto encode_inj v Hall Hwf) as [Henc Hwf'].
  exists (rename_keys (encoded map) v). split; [done|].
  destruct (walk_renamed (invert map) (decoded map) back
              decode_rename decode_proto decode_inj
              (rename_keys (encoded map) v) (all_keys_encoded v Hall) Hwf') as [Hdec _].
  by rewrite Hdec, decoded_encoded_value.
Qed.

End RoundTrip.

End KeymapFacts.

(** X3. [deepEqual] is an equivalence on well-formed values: it holds
    of every value and itself, it can be turned around, it chains, and
    it does not see the order of the properties of an object. *)
Theorem deepEqual_equivalence :
  (forall a, ObjectUtils.well_formed a = true -> Minimizer.deepEqual a a = true)
  /\ (forall a b,
        ObjectUtils.well_formed a = true -> ObjectUtils.well_formed b = true ->
        Minimizer.deepEqual a b = true -> Minimizer.deepEqual b a = true)
  /\ (forall a b c,
        Minimizer.deepEqual a b = true -> Minimizer.deepEqual b c = true ->
        Minimizer.deepEqual a c = true)
  /\ (forall fa fb,
        ObjectUtils.well_formed (Minimizer.VObj fa) = true -> fa ≡ₚ fb ->
        Minimizer.deepEqual (Minimizer.VObj fa) (Minimizer.VObj fb) = true).
Proof.
  split; [exact deepEqual_refl|]. split; [intros a b; apply deepEqual_sym|].
  split; [intros a b c; apply deepEqual_trans|exact deepEqual_permuted].
Qed.

Lemma deepEqual_equivalence_witness :
  Minimizer.deepEqual
    (Minimizer.VObj [("id", Minimizer.VStr "b1");
                     ("views", Minimizer.VArr [Minimizer.VNum 1])])
    (Minimizer.VObj [("views", Minimizer.VArr [Minimizer.VNum 1]);
                     ("id", Minimizer.VStr "b1")]) = true.
Proof.
  apply (proj2 (proj2 (proj2 deepEqual_equivalence))).
  - reflexivity.
  - apply perm_swap.
Defined.

(** X4. A well-formed value whose property names are all carried by a
    key map (distinct keys, distinct tokens, no token naming a member
    of [Object.prototype]) is encoded, and decoding the result gives a
    value that [deepEqual] does not tell from the original. *)
Theorem keymap_roundtrip (map : Keymap.Record) (v : Minimizer.jsvalue) :
  NoDup map.*1 -> NoDup map.*2 ->
  Forall (fun t => Keymap.inherited t = false) map.*2 ->
  Keymap.all_keys (Keymap.carried map) v = true ->
  ObjectUtils.well_formed v = true ->
  exists e v',
    Keymap.applyKeyMap v map Keymap.Encode = Some e
    /\ Keymap.applyKeyMap e map Keymap.Decode = Some v'
    /\ Minimizer.deepEqual v' v = true.
Proof.
  intros Hkeys Htokens Hplain Hall Hwf.
  destruct (keymap_there_and_back map Hkeys Htokens Hplain v Hall Hwf)
    as (e & Henc & Hdec).
  exists e, v. split; [done|]. split; [done|]. by apply deepEqual_refl.
Qed.

Lemma keymap_roundtrip_witness :
  let v :=
    Minimizer.VObj
      [("version", Minimizer.VNum 1);
       ("boards", Minimizer.VArr
          [Minimizer.VObj
             [("id", Minimizer.VStr "b1"); ("name", Minimizer.VStr "Main");
              ("views", Minimizer.VArr
                 [Minimizer.VObj
                    [("id", Minimizer.VStr "v1");
                     ("widgetState", Minimizer.VArr
                        [Minimizer.VObj
                           [("dataid", Minimizer.VStr "w1");
                            ("url", Minimizer.VStr "http://x/");
                            ("columns", Minimizer.VNum 2)]])]])]]);
       ("custom", Minimizer.VStr "kept")] in
  exists e v',
    Keymap.applyKeyMap v Keymap.KEY_MAP Keymap.Encode = Some e
    /\ Keymap.applyKeyMap e Keymap.KEY_MAP Keymap.Decode = Some v'
    /\ Minimizer.deepEqual v' v = true.
Proof.
  intros v. apply (keymap_roundtrip Keymap.KEY_MAP v).
  - apply (bool_decide_unpack _). vm_compute. exact I.
  - apply (bool_decide_unpack _). vm_compute. exact I.
  - apply (bool_decide_unpack _). vm_compute. exact I.
  - vm_compute. reflexivity.
  - vm_compute. reflexivity.
Defined.

(** ** The checksum *)
Section ChecksumFacts.
Import Checksum.

Lemma lxor_range n a b :
  (0 <= n -> 0 <= a < 2 ^ n -> 0 <= b < 2 ^ n -> 0 <= Z.lxor a b < 2 ^ n)%Z.
Proof.
  intros Hn Ha Hb. split; [apply Z.lxor_nonneg; split; intros; lia|].
  destruct (Z.eq_dec (Z.lxor a b) 0%Z) as [->|Hne]; [apply Z.pow_pos_nonneg; lia|].
  assert (0 <= Z.lxor a b)%Z by (apply Z.lxor_nonneg; split; intros; lia).
  assert (0 < n)%Z as Hpos.
  { destruct (Z.eq_dec n 0%Z) as [->|]; [|lia]. exfalso. apply Hne.
    replace a with 0%Z by lia. replace b with 0%Z by lia. done. }
  apply Z.log2_lt_pow2; [lia|].
  eapply Z.le_lt_trans; [apply Z.log2_lxor; lia|].
  apply Z.max_lub_lt.
  - destruct (Z.eq_dec a 0%Z) as [->|]; [simpl; lia|]. apply Z.log2_lt_pow2; lia.
  - destruct (Z.eq_dec b 0%Z) as [->|]; [simpl; lia|]. apply Z.log2_lt_pow2; lia.
Qed.

Lemma ushr_range x n : (0 <= n -> 0 <= ushr x n < 2 ^ 32)%Z.
Proof.
  intros Hn. unfold ushr. rewrite Z.shiftr_div_pow2 by done.
  pose proof (Z.mod_pos_bound x (2 ^ 32)%Z ltac:(lia)) as Hx.
  assert (0 < 2 ^ n)%Z by (apply Z.pow_pos_nonneg; lia).
  split; [apply Z.div_pos; lia|].
  apply Z.div_lt_upper_bound; [lia|]. nia.
Qed.

Lemma table_range : Forall (fun t => 0 <= t < 2 ^ 32)%Z makeTable.
Proof. apply (bool_decide_unpack _). vm_compute. exact I. Qed.

Lemma table_get_range i : (0 <= table_get i < 2 ^ 32)%Z.
Proof.
  unfold table_get. pose proof table_range as H. rewrite Forall_forall in H.
  destruct (Nat.lt_ge_cases (Z.to_nat i) (length makeTable)) as [Hlt|Hge].
  - apply H. apply list_elem_of_In, nth_In. done.
  - rewrite nth_overflow by done. lia.
Qed.

Lemma table_tops_nodup : NoDup (map (fun t => Z.shiftr t 24) makeTable).
Proof. apply (bool_decide_unpack _). vm_compute. exact I. Qed.

Lemma table_get_lookup i :
  (0 <= i < 256)%Z -> makeTable !! Z.to_nat i = Some (table_get i).
Proof.
  intros Hi. unfold table_get.
  destruct (nth_lookup_or_length makeTable (Z.to_nat i) 0%Z) as [H|H]; [done|].
  unfold makeTable in H at 1. rewrite length_map, length_seq in H. lia.
Qed.

Lemma table_top_inj i j :
  (0 <= i < 256)%Z -> (0 <= j < 256)%Z ->
  Z.shiftr (table_get i) 24 = Z.shiftr (table_get j) 24 -> i = j.
Proof.
  intros Hi Hj Heq.
  assert (Z.to_nat i = Z.to_nat j) as H; [|lia].
  eapply (NoDup_lookup _ _ _ _ table_tops_nodup).
  - rewrite list_lookup_fmap, (table_get_lookup i Hi). reflexivity.
  - rewrite list_lookup_fmap, (table_get_lookup j Hj). simpl. by rewrite Heq.
Qed.

Lemma low_byte_range x : (0 <= Z.land x 255 < 256)%Z.
Proof.
  change 255%Z with (Z.ones 8). rewrite Z.land_ones by lia.
  apply Z.mod_pos_bound. lia.
Qed.

Lemma low_byte_lxor c ch :
  Z.land (Z.lxor c (Z.land ch 255)) 255 = Z.lxor (Z.land c 255) (Z.land ch 255).
Proof.
  apply Z.bits_inj'. intros n Hn.
  rewrite !Z.land_spec, !Z.lxor_spec, !Z.land_spec.
  destruct (Z.testbit c n), (Z.testbit ch n), (Z.testbit 255 n); done.
Qed.

Lemma ushr_8_top c : Z.shiftr (ushr c 8) 24 = 0%Z.
Proof.
  unfold ushr. rewrite Z.shiftr_shiftr by lia. simpl.
  rewrite Z.shiftr_div_pow2 by lia. apply Z.div_small.
  apply Z.mod_pos_bound. lia.
Qed.

Lemma update_range crc ch : (0 <= update crc ch < 2 ^ 32)%Z.
Proof.
  unfold update. apply lxor_range; [lia|apply ushr_range; lia|apply table_get_range].
Qed.

Lemma update_top crc ch :
  Z.shiftr (update crc ch) 24
  = Z.shiftr (table_get (Z.land (Z.lxor crc (Z.land ch 255)) 255)) 24.
Proof. unfold update. by rewrite Z.shiftr_lxor, ushr_8_top, Z.lxor_0_l. Qed.

Lemma lxor_cancel_l a b c : Z.lxor a b = Z.lxor a c -> b = c.
Proof.
  intros H. apply (f_equal (Z.lxor a)) in H.
  by rewrite <- !Z.lxor_assoc, !Z.lxor_nilpotent, !Z.lxor_0_l in H.
Qed.

Lemma lxor_cancel_r a b c : Z.lxor b a = Z.lxor c a -> b = c.
Proof. rewrite !(Z.lxor_comm _ a). apply lxor_cancel_l. Qed.

(** Two characters with different low bytes lead to different states. *)
Lemma update_byte crc a b :
  Z.land a 255 <> Z.land b 255 -> update crc a <> update crc b.
Proof.
  intros Hne Heq. apply Hne.
  apply (f_equal (fun z => Z.shiftr z 24)) in Heq. rewrite !update_top in Heq.
  apply table_top_inj in Heq; [|apply low_byte_range..].
  rewrite !low_byte_lxor in Heq. by apply lxor_cancel_l in Heq.
Qed.

(** Two different states stay different after the same character. *)
Lemma update_state c1 c2 ch :
  (0 <= c1 < 2 ^ 32)%Z -> (0 <= c2 < 2 ^ 32)%Z ->
  update c1 ch = update c2 ch -> c1 = c2.
Proof.
  intros H1 H2 Heq.
  pose proof (f_equal (fun z => Z.shiftr z 24) Heq) as Htop. simpl in Htop.
  rewrite !update_top in Htop.
  apply table_top_inj in Htop; [|apply low_byte_range..].
  unfold update in Heq. rewrite Htop in Heq. apply lxor_cancel_r in Heq.
  rewrite !low_byte_lxor in Htop. apply lxor_cancel_r in Htop.
  unfold ushr in Heq. rewrite !Z.mod_small in Heq by done.
  change 255%Z with (Z.ones 8) in Htop. rewrite !Z.land_ones in Htop by lia.
  rewrite !Z.shiftr_div_pow2 in Heq by lia.
  rewrite (Z.div_mod c1 (2 ^ 8)), (Z.div_mod c2 (2 ^ 8)) by lia.
  by rewrite Heq, Htop.
Qed.

Lemma fold_update_range s c :
  (0 <= c < 2 ^ 32)%Z -> (0 <= fold_left update s c < 2 ^ 32)%Z.
Proof.
  revert c. induction s as [|ch s IH]; intros c Hc; simpl; [done|].
  apply IH, update_range.
Qed.

Lemma fold_update_inj s : forall c1 c2,
  (0 <= c1 < 2 ^ 32)%Z -> (0 <= c2 < 2 ^ 32)%Z ->
  fold_left update s c1 = fold_left update s c2 -> c1 = c2.
Proof.
  induction s as [|ch s IH]; intros c1 c2 H1 H2 Heq; simpl in *; [done|].
  apply IH in Heq; [|apply update_range..]. by apply (update_state c1 c2 ch).
Qed.

Lemma hex_digit_is_hex d : is_hex (hex_digit d) = true.
Proof.
  unfold hex_digit.
  destruct (Z.to_nat d) as [|[|[|[|[|[|[|[|[|[|[|[|[|[|[|[|n]]]]]]]]]]]]]]]]; try done.
  by destruct n.
Qed.

Lemma toString16_loop_shape fuel : forall n acc k,
  (0 <= n < 16 ^ Z.of_nat k)%Z -> 1 <= k ->
  String.length (toString16_loop fuel n acc) <= String.length acc + k
  /\ (Forall (fun c => is_hex c = true) (String.list_ascii_of_string acc) ->
      Forall (fun c => is_hex c = true)
             (String.list_ascii_of_string (toString16_loop fuel n acc))).
Proof.
  induction fuel as [|fuel IH]; intros n acc k Hn Hk; simpl; [split; [lia|done]|].
  destruct (Z.eqb_spec (n / 16) 0) as [Hz|Hnz]; simpl.
  - split; [lia|]. intros Hacc. apply Forall_cons. split; [apply hex_digit_is_hex|done].
  - assert (16 <= n)%Z as H16.
    { destruct (Z.lt_ge_cases n 16); [|done]. rewrite Z.div_small in Hnz; lia. }
    destruct k as [|[|k]]; [lia| |].
    { change (16 ^ Z.of_nat 1)%Z with 16%Z in Hn. lia. }
    destruct (IH (n / 16)%Z (String (hex_digit (n mod 16)) acc) (S k)) as [Hlen Hhex].
    + split; [apply Z.div_pos; lia|]. apply Z.div_lt_upper_bound; [lia|].
      replace (Z.of_nat (S (S k))) with (Z.of_nat (S k) + 1)%Z in Hn by lia.
      rewrite Z.pow_add_r in Hn by lia. lia.
    + lia.
    + simpl in Hlen. split; [lia|]. intros Hacc. apply Hhex.
      apply Forall_cons. split; [apply hex_digit_is_hex|done].
Qed.

Lemma list_ascii_append s t :
  String.list_ascii_of_string (s +:+ t) = (String.list_ascii_of_string s ++ String.list_ascii_of_string t)%list.
Proof.
  induction s as [|c s IH]; [done|].
  change (String c s +:+ t) with (String c (s +:+ t)). simpl. by rewrite IH.
Qed.

End ChecksumFacts.

(** X5. The checksum tells apart two strings that differ in one
    character, as soon as the two characters differ in their low byte
    (the checksum reads [charCodeAt(i) & 0xff]). *)
Theorem crc32_detects_one_change (p q : list Z) (a b : Z) :
  Z.land a 255 <> Z.land b 255 ->
  Checksum.computeCRC32 (p ++ a :: q) <> Checksum.computeCRC32 (p ++ b :: q).
Proof.
  intros Hne Heq. unfold Checksum.computeCRC32 in Heq.
  rewrite !fold_left_app in Heq. simpl in Heq.
  set (c := fold_left Checksum.update p 4294967295%Z) in *.
  assert (forall x, (0 <= x < 2 ^ 32)%Z ->
            Checksum.ushr (Z.lxor x 4294967295) 0 = Z.lxor x 4294967295) as Hout.
  { intros x Hx. unfold Checksum.ushr. rewrite Z.shiftr_0_r. apply Z.mod_small.
    apply lxor_range; lia. }
  rewrite !Hout in Heq by (apply fold_update_range, update_range).
  apply lxor_cancel_r, fold_update_inj in Heq; [|apply update_range..].
  by apply (update_byte c a b).
Qed.

Lemma crc32_detects_one_change_witness :
  Checksum.computeCRC32 ([123; 34] ++ 97 :: [34; 125])%Z
  <> Checksum.computeCRC32 ([123; 34] ++ 98 :: [34; 125])%Z.
Proof. apply crc32_detects_one_change. vm_compute. discriminate. Defined.

(** X6. The checksum in hexadecimal is always eight characters long,
    each of them a digit or a letter from [a] to [f]. *)
Theorem crc32_hex_shape (s : list Z) :
  String.length (Checksum.computeCRC32Hex s) = 8
  /\ Forall (fun c => Checksum.is_hex c = true)
            (String.list_ascii_of_string (Checksum.computeCRC32Hex s)).
Proof.
  unfold Checksum.computeCRC32Hex, Checksum.padStart, Checksum.toString16.
  set (n := Checksum.computeCRC32 s).
  assert (0 <= n < 16 ^ Z.of_nat 8)%Z as Hn.
  { subst n. unfold Checksum.computeCRC32. apply (ushr_range _ 0). lia. }
  destruct (toString16_loop_shape (S (Z.to_nat (Z.log2 n))) n EmptyString 8 Hn)
    as [Hlen Hhex]; [lia|].
  set (digits := Checksum.toString16_loop _ n EmptyString) in *.
  change (String.length EmptyString) with 0 in Hlen.
  split.
  - rewrite append_length.
    assert (forall c k, String.length (String.string_of_list_ascii (repeat c k)) = k) as Hrep.
    { intros c k. induction k; simpl; [done|]. by f_equal. }
    rewrite Hrep. lia.
  - rewrite list_ascii_append, String.list_ascii_of_string_of_list_ascii.
    apply Forall_app. split; [|by apply Hhex].
    apply Forall_forall. intros c Hc. apply list_elem_of_In, repeat_spec in Hc.
    by subst c.
Qed.

(** ** base64url *)
Section Base64Facts.
Import Js Base64Url.

Local Abbreviation chars := String.list_ascii_of_string.
Local Abbreviation text := String.string_of_list_ascii.

(** Induction on a string, three characters at a time. *)
Lemma string_ind3 (P : string -> Prop) :
  P EmptyString ->
  (forall a, P (String a EmptyString)) ->
  (forall a b, P (String a (String b EmptyString))) ->
  (forall a b c rest, P rest -> P (String a (String b (String c rest)))) ->
  forall s, P s.
Proof.
  intros H0 H1 H2 H3 s.
  assert (forall n s, String.length s <= n -> P s) as H.
  { clear s. induction n as [|n IH]; intros s Hs.
    - destruct s; [done|simpl in Hs; lia].
    - destruct s as [|a [|b [|c rest]]]; try done.
      apply H3, IH. simpl in Hs. lia. }
  by apply (H (String.length s)).
Qed.

Lemma div_mul_add k x y : 0 < k -> y < k -> (x * k + y) / k = x.
Proof.
  intros Hk Hy. rewrite Nat.div_add_l by lia. rewrite (Nat.div_small y k) by done. lia.
Qed.

Lemma mod_mul_add k x y : 0 < k -> y < k -> (x * k + y) mod k = y.
Proof.
  intros Hk Hy. rewrite Nat.add_comm, Nat.Div0.mod_add. by apply Nat.mod_small.
Qed.

Lemma code_bound c : code c < 256.
Proof. apply nat_ascii_bounded. Qed.

Lemma sextet_of_char n : n < 64 -> sextet_of (sextet_char n) = Some n.
Proof.
  intros Hn.
  assert (Forall (fun n => sextet_of (sextet_char n) = Some n) (seq 0 64)) as H.
  { apply (bool_decide_unpack _). vm_compute. exact I. }
  rewrite Forall_forall in H. apply H, list_elem_of_In, in_seq. lia.
Qed.

Lemma btoa_chars s :
  chars (btoa s) = (map sextet_char (sextets s) ++ repeat "="%char (padding s))%list.
Proof.
  induction s as [|a|a b|a b c rest IH] using string_ind3; try done.
  cbn [btoa sextets padding map app chars]. by rewrite IH.
Qed.

Lemma sextets_small s : Forall (fun n => n < 64) (sextets s).
Proof.
  induction s as [|a|a b|a b c rest IH] using string_ind3; cbn [sextets].
  - constructor.
  - pose proof (code_bound a).
    pose proof (Nat.mod_upper_bound (code a) 4 ltac:(lia)).
    assert (code a / 4 < 64) by (apply Nat.Div0.div_lt_upper_bound; lia).
    repeat (apply Forall_cons; split); try lia. constructor.
  - pose proof (code_bound a). pose proof (code_bound b).
    pose proof (Nat.mod_upper_bound (code a) 4 ltac:(lia)).
    pose proof (Nat.mod_upper_bound (code b) 16 ltac:(lia)).
    assert (code a / 4 < 64) by (apply Nat.Div0.div_lt_upper_bound; lia).
    assert (code b / 16 < 16) by (apply Nat.Div0.div_lt_upper_bound; lia).
    repeat (apply Forall_cons; split); try lia. constructor.
  - pose proof (code_bound a). pose proof (code_bound b). pose proof (code_bound c).
    pose proof (Nat.mod_upper_bound (code a) 4 ltac:(lia)).
    pose proof (Nat.mod_upper_bound (code b) 16 ltac:(lia)).
    pose proof (Nat.mod_upper_bound (code c) 64 ltac:(lia)).
    assert (code a / 4 < 64) by (apply Nat.Div0.div_lt_upper_bound; lia).
    assert (code b / 16 < 16) by (apply Nat.Div0.div_lt_upper_bound; lia).
    assert (code c / 64 < 4) by (apply Nat.Div0.div_lt_upper_bound; lia).
    do 4 (apply Forall_cons; split; [lia|]). exact IH.
Qed.

Local Ltac by_code :=
  match goal with
  | |- ascii_of_nat ?x = ?a =>
      replace x with (nat_of_ascii a);
      [apply ascii_nat_embedding|unfold code in *; lia]
  end.

Lemma bytes_of_sextets_inverse s : bytes_of_sextets (sextets s) = chars s.
Proof.
  induction s as [|a|a b|a b c rest IH] using string_ind3; cbn [sextets bytes_of_sextets chars].
  - done.
  - pose proof (Nat.div_mod_eq (code a) 4).
    rewrite (Nat.div_mul (code a mod 4) 16) by lia.
    f_equal. by_code.
  - pose proof (code_bound b).
    assert (code b / 16 < 16) by (apply Nat.Div0.div_lt_upper_bound; lia).
    rewrite div_mul_add, mod_mul_add by lia.
    rewrite (Nat.div_mul (code b mod 16) 4) by lia.
    pose proof (Nat.div_mod_eq (code a) 4). pose proof (Nat.div_mod_eq (code b) 16).
    f_equal; [|f_equal].
    + by_code.
    + by_code.
  - pose proof (code_bound b). pose proof (code_bound c).
    assert (code b / 16 < 16) by (apply Nat.Div0.div_lt_upper_bound; lia).
    assert (code c / 64 < 4) by (apply Nat.Div0.div_lt_upper_bound; lia).
    rewrite !div_mul_add, !mod_mul_add by lia.
    pose proof (Nat.div_mod_eq (code a) 4). pose proof (Nat.div_mod_eq (code b) 16).
    pose proof (Nat.div_mod_eq (code c) 64).
    rewrite IH. f_equal; [|f_equal; [|f_equal]].
    + by_code.
    + by_code.
    + by_code.
Qed.

Lemma sextets_length s :
  padding s <= 2
  /\ length (sextets s) mod 4 <> 1
  /\ (length (sextets s) + padding s) mod 4 = 0
  /\ (4 - length (sextets s) mod 4) mod 4 = padding s.
Proof.
  induction s as [|a|a b|a b c rest IH] using string_ind3; cbn [sextets padding length].
  - repeat split; (lia || done).
  - repeat split; (lia || done).
  - repeat split; (lia || done).
  - destruct IH as (H1 & H2 & H3 & H4).
    replace (S (S (S (S (length (sextets rest))))))
      with (length (sextets rest) + 1 * 4) by lia.
    rewrite Nat.Div0.mod_add.
    replace (length (sextets rest) + 1 * 4 + padding rest)
      with (length (sextets rest) + padding rest + 1 * 4) by lia.
    rewrite Nat.Div0.mod_add. done.
Qed.

Lemma sextet_char_facts n :
  n < 64 ->
  is_ascii_whitespace (sextet_char n) = false
  /\ Ascii.eqb (sextet_char n) "=" = false
  /\ of_url (to_url (sextet_char n)) = sextet_char n
  /\ url_safe (to_url (sextet_char n)) = true
  /\ Ascii.eqb (to_url (sextet_char n)) "=" = false.
Proof.
  intros Hn.
  assert (Forall (fun n =>
            is_ascii_whitespace (sextet_char n) = false
            /\ Ascii.eqb (sextet_char n) "=" = false
            /\ of_url (to_url (sextet_char n)) = sextet_char n
            /\ url_safe (to_url (sextet_char n)) = true
            /\ Ascii.eqb (to_url (sextet_char n)) "=" = false) (seq 0 64)) as H.
  { apply (bool_decide_unpack _). vm_compute. exact I. }
  rewrite Forall_forall in H. apply H, list_elem_of_In, in_seq. lia.
Qed.

Lemma chars_length s : length (chars s) = String.length s.
Proof. induction s; simpl; [done|]. by f_equal. Qed.

Lemma chars_to_url s :
  chars (replace_char "/" "_" (replace_char "+" "-" s)) = map to_url (chars s).
Proof.
  induction s as [|c s IH]; simpl; [done|]. rewrite IH. f_equal. unfold to_url.
  destruct (Ascii.eqb_spec c "+") as [->|_]; [done|done].
Qed.

Lemma chars_of_url s :
  chars (replace_char "_" "/" (replace_char "-" "+" s)) = map of_url (chars s).
Proof.
  induction s as [|c s IH]; simpl; [done|]. rewrite IH. f_equal. unfold of_url.
  destruct (Ascii.eqb_spec c "-") as [->|_]; [done|done].
Qed.

Lemma strip_equals_chars s core p :
  chars s = (core ++ repeat "="%char p)%list ->
  Forall (fun c => Ascii.eqb c "=" = false) core ->
  chars (strip_equals s) = core.
Proof.
  revert core p. induction s as [|c s IH]; intros core p Hs Hcore.
  - destruct core; [done|discriminate Hs].
  - simpl in Hs. destruct core as [|c' core].
    + simpl in Hs. destruct p as [|p]; [discriminate Hs|]. simpl in Hs.
      injection Hs as -> Hs. simpl.
      specialize (IH [] p Hs ltac:(constructor)).
      destruct (strip_equals s); [done|discriminate IH].
    + simpl in Hs. injection Hs as -> Hs.
      apply Forall_cons in Hcore as [Hc Hcore]. simpl.
      specialize (IH core p Hs Hcore).
      destruct (strip_equals s) as [|d t]; simpl in *.
      * rewrite Hc. simpl. by rewrite <- IH.
      * by rewrite <- IH.
Qed.

Lemma drop_last_equals_snoc l c :
  drop_last_equals (l ++ [c]) = if Ascii.eqb c "=" then Some l else None.
Proof.
  unfold drop_last_equals. rewrite rev_app_distr. simpl. by rewrite rev_involutive.
Qed.

Lemma drop_last_equals_none core :
  Forall (fun c => Ascii.eqb c "=" = false) core -> drop_last_equals core = None.
Proof.
  intros Hcore. destruct core as [|c core] using rev_ind; [done|].
  rewrite drop_last_equals_snoc.
  apply Forall_app in Hcore as [_ [-> _]%Forall_cons]. done.
Qed.

Lemma strip_padding_core core p :
  p <= 2 -> Forall (fun c => Ascii.eqb c "=" = false) core ->
  strip_padding (core ++ repeat "="%char p) = core.
Proof.
  intros Hp Hcore. unfold strip_padding.
  destruct p as [|[|[|p]]]; [| | |lia]; simpl.
  - by rewrite app_nil_r, drop_last_equals_none.
  - rewrite drop_last_equals_snoc. simpl. by rewrite drop_last_equals_none.
  - change (core ++ ["="; "="]%char)%list with (core ++ ["="%char] ++ ["="%char])%list.
    rewrite app_assoc, drop_last_equals_snoc. simpl.
    by rewrite drop_last_equals_snoc.
Qed.

Lemma mapM_sextets vals :
  Forall (fun n => n < 64) vals -> mapM sextet_of (map sextet_char vals) = Some vals.
Proof.
  induction 1 as [|n vals Hn _ IH]; [done|].
  cbn [map mapM]. rewrite (sextet_of_char n Hn). simpl. by rewrite IH.
Qed.

Lemma atob_btoa s : atob (btoa s) = Some s.
Proof.
  unfold atob. rewrite btoa_chars.
  destruct (sextets_length s) as (Hp & Hone & Hfour & _).
  pose proof (sextets_small s) as Hsmall.
  set (core := map sextet_char (sextets s)).
  assert (Forall (fun c => is_ascii_whitespace c = false
                           /\ Ascii.eqb c "=" = false) core) as Hcore.
  { subst core. apply Forall_fmap. eapply Forall_impl; [exact Hsmall|].
    intros n Hn. simpl. by destruct (sextet_char_facts n Hn) as (? & ? & _). }
  assert (List.filter (fun c => negb (is_ascii_whitespace c))
            (core ++ repeat "="%char (padding s))
          = (core ++ repeat "="%char (padding s))%list) as ->.
  { apply forallb_filter_id, forallb_forall. intros c [Hc|Hc]%in_app_or.
    - rewrite Forall_forall in Hcore.
      by destruct (Hcore c (proj2 (list_elem_of_In _ _) Hc)) as [-> _].
    - apply repeat_spec in Hc. by subst c. }
  assert (length core = length (sextets s)) as Hlen by (subst core; apply length_map).
  rewrite length_app, repeat_length, Hlen, Hfour, Nat.eqb_refl.
  rewrite strip_padding_core; [|done|].
  2:{ eapply Forall_impl; [exact Hcore|]. by intros c [_ ?]. }
  rewrite Hlen. destruct (Nat.eqb_spec (length (sextets s) mod 4) 1) as [?|_]; [done|].
  subst core. rewrite (mapM_sextets _ Hsmall). simpl.
    by rewrite bytes_of_sextets_inverse, String.string_of_list_ascii_of_string.
Qed.

Lemma encode_chars bytes :
  chars (base64UrlEncode bytes)
  = map to_url (map sextet_char (sextets (String.string_of_list_byte bytes))).
Proof.
  unfold base64UrlEncode. set (s := String.string_of_list_byte bytes).
  apply (strip_equals_chars _ _ (padding s)).
  - by rewrite chars_to_url, btoa_chars, map_app, map_repeat.
  - apply Forall_fmap, Forall_fmap. eapply Forall_impl; [apply sextets_small|].
    intros n Hn. simpl. by destruct (sextet_char_facts n Hn) as (_ & _ & _ & _ & ?).
Qed.

End Base64Facts.

(** X7. Decoding what [base64UrlEncode] wrote gives the bytes back. *)
Theorem base64url_roundtrip (bytes : list Byte.byte) :
  Base64Url.base64UrlDecode (Base64Url.base64UrlEncode bytes) = Some bytes.
Proof.
  unfold Base64Url.base64UrlDecode.
  set (s := String.string_of_list_byte bytes).
  set (str := Base64Url.base64UrlEncode bytes).
  pose proof (encode_chars bytes) as Hstr. fold s str in Hstr.
  destruct (sextets_length s) as (Hp & _ & _ & Hpad).
  pose proof (sextets_small s) as Hsmall.
  assert (String.length str = length (Base64Url.sextets s)) as Hlen.
  { by rewrite <- chars_length, Hstr, !length_map. }
  rewrite Hlen, Hpad.
  assert (Base64Url.replace_char "_" "/" (Base64Url.replace_char "-" "+" str)
          +:+ Js.slice "====" 0 (Base64Url.padding s)
          = Base64Url.btoa s) as ->.
  { rewrite <- (String.string_of_list_ascii_of_string (Base64Url.btoa s)).
    rewrite <- (String.string_of_list_ascii_of_string (_ +:+ _)). f_equal.
    rewrite list_ascii_append, chars_of_url, Hstr, btoa_chars. f_equal.
    - rewrite !map_map. apply map_ext_in. intros n Hn.
      rewrite Forall_forall in Hsmall.
      by destruct (sextet_char_facts n (Hsmall n (proj2 (list_elem_of_In _ _) Hn)))
        as (_ & _ & ? & _).
    - by destruct (Base64Url.padding s) as [|[|[|p]]]; [| | |lia]. }
  rewrite atob_btoa. simpl. subst s.
  by rewrite String.list_byte_of_string_of_list_byte.
Qed.

(** X8. [base64UrlEncode] writes only letters, digits, [-] and [_]. *)
Theorem base64url_alphabet (bytes : list Byte.byte) :
  Forall (fun c => Base64Url.url_safe c = true)
         (String.list_ascii_of_string (Base64Url.base64UrlEncode bytes)).
Proof.
  rewrite encode_chars. apply Forall_fmap, Forall_fmap.
  eapply Forall_impl; [apply sextets_small|].
  intros n Hn. simpl. by destruct (sextet_char_facts n Hn) as (_ & _ & _ & ? & _).
Qed.

(** ** escapeHtml *)
Section HtmlFacts.
Import Js Html.

Lemma entity_nonempty c : entity c <> EmptyString.
Proof. unfold entity. by repeat destruct (Ascii.eqb _ _). Qed.

Lemma entity_markup c :
  Forall (fun d => markup d = false) (String.list_ascii_of_string (entity c)).
Proof.
  unfold entity.
  destruct (Ascii.eqb c "&"); [by repeat constructor|].
  destruct (Ascii.eqb_spec c "<"); [by repeat constructor|].
  destruct (Ascii.eqb_spec c ">"); [by repeat constructor|].
  destruct (Ascii.eqb_spec c (ascii_of_nat 34)); [by repeat constructor|].
  destruct (Ascii.eqb_spec c "'"); [by repeat constructor|].
  repeat constructor. unfold markup.
  by rewrite !orb_false_iff, !Ascii.eqb_neq.
Qed.

Lemma escapeHtml_markup s :
  Forall (fun d => markup d = false) (String.list_ascii_of_string (escapeHtml s)).
Proof.
  induction s as [|c s IH]; simpl; [constructor|].
  rewrite list_ascii_append. apply Forall_app. split; [apply entity_markup|done].
Qed.

Lemma entity_plain c : special c = false -> entity c = String c EmptyString.
Proof.
  unfold special, entity. rewrite !orb_false_iff. by intros [[[[-> ->] ->] ->] ->].
Qed.

Lemma escapeHtml_plain s :
  Forall (fun c => special c = false) (String.list_ascii_of_string s) ->
  escapeHtml s = s.
Proof.
  induction s as [|c s IH]; simpl; [done|].
  intros [Hc Hs]%Forall_cons. rewrite (entity_plain c Hc), (IH Hs). done.
Qed.

Lemma escapeHtml_inj s : forall t, escapeHtml s = escapeHtml t -> s = t.
Proof.
  induction s as [|c s IH]; intros [|d t] H; simpl in *.
  - done.
  - pose proof (entity_nonempty d). destruct (entity d); [done|discriminate H].
  - pose proof (entity_nonempty c). destruct (entity c); [done|discriminate H].
  - assert (c = d /\ escapeHtml s = escapeHtml t) as [-> Heq]; [|by rewrite (IH t Heq)].
    revert H. unfold entity.
    destruct (Ascii.eqb_spec c "&") as [->|?];
      [|destruct (Ascii.eqb_spec c "<") as [->|?];
        [|destruct (Ascii.eqb_spec c ">") as [->|?];
          [|destruct (Ascii.eqb_spec c (ascii_of_nat 34)) as [->|?];
            [|destruct (Ascii.eqb_spec c "'") as [->|?]]]]];
    (destruct (Ascii.eqb_spec d "&") as [->|?];
      [|destruct (Ascii.eqb_spec d "<") as [->|?];
        [|destruct (Ascii.eqb_spec d ">") as [->|?];
          [|destruct (Ascii.eqb_spec d (ascii_of_nat 34)) as [->|?];
            [|destruct (Ascii.eqb_spec d "'") as [->|?]]]]]);
    cbn [String.append]; intros H; try discriminate H;
    try (injection H as H; split; [done|exact H]);
    try (injection H as <- H; done);
    try (injection H as -> H; done).
Qed.

End HtmlFacts.

(** X9. What [escapeHtml] returns holds none of the characters that
    open or close a tag or a quoted attribute; a text without [&] and
    without those characters is returned as it is; and two different
    texts are never escaped to the same text. *)
Theorem escapeHtml_safe :
  (forall s, Forall (fun c => Html.markup c = false)
                    (String.list_ascii_of_string (Html.escapeHtml s)))
  /\ (forall s, Forall (fun c => Html.special c = false)
                       (String.list_ascii_of_string s) ->
                Html.escapeHtml s = s)
  /\ (forall s t, Html.escapeHtml s = Html.escapeHtml t -> s = t).
Proof.
  split; [exact escapeHtml_markup|]. split; [exact escapeHtml_plain|].
  intros s t. apply escapeHtml_inj.
Qed.

Lemma escapeHtml_safe_witness : Html.escapeHtml "news.local" = "news.local"%string.
Proof.
  apply (proj1 (proj2 escapeHtml_safe) "news.local").
  apply (bool_decide_unpack _). vm_compute. exact I.
Defined.

(** ** sanitizeName *)
Section SanitizeFacts.
Import Js SnapshotDedup SilentImport.

Lemma separated_cons q c s :
  separated q (String c s)
  = match s with
    | String c' _ => negb (q c && q c') && separated q s
    | EmptyString => true
    end.
Proof. by destruct s. Qed.

Lemma separated_tail q c s : separated q (String c s) = true -> separated q s = true.
Proof. rewrite separated_cons. destruct s; [done|]. by intros [_ ?]%andb_prop. Qed.

Lemma separated_push q c s :
  q c = false -> separated q s = true -> separated q (String c s) = true.
Proof. intros Hc Hs. rewrite separated_cons. destruct s; [done|]. by rewrite Hc, Hs. Qed.

Lemma collapse_separated q s : separated q (collapse q s) = true.
Proof.
  induction s as [|c s IH]; [done|]. cbn [collapse].
  destruct (q c) eqn:Hc; [|by apply separated_push].
  destruct s as [|c' s]; [done|].
  destruct (q c') eqn:Hc'; [done|].
  rewrite separated_cons. cbn [collapse] in *. rewrite Hc' in *.
  by rewrite Hc', andb_false_r.
Qed.

Lemma separated_weaken (p q : ascii -> bool) s :
  (forall c, p c = true -> q c = true) ->
  separated q s = true -> separated p s = true.
Proof.
  intros Hpq. induction s as [|c s IH]; [done|].
  rewrite !separated_cons. destruct s as [|c' s]; [done|].
  intros [Hcc Hs]%andb_prop. rewrite (IH Hs), andb_true_r.
  apply negb_true_iff in Hcc. apply negb_true_iff.
  destruct (p c) eqn:Hc, (p c') eqn:Hc'; try done.
  by rewrite (Hpq c Hc), (Hpq c' Hc') in Hcc.
Qed.

Lemma collapse_chars (p q : ascii -> bool) s :
  p " "%char = true ->
  (forall c, q c = false -> p c = true) ->
  all_chars p (collapse q s) = true.
Proof.
  intros Hsp Hq. induction s as [|c s IH]; [done|]. cbn [collapse].
  destruct (q c) eqn:Hc.
  - destruct s as [|c' s]; [by simpl; rewrite Hsp|].
    destruct (q c'); [done|]. simpl in *. by rewrite Hsp, IH.
  - simpl. by rewrite (Hq c Hc), IH.
Qed.

Lemma collapse_keeps (p q : ascii -> bool) s :
  p " "%char = true -> all_chars p s = true -> all_chars p (collapse q s) = true.
Proof.
  intros Hsp. induction s as [|c s IH]; [done|]. cbn [collapse all_chars].
  intros [Hc Hs]%andb_prop. destruct (q c).
  - destruct s as [|c' s]; [by simpl; rewrite Hsp|].
    destruct (q c'); [by apply IH|]. simpl in *. by rewrite Hsp, IH.
  - simpl. by rewrite Hc, IH.
Qed.

Lemma trimStart_chars p s : all_chars p s = true -> all_chars p (trimStart s) = true.
Proof.
  induction s as [|c s IH]; [done|]. simpl. intros [Hc Hs]%andb_prop.
  destruct (is_space c); [by apply IH|]. simpl. by rewrite Hc, Hs.
Qed.

Lemma trimStart_separated q s :
  separated q s = true -> separated q (trimStart s) = true.
Proof.
  induction s as [|c s IH]; [done|]. intros Hs. cbn [trimStart].
  destruct (is_space c); [|done]. by apply IH, (separated_tail q c).
Qed.

Lemma trimStart_first s c rest : trimStart s = String c rest -> is_space c = false.
Proof.
  induction s as [|d s IH]; [done|]. simpl.
  destruct (is_space d) eqn:Hd; [done|]. by intros [= <- _].
Qed.

Lemma trimEnd_chars p s : all_chars p s = true -> all_chars p (trimEnd s) = true.
Proof.
  induction s as [|c s IH]; [done|]. simpl. intros [Hc Hs]%andb_prop.
  specialize (IH Hs). destruct (trimEnd s).
  - destruct (is_space c); [done|]. simpl. by rewrite Hc.
  - simpl in *. by rewrite Hc, IH.
Qed.

Lemma trimEnd_first s c rest :
  trimEnd s = String c rest -> exists rest', s = String c rest'.
Proof.
  destruct s as [|d s]; [done|]. simpl.
  destruct (trimEnd s); [destruct (is_space d); [done|]|]; intros [= <- _]; by eexists.
Qed.

Lemma trimEnd_separated q s :
  separated q s = true -> separated q (trimEnd s) = true.
Proof.
  induction s as [|c s IH]; [done|]. intros Hs. cbn [trimEnd].
  pose proof (IH (separated_tail q c s Hs)) as IHs.
  destruct (trimEnd s) as [|d t] eqn:Ht.
  - by destruct (is_space c).
  - rewrite separated_cons, IHs, andb_true_r.
    apply trimEnd_first in Ht as [rest' ->].
    rewrite separated_cons in Hs. by apply andb_prop in Hs as [? _].
Qed.

Lemma substring_chars p n s :
  all_chars p s = true -> all_chars p (String.substring 0 n s) = true.
Proof.
  revert n. induction s as [|c s IH]; intros [|n]; try done.
  simpl. intros [Hc Hs]%andb_prop. by rewrite Hc, IH.
Qed.

Lemma substring_separated q n s :
  separated q s = true -> separated q (String.substring 0 n s) = true.
Proof.
  revert n. induction s as [|c s IH]; intros [|n]; try done.
  intros Hs. cbn [String.substring].
  pose proof (IH n (separated_tail q c s Hs)) as IHs.
  rewrite separated_cons. destruct (String.substring 0 n s) as [|d t] eqn:Ht; [done|].
  rewrite IHs, andb_true_r. destruct s as [|d' s]; [by destruct n|].
  destruct n as [|n]; [done|]. simpl in Ht. injection Ht as <- _.
  rewrite separated_cons in Hs. by apply andb_prop in Hs as [? _].
Qed.

End SanitizeFacts.

(** X10. The name that [sanitizeName] returns has at most 120
    characters, all of them printable ASCII, never two spaces in a row,
    and no space in front. *)
Theorem sanitizeName_shape (raw : string) :
  String.length (SilentImport.sanitizeName raw) <= 120
  /\ SilentImport.all_chars SilentImport.printable (SilentImport.sanitizeName raw) = true
  /\ SilentImport.single_spaced (SilentImport.sanitizeName raw) = true
  /\ (forall c rest, SilentImport.sanitizeName raw = String c rest -> c <> " "%char).
Proof.
  unfold SilentImport.sanitizeName. destruct (negb (Js.truthy raw)); [repeat split; (simpl; lia) || done|].
  unfold Js.slice, SnapshotDedup.trim. rewrite Nat.sub_0_r.
  set (s1 := SilentImport.collapse (fun c => negb (SilentImport.printable c)) raw).
  set (s2 := SilentImport.collapse SnapshotDedup.is_space s1).
  assert (SilentImport.all_chars SilentImport.printable s2 = true) as Hchars.
  { apply collapse_keeps; [done|]. apply collapse_chars; [done|].
    intros c Hc. by apply negb_false_iff. }
  pose proof (collapse_separated SnapshotDedup.is_space s1) as Hsep. fold s2 in Hsep.
  split; [apply substring_length_le|]. split; [|split].
  - by apply substring_chars, trimEnd_chars, trimStart_chars.
  - apply substring_separated, trimEnd_separated, trimStart_separated.
    apply (separated_weaken _ SnapshotDedup.is_space); [|done].
    by intros c ->%Ascii.eqb_eq.
  - intros c rest Hs ->.
    destruct (SnapshotDedup.trimEnd (SnapshotDedup.trimStart s2)) as [|d t] eqn:Ht;
      [discriminate Hs|].
    simpl in Hs. injection Hs as -> _.
    apply trimEnd_first in Ht as [rest' Ht]. by apply trimStart_first in Ht.
Qed.

(** ** What the deduplication keeps *)
Section DedupShape.
Import Js Types SnapshotDedup.
Context {T : Type}.
Variables getId getName : T -> ostring.

Local Abbreviation seen := (seen_in getId getName).
Local Abbreviation step :=
  (fun kept x => if seen_in getId getName kept x then kept else (kept ++ [x])%list).

Lemma fold_step_extends items : forall acc,
  exists more, fold_left step items acc = (acc ++ more)%list /\ sublist more items.
Proof.
  induction items as [|x items IH]; intros acc; simpl.
  - exists []. by rewrite app_nil_r.
  - destruct (seen acc x).
    + destruct (IH acc) as (more & -> & Hsub). exists more. split; [done|].
      by apply sublist_cons.
    + destruct (IH (acc ++ [x])%list) as (more & -> & Hsub). exists (x :: more).
      rewrite <- app_assoc. split; [done|]. by apply sublist_skip.
Qed.

Lemma seen_app kept more x : seen kept x = true -> seen (kept ++ more)%list x = true.
Proof. unfold seen_in. rewrite existsb_app. by intros ->. Qed.

(** No item of [l] is seen in what comes before it, [acc] included. *)
Local Abbreviation fresh_after acc l :=
  (forall pre x post, l = (pre ++ x :: post)%list -> seen (acc ++ pre)%list x = false).

Lemma fold_step_fresh items : forall acc,
  fresh_after [] acc -> fresh_after [] (fold_left step items acc).
Proof.
  induction items as [|x items IH]; intros acc Hacc; simpl; [done|].
  destruct (seen acc x) eqn:Hx; [by apply IH|]. apply IH.
  intros pre y post Heq. simpl.
  destruct post as [|z post _] using rev_ind.
  - apply app_inj_tail in Heq as [-> ->]. done.
  - rewrite app_comm_cons, app_assoc in Heq. apply app_inj_tail in Heq as [-> _].
    by apply (Hacc pre y post).
Qed.

Lemma fold_step_all l : forall acc,
  fresh_after acc l -> fold_left step l acc = (acc ++ l)%list.
Proof.
  induction l as [|x l IH]; intros acc Hl; simpl; [by rewrite app_nil_r|].
  pose proof (Hl [] x l eq_refl) as Hx. rewrite app_nil_r in Hx. rewrite Hx.
  rewrite IH; [by rewrite <- app_assoc|].
  intros pre y post ->. rewrite <- app_assoc. simpl.
  by apply (Hl (x :: pre) y post).
Qed.

Lemma fold_step_covers items : forall acc x,
  x ∈ items ->
  x ∈ fold_left step items acc \/ seen (fold_left step items acc) x = true.
Proof.
  induction items as [|y items IH]; intros acc x Hin; [by apply elem_of_nil in Hin|].
  apply elem_of_cons in Hin as [->|Hin]; [|by apply IH]. simpl.
  destruct (seen acc y) eqn:Hy.
  - right. destruct (fold_step_extends items acc) as (more & -> & _).
    by apply seen_app.
  - left. destruct (fold_step_extends items (acc ++ [y])%list) as (more & -> & _).
    rewrite !elem_of_app. left. right. by left.
Qed.

End DedupShape.

(** X11. What [snapshotDedup] returns is the input with some items left
    out, in the same order; no item kept has the id or the normalized
    name of an item kept before it; every item left out has the id or
    the name of an item kept; and deduplicating the result again changes
    nothing. *)
Theorem snapshotDedup_shape {T : Type} (getId getName : T -> Types.ostring)
    (items : list T) :
  let out := SnapshotDedup.snapshotDedup getId getName items in
  sublist out items
  /\ (forall pre x post,
        out = (pre ++ x :: post)%list ->
        SnapshotDedup.seen_in getId getName pre x = false)
  /\ (forall x, x ∈ items ->
        x ∈ out \/ SnapshotDedup.seen_in getId getName out x = true)
  /\ SnapshotDedup.snapshotDedup getId getName out = out.
Proof.
  cbv zeta. rewrite !snapshotDedup_spec. unfold SnapshotDedup.dedup_spec.
  set (step := fun kept x =>
         if SnapshotDedup.seen_in getId getName kept x then kept else (kept ++ [x])%list).
  assert (forall pre x post,
            fold_left step items [] = (pre ++ x :: post)%list ->
            SnapshotDedup.seen_in getId getName ([] ++ pre) x = false) as Hfresh.
  { apply fold_step_fresh. intros pre x post Heq. by destruct pre. }
  split; [|split; [|split]].
  - destruct (fold_step_extends getId getName items []) as (more & Heq & Hsub).
    fold step in Heq. by rewrite Heq.
  - exact Hfresh.
  - intros x. apply fold_step_covers.
  - by apply fold_step_all.
Qed.

Lemma snapshotDedup_shape_witness :
  let items := [SnapshotDedup.board "b1" "Main"; SnapshotDedup.board "b1" "Copy"] in
  let out :=
    SnapshotDedup.snapshotDedup SnapshotDedup.boardId SnapshotDedup.boardName items in
  SnapshotDedup.board "b1" "Copy" ∈ out
  \/ SnapshotDedup.seen_in SnapshotDedup.boardId SnapshotDedup.boardName out
       (SnapshotDedup.board "b1" "Copy") = true.
Proof.
  intros items out.
  apply (proj1 (proj2 (proj2
    (snapshotDedup_shape SnapshotDedup.boardId SnapshotDedup.boardName items)))).
  subst items. rewrite !elem_of_cons. auto.
Defined.

(** ** Runs of the snapshot store *)
Section SnapshotRunFacts.
Import Js Snapshots SnapshotRuns.
Variable md5Hex : string -> string.

Lemma first_with (d : string) (l : list Snapshot) :
  d ∈ snap_md5 <$> l ->
  exists pre e post,
    l = (pre ++ e :: post)%list /\ snap_md5 e = d
    /\ Forall (fun s => snap_md5 s <> d) pre.
Proof.
  induction l as [|x l IH]; simpl; [by intros ?%elem_of_nil|].
  intros Hin. destruct (decide (snap_md5 x = d)) as [Hx|Hx].
  - exists [], x, l. by repeat split.
  - apply elem_of_cons in Hin as [Hin|Hin]; [done|].
    destruct (IH Hin) as (pre & e & post & -> & He & Hpre).
    exists (x :: pre), e, post. repeat split; [done|]. by constructor.
Qed.

Lemma save_coherent now stored l name type cfg svc :
  states (loadStateStore stored) = Some l ->
  coherent md5Hex l ->
  exists v l',
    (saveStateSnapshot md5Hex now stored name type cfg svc).1
    = Some (mkStore v (Some l'))
    /\ coherent md5Hex l'
    /\ length l' <= S (length l)
    /\ (forall d, d ∈ snap_md5 <$> l' <-> d = md5Hex (cfg +:+ svc) \/ d ∈ snap_md5 <$> l)
    /\ snap_md5 <$> head l' = Some (md5Hex (cfg +:+ svc)).
Proof.
  intros Hl [Hnd Hall]. set (d := md5Hex (cfg +:+ svc)).
  destruct (decide (d ∈ snap_md5 <$> l)) as [Hin|Hout].
  - destruct (first_with d l Hin) as (pre & e & post & -> & He & Hpre).
    destruct (save_existing md5Hex now stored pre e post name type cfg svc Hl He Hpre)
      as [v Hsave].
    exists v, (refresh name now e :: pre ++ post)%list. rewrite Hsave.
    split; [done|]. 
    assert (snap_md5 <$> (refresh name now e :: pre ++ post)
            ≡ₚ snap_md5 <$> (pre ++ e :: post)) as Hperm.
    { rewrite !fmap_cons, !fmap_app, fmap_cons. simpl.
      by rewrite <- Permutation_middle. }
    split; [split|split; [|split]].
    + by rewrite Hperm.
    + apply Forall_app in Hall as [Hp [Hee Hpo]%Forall_cons].
      apply Forall_cons. split; [done|]. by apply Forall_app.
    + simpl. rewrite !length_app. simpl. lia.
    + intros d'. rewrite Hperm. split; [by right|]. intros [->|?]; [|done].
      by rewrite <- He in Hin |- *.
    + simpl. by rewrite He.
  - assert (Forall (fun s => snap_md5 s <> d) l) as Hfresh.
    { apply Forall_forall. intros s Hs Heq. apply Hout.
      apply list_elem_of_fmap. by exists s. }
    destruct (save_fresh md5Hex now stored l name type cfg svc Hl Hfresh) as [v Hsave].
    exists v, (mkSnapshot name type d cfg svc now :: l). rewrite Hsave.
    split; [done|]. split; [split|split; [|split]].
    + simpl. apply NoDup_cons. by split.
    + apply Forall_cons. by split.
    + simpl. lia.
    + intros d'. simpl. by rewrite elem_of_cons.
    + done.
Qed.

Lemma saveAll_cons sv saves stored :
  saveAll md5Hex (sv :: saves) stored
  = saveAll md5Hex saves
      (saveStateSnapshot md5Hex (save_at sv) stored (save_name sv) (save_type sv)
                         (save_cfg sv) (save_svc sv)).1.
Proof. reflexivity. Qed.

Lemma saveAll_coherent saves : forall stored l,
  states (loadStateStore stored) = Some l ->
  coherent md5Hex l ->
  exists v l',
    saveAll md5Hex saves stored = (if saves is [] then stored else Some (mkStore v (Some l')))
    /\ states (loadStateStore (saveAll md5Hex saves stored)) = Some l'
    /\ coherent md5Hex l'
    /\ length l' <= length l + length saves
    /\ (forall d, d ∈ snap_md5 <$> l' <->
                  d ∈ ((fun sv => md5Hex (save_cfg sv +:+ save_svc sv)) <$> saves)
                  \/ d ∈ snap_md5 <$> l).
Proof.
  induction saves as [|sv saves IH]; intros stored l Hl Hco.
  - exists None, l. simpl. split; [done|]. split; [done|]. split; [done|].
    split; [lia|]. intros d. split; [by right|]. by intros [?%elem_of_nil|?].
  - rewrite saveAll_cons.
    destruct (save_coherent (save_at sv) stored l (save_name sv) (save_type sv)
                (save_cfg sv) (save_svc sv) Hl Hco)
      as (v1 & l1 & Hsave & Hco1 & Hlen1 & Hmem1 & _).
    rewrite Hsave.
    destruct (load_saved v1 l1) as [v1' Hload].
    destruct (IH (Some (mkStore v1 (Some l1))) l1) as (v2 & l2 & Hall & Hst & Hco2 & Hlen2 & Hmem2).
    { by rewrite Hload. }
    { done. }
    destruct saves as [|sv' saves'].
    + exists v1, l1. simpl in *. split; [done|]. split; [by rewrite Hload|].
      split; [done|]. split; [lia|]. intros d. rewrite Hmem1, elem_of_cons.
      split; [intros [?|?]; auto|]. intros [[?|?%elem_of_nil]|?]; auto; done.
    + exists v2, l2. split; [done|]. split; [done|]. split; [done|].
      split; [simpl in *; lia|]. intros d. rewrite Hmem2, Hmem1.
      rewrite (fmap_cons _ sv), (elem_of_cons _ d). tauto.
Qed.

End SnapshotRunFacts.

(** X12. Whatever series of snapshots is saved into an empty storage,
    the store then holds no digest twice, every entry carries the digest
    of its own content, there are at most as many entries as saves, and
    the digest of every save made is still there. *)
Theorem snapshots_stay_distinct (md5Hex : string -> string)
    (saves : list SnapshotRuns.Save) :
  exists l,
    Snapshots.states (Snapshots.loadStateStore (SnapshotRuns.saveAll md5Hex saves None))
    = Some l
    /\ NoDup (Snapshots.snap_md5 <$> l)
    /\ Forall (fun s => Snapshots.snap_md5 s
                        = md5Hex (Snapshots.snap_cfg s +:+ Snapshots.snap_svc s)) l
    /\ length l <= length saves
    /\ (forall sv, sv ∈ saves ->
          md5Hex (SnapshotRuns.save_cfg sv +:+ SnapshotRuns.save_svc sv)
          ∈ Snapshots.snap_md5 <$> l).
Proof.
  destruct (saveAll_coherent md5Hex saves None [] eq_refl) as (v & l & _ & Hst & [Hnd Hall] & Hlen & Hmem).
  { split; [apply NoDup_nil_2|constructor]. }
  exists l. split; [done|]. split; [done|]. split; [done|]. split; [simpl in Hlen; lia|].
  intros sv Hsv. apply Hmem. left. apply list_elem_of_fmap. by exists sv.
Qed.

(** ** The service locks across addWidget and switchView *)
Section LockRelease.
Import Js Types App.

Local Abbreviation locks := (fun s : State => WidgetStore.serviceLocks (store s)).

Lemma locks_evict id st :
  WidgetStore.serviceLocks (WidgetStore._evict id st).2 = WidgetStore.serviceLocks st.2.
Proof.
  destruct st as [d w]. unfold WidgetStore._evict. destruct id as [id|]; [|done].
  by destruct (JsMap.get id (WidgetStore.widgets w)).
Qed.

Lemma locks_ensureLimit_loop fuel : forall st st',
  WidgetStore.ensureLimit_loop fuel st = Some st' ->
  WidgetStore.serviceLocks st'.2 = WidgetStore.serviceLocks st.2.
Proof.
  induction fuel as [|fuel IH]; intros st st'; rewrite ensureLimit_loop_unfold;
    destruct (_ <? _)%Z; try done; try by intros [= <-].
  intros H%IH. by rewrite H, locks_evict.
Qed.

Lemma locks_add el st st' :
  WidgetStore.add el st = Some st' ->
  WidgetStore.serviceLocks st'.2 = WidgetStore.serviceLocks st.2.
Proof.
  destruct st as [d w]. unfold WidgetStore.add.
  destruct (Dom.elements d !! el) as [e|]; [|by intros [= <-]].
  destruct (Dom.ds_dataid e) as [id|]; [|by intros [= <-]].
  destruct (truthy id); [|by intros [= <-]].
  unfold WidgetStore._ensureLimit. by intros H%locks_ensureLimit_loop.
Qed.

Lemma locks_get id st :
  WidgetStore.serviceLocks (WidgetStore.get id st).1.2 = WidgetStore.serviceLocks st.2.
Proof.
  destruct st as [d w]. unfold WidgetStore.get.
  destruct (JsMap.has id (WidgetStore.widgets w)); [|done].
  by destruct (JsMap.get id (WidgetStore.widgets w)).
Qed.

Lemma locks_show id st :
  WidgetStore.serviceLocks (WidgetStore.show id st).2 = WidgetStore.serviceLocks st.2.
Proof.
  unfold WidgetStore.show. pose proof (locks_get id st) as H.
  by destruct (WidgetStore.get id st) as [[d w] [el|]].
Qed.

Lemma locks_hide id st :
  WidgetStore.serviceLocks (WidgetStore.hide id st).2 = WidgetStore.serviceLocks st.2.
Proof.
  destruct st as [d w]. unfold WidgetStore.hide.
  by destruct (JsMap.get id (WidgetStore.widgets w)).
Qed.

Lemma locks_evictRuntimeOnly id st :
  WidgetStore.serviceLocks (WidgetStore.evictRuntimeOnly id st).2
  = WidgetStore.serviceLocks st.2.
Proof.
  destruct st as [d w]. unfold WidgetStore.evictRuntimeOnly.
  by destruct (JsMap.get id (WidgetStore.widgets w)).
Qed.

Lemma locks_saveWidgetState b v s : locks (saveWidgetState b v s) = locks s.
Proof.
  unfold saveWidgetState. destruct (_ || _); [done|].
  by destruct (existsb _ _).
Qed.

Lemma locks_evictAll ids : forall s, locks (evictAll ids s) = locks s.
Proof.
  induction ids as [|id ids IH]; intros s; [done|]. cbn [evictAll]. rewrite IH.
  cbn [log with_runtime store]. apply (locks_evictRuntimeOnly id (runtime s)).
Qed.

Lemma locks_confirmCapacity needed s proceed s' :
  confirmCapacity needed s = Some (proceed, s') -> locks s' = locks s.
Proof.
  unfold confirmCapacity. destruct (0 <? _)%Z; [|by intros [= _ <-]].
  unfold openEvictionModal. cbn [answers log].
  destruct (answers s) as [|[|ids] rest]; try by intros [= _ <-].
  destruct (WidgetStore._ensureLimit _) as [r|] eqn:Hr; [|done]. intros [= _ <-].
  unfold WidgetStore._ensureLimit in Hr. apply locks_ensureLimit_loop in Hr.
  simpl. rewrite Hr. simpl. by rewrite locks_evictAll.
Qed.

Lemma locks_createWidget service u c r dataid s :
  locks (createWidget service u c r dataid s).2 = locks s.
Proof. unfold createWidget. by destruct (truthyS dataid). Qed.

Lemma locks_addWidgetLocked name u cols rws b v dataid skip s s' :
  addWidgetLocked name u cols rws b v dataid skip s = Some s' -> locks s' = locks s.
Proof.
  unfold addWidgetLocked.
  destruct (match r_maxInstances _ with Some _ => _ | None => _ end).
  { by intros [= <-]. }
  destruct (if skip then _ else _) as [[[|] s1]|] eqn:Hcap; [| |done].
  2: { intros [= <-]. destruct skip; [done|]. by apply locks_confirmCapacity in Hcap. }
  assert (locks s1 = locks s) as H1.
  { destruct skip; [by injection Hcap as <-|]. by apply locks_confirmCapacity in Hcap. }
  destruct (if truthyS dataid then _ else _).
  - pose proof (locks_get (default EmptyString dataid) (runtime s1)) as Hg.
    destruct (WidgetStore.get _ (runtime s1)) as [r [w|]]; intros [= <-].
    + rewrite locks_saveWidgetState. simpl in *. by rewrite Hg.
    + simpl in *. by rewrite Hg.
  - pose proof (locks_createWidget name u
                  (default 1%Z (orElse cols (columns (default noServiceConfig
                     (r_config (resolveServiceConfig (storage s)
                                  (findService name s)))))))
                  (default 1%Z (orElse rws (rows (default noServiceConfig
                     (r_config (resolveServiceConfig (storage s)
                                  (findService name s)))))))
                  dataid s1) as Hc.
    destruct (createWidget _ _ _ _ _ s1) as [w s2]. simpl in Hc.
    destruct (WidgetStore.add w _) as [r|] eqn:Hadd; intros [= <-].
    apply locks_add in Hadd. rewrite locks_saveWidgetState. simpl in *.
    by rewrite Hadd, Hc.
Qed.

Lemma locks_addWidget u cols rws b v dataid skip s s' :
  addWidget u cols rws b v dataid skip s = Some s' -> locks s' = locks s.
Proof.
  unfold addWidget. set (name := getServiceFromUrl u s).
  destruct (WidgetStore.isAdding name (store s)) eqn:Hbusy; [by intros [= <-]|].
  destruct (addWidgetLocked _ _ _ _ _ _ _ _ _) as [s1|] eqn:Hadd; intros [= <-].
  apply locks_addWidgetLocked in Hadd. simpl in *.
  assert (WidgetStore.serviceLocks (store s) !! name = None) as Hnone.
  { unfold WidgetStore.isAdding in Hbusy. apply bool_decide_eq_false in Hbusy.
    by apply eq_None_not_Some. }
  unfold WidgetStore.unlock. rewrite Hadd. simpl.
  rewrite Hnone. simpl. rewrite lookup_insert_eq. simpl.
  by rewrite delete_insert_eq, delete_id.
Qed.

Lemma locks_hideInactive active keys : forall s,
  locks (hideInactive active keys s) = locks s.
Proof.
  induction keys as [|id keys IH]; intros s; [done|]. cbn [hideInactive].
  destruct (includes (Some id) active); [done|]. rewrite IH.
  cbn [log with_runtime store]. apply (locks_hide id (runtime s)).
Qed.

Lemma locks_showOrCreate b v ws : forall s s',
  showOrCreate b v ws s = Some s' -> locks s' = locks s.
Proof.
  induction ws as [|w ws IH]; intros s s'; cbn [showOrCreate].
  - by intros [= <-].
  - destruct (storeHas (w_dataid w) s).
    + intros H%IH. rewrite H. cbn [log with_runtime store].
      apply (locks_show _ (runtime s)).
    + destruct (addWidget _ _ _ _ _ _ _ s) as [s1|] eqn:Hadd; [|done].
      intros H%IH. rewrite H. by apply locks_addWidget in Hadd.
Qed.

Lemma locks_switchView b v s s' : switchView b v s = Some s' -> locks s' = locks s.
Proof.
  unfold switchView. set (bid := default _ b).
  assert (locks (switchViewSaved bid v s) = locks s) as Hsaved.
  { unfold switchViewSaved. destruct (_ && _); [|done]. apply locks_saveWidgetState. }
  destruct (List.find _ (boards _)) as [board|]; [|by intros [= <-]].
  destruct (List.find _ (views board)) as [view|]; [|by intros [= <-]].
  destruct (confirmCapacity _ _) as [[[|] s1]|] eqn:Hcap; [| |done].
  2: { intros [= <-]. apply locks_confirmCapacity in Hcap. by rewrite Hcap. }
  apply locks_confirmCapacity in Hcap. unfold switchViewConfirmed.
  destruct (showOrCreate _ _ _ _) as [s3|] eqn:Hshow; intros [= <-].
  apply locks_showOrCreate in Hshow. cbn [setLastViewId log with_storage store].
  by rewrite Hshow, locks_hideInactive, <- Hsaved, <- Hcap.
Qed.

End LockRelease.

(** X13. [addWidget] and [switchView] give back every service lock they
    take: when they return, the table of locks is the one they found,
    whatever branch they went through. *)
Theorem locks_released :
  (forall u cols rws boardId viewId dataid skipCapacity s s',
      App.addWidget u cols rws boardId viewId dataid skipCapacity s = Some s' ->
      WidgetStore.serviceLocks (App.store s') = WidgetStore.serviceLocks (App.store s))
  /\ (forall boardId viewId s s',
        App.switchView boardId viewId s = Some s' ->
        WidgetStore.serviceLocks (App.store s') = WidgetStore.serviceLocks (App.store s)).
Proof.
  split.
  - intros u cols rws boardId viewId dataid skipCapacity s s'. apply locks_addWidget.
  - intros boardId viewId s s'. apply locks_switchView.
Qed.

Lemma locks_released_witness :
  exists s',
    App.switchView (Some "b1") "v2" Scenario.fullStore = Some s'
    /\ WidgetStore.serviceLocks (App.store s') = ∅.
Proof.
  eexists. split; [vm_compute; reflexivity|].
  apply (proj2 locks_released (Some "b1") "v2" Scenario.fullStore).
  vm_compute. reflexivity.
Defined.

(** ** Adding to the store and getting back *)
Section StoreRoundTrip.
Import Js Types WidgetStore.

(** The loop of [_ensureLimit] evicts no more than it has to. *)
Lemma ensureLimit_loop_least fuel : forall dom s,
  (0 <= maxSize s)%Z -> NoDup (widgets s).*1 -> length (widgets s) <= fuel ->
  exists gone dom' w',
    ensureLimit_loop fuel (dom, s)
    = Some (dom', mkStore (maxSize s) w' (serviceLocks s) (evictLog s ++ gone.*1))
    /\ widgets s = (gone ++ w')%list
    /\ Z.of_nat (length w') = Z.min (Z.of_nat (length (widgets s))) (maxSize s)
    /\ Dom.elements dom' = Dom.elements dom
    /\ Dom.container dom'
       = List.filter (fun h => negb (bool_decide (h ∈ gone.*2))) (Dom.container dom).
Proof.
  induction fuel as [|fuel IH]; intros dom [M w locks log] HM Hnd Hfuel;
    rewrite ensureLimit_loop_unfold;
    cbn [maxSize widgets serviceLocks evictLog snd] in *;
    destruct (Z.ltb_spec M (JsMap.size w)) as [Hover|Hok].
  - unfold JsMap.size in Hover. lia.
  - exists [], dom, w. rewrite app_nil_r. unfold JsMap.size in Hok.
    repeat split; try done; [lia|]. simpl.
    symmetry. apply forallb_filter_id, forallb_forall. intros h _.
    done || (apply negb_true_iff, bool_decide_eq_false; by intros ?%elem_of_nil).
  - destruct w as [|[k v] rest]; [unfold JsMap.size in Hover; simpl in Hover; lia|].
    rewrite fmap_cons in Hnd. apply NoDup_cons in Hnd as [Hk Hnd].
    rewrite (evict_oldest _ _ _ _ _ _ _ Hk).
    destruct (IH (Dom.remove v dom) (mkStore M rest locks (log ++ [k])))
      as (gone & dom' & w' & Hloop & Hw & Hsz & Hel & Hcont);
      cbn [maxSize widgets serviceLocks evictLog] in *;
      [done|done|simpl in Hfuel; lia|].
    cbn [fst]. exists ((k, v) :: gone), dom', w'. rewrite Hloop, <- app_assoc. cbn.
    unfold JsMap.size in Hover. simpl in Hover.
    split; [done|]. split; [by rewrite Hw|]. split; [simpl; lia|]. split; [done|].
    rewrite Hcont. unfold Dom.remove. cbn [Dom.container Dom.with_container].
    clear. induction (Dom.container dom) as [|h hs IHh]; [done|]. simpl.
    destruct (Nat.eqb_spec v h) as [->|Hne]; simpl.
    + rewrite bool_decide_eq_true_2 by (by left). simpl. apply IHh.
    + destruct (bool_decide (h ∈ gone.*2)) eqn:Hg; simpl.
      * rewrite bool_decide_eq_true_2; [simpl; apply IHh|].
        right. by apply bool_decide_eq_true in Hg.
      * rewrite bool_decide_eq_false_2; [simpl; by rewrite IHh|].
        apply bool_decide_eq_false in Hg. rewrite elem_of_cons. naive_solver.
  - exists [], dom, w. rewrite app_nil_r. unfold JsMap.size in Hok.
    repeat split; try done; [lia|]. simpl.
    symmetry. apply forallb_filter_id, forallb_forall. intros h _.
    done || (apply negb_true_iff, bool_decide_eq_false; by intros ?%elem_of_nil).
Qed.

Lemma add_set el e id dom s :
  Dom.elements dom !! el = Some e -> Dom.ds_dataid e = Some id -> truthy id = true ->
  add el (dom, s)
  = _ensureLimit (dom, with_widgets (JsMap.delete id (widgets s) ++ [(id, el)]) s).
Proof.
  intros He Hid Ht. unfold add. rewrite He, Hid, Ht.
  destruct (JsMap.has id (widgets s)) eqn:Hhas.
  - by rewrite jsmap_set_absent by apply jsmap_delete_not_in.
  - apply jsmap_has_false in Hhas.
    by rewrite jsmap_delete_absent, jsmap_set_absent.
Qed.

End StoreRoundTrip.

(** X14. In a store of capacity at least one, a widget that has just
    been added can be got back under its data id; adding evicts at most
    one widget, and none when the id was already stored or the store was
    not full.  In a store of capacity zero the widget added is itself
    evicted at once, and taken out of the document. *)
Theorem store_add_then_get (M : Z) (el : nat) (e : Dom.Element) (id : string)
    (dom : Dom.t) (s : WidgetStore.t) :
  WidgetStore.within M (dom, s) ->
  Dom.elements dom !! el = Some e -> Dom.ds_dataid e = Some id ->
  Js.truthy id = true ->
  exists dom' s',
    WidgetStore.add el (dom, s) = Some (dom', s')
    /\ ((1 <= M)%Z ->
        WidgetStore.has id (dom', s') = true
        /\ (WidgetStore.get id (dom', s')).2 = Some el
        /\ length (WidgetStore.evictLog s') <= S (length (WidgetStore.evictLog s))
        /\ (JsMap.has id (WidgetStore.widgets s) = true
            \/ (JsMap.size (WidgetStore.widgets s) < M)%Z ->
            WidgetStore.evictLog s' = WidgetStore.evictLog s
            /\ Dom.container dom' = Dom.container dom))
    /\ (M = 0%Z ->
        WidgetStore.widgets s' = []
        /\ WidgetStore.evictLog s' = (WidgetStore.evictLog s ++ [id])%list
        /\ el ∉ Dom.container dom').
Proof.
  intros (HM & Hnd & Hsz) He Hid Ht. cbn [fst snd] in *.
  assert (0 <= M)%Z as HM0 by (unfold JsMap.size in Hsz; lia).
  rewrite (add_set el e id dom s He Hid Ht). unfold WidgetStore._ensureLimit.
  set (w2 := (JsMap.delete id (WidgetStore.widgets s) ++ [(id, el)])%list).
  assert (NoDup w2.*1) as Hnd2.
  { subst w2. rewrite fmap_app. simpl. apply NoDup_app. split; [|split].
    - by apply jsmap_delete_nodup.
    - intros k Hk [->|?%elem_of_nil]%elem_of_cons; [|done].
      by apply jsmap_delete_not_in in Hk.
    - apply NoDup_singleton. }
  destruct (ensureLimit_loop_least (length w2) dom (WidgetStore.with_widgets w2 s))
    as (gone & dom' & w' & Hloop & Hw & Hlen & Hel & Hcont);
    cbn [WidgetStore.with_widgets WidgetStore.maxSize WidgetStore.widgets] in *;
    [lia|done|done|].
  cbn [snd WidgetStore.widgets WidgetStore.with_widgets WidgetStore.maxSize].
  rewrite Hloop.
  cbn [WidgetStore.serviceLocks WidgetStore.evictLog].
  eexists dom', _. split; [reflexivity|].
  cbn [WidgetStore.widgets WidgetStore.evictLog].
  assert (length w2 = S (length (JsMap.delete id (WidgetStore.widgets s)))) as Hlen2.
  { subst w2. rewrite length_app. simpl. lia. }
  pose proof (jsmap_delete_length id (WidgetStore.widgets s)) as Hdel.
  assert (length w2 = length gone + length w') as Hsplit.
  { by rewrite Hw, length_app. }
  unfold JsMap.size in Hsz.
  change (WidgetStore.evictLog (WidgetStore.with_widgets w2 s))
    with (WidgetStore.evictLog s) in *.
  rewrite HM in Hlen. split.
  - intros HM1.
    assert (w' <> []) as Hne. { intros ->. simpl in Hlen. lia. }
    assert ((id, el) ∈ w') as Hin.
    { destruct w' as [|x w' _] using rev_ind; [done|].
      subst w2. rewrite app_assoc in Hw. apply app_inj_tail in Hw as [_ ->].
      apply elem_of_app. right. by left. }
    assert (NoDup w'.*1) as Hnd'.
    { rewrite Hw, fmap_app in Hnd2. by apply NoDup_app in Hnd2 as (_ & _ & ?). }
    pose proof (jsmap_get_nodup id el w' Hnd' Hin) as Hget.
    split; [|split; [|split]].
    + unfold WidgetStore.has. cbn. apply jsmap_has_true.
      apply list_elem_of_fmap. by exists (id, el).
    + unfold WidgetStore.get. cbn [WidgetStore.widgets].
      assert (JsMap.has id w' = true) as ->.
      { apply jsmap_has_true. apply list_elem_of_fmap. by exists (id, el). }
      by rewrite Hget.
    + rewrite length_app, length_fmap. lia.
    + intros Hroom.
      assert (gone = []) as ->.
      { apply length_zero_iff_nil.
        destruct Hroom as [Hhas|Hroom].
        - apply jsmap_has_true, jsmap_delete_present in Hhas. lia.
        - unfold JsMap.size in Hroom. lia. }
      simpl. rewrite app_nil_r. split; [done|]. rewrite Hcont. simpl.
      apply forallb_filter_id, forallb_forall. intros h _.
      done || (apply negb_true_iff, bool_decide_eq_false; by intros ?%elem_of_nil).
  - intros ->.
    assert (WidgetStore.widgets s = []) as Hempty.
    { apply length_zero_iff_nil. lia. }
    subst w2. rewrite Hempty in *. cbn [JsMap.delete List.filter app] in *.
    assert (w' = []) as ->. { apply length_zero_iff_nil. simpl in Hlen. lia. }
    rewrite app_nil_r in Hw. subst gone. simpl. split; [done|]. split; [done|].
    rewrite Hcont. simpl. intros Hin%list_elem_of_In%filter_In.
    destruct Hin as [_ Hin]. apply negb_true_iff, bool_decide_eq_false in Hin.
    apply Hin. by left.
Qed.

Lemma store_add_then_get_witness :
  let dom :=
    Dom.mkDom {[ 0 := WidgetStore.plainElement "a" "svc" ]} [0] "b1" "v1" 1 in
  exists dom' s',
    WidgetStore.add 0 (dom, WidgetStore.new 2) = Some (dom', s')
    /\ (WidgetStore.get "a" (dom', s')).2 = Some 0.
Proof.
  intros dom.
  destruct (store_add_then_get 2 0 (WidgetStore.plainElement "a" "svc") "a" dom
              (WidgetStore.new 2)) as (dom' & s' & Hadd & Hget & _).
  - repeat split; cbn; [apply NoDup_nil_2|unfold JsMap.size; simpl; lia].
  - reflexivity.
  - reflexivity.
  - reflexivity.
  - exists dom', s'. split; [exact Hadd|]. apply Hget. lia.
Defined.

(** ** The order of [Object.keys] *)
Section OwnKeysFacts.
Import Js.

Local Abbreviation le1 := (fun p q : N * string => (fst p <= fst q)%N).
Local Abbreviation tagged := (fun p : N * string => arrayIndex (snd p) = Some (fst p)).

Lemma insert_index_perm p l : insert_index p l ≡ₚ p :: l.
Proof.
  induction l as [|q l IH]; simpl; [done|].
  destruct (fst p <=? fst q)%N; [done|]. rewrite IH. apply Permutation_swap.
Qed.

Lemma sort_indices_perm l : sort_indices l ≡ₚ l.
Proof.
  induction l as [|p l IH]; simpl; [done|]. by rewrite insert_index_perm, IH.
Qed.

Lemma insert_index_sorted p l : StronglySorted le1 l -> StronglySorted le1 (insert_index p l).
Proof.
  induction 1 as [|q l Hl IH Hq]; simpl.
  - repeat constructor.
  - destruct (N.leb_spec (fst p) (fst q)) as [Hle|Hlt].
    + constructor; [by constructor|]. constructor; [done|].
      eapply Forall_impl; [exact Hq|]. intros r Hr. simpl in *. lia.
    + constructor; [done|]. rewrite insert_index_perm. constructor; [simpl; lia|done].
Qed.

Lemma sort_indices_sorted l : StronglySorted le1 (sort_indices l).
Proof.
  induction l as [|p l IH]; simpl; [constructor|by apply insert_index_sorted].
Qed.

Lemma insert_index_first p l : Forall (le1 p) l -> insert_index p l = p :: l.
Proof.
  destruct 1 as [|q l Hq _]; simpl; [done|].
  by destruct (N.leb_spec (fst p) (fst q)) as [_|Hlt]; [|lia].
Qed.

Lemma sort_indices_id l : StronglySorted le1 l -> sort_indices l = l.
Proof.
  induction 1 as [|p l _ IH Hp]; simpl; [done|].
  rewrite IH. by apply insert_index_first.
Qed.

Lemma insert_index_filter (P : N * string -> bool) p l :
  StronglySorted le1 l ->
  List.filter P (insert_index p l)
  = if P p then insert_index p (List.filter P l) else List.filter P l.
Proof.
  induction 1 as [|q l Hl IH Hq]; simpl.
  - by destruct (P p).
  - destruct (N.leb_spec (fst p) (fst q)) as [Hle|Hlt]; simpl.
    + destruct (P p) eqn:Hp; [|done].
      symmetry. apply (insert_index_first p (List.filter P (q :: l))).
      apply Forall_forall. intros r Hr. apply list_elem_of_In, filter_In in Hr as [Hr _].
      apply list_elem_of_In, elem_of_cons in Hr as [->|Hr]; [done|].
      rewrite Forall_forall in Hq. specialize (Hq _ Hr). simpl in *. lia.
    + rewrite IH. destruct (P q) eqn:Hpq; [|done].
      destruct (P p); [|done]. simpl.
      by destruct (N.leb_spec (fst p) (fst q)) as [?|_]; [lia|].
Qed.

Lemma sort_indices_filter (P : N * string -> bool) l :
  List.filter P (sort_indices l) = sort_indices (List.filter P l).
Proof.
  induction l as [|p l IH]; simpl; [done|].
  rewrite insert_index_filter by apply sort_indices_sorted.
  rewrite IH. by destruct (P p).
Qed.

Lemma sort_indices_app_sorted a b :
  sort_indices (a ++ sort_indices b) = sort_indices (a ++ b).
Proof.
  induction a as [|p a IH]; simpl.
  - apply sort_indices_id, sort_indices_sorted.
  - by rewrite IH.
Qed.

Lemma indices_app a b : indices (a ++ b) = (indices a ++ indices b)%list.
Proof.
  induction a as [|k a IH]; simpl; [done|]. destruct (arrayIndex k); simpl; by rewrite IH.
Qed.

Lemma indices_filter (P : string -> bool) keys :
  indices (List.filter P keys) = List.filter (fun p => P (snd p)) (indices keys).
Proof.
  induction keys as [|k keys IH]; simpl; [done|].
  destruct (P k) eqn:Hk; simpl; destruct (arrayIndex k); simpl; rewrite ?Hk; by rewrite IH.
Qed.

Lemma indices_tagged keys : Forall tagged (indices keys).
Proof.
  induction keys as [|k keys IH]; simpl; [done|].
  destruct (arrayIndex k) eqn:Hk; [|done]. by constructor.
Qed.

Lemma indices_of_tagged l : Forall tagged l -> indices (map snd l) = l.
Proof.
  induction 1 as [|[n k] l Hp _ IH]; simpl in *; [done|]. by rewrite Hp, IH.
Qed.

Lemma named_of_tagged l : Forall tagged l -> List.filter named (map snd l) = [].
Proof.
  induction 1 as [|[n k] l Hp _ IH]; simpl in *; [done|]. unfold named at 1. by rewrite Hp.
Qed.

Lemma indices_named keys : indices (List.filter named keys) = [].
Proof.
  induction keys as [|k keys IH]; simpl; [done|]. unfold named at 1.
  destruct (arrayIndex k) eqn:Hk; simpl; [done|]. by rewrite Hk.
Qed.

Lemma sorted_tagged keys : Forall tagged (sort_indices (indices keys)).
Proof.
  rewrite sort_indices_perm. apply indices_tagged.
Qed.

Lemma indices_ownKeys keys : indices (ownKeys keys) = sort_indices (indices keys).
Proof.
  unfold ownKeys. rewrite indices_app, indices_named, app_nil_r.
  apply indices_of_tagged, sorted_tagged.
Qed.

Lemma filter_twice {A} (f : A -> bool) l :
  List.filter f (List.filter f l) = List.filter f l.
Proof.
  induction l as [|a l IH]; simpl; [done|].
  destruct (f a) eqn:E; simpl; [|done]. by rewrite E, IH.
Qed.

Lemma filter_comm {A} (f g : A -> bool) l :
  List.filter f (List.filter g l) = List.filter g (List.filter f l).
Proof.
  induction l as [|a l IH]; simpl; [done|].
  destruct (f a) eqn:Ef, (g a) eqn:Eg; simpl; rewrite ?Ef, ?Eg; by rewrite IH.
Qed.

Lemma named_ownKeys keys : List.filter named (ownKeys keys) = List.filter named keys.
Proof.
  unfold ownKeys. rewrite List.filter_app, named_of_tagged by apply sorted_tagged.
  apply filter_twice.
Qed.

(** Listing the keys twice changes nothing. *)
Lemma ownKeys_idem keys : ownKeys (ownKeys keys) = ownKeys keys.
Proof.
  unfold ownKeys at 1. rewrite indices_ownKeys, named_ownKeys.
  by rewrite sort_indices_id by apply sort_indices_sorted.
Qed.

Lemma filter_map_snd (P : string -> bool) (l : list (N * string)) :
  List.filter P (map snd l) = map snd (List.filter (fun p => P (snd p)) l).
Proof.
  induction l as [|p l IH]; simpl; [done|]. destruct (P (snd p)); simpl; by rewrite IH.
Qed.

(** The keys that pass a test are listed in the same order. *)
Lemma ownKeys_filter (P : string -> bool) keys :
  ownKeys (List.filter P keys) = List.filter P (ownKeys keys).
Proof.
  unfold ownKeys. rewrite List.filter_app, indices_filter, <- sort_indices_filter.
  by rewrite filter_map_snd, (filter_comm P named).
Qed.

Lemma ownKeys_app_r a b : ownKeys (a ++ ownKeys b) = ownKeys (a ++ b).
Proof.
  unfold ownKeys at 1. rewrite indices_app, indices_ownKeys, sort_indices_app_sorted.
  rewrite List.filter_app, named_ownKeys. unfold ownKeys.
  by rewrite indices_app, List.filter_app.
Qed.

Lemma ownKeys_perm keys : ownKeys keys ≡ₚ keys.
Proof.
  unfold ownKeys. rewrite sort_indices_perm.
  induction keys as [|k keys IH]; simpl; [done|]. unfold named at 1.
  destruct (arrayIndex k) eqn:Hk; simpl.
  - by rewrite IH.
  - rewrite <- Permutation_middle. by rewrite IH.
Qed.

Lemma elem_of_ownKeys k keys : k ∈ ownKeys keys <-> k ∈ keys.
Proof. by rewrite ownKeys_perm. Qed.

Lemma ownKeys_nodup keys : NoDup keys -> NoDup (ownKeys keys).
Proof. by rewrite ownKeys_perm. Qed.

(** Keys that are no array indices are listed as they come. *)
Lemma ownKeys_named keys : Forall (fun k => named k = true) keys -> ownKeys keys = keys.
Proof.
  intros H. unfold ownKeys.
  assert (indices keys = []) as ->.
  { induction H as [|k keys Hk _ IH]; simpl; [done|]. unfold named in Hk.
    by destruct (arrayIndex k). }
  simpl. induction H as [|k keys Hk _ IH]; simpl; [done|]. by rewrite Hk, IH.
Qed.

(** The keys of two lists of properties created one after the other. *)
Lemma ownKeys_app a b :
  ownKeys (a ++ b)
  = (map snd (sort_indices (indices a ++ indices b))
     ++ List.filter named a ++ List.filter named b)%list.
Proof. unfold ownKeys. by rewrite indices_app, List.filter_app. Qed.

End OwnKeysFacts.

(** ** deepMerge *)
Section DeepMergeFacts.
Import Js Minimizer ObjectUtils DeepMerge.

Lemma get_calls (f : jsvalue -> jsvalue -> option jsvalue) key sf :
  JsMap.get key (map (fun kv => (fst kv, fun t => f t (snd kv))) sf)
  = (fun v t => f t v) <$> JsMap.get key sf.
Proof.
  induction sf as [|[k v] sf IH]; simpl; [done|]. by destruct (String.eqb key k).
Qed.

Lemma get_obj_get key sf : key ∈ sf.*1 -> JsMap.get key sf = Some (obj_get key sf).
Proof.
  induction sf as [|[k v] sf IH]; simpl; [by intros ?%elem_of_nil|].
  intros [->|Hin]%elem_of_cons; [by rewrite String.eqb_refl|].
  destruct (String.eqb key k); [done|by apply IH].
Qed.

Lemma entries_keys fields : (entries fields).*1 = ownKeys fields.*1.
Proof.
  unfold entries. rewrite <- list_fmap_compose. apply list_fmap_id.
Qed.

Lemma entries_elem fields k v :
  NoDup fields.*1 -> (k, v) ∈ entries fields <-> (k, v) ∈ fields.
Proof.
  intros Hnd. unfold entries. rewrite list_elem_of_fmap. split.
  - intros (k' & Heq & Hk). injection Heq as -> ->.
    apply (elem_of_ownKeys k' fields.*1) in Hk. by apply obj_get_elem.
  - intros Hin. exists k. split.
    + by rewrite (obj_get_nodup k v fields Hnd Hin).
    + apply elem_of_ownKeys. apply list_elem_of_fmap. by exists (k, v).
Qed.

Lemma entries_nodup fields : NoDup fields.*1 -> NoDup (entries fields).*1.
Proof. rewrite entries_keys. apply ownKeys_nodup. Qed.

Lemma entries_Forall (P : string * jsvalue -> Prop) fields :
  NoDup fields.*1 -> Forall P fields -> Forall P (entries fields).
Proof.
  intros Hnd. rewrite !Forall_forall. intros H [k v] Hin.
  apply H. by apply entries_elem.
Qed.

Lemma entries_key_elem fields k : k ∈ (entries fields).*1 <-> k ∈ fields.*1.
Proof. rewrite entries_keys. apply elem_of_ownKeys. Qed.

Lemma deepMerge_obj target sfields :
  deepMerge target (VObj sfields)
  = VObj <$> merge_fields (entries sfields) (spread target).
Proof.
  cbn [deepMerge]. f_equal. unfold entries.
  assert (forall k, k ∈ ownKeys sfields.*1 -> k ∈ sfields.*1) as Hsub.
  { intros k. apply elem_of_ownKeys. }
  revert Hsub. generalize (ownKeys sfields.*1) (spread target).
  intros keys. induction keys as [|key keys IH]; intros out Hsub; [done|].
  cbn [merge_loop fmap list_fmap merge_fields]. destruct (String.eqb key "__proto__"); [done|].
  rewrite (get_calls deepMerge), get_obj_get by (apply Hsub; by left). cbn [fmap option_fmap option_map].
  destruct (deepMerge (obj_get key out) (obj_get key sfields)); [|done].
  apply IH. intros k Hk. apply Hsub. by right.
Qed.

Lemma obj_get_set_eq k x (out : list (string * jsvalue)) :
  obj_get k (JsMap.set k x out) = x.
Proof.
  induction out as [|[k' v'] out IH]; simpl; [by rewrite String.eqb_refl|].
  destruct (String.eqb_spec k k') as [->|Hne]; simpl.
  - by rewrite String.eqb_refl.
  - by destruct (String.eqb_spec k k').
Qed.

Lemma obj_get_set_ne k k' x (out : list (string * jsvalue)) :
  k' <> k -> obj_get k' (JsMap.set k x out) = obj_get k' out.
Proof.
  intros Hne. induction out as [|[k0 v0] out IH]; simpl.
  - by destruct (String.eqb_spec k' k).
  - destruct (String.eqb_spec k k0) as [->|Hk]; simpl.
    + by destruct (String.eqb_spec k' k0).
    + by rewrite IH.
Qed.

Lemma set_keys k x (out : list (string * jsvalue)) :
  (JsMap.set k x out).*1 = if bool_decide (k ∈ out.*1) then out.*1 else (out.*1 ++ [k])%list.
Proof.
  induction out as [|[k' v'] out IH]; [done|]. cbn [JsMap.set].
  destruct (String.eqb_spec k k') as [->|Hne].
  - by rewrite bool_decide_eq_true_2 by (by left).
  - cbn [fmap list_fmap fst] in *. rewrite IH.
    destruct (bool_decide (k ∈ out.*1)) eqn:Hk.
    + apply bool_decide_eq_true in Hk. rewrite bool_decide_eq_true_2; [done|by right].
    + apply bool_decide_eq_false in Hk. rewrite bool_decide_eq_false_2; [done|].
      rewrite elem_of_cons. naive_solver.
Qed.

Lemma obj_has_set a k x (out : list (string * jsvalue)) :
  obj_has a (JsMap.set k x out) = obj_has a out || String.eqb a k.
Proof.
  induction out as [|[k' v'] out IH]; simpl; [by rewrite orb_false_r|].
  destruct (String.eqb_spec k k') as [->|Hne]; simpl.
  - destruct (String.eqb a k'); [done|]. by rewrite orb_false_r.
  - fold (obj_has a (JsMap.set k x out)). fold (obj_has a out).
    rewrite IH. by rewrite orb_assoc.
Qed.

Lemma fields_ext (l1 l2 : list (string * jsvalue)) :
  l1.*1 = l2.*1 -> NoDup l1.*1 -> (forall k, obj_get k l1 = obj_get k l2) -> l1 = l2.
Proof.
  revert l2. induction l1 as [|[k v] l1 IH]; intros [|[k' v'] l2] Hk Hnd Hget;
    try done.
  cbn [fmap list_fmap fst] in Hk. injection Hk as <- Hk.
  apply NoDup_cons in Hnd as [Hkn Hnd].
  pose proof (Hget k) as Hv. simpl in Hv. rewrite String.eqb_refl in Hv. subst v'.
  f_equal. apply IH; [done|done|]. intros k0.
  destruct (decide (k0 = k)) as [->|Hne].
  - assert (forall l : list (string * jsvalue), k ∉ l.*1 -> obj_has k l = false) as Hno.
    { intros l Hl. destruct (obj_has k l) eqn:E; [|done]. by apply obj_has_elem in E. }
    rewrite !obj_get_absent; [done|apply Hno; by rewrite <- Hk|by apply Hno].
  - specialize (Hget k0). simpl in Hget.
    by destruct (String.eqb_spec k0 k).
Qed.


Lemma merge_fields_char fs : forall out m,
  NoDup fs.*1 -> NoDup out.*1 -> merge_fields fs out = Some m ->
  m.*1 = (out.*1 ++ List.filter (fun k => negb (obj_has k out)) fs.*1)%list
  /\ NoDup m.*1
  /\ (forall k, k ∉ fs.*1 -> obj_get k m = obj_get k out)
  /\ (forall k v, (k, v) ∈ fs -> deepMerge (obj_get k out) v = Some (obj_get k m))
  /\ "__proto__" ∉ fs.*1.
Proof.
  induction fs as [|[k v] fs IH]; intros out m Hfs Hout Hm.
  - injection Hm as <-. simpl. rewrite app_nil_r. repeat split; try done.
    + intros k v Hin. by apply elem_of_nil in Hin.
    + by intros ?%elem_of_nil.
  - cbn [merge_fields] in Hm. cbn [fmap list_fmap fst] in Hfs.
    apply NoDup_cons in Hfs as [Hk Hfs].
    destruct (String.eqb_spec k "__proto__") as [|Hproto]; [done|].
    destruct (deepMerge (obj_get k out) v) as [x|] eqn:Hx; [|done].
    assert (NoDup (JsMap.set k x out).*1) as Hnd1.
    { rewrite set_keys. case_bool_decide as Hin; [done|].
      apply NoDup_app. split; [done|]. split; [|apply NoDup_singleton].
      intros y Hy ->%list_elem_of_singleton. done. }
    destruct (IH _ _ Hfs Hnd1 Hm) as (Hkeys & Hndm & Hout' & Hin' & Hp).
    split; [|split; [done|split; [|split]]].
    + rewrite Hkeys, set_keys. cbn [fmap list_fmap fst List.filter].
      assert (forall a, In a fs.*1 ->
                negb (obj_has a (JsMap.set k x out)) = negb (obj_has a out)) as Hsame.
      { intros a Ha. rewrite obj_has_set.
        destruct (String.eqb_spec a k) as [->|_]; [|by rewrite orb_false_r].
        exfalso. apply Hk. by apply list_elem_of_In. }
      rewrite (List.filter_ext_in _ _ _ Hsame).
      case_bool_decide as Hin.
      * apply obj_has_elem in Hin as Hh. by rewrite Hh.
      * assert (obj_has k out = false) as Hh.
        { destruct (obj_has k out) eqn:E; [|done]. by apply obj_has_elem in E. }
        rewrite Hh. simpl. by rewrite <- app_assoc.
    + intros k0 Hk0. rewrite Hout'.
      * apply obj_get_set_ne. intros ->. apply Hk0. by left.
      * intros ?. apply Hk0. by right.
    + intros k0 v0 [[= -> ->]|Hin]%elem_of_cons.
      * rewrite Hx. f_equal. rewrite Hout' by done. by rewrite obj_get_set_eq.
      * rewrite <- (Hin' _ _ Hin). f_equal. symmetry. apply obj_get_set_ne.
        intros ->. apply Hk. apply list_elem_of_fmap. by exists (k, v0).
    + cbn [fmap list_fmap fst]. intros [?|?]%elem_of_cons; [by subst|done].
Qed.


Lemma merge_fields_defined fs : forall out,
  NoDup fs.*1 -> "__proto__" ∉ fs.*1 ->
  (forall k v, (k, v) ∈ fs -> is_Some (deepMerge (obj_get k out) v)) ->
  is_Some (merge_fields fs out).
Proof.
  induction fs as [|[k v] fs IH]; intros out Hnd Hp Hdef; [by eexists|].
  cbn [merge_fields]. cbn [fmap list_fmap fst] in Hnd, Hp.
  apply NoDup_cons in Hnd as [Hk Hnd].
  destruct (String.eqb_spec k "__proto__") as [->|_]; [exfalso; apply Hp; by left|].
  destruct (Hdef k v) as [x Hx]; [by left|]. rewrite Hx.
  apply IH; [done|by intros ?; apply Hp; right|].
  intros k' v' Hin. rewrite obj_get_set_ne; [apply Hdef; by right|].
  intros ->. apply Hk. apply list_elem_of_fmap. by exists (k, v').
Qed.

Lemma merge_entries_char fields out m :
  NoDup fields.*1 -> NoDup out.*1 -> merge_fields (entries fields) out = Some m ->
  m.*1 = (out.*1 ++ List.filter (fun k => negb (obj_has k out)) (ownKeys fields.*1))%list
  /\ NoDup m.*1
  /\ (forall k, k ∉ fields.*1 -> obj_get k m = obj_get k out)
  /\ (forall k v, (k, v) ∈ fields -> deepMerge (obj_get k out) v = Some (obj_get k m))
  /\ "__proto__" ∉ fields.*1.
Proof.
  intros Hnd Hout Hm.
  destruct (merge_fields_char _ _ _ (entries_nodup _ Hnd) Hout Hm)
    as (Hkeys & Hndm & Hkeep & Hin & Hp).
  rewrite entries_keys in Hkeys. split; [done|]. split; [done|].
  split; [|split].
  - intros k Hk. apply Hkeep. by rewrite entries_key_elem.
  - intros k v Hkv. apply Hin. by apply entries_elem.
  - by rewrite <- entries_key_elem.
Qed.

Lemma merge_entries_defined fields out :
  NoDup fields.*1 -> "__proto__" ∉ fields.*1 ->
  (forall k v, (k, v) ∈ fields -> is_Some (deepMerge (obj_get k out) v)) ->
  is_Some (merge_fields (entries fields) out).
Proof.
  intros Hnd Hp Hdef. apply merge_fields_defined.
  - by apply entries_nodup.
  - by rewrite entries_key_elem.
  - intros k v Hkv. apply Hdef. by apply (entries_elem fields k v Hnd).
Qed.

Lemma not_in_obj_has k (l : list (string * jsvalue)) : k ∉ l.*1 -> obj_has k l = false.
Proof. intros Hl. destruct (obj_has k l) eqn:E; [|done]. by apply obj_has_elem in E. Qed.

Lemma decimal_inj a b : decimal a = decimal b -> a = b.
Proof.
  intros H. apply (f_equal integerOfString) in H.
  rewrite !integerOfString_decimal in H. congruence.
Qed.

Lemma decimal_not_proto i : decimal i <> "__proto__".
Proof.
  intros H. pose proof (uint_no_sep "_" (Nat.to_uint i)) as Hc.
  unfold decimal in H. rewrite H in Hc. discriminate Hc. right. vm_compute. lia.
Qed.

Lemma spread_keys_arr elems :
  (spread (VArr elems)).*1 = map decimal (seq 0 (length elems)).
Proof. unfold spread. rewrite <- list_fmap_compose. done. Qed.

Lemma spread_nodup t : well_formed t = true -> NoDup (spread t).*1.
Proof.
  destruct t as [| | | | |elems|fields]; intros Hwf; try apply NoDup_nil_2.
  - rewrite spread_keys_arr. apply NoDup_fmap_2_strong; [|apply NoDup_seq].
    intros a b _ _. apply decimal_inj.
  - rewrite well_formed_obj in Hwf. by apply well_formed_fields_nodup.
Qed.

Lemma obj_get_Forall (P : jsvalue -> Prop) k fs :
  P VUndef -> Forall (fun kv => P (snd kv)) fs -> P (obj_get k fs).
Proof.
  intros Hu. induction 1 as [|[k' v'] fs Hv _ IH]; simpl; [done|].
  by destruct (String.eqb k k').
Qed.

Lemma spread_Forall (P : jsvalue -> bool) t :
  match t with
  | VArr elems => forallb P elems = true
  | VObj fields => Forall (fun kv => P (snd kv) = true) fields
  | _ => True
  end ->
  Forall (fun kv => P (snd kv) = true) (spread t).
Proof.
  destruct t as [| | | | |elems|fields]; intros H; try apply Forall_nil_2; [|done].
  unfold spread. apply Forall_fmap, Forall_forall. intros i Hi%elem_of_seq. simpl.
  rewrite forallb_forall in H. apply H, nth_In. lia.
Qed.

Lemma spread_wf t k : well_formed t = true -> well_formed (obj_get k (spread t)) = true.
Proof.
  intros Hwf. apply (obj_get_Forall (fun v => well_formed v = true)); [done|].
  apply spread_Forall. destruct t; try done.
  rewrite well_formed_obj in Hwf. by apply well_formed_fields_values.
Qed.

Lemma clean_obj fs :
  clean (VObj fs) = true <->
  ("__proto__" ∉ fs.*1) /\ Forall (fun kv => clean (snd kv) = true) fs.
Proof.
  unfold clean. simpl. induction fs as [|[k v] fs IH]; simpl.
  - split; [|done]. intros _. split; [by intros ?%elem_of_nil|done].
  - rewrite !andb_true_iff, IH, negb_true_iff, Forall_cons, elem_of_cons.
    simpl. destruct (String.eqb_spec k "__proto__") as [->|Hne]; naive_solver.
Qed.

Lemma spread_clean t k : clean t = true -> clean (obj_get k (spread t)) = true.
Proof.
  intros Hc. apply (obj_get_Forall (fun v => clean v = true)); [done|].
  apply spread_Forall. destruct t; try done. by apply clean_obj in Hc as [_ ?].
Qed.

Lemma spread_no_proto t : clean t = true -> "__proto__" ∉ (spread t).*1.
Proof.
  destruct t as [| | | | |elems|fields]; intros Hc; try by intros ?%elem_of_nil.
  - rewrite spread_keys_arr. intros (i & Hi & _)%list_elem_of_fmap.
    by apply (decimal_not_proto i).
  - by apply clean_obj in Hc as [? _].
Qed.

Lemma deepMerge_defined s :
  well_formed s = true -> clean s = true ->
  forall t, well_formed t = true ->
  exists m, deepMerge t s = Some m /\ well_formed m = true.
Proof.
  induction s as [| | | | |elems IH|fields IH] using jsvalue_nested_ind;
    intros Hwf Hcl t Ht; try (eexists; split; [reflexivity|done]).
  rewrite deepMerge_obj. rewrite well_formed_obj in Hwf.
  pose proof (well_formed_fields_nodup _ Hwf) as Hnd.
  pose proof (well_formed_fields_values _ Hwf) as Hvals.
  apply clean_obj in Hcl as [Hproto Hcl].
  pose proof (spread_nodup _ Ht) as Hbase.
  assert (forall k v, (k, v) ∈ fields ->
            exists x, deepMerge (obj_get k (spread t)) v = Some x
                      /\ well_formed x = true) as Hdef.
  { intros k v Hin. rewrite Forall_forall in IH, Hvals, Hcl.
    apply (IH _ Hin); [apply (Hvals _ Hin)|apply (Hcl _ Hin)|by apply spread_wf]. }
  destruct (merge_entries_defined fields (spread t)) as [m Hm]; [done|done| |].
  { intros k v Hin. destruct (Hdef k v Hin) as (x & -> & _). by eexists. }
  rewrite Hm. exists (VObj m). split; [done|].
  destruct (merge_entries_char _ _ _ Hnd Hbase Hm) as (_ & Hndm & Hout & Hin & _).
  rewrite well_formed_obj. apply nodup_well_formed_fields; [done|].
  apply Forall_forall. intros [k x] Hkx. simpl.
  rewrite <- (obj_get_nodup k x m Hndm Hkx).
  destruct (decide (k ∈ fields.*1)) as [Hk|Hk].
  - apply obj_get_elem in Hk. destruct (Hdef _ _ Hk) as (y & Hy & Hwy).
    rewrite (Hin _ _ Hk) in Hy. by injection Hy as ->.
  - rewrite (Hout _ Hk). by apply spread_wf.
Qed.

Lemma keys_absorbed (a b : list string) :
  (forall k, k ∈ b -> k ∈ a) ->
  List.filter (fun k => negb (bool_decide (k ∈ a))) b = [].
Proof.
  induction b as [|k b IH]; intros H; simpl; [done|].
  rewrite bool_decide_eq_true_2 by (apply H; by left). simpl.
  apply IH. intros k' Hk'. apply H. by right.
Qed.

Lemma obj_has_decide k (l : list (string * jsvalue)) :
  obj_has k l = bool_decide (k ∈ l.*1).
Proof.
  destruct (obj_has k l) eqn:E.
  - apply obj_has_elem in E. by rewrite bool_decide_eq_true_2.
  - rewrite bool_decide_eq_false_2; [done|]. intros H%obj_has_elem. congruence.
Qed.

Lemma merged_keys_in (out : list (string * jsvalue)) (ks : list string)
    (m : list (string * jsvalue)) :
  m.*1 = (out.*1 ++ List.filter (fun k => negb (obj_has k out)) ks)%list ->
  forall k, k ∈ m.*1 <-> k ∈ out.*1 \/ k ∈ ks.
Proof.
  intros -> k. rewrite elem_of_app, (list_elem_of_In (List.filter _ _) k), filter_In.
  rewrite <- list_elem_of_In, negb_true_iff. split; [naive_solver|].
  intros [?|?]; [by left|]. destruct (obj_has k out) eqn:E; [|by right].
  left. by apply obj_has_elem.
Qed.

Lemma deepMerge_again s :
  well_formed s = true ->
  forall t m, well_formed t = true -> deepMerge t s = Some m -> deepMerge m s = Some m.
Proof.
  induction s as [| | | | |elems IH|fields IH] using jsvalue_nested_ind;
    intros Hwf t m Ht Hm; try (simpl in *; congruence).
  rewrite deepMerge_obj in Hm. rewrite well_formed_obj in Hwf.
  pose proof (well_formed_fields_nodup _ Hwf) as Hnd.
  pose proof (well_formed_fields_values _ Hwf) as Hvals.
  pose proof (spread_nodup _ Ht) as Hbase.
  destruct (merge_fields (entries fields) (spread t)) as [mf|] eqn:Hmf; [|done].
  injection Hm as <-. rewrite deepMerge_obj. cbn [spread].
  destruct (merge_entries_char _ _ _ Hnd Hbase Hmf) as (Hkeys & Hndm & Hout & Hin & Hp).
  assert (forall k v, (k, v) ∈ fields ->
            deepMerge (obj_get k mf) v = Some (obj_get k mf)) as Hfix.
  { intros k v Hkv. rewrite Forall_forall in IH, Hvals.
    apply (IH _ Hkv (Hvals _ Hkv) (obj_get k (spread t))); [by apply spread_wf|].
    by apply Hin. }
  destruct (merge_entries_defined fields mf) as [m' Hm']; [done|done| |].
  { intros k v Hkv. rewrite (Hfix _ _ Hkv). by eexists. }
  rewrite Hm'. simpl. do 2 f_equal.
  destruct (merge_entries_char _ _ _ Hnd Hndm Hm') as (Hkeys' & Hndm' & Hout' & Hin' & _).
  assert (m'.*1 = mf.*1) as Hsame.
  { rewrite Hkeys'. rewrite (List.filter_ext _ (fun k => negb (bool_decide (k ∈ mf.*1)))).
    - rewrite keys_absorbed; [by rewrite app_nil_r|].
      intros k Hk. apply (merged_keys_in _ _ _ Hkeys). by right.
    - intros k. by rewrite obj_has_decide. }
  apply fields_ext; [done|done|]. intros k.
  destruct (decide (k ∈ fields.*1)) as [Hk|Hk].
  - apply obj_get_elem in Hk. pose proof (Hin' _ _ Hk) as H1.
    rewrite (Hfix _ _ Hk) in H1. by injection H1.
  - by apply Hout'.
Qed.

Lemma deepMerge_self x :
  well_formed x = true -> clean x = true -> deepMerge x x = Some x.
Proof.
  induction x as [| | | | |elems IH|fields IH] using jsvalue_nested_ind;
    intros Hwf Hcl; try done.
  rewrite deepMerge_obj. cbn [spread]. rewrite well_formed_obj in Hwf.
  pose proof (well_formed_fields_nodup _ Hwf) as Hnd.
  pose proof (well_formed_fields_values _ Hwf) as Hvals.
  apply clean_obj in Hcl as [Hproto Hcl].
  assert (forall k v, (k, v) ∈ fields ->
            deepMerge (obj_get k fields) v = Some (obj_get k fields)) as Hfix.
  { intros k v Hkv. rewrite Forall_forall in IH, Hvals, Hcl.
    rewrite (obj_get_nodup k v fields Hnd Hkv).
    apply (IH _ Hkv (Hvals _ Hkv) (Hcl _ Hkv)). }
  destruct (merge_entries_defined fields fields) as [m' Hm']; [done|done| |].
  { intros k v Hkv. rewrite (Hfix _ _ Hkv). by eexists. }
  rewrite Hm'. simpl. do 2 f_equal.
  destruct (merge_entries_char _ _ _ Hnd Hnd Hm') as (Hkeys' & Hndm' & Hout' & Hin' & _).
  apply fields_ext; [|done|].
  - rewrite Hkeys'. rewrite (List.filter_ext _ (fun k => negb (bool_decide (k ∈ fields.*1)))).
    + rewrite keys_absorbed; [by rewrite app_nil_r|].
      intros k. apply elem_of_ownKeys.
    + intros k. by rewrite obj_has_decide.
  - intros k. destruct (decide (k ∈ fields.*1)) as [Hk|Hk].
    + apply obj_get_elem in Hk. pose proof (Hin' _ _ Hk) as H1.
      rewrite (Hfix _ _ Hk) in H1. by injection H1.
    + by apply Hout'.
Qed.

Lemma deepMerge_onto s :
  well_formed s = true ->
  forall t m, well_formed t = true -> clean t = true ->
  deepMerge t s = Some m -> deepMerge t m = Some m.
Proof.
  induction s as [| | | | |elems IH|fields IH] using jsvalue_nested_ind;
    intros Hwf t m Ht Hct Hm; try (simpl in Hm; injection Hm as <-; done).
  rewrite deepMerge_obj in Hm. rewrite well_formed_obj in Hwf.
  pose proof (well_formed_fields_nodup _ Hwf) as Hnd.
  pose proof (well_formed_fields_values _ Hwf) as Hvals.
  pose proof (spread_nodup _ Ht) as Hbase.
  destruct (merge_fields (entries fields) (spread t)) as [mf|] eqn:Hmf; [|done].
  injection Hm as <-. rewrite deepMerge_obj.
  destruct (merge_entries_char _ _ _ Hnd Hbase Hmf) as (Hkeys & Hndm & Hout & Hin & Hp).
  assert (forall k v, (k, v) ∈ mf ->
            deepMerge (obj_get k (spread t)) v = Some (obj_get k mf)) as Hfix.
  { intros k v Hkv. rewrite Forall_forall in IH, Hvals.
    rewrite <- (obj_get_nodup k v mf Hndm Hkv).
    destruct (decide (k ∈ fields.*1)) as [Hk|Hk].
    - apply obj_get_elem in Hk.
      apply (IH _ Hk (Hvals _ Hk) (obj_get k (spread t)));
        [by apply spread_wf|by apply spread_clean|by apply Hin].
    - rewrite (Hout _ Hk). apply deepMerge_self; [by apply spread_wf|by apply spread_clean]. }
  destruct (merge_entries_defined mf (spread t)) as [m' Hm']; [done| | |].
  { intros [H|H]%(merged_keys_in _ _ _ Hkeys); [by apply (spread_no_proto t)|].
    apply (elem_of_ownKeys _ fields.*1) in H. done. }
  { intros k v Hkv. rewrite (Hfix _ _ Hkv). by eexists. }
  rewrite Hm'. simpl. do 2 f_equal.
  destruct (merge_entries_char _ _ _ Hndm Hbase Hm') as (Hkeys' & Hndm' & Hout' & Hin' & _).
  apply fields_ext; [|done|].
  - rewrite Hkeys', Hkeys. f_equal.
    set (new := fun k => negb (obj_has k (spread t))).
    rewrite <- (ownKeys_filter new fields.*1), ownKeys_app_r.
    rewrite <- ownKeys_filter, List.filter_app, filter_twice.
    assert (List.filter new (spread t).*1 = []) as ->; [|done].
    unfold new. rewrite (List.filter_ext _ (fun k => negb (bool_decide (k ∈ (spread t).*1))))
      by (intros k; by rewrite obj_has_decide).
    by apply keys_absorbed.
  - intros k. destruct (decide (k ∈ mf.*1)) as [Hk|Hk].
    + apply obj_get_elem in Hk. pose proof (Hin' _ _ Hk) as H1.
      rewrite (Hfix _ _ Hk) in H1. by injection H1.
    + rewrite (Hout' _ Hk). rewrite (obj_get_absent k mf); [|by apply not_in_obj_has].
      apply obj_get_absent, not_in_obj_has. intros H. apply Hk.
      apply (merged_keys_in _ _ _ Hkeys). by left.
Qed.

End DeepMergeFacts.


(** X15: [deepMerge(target, source)] of two well-formed values, the
    source with no property named [__proto__], returns a well-formed
    value.  A source that is no object is returned as it is, whatever
    the target.  For an object source the result is an object with the
    properties of the target (the elements of an array target under
    their indices) and those of the source.  [Object.keys] lists them
    so: the names that are array indices in ascending order, then the
    other names of the target in their order, then the other names of
    the source that the target lacks, in the order of the source.  A
    property that the source lacks keeps the value of the target; a
    property of the source holds the merge of the target's value into
    the source's. *)
Theorem deepMerge_result (t s : Minimizer.jsvalue) :
  ObjectUtils.well_formed t = true -> ObjectUtils.well_formed s = true ->
  DeepMerge.clean s = true ->
  exists m,
    DeepMerge.deepMerge t s = Some m /\ ObjectUtils.well_formed m = true /\
    match s with
    | Minimizer.VObj sf =>
        let new := List.filter (fun k => negb (Minimizer.obj_has k (DeepMerge.spread t)))
                               sf.*1 in
        exists mf, m = Minimizer.VObj mf
          /\ Js.ownKeys mf.*1
             = (map snd (Js.sort_indices
                           (Js.indices (DeepMerge.spread t).*1 ++ Js.indices new))
                ++ List.filter Js.named (DeepMerge.spread t).*1
                ++ List.filter Js.named new)%list
          /\ (forall k, Minimizer.obj_has k mf
                        = Minimizer.obj_has k (DeepMerge.spread t) || Minimizer.obj_has k sf)
          /\ (forall k, Minimizer.obj_has k sf = false ->
                Minimizer.obj_get k mf = Minimizer.obj_get k (DeepMerge.spread t))
          /\ (forall k, Minimizer.obj_has k sf = true ->
                DeepMerge.deepMerge (Minimizer.obj_get k (DeepMerge.spread t))
                  (Minimizer.obj_get k sf)
                = Some (Minimizer.obj_get k mf))
    | _ => m = s
    end.
Proof.
  intros Ht Hs Hc. destruct (deepMerge_defined s Hs Hc t Ht) as (m & Hm & Hwm).
  exists m. split; [done|]. split; [done|].
  destruct s as [| | | | |elems|sf]; try (simpl in Hm; congruence).
  rewrite deepMerge_obj in Hm.
  destruct (DeepMerge.merge_fields _ (DeepMerge.spread t)) as [mf|] eqn:Hmf; [|done].
  injection Hm as <-. exists mf. split; [done|].
  rewrite well_formed_obj in Hs.
  destruct (merge_entries_char _ _ _ (well_formed_fields_nodup _ Hs) (spread_nodup _ Ht) Hmf)
    as (Hkeys & _ & Hout & Hin & _).
  cbv zeta. split; [|split; [|split]].
  - rewrite <- ownKeys_app, Hkeys, <- ownKeys_filter. apply ownKeys_app_r.
  - intros k. pose proof (merged_keys_in _ _ _ Hkeys k) as Hk.
    rewrite elem_of_ownKeys, <- !obj_has_elem in Hk.
    destruct (Minimizer.obj_has k mf), (Minimizer.obj_has k (DeepMerge.spread t)),
      (Minimizer.obj_has k sf); simpl; try done; naive_solver.
  - intros k Hk. apply Hout. intros H%obj_has_elem. congruence.
  - intros k Hk. apply Hin, obj_get_elem. by apply obj_has_elem.
Qed.

Lemma deepMerge_result_witness :
  exists m,
    DeepMerge.deepMerge
      (Minimizer.VObj [("b", Minimizer.VNum 1);
                       ("a", Minimizer.VObj [("y", Minimizer.VNum 0)])])
      (Minimizer.VObj [("c", Minimizer.VStr "z");
                       ("7", Minimizer.VStr "seven");
                       ("a", Minimizer.VObj [("x", Minimizer.VNum 2)])])
    = Some m /\ ObjectUtils.well_formed m = true.
Proof.
  destruct (deepMerge_result
              (Minimizer.VObj [("b", Minimizer.VNum 1);
                               ("a", Minimizer.VObj [("y", Minimizer.VNum 0)])])
              (Minimizer.VObj [("c", Minimizer.VStr "z");
                               ("7", Minimizer.VStr "seven");
                               ("a", Minimizer.VObj [("x", Minimizer.VNum 2)])]))
    as (m & Hm & Hw & _); [reflexivity|reflexivity|reflexivity|].
  exists m. split; assumption.
Defined.

(** A source with an array index among its names: the index is merged
    first and listed first. *)
Example deepMerge_index_first :
  exists mf,
    DeepMerge.deepMerge
      (Minimizer.VObj [("b", Minimizer.VNum 1);
                       ("a", Minimizer.VObj [("y", Minimizer.VNum 0)])])
      (Minimizer.VObj [("c", Minimizer.VStr "z");
                       ("7", Minimizer.VStr "seven");
                       ("a", Minimizer.VObj [("x", Minimizer.VNum 2)])])
    = Some (Minimizer.VObj mf)
    /\ Js.ownKeys mf.*1 = ["7"; "b"; "a"; "c"]
    /\ Minimizer.obj_get "a" mf
       = Minimizer.VObj [("y", Minimizer.VNum 0); ("x", Minimizer.VNum 2)].
Proof. eexists. split; [vm_compute; reflexivity|]. split; vm_compute; reflexivity. Qed.

(** X16: merging is idempotent.  For well-formed values, the source
    with no property named [__proto__]: merging the same source into
    the result again gives the result; when the target has no property
    named [__proto__] either, merging the result into the target gives
    the result; and merging the source into itself gives the source. *)
Theorem deepMerge_idempotent (t s : Minimizer.jsvalue) :
  ObjectUtils.well_formed t = true -> ObjectUtils.well_formed s = true ->
  DeepMerge.clean s = true ->
  exists m,
    DeepMerge.deepMerge t s = Some m
    /\ DeepMerge.deepMerge m s = Some m
    /\ (DeepMerge.clean t = true -> DeepMerge.deepMerge t m = Some m)
    /\ DeepMerge.deepMerge s s = Some s.
Proof.
  intros Ht Hs Hc. destruct (deepMerge_defined s Hs Hc t Ht) as (m & Hm & _).
  exists m. split; [done|]. split; [by apply (deepMerge_again s Hs t)|].
  split; [|by apply deepMerge_self].
  intros Hct. by apply (deepMerge_onto s Hs).
Qed.

Lemma deepMerge_idempotent_witness :
  exists m,
    DeepMerge.deepMerge
      (Minimizer.VObj [("a", Minimizer.VObj [("x", Minimizer.VNum 1)]);
                       ("b", Minimizer.VArr [Minimizer.VNum 1])])
      (Minimizer.VObj [("c", Minimizer.VStr "z");
                       ("a", Minimizer.VObj [("y", Minimizer.VNum 2)])])
    = Some m /\
    DeepMerge.deepMerge m
      (Minimizer.VObj [("c", Minimizer.VStr "z");
                       ("a", Minimizer.VObj [("y", Minimizer.VNum 2)])])
    = Some m.
Proof.
  destruct (deepMerge_idempotent
              (Minimizer.VObj [("a", Minimizer.VObj [("x", Minimizer.VNum 1)]);
                               ("b", Minimizer.VArr [Minimizer.VNum 1])])
              (Minimizer.VObj [("c", Minimizer.VStr "z");
                               ("a", Minimizer.VObj [("y", Minimizer.VNum 2)])]))
    as (m & Hm & Ha & _); [reflexivity|reflexivity|reflexivity|].
  exists m. split; assumption.
Defined.


(** ** mergeWithDefaults *)
Section ConfigFacts.
Import Js Minimizer ObjectUtils DeepMerge Config.

Lemma deepMerge_string t s x : deepMerge t s = Some (VStr x) -> s = VStr x.
Proof.
  destruct s; try (simpl; congruence).
  rewrite deepMerge_obj. by destruct (merge_fields _ _).
Qed.

Lemma theme_choice x :
  let theme := match x with
               | VStr t => if String.eqb t "dark" then "dark" else "light"
               | _ => "light"
               end in
  (theme = "dark" \/ theme = "light") /\ (theme = "dark" <-> x = VStr "dark").
Proof.
  destruct x as [| | | |t| |]; simpl; try (split; [by right|split; done]).
  destruct (String.eqb_spec t "dark") as [->|Hne].
  - split; [by left|done].
  - split; [by right|]. split; [done|]. by intros [= ->].
Qed.

Lemma filter_filter_and {A} (f g : A -> bool) l :
  List.filter f (List.filter g l) = List.filter (fun x => f x && g x) l.
Proof.
  induction l as [|a l IH]; simpl; [done|].
  destruct (g a) eqn:Eg; simpl; destruct (f a); simpl; by rewrite ?IH.
Qed.

End ConfigFacts.

(** X17: [mergeWithDefaults] of a well-formed object with no property
    named [__proto__], whose [globalSettings] is an object, is missing
    or is falsy, returns an object.  [Object.keys] lists its
    properties so: the names of the user's object that are array
    indices in ascending order, then the four properties of the
    template in the template's order, then the other properties of the
    user's object that the template lacks, in their order.  Its
    [globalSettings] is an object whose [theme] is ['dark'] or
    ['light'], and ['dark'] exactly when the user's [globalSettings] is
    an object whose [theme] is ['dark'].  Every other top-level
    property holds the merge of the template's value and the user's,
    or the template's value when the user gives none. *)
Theorem mergeWithDefaults_shape (u : list (string * Minimizer.jsvalue)) :
  ObjectUtils.well_formed (Minimizer.VObj u) = true ->
  DeepMerge.clean (Minimizer.VObj u) = true ->
  (Minimizer.truthyV (Minimizer.obj_get "globalSettings" u) = false
   \/ exists g, Minimizer.obj_get "globalSettings" u = Minimizer.VObj g) ->
  exists r settings,
    Config.mergeWithDefaults (Minimizer.VObj u) = Config.Returns (Minimizer.VObj r)
    /\ Js.ownKeys r.*1
       = (map snd (Js.sort_indices (Js.indices u.*1))
          ++ (DeepMerge.spread Minimizer.DEFAULT_CONFIG_TEMPLATE).*1
          ++ List.filter
               (fun k => Js.named k
                         && negb (Minimizer.obj_has k
                                    (DeepMerge.spread Minimizer.DEFAULT_CONFIG_TEMPLATE)))
               u.*1)%list
    /\ Minimizer.obj_get "globalSettings" r = Minimizer.VObj settings
    /\ (Minimizer.obj_get "theme" settings = Minimizer.VStr "dark"
        \/ Minimizer.obj_get "theme" settings = Minimizer.VStr "light")
    /\ (Minimizer.obj_get "theme" settings = Minimizer.VStr "dark" <->
        exists g, Minimizer.obj_get "globalSettings" u = Minimizer.VObj g
                  /\ Minimizer.obj_get "theme" g = Minimizer.VStr "dark")
    /\ (forall k, k <> "globalSettings" -> Minimizer.obj_has k u = false ->
          Minimizer.obj_get k r
          = Minimizer.obj_get k (DeepMerge.spread Minimizer.DEFAULT_CONFIG_TEMPLATE))
    /\ (forall k, k <> "globalSettings" -> Minimizer.obj_has k u = true ->
          DeepMerge.deepMerge
            (Minimizer.obj_get k (DeepMerge.spread Minimizer.DEFAULT_CONFIG_TEMPLATE))
            (Minimizer.obj_get k u)
          = Some (Minimizer.obj_get k r)).
Proof.
  intros Hu Hc Hgs.
  destruct (deepMerge_defined _ Hu Hc Minimizer.DEFAULT_CONFIG_TEMPLATE eq_refl)
    as (m & Hm & Hwm).
  unfold Config.mergeWithDefaults. rewrite Hm.
  rewrite deepMerge_obj in Hm.
  destruct (DeepMerge.merge_fields (DeepMerge.entries u) _) as [mf|] eqn:Hmf; [|done].
  injection Hm as <-.
  rewrite well_formed_obj in Hu. pose proof (well_formed_fields_nodup _ Hu) as Hnd.
  destruct (merge_entries_char _ _ _ Hnd
              (spread_nodup Minimizer.DEFAULT_CONFIG_TEMPLATE eq_refl) Hmf)
    as (Hkeys & Hndm & Hout & Hin & _).
  assert (Js.ownKeys mf.*1
          = (map snd (Js.sort_indices (Js.indices u.*1))
             ++ (DeepMerge.spread Minimizer.DEFAULT_CONFIG_TEMPLATE).*1
             ++ List.filter
                  (fun k => Js.named k
                            && negb (Minimizer.obj_has k
                                       (DeepMerge.spread Minimizer.DEFAULT_CONFIG_TEMPLATE)))
                  u.*1)%list) as Hown.
  { rewrite Hkeys, <- ownKeys_filter, ownKeys_app_r, ownKeys_app.
    set (D := DeepMerge.spread Minimizer.DEFAULT_CONFIG_TEMPLATE).
    change (Js.indices D.*1) with (@nil (N * string)).
    change (List.filter Js.named D.*1) with D.*1.
    rewrite filter_filter_and. cbn [app]. f_equal. f_equal.
    rewrite indices_filter. f_equal. simpl. apply forallb_filter_id.
    apply forallb_forall. intros [n k] Hnk. cbn [snd].
    pose proof (indices_tagged u.*1) as Htag. rewrite Forall_forall in Htag.
    apply list_elem_of_In, Htag in Hnk. cbn [fst snd] in Hnk.
    apply negb_true_iff. destruct (Minimizer.obj_has k D) eqn:Hk; [|done].
    apply obj_has_elem in Hk.
    assert (forallb Js.named D.*1 = true) as Hnone by (vm_compute; reflexivity).
    rewrite forallb_forall in Hnone. apply list_elem_of_In, Hnone in Hk.
    unfold Js.named in Hk. by rewrite Hnk in Hk. }
  assert ("globalSettings" ∈ mf.*1) as Hgin.
  { rewrite Hkeys. apply elem_of_app. left. set_solver. }
  assert (forall x (l : list (string * Minimizer.jsvalue)),
            "globalSettings" ∈ l.*1 -> (JsMap.set "globalSettings" x l).*1 = l.*1) as Hset.
  { intros x l Hl. rewrite set_keys. by rewrite bool_decide_eq_true_2. }
  assert (forall k, k <> "globalSettings" -> Minimizer.obj_has k u = false ->
            Minimizer.obj_get k mf
            = Minimizer.obj_get k (DeepMerge.spread Minimizer.DEFAULT_CONFIG_TEMPLATE)) as Hkeep.
  { intros k _ Hk. apply Hout. intros H%obj_has_elem. congruence. }
  assert (forall k, k <> "globalSettings" -> Minimizer.obj_has k u = true ->
            DeepMerge.deepMerge
              (Minimizer.obj_get k (DeepMerge.spread Minimizer.DEFAULT_CONFIG_TEMPLATE))
              (Minimizer.obj_get k u)
            = Some (Minimizer.obj_get k mf)) as Hmerge.
  { intros k _ Hk. apply Hin, obj_get_elem. by apply obj_has_elem. }
  (* what the merge leaves in globalSettings *)
  assert ((exists gm, Minimizer.obj_get "globalSettings" mf = Minimizer.VObj gm
                      /\ (Minimizer.obj_get "theme" gm = Minimizer.VStr "dark" <->
                          exists g, Minimizer.obj_get "globalSettings" u = Minimizer.VObj g
                            /\ Minimizer.obj_get "theme" g = Minimizer.VStr "dark"))
          \/ (Minimizer.truthyV (Minimizer.obj_get "globalSettings" mf) = false
              /\ Minimizer.truthyV (Minimizer.obj_get "globalSettings" u) = false)) as Hcases.
  { destruct (Minimizer.obj_has "globalSettings" u) eqn:Hhas.
    - apply obj_has_elem, obj_get_elem in Hhas. pose proof (Hin _ _ Hhas) as HG.
      destruct Hgs as [Hfalsy|[g Hg]].
      + right. split; [|done].
        destruct (Minimizer.obj_get "globalSettings" u); try done;
          simpl in HG; by injection HG as <-.
      + left. rewrite Hg in HG. rewrite deepMerge_obj in HG.
        destruct (DeepMerge.merge_fields (DeepMerge.entries g) _) as [gm|] eqn:Hgm; [|done].
        injection HG as HG. exists gm. split; [done|].
        assert (ObjectUtils.well_formed (Minimizer.VObj g) = true) as Hwg.
        { rewrite <- Hg. apply (obj_get_Forall (fun v => ObjectUtils.well_formed v = true));
            [done|by apply well_formed_fields_values]. }
        rewrite well_formed_obj in Hwg.
        destruct (merge_entries_char _ _ _ (well_formed_fields_nodup _ Hwg)
                    (spread_nodup (Minimizer.obj_get "globalSettings"
                       (DeepMerge.spread Minimizer.DEFAULT_CONFIG_TEMPLATE)) eq_refl) Hgm)
          as (_ & _ & Hgout & Hgmerge & _).
        destruct (Minimizer.obj_has "theme" g) eqn:Hth.
        * apply obj_has_elem, obj_get_elem in Hth. pose proof (Hgmerge _ _ Hth) as HT.
          split.
          -- intros Hd. rewrite Hd in HT. apply deepMerge_string in HT. by exists g.
          -- intros (g' & Hg' & Hd). rewrite Hg in Hg'. injection Hg' as <-.
             rewrite Hd in HT. simpl in HT. congruence.
        * rewrite Hgout by (intros H%obj_has_elem; congruence).
          split; [done|]. intros (g' & Hg' & Hd).
          rewrite Hg in Hg'. injection Hg' as <-.
          by rewrite (obj_get_absent _ _ Hth) in Hd.
    - left. rewrite Hout by (intros H%obj_has_elem; congruence). simpl.
      eexists. split; [reflexivity|]. split; [simpl; discriminate|].
      intros (g & Hg & _). by rewrite (obj_get_absent _ _ Hhas) in Hg. }
  destruct Hcases as [(gm & HG & Hdark)|[HG Hfalsy]].
  - rewrite HG. cbn [Minimizer.truthyV]. rewrite HG.
    destruct (theme_choice (Minimizer.obj_get "theme" gm)) as [Hor Hiff].
    eexists _, _. split; [reflexivity|].
    rewrite Hset by done. split; [exact Hown|].
    rewrite obj_get_set_eq. split; [done|]. rewrite obj_get_set_eq.
    split; [destruct Hor as [-> | ->]; [by left|by right]|].
    split; [|split].
    + rewrite <- Hdark, <- Hiff. split; [by intros [= ->]|by intros ->].
    + intros k Hk Hhas. rewrite obj_get_set_ne by done. by apply Hkeep.
    + intros k Hk Hhas. rewrite obj_get_set_ne by done. by apply Hmerge.
  - rewrite HG. rewrite obj_get_set_eq.
    eexists _, _. split; [reflexivity|].
    rewrite !Hset; [|done|by rewrite Hset]. split; [exact Hown|].
    rewrite obj_get_set_eq. split; [done|]. simpl.
    split; [by right|]. split; [|split].
    + split; [done|]. intros (g & Hg & _). by rewrite Hg in Hfalsy.
    + intros k Hk Hhas. rewrite !obj_get_set_ne by done. by apply Hkeep.
    + intros k Hk Hhas. rewrite !obj_get_set_ne by done. by apply Hmerge.
Qed.

Lemma mergeWithDefaults_shape_witness :
  exists r,
    Config.mergeWithDefaults
      (Minimizer.VObj [("globalSettings", Minimizer.VObj [("theme", Minimizer.VStr "dark")]);
                       ("extra", Minimizer.VNum 1); ("7", Minimizer.VNum 7)])
    = Config.Returns (Minimizer.VObj r).
Proof.
  destruct (mergeWithDefaults_shape
              [("globalSettings", Minimizer.VObj [("theme", Minimizer.VStr "dark")]);
               ("extra", Minimizer.VNum 1); ("7", Minimizer.VNum 7)])
    as (r & settings & Hr & _); [reflexivity|reflexivity| |].
  - right. eexists. reflexivity.
  - exists r. assumption.
Defined.


(** ** saveWidgetState: the order saved *)
Section SavedOrder.
Import Js Types App.

Local Abbreviation by_order := (fun a b : nat * Z => (snd a <= snd b)%Z).

Lemma insert_by_order_perm x l : insert_by_order x l ≡ₚ x :: l.
Proof.
  induction l as [|y l IH]; simpl; [done|].
  destruct (snd y <=? snd x)%Z; [|done]. rewrite IH. apply Permutation_swap.
Qed.

Lemma insert_by_order_sorted x l :
  StronglySorted by_order l -> StronglySorted by_order (insert_by_order x l).
Proof.
  induction 1 as [|y l Hs IH Hy]; simpl; [by repeat constructor|].
  destruct (Z.leb_spec (snd y) (snd x)) as [Hle|Hlt].
  - constructor; [done|]. rewrite insert_by_order_perm. by constructor.
  - constructor; [by constructor|]. constructor; [lia|].
    eapply Forall_impl; [exact Hy|]. simpl. intros; lia.
Qed.

Lemma sort_by_order_spec l :
  sort_by_order l ≡ₚ l /\ StronglySorted by_order (sort_by_order l).
Proof.
  unfold sort_by_order.
  assert (forall acc, StronglySorted by_order acc ->
            fold_left (fun acc x => insert_by_order x acc) l acc ≡ₚ acc ++ l
            /\ StronglySorted by_order
                 (fold_left (fun acc x => insert_by_order x acc) l acc)) as H.
  { induction l as [|x l IH]; intros acc Hacc; simpl.
    - by rewrite app_nil_r.
    - destruct (IH _ (insert_by_order_sorted x _ Hacc)) as [Hp Hs]. split; [|done].
      rewrite Hp, insert_by_order_perm. simpl. apply Permutation_middle. }
  apply (H []). constructor.
Qed.

Lemma renumber_spec hs : forall index els,
  NoDup hs ->
  (forall i h, hs !! i = Some h ->
     renumber hs index els !! h = Dom.set_order (index + Z.of_nat i) <$> els !! h)
  /\ (forall h, h ∉ hs -> renumber hs index els !! h = els !! h).
Proof.
  induction hs as [|h0 hs IH]; intros index els Hnd; simpl.
  - split; [by intros ?? ?|done].
  - apply NoDup_cons in Hnd as [Hh0 Hnd].
    destruct (IH (index + 1)%Z (alter (Dom.set_order index) h0 els) Hnd) as [Hin Hout].
    split.
    + intros [|i] h Hi; simpl in Hi.
      * injection Hi as <-. rewrite Hout by done. rewrite lookup_alter_eq.
        by rewrite Z.add_0_r.
      * rewrite (Hin _ _ Hi).
        assert (h <> h0) as Hne by (intros ->; apply Hh0; by eapply list_elem_of_lookup_2).
        rewrite lookup_alter_ne by done. do 2 f_equal. lia.
    + intros h Hh. apply not_elem_of_cons in Hh as [Hne Hh].
      rewrite (Hout _ Hh). by rewrite lookup_alter_ne.
Qed.

Lemma omap_total {A B} (f : A -> option B) (l : list A) :
  (forall x, x ∈ l -> is_Some (f x)) ->
  length (omap f l) = length l /\ forall i, omap f l !! i = l !! i ≫= f.
Proof.
  induction l as [|a l IH]; intros H; simpl; [done|].
  destruct (H a) as [b Hb]; [by left|]. rewrite Hb. simpl.
  destruct IH as [Hlen Hl]; [intros x Hx; apply H; by right|].
  split; [simpl; by f_equal|]. intros [|i]; simpl; [done|apply Hl].
Qed.

Lemma visible_present d h :
  h ∈ visibleWidgets d -> exists e, Dom.elements d !! h = Some e /\ Dom.hidden e = false.
Proof.
  unfold visibleWidgets. rewrite list_elem_of_In, filter_In. intros [_ H].
  destruct (Dom.elements d !! h) as [e|]; [|done]. exists e. split; [done|].
  by apply negb_true_iff.
Qed.

Lemma insert_by_order_last x acc :
  Forall (fun y => (snd y <= snd x)%Z) acc -> insert_by_order x acc = (acc ++ [x])%list.
Proof.
  induction 1 as [|y acc Hy _ IH]; simpl; [done|].
  destruct (Z.leb_spec (snd y) (snd x)); [by rewrite IH|lia].
Qed.

Lemma sort_by_order_sorted l : StronglySorted by_order l -> sort_by_order l = l.
Proof.
  unfold sort_by_order.
  assert (forall acc, StronglySorted by_order (acc ++ l) ->
            fold_left (fun acc x => insert_by_order x acc) l acc = (acc ++ l)%list) as H.
  { induction l as [|x l IH]; intros acc Hs; simpl; [by rewrite app_nil_r|].
    rewrite insert_by_order_last.
    - rewrite IH; rewrite <- app_assoc; done.
    - apply Forall_forall. intros y Hy.
      apply (StronglySorted_app_1_elem_of _ _ _ _ _ Hs Hy). by left. }
  apply (H []).
Qed.

Lemma sorted_by_index (f : nat -> Z) (l : list nat) (k : Z) :
  (forall i h, l !! i = Some h -> f h = (k + Z.of_nat i)%Z) ->
  StronglySorted by_order (map (fun h => (h, f h)) l).
Proof.
  revert k. induction l as [|x l IH]; intros k H; simpl; [constructor|].
  constructor.
  - apply (IH (k + 1)%Z). intros i h Hi. rewrite (H (S i) h Hi). lia.
  - apply Forall_fmap, Forall_forall. intros y Hy. simpl.
    destruct (list_elem_of_lookup_1 _ _ Hy) as [j Hj].
    rewrite (H 0 x eq_refl), (H (S j) y Hj). lia.
Qed.

Lemma visible_renumber hs index d :
  visibleWidgets (Dom.with_elements (renumber hs index (Dom.elements d)) d)
  = visibleWidgets d.
Proof.
  unfold visibleWidgets. simpl. apply List.filter_ext. intros h.
  pose proof (renumber_hidden hs index (Dom.elements d) h) as Hh.
  destruct (renumber hs index (Dom.elements d) !! h),
           (Dom.elements d !! h); simpl in Hh; congruence.
Qed.

Lemma updateWidgetOrders_spec s :
  NoDup (Dom.container (dom s)) ->
  truthy (Dom.boardElId (dom s)) = true -> truthy (Dom.viewElId (dom s)) = true ->
  existsb (hasView (Dom.viewElId (dom s))) (boards (storage s)) = true ->
  exists ws,
    boards (storage (WidgetManagement.updateWidgetOrders s))
    = updateBoardOfView (Dom.viewElId (dom s)) ws (boards (storage s))
    /\ length ws = length (visibleWidgets (dom s))
    /\ Dom.container (dom (WidgetManagement.updateWidgetOrders s)) = Dom.container (dom s)
    /\ store (WidgetManagement.updateWidgetOrders s) = store s
    /\ (forall i h, visibleWidgets (dom s) !! i = Some h ->
          exists e,
            Dom.elements (dom s) !! h = Some e
            /\ Dom.elements (dom (WidgetManagement.updateWidgetOrders s)) !! h
               = Some (Dom.set_order (Z.of_nat i) e)
            /\ ws !! i = Some (serializeWidgetState (Dom.set_order (Z.of_nat i) e))).
Proof.
  intros Hnd Hb Hv Hview. unfold WidgetManagement.updateWidgetOrders, saveWidgetState.
  cbn [dom with_dom Dom.boardElId Dom.viewElId Dom.with_elements storage].
  rewrite Hb, Hv, Hview. cbn [negb orb].
  rewrite !visible_renumber.
  set (vis := visibleWidgets (dom s)).
  assert (NoDup vis) as Hnv.
  { unfold vis, visibleWidgets. by apply NoDup_ListNoDup, List.NoDup_filter, NoDup_ListNoDup. }
  set (els1 := renumber vis 0 (Dom.elements (dom s))).
  destruct (renumber_spec vis 0%Z (Dom.elements (dom s)) Hnv) as [Hin1 _].
  fold els1 in Hin1.
  assert (forall i h, vis !! i = Some h ->
            exists e, Dom.elements (dom s) !! h = Some e
                      /\ els1 !! h = Some (Dom.set_order (Z.of_nat i) e)) as Hone.
  { intros i h Hi. destruct (visible_present (dom s) h) as (e & He & _);
      [by eapply list_elem_of_lookup_2|].
    exists e. split; [done|]. rewrite (Hin1 _ _ Hi), He. done. }
  cbn [Dom.elements Dom.with_elements]. fold els1.
  set (keyed := map (fun h => (h, default 0%Z (els1 !! h ≫= Dom.data_order))) vis).
  assert (map fst (sort_by_order keyed) = vis) as Hsame.
  { rewrite sort_by_order_sorted.
    - unfold keyed. rewrite map_map. simpl. apply map_id.
    - apply (sorted_by_index _ vis 0). intros i h Hi.
      destruct (Hone _ _ Hi) as (e & _ & ->). done. }
  rewrite Hsame.
  destruct (renumber_spec vis 0%Z els1 Hnv) as [Hin2 _].
  assert (forall i h, vis !! i = Some h ->
            exists e, Dom.elements (dom s) !! h = Some e
                      /\ renumber vis 0 els1 !! h = Some (Dom.set_order (Z.of_nat i) e)) as Htwo.
  { intros i h Hi. destruct (Hone _ _ Hi) as (e & He & He1). exists e. split; [done|].
    rewrite (Hin2 _ _ Hi), He1. done. }
  destruct (omap_total (fun h => serializeWidgetState <$> renumber vis 0 els1 !! h) vis)
    as [Hlen Hws].
  { intros h Hh. destruct (list_elem_of_lookup_1 _ _ Hh) as [i Hi].
    destruct (Htwo _ _ Hi) as (e & _ & ->). by eexists. }
  eexists. split; [reflexivity|]. split; [done|]. split; [done|]. split; [done|].
  intros i h Hi. destruct (Htwo _ _ Hi) as (e & He & He2). exists e.
  split; [done|]. split; [done|]. rewrite Hws, Hi. simpl. by rewrite He2.
Qed.

End SavedOrder.

(** X18: [saveWidgetState] for a view that some board has.  The widgets
    saved are the visible children of the container, each once, in
    ascending order of the [data-order] they had (0 when they had
    none).  The widget at position [i] has its [data-order] set to [i]
    in the document and is saved with that order, so the saved orders
    are 0, 1, 2, ...; no other element of the document changes.  The
    list replaces the [widgetState] of the first view with that id on
    the first board that has one. *)
Theorem saveWidgetState_orders (boardId viewId : string) (s : App.State) :
  Js.truthy boardId = true -> Js.truthy viewId = true ->
  existsb (App.hasView viewId) (App.boards (App.storage s)) = true ->
  NoDup (Dom.container (App.dom s)) ->
  exists sorted ws,
    sorted ≡ₚ App.visibleWidgets (App.dom s)
    /\ StronglySorted
         (fun h1 h2 =>
            (default 0 (Dom.elements (App.dom s) !! h1 ≫= Dom.data_order)
             <= default 0 (Dom.elements (App.dom s) !! h2 ≫= Dom.data_order))%Z)
         sorted
    /\ App.boards (App.storage (App.saveWidgetState boardId viewId s))
       = App.updateBoardOfView viewId ws (App.boards (App.storage s))
    /\ length ws = length sorted
    /\ (forall i h, sorted !! i = Some h ->
          exists e,
            Dom.elements (App.dom s) !! h = Some e
            /\ Dom.elements (App.dom (App.saveWidgetState boardId viewId s)) !! h
               = Some (Dom.set_order (Z.of_nat i) e)
            /\ ws !! i = Some (App.serializeWidgetState (Dom.set_order (Z.of_nat i) e)))
    /\ (forall h, h ∉ sorted ->
          Dom.elements (App.dom (App.saveWidgetState boardId viewId s)) !! h
          = Dom.elements (App.dom s) !! h).
Proof.
  intros Hb Hv Hview Hnd. unfold App.saveWidgetState. rewrite Hb, Hv, Hview. simpl.
  set (order_of := fun h => default 0%Z (Dom.elements (App.dom s) !! h ≫= Dom.data_order)).
  set (keyed := map (fun h => (h, order_of h)) (App.visibleWidgets (App.dom s))).
  destruct (sort_by_order_spec keyed) as [Hperm Hsorted].
  set (sorted := map fst (App.sort_by_order keyed)) in *.
  assert (sorted ≡ₚ App.visibleWidgets (App.dom s)) as Hp.
  { unfold sorted. rewrite Hperm. unfold keyed. rewrite map_map. simpl. by rewrite map_id. }
  assert (NoDup sorted) as Hnds.
  { rewrite Hp. unfold App.visibleWidgets.
    by apply NoDup_ListNoDup, List.NoDup_filter, NoDup_ListNoDup. }
  destruct (renumber_spec sorted 0%Z (Dom.elements (App.dom s)) Hnds) as [Hin Hout].
  assert (forall h, h ∈ sorted -> exists e, Dom.elements (App.dom s) !! h = Some e) as Hpres.
  { intros h Hh. rewrite Hp in Hh. destruct (visible_present _ _ Hh) as (e & He & _).
    by exists e. }
  destruct (omap_total
              (fun h => App.serializeWidgetState
                          <$> App.renumber sorted 0 (Dom.elements (App.dom s)) !! h) sorted)
    as [Hlen Hws].
  { intros h Hh. destruct (list_elem_of_lookup_1 _ _ Hh) as [i Hi].
    destruct (Hpres _ Hh) as [e He]. rewrite (Hin _ _ Hi), He. by eexists. }
  exists sorted, (omap (fun h => App.serializeWidgetState
                          <$> App.renumber sorted 0 (Dom.elements (App.dom s)) !! h) sorted).
  split; [done|]. split; [|split; [done|split; [done|split; [|done]]]].
  - assert (Forall (fun p => snd p = order_of (fst p)) (App.sort_by_order keyed)) as Hkey.
    { rewrite Hperm. unfold keyed. apply Forall_fmap, Forall_forall. done. }
    unfold sorted. clear -Hsorted Hkey.
    induction Hsorted as [|p l Hs IH Hall]; simpl; [constructor|].
    apply Forall_cons in Hkey as [Hp Hkey]. constructor; [by apply IH|].
    rewrite Forall_fmap. rewrite Forall_forall in Hall, Hkey. apply Forall_forall.
    intros q Hq. simpl. fold (order_of p.1). fold (order_of q.1).
    rewrite <- Hp, <- (Hkey _ Hq). by apply Hall.
  - intros i h Hi. destruct (Hpres h) as [e He]; [by eapply list_elem_of_lookup_2|].
    exists e. split; [done|].
    pose proof (Hin _ _ Hi) as Hr. rewrite He, Z.add_0_l in Hr. simpl in Hr.
    split; [done|]. rewrite Hws, Hi. simpl. by rewrite Hr.
Qed.

Lemma saveWidgetState_orders_witness :
  exists ws,
    App.boards (App.storage (App.saveWidgetState "b1" "v1" Scenario.newsOnly))
    = App.updateBoardOfView "v1" ws (App.boards (App.storage Scenario.newsOnly)).
Proof.
  destruct (saveWidgetState_orders "b1" "v1" Scenario.newsOnly)
    as (sorted & ws & _ & _ & Hboards & _); [reflexivity|reflexivity|reflexivity| |].
  - apply (bool_decide_unpack _). vm_compute. exact I.
  - exists ws. exact Hboards.
Defined.

(** X19: [removeWidget] of a widget that the store holds under its
    [dataid].  Afterwards the store no longer has that id and the
    element is no longer a child of the container, whose other children
    keep their order.  [updateWidgetOrders] then numbers the visible
    widgets that are left 0, 1, 2, ... in document order, and
    [saveWidgetState] saves exactly these, in that order and with these
    orders, as the [widgetState] of the current view. *)
Theorem removeWidget_saves (h : nat) (e : Dom.Element) (id : string) (s : App.State) :
  Dom.elements (App.dom s) !! h = Some e ->
  Dom.ds_dataid e = Some id ->
  JsMap.get id (WidgetStore.widgets (App.store s)) = Some h ->
  NoDup (Dom.container (App.dom s)) ->
  Js.truthy (Dom.boardElId (App.dom s)) = true ->
  Js.truthy (Dom.viewElId (App.dom s)) = true ->
  existsb (App.hasView (Dom.viewElId (App.dom s))) (App.boards (App.storage s)) = true ->
  WidgetStore.has id (App.runtime (WidgetManagement.removeWidget h s)) = false
  /\ Dom.container (App.dom (WidgetManagement.removeWidget h s))
     = List.filter (fun h' => negb (Nat.eqb h h')) (Dom.container (App.dom s))
  /\ (h ∉ Dom.container (App.dom (WidgetManagement.removeWidget h s)))
  /\ exists ws,
       App.boards (App.storage (WidgetManagement.removeWidget h s))
       = App.updateBoardOfView (Dom.viewElId (App.dom s)) ws (App.boards (App.storage s))
       /\ length ws
          = length (List.filter (fun h' => negb (Nat.eqb h h'))
                      (App.visibleWidgets (App.dom s)))
       /\ forall i h',
            List.filter (fun h' => negb (Nat.eqb h h')) (App.visibleWidgets (App.dom s)) !! i
            = Some h' ->
            exists e',
              Dom.elements (App.dom s) !! h' = Some e'
              /\ Dom.elements (App.dom (WidgetManagement.removeWidget h s)) !! h'
                 = Some (Dom.set_order (Z.of_nat i) e')
              /\ ws !! i = Some (App.serializeWidgetState (Dom.set_order (Z.of_nat i) e')).
Proof.
  intros He Hid Hget Hnd Hb Hv Hview. unfold WidgetManagement.removeWidget.
  rewrite He, Hid.
  set (s1 := WidgetManagement.requestRemoval (Some id) s).
  assert (App.dom s1 = Dom.remove h (App.dom s)) as Hdom.
  { unfold s1, WidgetManagement.requestRemoval, App.runtime. simpl. by rewrite Hget. }
  assert (WidgetStore.widgets (App.store s1)
          = JsMap.delete id (WidgetStore.widgets (App.store s))) as Hstore.
  { unfold s1, WidgetManagement.requestRemoval, App.runtime. simpl. by rewrite Hget. }
  assert (App.storage s1 = App.storage s) as Hsto by done.
  assert (App.visibleWidgets (App.dom s1)
          = List.filter (fun h' => negb (Nat.eqb h h')) (App.visibleWidgets (App.dom s)))
    as Hvis.
  { rewrite Hdom. unfold App.visibleWidgets, Dom.remove. simpl.
    generalize (Dom.container (App.dom s)). intros l.
    induction l as [|a l IH]; simpl; [done|].
    destruct (negb (h =? a)) eqn:Ea; simpl;
      destruct (match Dom.elements (App.dom s) !! a with
                | Some e0 => negb (Dom.hidden e0) | None => false end) eqn:Eb;
      simpl; rewrite ?Ea, ?Eb, IH; done. }
  destruct (updateWidgetOrders_spec s1) as (ws & Hboards & Hlen & Hcont & Hst & Hall).
  { rewrite Hdom. simpl. by apply NoDup_ListNoDup, List.NoDup_filter, NoDup_ListNoDup. }
  { by rewrite Hdom. }
  { by rewrite Hdom. }
  { by rewrite Hdom, Hsto. }
  split; [|split; [|split]].
  - unfold WidgetStore.has, App.runtime. simpl. rewrite Hst, Hstore.
    apply jsmap_has_false, jsmap_delete_not_in.
  - by rewrite Hcont, Hdom.
  - rewrite Hcont, Hdom. simpl. rewrite list_elem_of_In, filter_In.
    intros [_ H]. by rewrite Nat.eqb_refl in H.
  - exists ws. rewrite Hboards, Hlen, Hvis, Hsto, Hdom. split; [done|]. split; [done|].
    intros i h' Hi. rewrite <- Hvis in Hi. destruct (Hall _ _ Hi) as (e' & He' & H1 & H2).
    exists e'. rewrite Hdom in He'. done.
Qed.

Lemma removeWidget_saves_witness :
  WidgetStore.has "widget-news"
    (App.runtime (WidgetManagement.removeWidget 0 Scenario.newsOnly)) = false.
Proof.
  destruct (removeWidget_saves 0
              (Dom.mkElement (Some "widget-news") (Some "news") (Some "srv-news")
                 (Some "http://news.local/") 1 1 None "http://news.local/"
                 (Some 0%Z) false)
              "widget-news" Scenario.newsOnly) as [H _];
    [reflexivity|reflexivity|reflexivity| |reflexivity|reflexivity|reflexivity|exact H].
  apply (bool_decide_unpack _). vm_compute. exact I.
Defined.

(** ** The automatic selection of the eviction dialog *)
Section EvictionSelectFacts.
Import Js App EvictionViewModel EvictionSelect.

Local Abbreviation by_rank := (fun a b : EvictionItem => item_lruRank a <= item_lruRank b).

Lemma insert_by_rank_perm x l : insert_by_rank x l ≡ₚ x :: l.
Proof.
  induction l as [|y l IH]; simpl; [done|].
  destruct (item_lruRank y <=? item_lruRank x); [|done].
  rewrite IH. apply Permutation_swap.
Qed.

Lemma insert_by_rank_sorted x l :
  StronglySorted by_rank l -> StronglySorted by_rank (insert_by_rank x l).
Proof.
  induction 1 as [|y l Hs IH Hy]; simpl; [by repeat constructor|].
  destruct (Nat.leb_spec (item_lruRank y) (item_lruRank x)) as [Hle|Hlt].
  - constructor; [done|]. rewrite insert_by_rank_perm. by constructor.
  - constructor; [by constructor|]. constructor; [lia|].
    eapply Forall_impl; [exact Hy|]. simpl. intros; lia.
Qed.

Lemma sort_by_rank_spec l :
  sort_by_rank l ≡ₚ l /\ StronglySorted by_rank (sort_by_rank l).
Proof.
  unfold sort_by_rank.
  assert (forall acc, StronglySorted by_rank acc ->
            fold_left (fun acc x => insert_by_rank x acc) l acc ≡ₚ acc ++ l
            /\ StronglySorted by_rank
                 (fold_left (fun acc x => insert_by_rank x acc) l acc)) as H.
  { induction l as [|x l IH]; intros acc Hacc; simpl.
    - by rewrite app_nil_r.
    - destruct (IH _ (insert_by_rank_sorted x _ Hacc)) as [Hp Hs]. split; [|done].
      rewrite Hp, insert_by_rank_perm. simpl. apply Permutation_middle. }
  apply (H []). constructor.
Qed.

Lemma set_has_elem x s : set_has x s = true <-> x ∈ s.
Proof.
  unfold set_has. rewrite existsb_exists. split.
  - intros (y & Hy & ->%String.eqb_eq). by apply list_elem_of_In.
  - intros H. exists x. split; [by apply list_elem_of_In|apply String.eqb_refl].
Qed.

Lemma fold_set_add_nodup (pick : list EvictionItem) : forall acc,
  NoDup (acc ++ map item_id pick) ->
  fold_left (fun s item => set_add (item_id item) s) pick acc
  = (acc ++ map item_id pick)%list.
Proof.
  induction pick as [|x pick IH]; intros acc Hnd; simpl; [by rewrite app_nil_r|].
  unfold set_add at 2.
  destruct (set_has (item_id x) acc) eqn:E.
  - apply set_has_elem in E. apply NoDup_app in Hnd as (_ & Hd & _).
    exfalso. apply (Hd _ E). by left.
  - simpl in Hnd. rewrite IH; rewrite <- app_assoc; done.
Qed.

End EvictionSelectFacts.


(** ** getUUID *)
Section UuidFacts.
Import Js Checksum Uuid.

Lemma toString16_digit v : (0 <= v < 16)%Z -> toString16 v = String (hex_digit v) EmptyString.
Proof.
  intros Hv. unfold toString16. cbn [toString16_loop].
  rewrite Z.div_small, Z.mod_small by lia. done.
Qed.

Lemma variant_digit r :
  (0 <= r < 16)%Z ->
  existsb (Ascii.eqb (hex_digit (Z.lor (Z.land r 3) 8)))
    (String.list_ascii_of_string "89ab") = true.
Proof.
  intros Hr.
  assert (r = 0 \/ r = 1 \/ r = 2 \/ r = 3 \/ r = 4 \/ r = 5 \/ r = 6 \/ r = 7 \/ r = 8
          \/ r = 9 \/ r = 10 \/ r = 11 \/ r = 12 \/ r = 13 \/ r = 14 \/ r = 15)%Z as H by lia.
  repeat (destruct H as [->|H]; [reflexivity|]). by subst.
Qed.

Lemma variant_range r : (0 <= r < 16)%Z -> (0 <= Z.lor (Z.land r 3) 8 < 16)%Z.
Proof.
  intros Hr.
  assert (r = 0 \/ r = 1 \/ r = 2 \/ r = 3 \/ r = 4 \/ r = 5 \/ r = 6 \/ r = 7 \/ r = 8
          \/ r = 9 \/ r = 10 \/ r = 11 \/ r = 12 \/ r = 13 \/ r = 14 \/ r = 15)%Z as H by lia.
  repeat (destruct H as [->|H]; [by vm_compute|]). subst. by vm_compute.
Qed.

Lemma replace_xy_shaped random template :
  (forall k, (0 <= random k < 16)%Z) ->
  forall k, shaped template (replace_xy random template k) = true.
Proof.
  intros Hr. induction template as [|c rest IH]; intros k; [done|].
  cbn [replace_xy].
  destruct (Ascii.eqb_spec c "x"%char) as [->|Hx].
  - cbn [orb]. rewrite (toString16_digit _ (Hr k)), append_cons, append_nil. cbn [shaped].
    rewrite Ascii.eqb_refl.
    rewrite hex_digit_is_hex, IH. done.
  - destruct (Ascii.eqb_spec c "y"%char) as [->|Hy]; cbn [orb].
    + rewrite (toString16_digit _ (variant_range _ (Hr k))), append_cons, append_nil.
      cbn [shaped].
      change (Ascii.eqb "y"%char "x"%char) with false.
      change (Ascii.eqb "y"%char "y"%char) with true.
      cbn iota. rewrite (variant_digit _ (Hr k)), IH. done.
    + cbn [shaped]. destruct (Ascii.eqb_spec c "x"%char); [done|].
      destruct (Ascii.eqb_spec c "y"%char); [done|]. by rewrite Ascii.eqb_refl, IH.
Qed.

Lemma shaped_length pattern : forall u,
  shaped pattern u = true -> String.length u = String.length pattern.
Proof.
  induction pattern as [|p pattern IH]; intros [|c u]; simpl; try done.
  intros [_ H]%andb_prop. by rewrite (IH _ H).
Qed.

End UuidFacts.

(** X21: in a browser without [crypto.randomUUID], [getUUID] returns a
    version 4 UUID whatever the random numbers drawn: 36 characters,
    hyphens after the 8th, 12th, 16th and 20th digit, the digit 4 in
    front of the third group, one of 8, 9, a, b in front of the fourth,
    lowercase hexadecimal digits elsewhere. *)
Theorem getUUID_fallback_v4 (random : nat -> Z) :
  (forall k, (0 <= random k < 16)%Z) ->
  Uuid.shaped "xxxxxxxx-xxxx-4xxx-yxxx-xxxxxxxxxxxx" (Uuid.getUUID None random) = true
  /\ String.length (Uuid.getUUID None random) = 36.
Proof.
  intros Hr.
  assert (Uuid.shaped "xxxxxxxx-xxxx-4xxx-yxxx-xxxxxxxxxxxx" (Uuid.getUUID None random) = true)
    as H by apply (replace_xy_shaped random _ Hr 0).
  split; [exact H|]. by rewrite (shaped_length _ _ H).
Qed.

Lemma getUUID_fallback_v4_witness :
  Uuid.shaped "xxxxxxxx-xxxx-4xxx-yxxx-xxxxxxxxxxxx" (Uuid.getUUID None (fun _ => 7%Z)) = true
  /\ String.length (Uuid.getUUID None (fun _ => 7%Z)) = 36.
Proof. apply (getUUID_fallback_v4 (fun _ => 7%Z)). intros k. lia. Defined.

(** ** handleDrop *)
Section DragDropFacts.
Import Js Types App WidgetManagement DragDrop.

Local Abbreviation without := (fun h : nat => List.filter (fun x => negb (Nat.eqb h x))).

Lemma without_absent h l : h ∉ l -> without h l = l.
Proof.
  induction l as [|x l IH]; simpl; [done|]. intros [Hne Hl]%not_elem_of_cons.
  destruct (Nat.eqb_spec h x); [done|]. simpl. by rewrite IH.
Qed.

Lemma without_app h l1 l2 : without h (l1 ++ l2) = (without h l1 ++ without h l2)%list.
Proof. apply List.filter_app. Qed.

Lemma insert_after_app t d l1 l2 :
  t ∉ l1 -> insert_after t d (l1 ++ t :: l2) = (l1 ++ t :: d :: l2)%list.
Proof.
  induction l1 as [|x l1 IH]; simpl; [by rewrite Nat.eqb_refl|].
  intros [Hne Hl]%not_elem_of_cons. destruct (Nat.eqb_spec x t); [done|]. by rewrite IH.
Qed.

Lemma insert_before_app t d l1 l2 :
  t ∉ l1 -> insert_before t d (l1 ++ t :: l2) = (l1 ++ d :: t :: l2)%list.
Proof.
  induction l1 as [|x l1 IH]; simpl; [by rewrite Nat.eqb_refl|].
  intros [Hne Hl]%not_elem_of_cons. destruct (Nat.eqb_spec x t); [done|]. by rewrite IH.
Qed.

Lemma filter_insert_after (P : nat -> bool) t d l :
  P t = true -> P d = true ->
  List.filter P (insert_after t d l) = insert_after t d (List.filter P l).
Proof.
  intros Ht Hd. induction l as [|x l IH]; simpl; [done|].
  destruct (Nat.eqb_spec x t) as [->|Hne]; simpl.
  - by rewrite Ht, Hd; simpl; rewrite Nat.eqb_refl.
  - destruct (P x); simpl; [|done]. destruct (Nat.eqb_spec x t); [done|]. by rewrite IH.
Qed.

Lemma filter_insert_before (P : nat -> bool) t d l :
  P t = true -> P d = true ->
  List.filter P (insert_before t d l) = insert_before t d (List.filter P l).
Proof.
  intros Ht Hd. induction l as [|x l IH]; simpl; [done|].
  destruct (Nat.eqb_spec x t) as [->|Hne]; simpl.
  - by rewrite Ht, Hd; simpl; rewrite Nat.eqb_refl.
  - destruct (P x); simpl; [|done]. destruct (Nat.eqb_spec x t); [done|]. by rewrite IH.
Qed.

Lemma filter_swap {A} (P Q : A -> bool) l :
  List.filter P (List.filter Q l) = List.filter Q (List.filter P l).
Proof.
  induction l as [|x l IH]; simpl; [done|].
  destruct (P x) eqn:Ep, (Q x) eqn:Eq; simpl; rewrite ?Ep, ?Eq, IH; done.
Qed.

(** Where the node lands: on the place of the target. *)
Lemma moved_forward (l : list nat) i j d t :
  NoDup l -> l !! i = Some d -> l !! j = Some t -> i < j ->
  insert_after t d (without d l) !! j = Some d.
Proof.
  intros Hnd Hi Hj Hij.
  pose proof (take_drop_middle _ _ _ Hi) as Hl.
  set (A := take i l) in *. set (R := drop (S i) l) in *.
  assert (length A = i) as HA.
  { unfold A. rewrite length_take. apply lookup_lt_Some in Hi. lia. }
  assert (R !! (j - S i) = Some t) as Hr.
  { unfold R. rewrite lookup_drop. rewrite <- Hj. f_equal. lia. }
  pose proof (take_drop_middle _ _ _ Hr) as HR.
  set (B := take (j - S i) R) in *. set (C := drop (S (j - S i)) R) in *.
  assert (length B = j - S i) as HB.
  { unfold B. rewrite length_take. apply lookup_lt_Some in Hr. lia. }
  rewrite <- HR in Hl. rewrite <- Hl in Hnd |- *.
  apply NoDup_app in Hnd as (_ & HdA & HndR). apply NoDup_cons in HndR as [HdR HndR].
  assert (d ∉ A) as HdA' by (intros H; apply (HdA _ H); by left).
  assert ((d ∉ B) /\ d <> t /\ (d ∉ C)) as (HdB & Hdt & HdC).
  { rewrite elem_of_app, elem_of_cons in HdR. naive_solver. }
  assert ((t ∉ A) /\ (t ∉ B)) as [HtA HtB].
  { split.
    - intros H. apply (HdA _ H). right. apply elem_of_app. right. by left.
    - apply NoDup_app in HndR as (_ & Hb & _). intros H. apply (Hb _ H). by left. }
  assert (without d (A ++ d :: B ++ t :: C) = (A ++ B) ++ t :: C)%list as Hw.
  { rewrite without_app. simpl. rewrite Nat.eqb_refl. simpl.
    rewrite without_app. simpl. destruct (Nat.eqb_spec d t); [done|]. simpl.
    rewrite !without_absent by done. by rewrite <- app_assoc. }
  rewrite Hw, insert_after_app by (rewrite elem_of_app; naive_solver).
  rewrite lookup_app_r by (rewrite length_app; lia).
  replace (j - length (A ++ B)) with 1 by (rewrite length_app; lia). done.
Qed.

Lemma moved_backward (l : list nat) i j d t :
  NoDup l -> l !! i = Some d -> l !! j = Some t -> j < i ->
  insert_before t d (without d l) !! j = Some d.
Proof.
  intros Hnd Hi Hj Hij.
  pose proof (take_drop_middle _ _ _ Hj) as Hl.
  set (A := take j l) in *. set (R := drop (S j) l) in *.
  assert (length A = j) as HA.
  { unfold A. rewrite length_take. apply lookup_lt_Some in Hj. lia. }
  assert (R !! (i - S j) = Some d) as Hr.
  { unfold R. rewrite lookup_drop. rewrite <- Hi. f_equal. lia. }
  pose proof (take_drop_middle _ _ _ Hr) as HR.
  set (B := take (i - S j) R) in *. set (C := drop (S (i - S j)) R) in *.
  rewrite <- HR in Hl. rewrite <- Hl in Hnd |- *.
  apply NoDup_app in Hnd as (_ & HtA & HndR). apply NoDup_cons in HndR as [HtR HndR].
  assert (t ∉ A) as HtA' by (intros H; apply (HtA _ H); by left).
  assert (d <> t) as Hdt.
  { intros ->. apply HtR. apply elem_of_app. right. by left. }
  assert (d ∉ A) as HdA.
  { intros H. apply (HtA _ H). right. apply elem_of_app. right. by left. }
  apply NoDup_app in HndR as (_ & HB & HndC). apply NoDup_cons in HndC as [HdC _].
  assert (d ∉ B) as HdB by (intros H; apply (HB _ H); by left).
  assert (without d (A ++ t :: B ++ d :: C) = A ++ t :: (B ++ C))%list as Hw.
  { rewrite without_app. simpl. destruct (Nat.eqb_spec d t); [done|]. simpl.
    rewrite without_app. simpl. rewrite Nat.eqb_refl. simpl.
    by rewrite !without_absent. }
  rewrite Hw, insert_before_app by done.
  rewrite lookup_app_r by lia. by rewrite HA, Nat.sub_diag.
Qed.


Lemma without_perm d l : NoDup l -> d ∈ l -> d :: without d l ≡ₚ l.
Proof.
  induction l as [|x l IH]; [by intros _ ?%elem_of_nil|].
  intros [Hx Hnd]%NoDup_cons Hd. simpl. destruct (Nat.eqb_spec d x) as [->|Hne]; simpl.
  - by rewrite without_absent.
  - apply elem_of_cons in Hd as [?|Hd]; [done|]. rewrite perm_swap. by rewrite IH.
Qed.

Lemma insert_after_perm t d l : t ∈ l -> insert_after t d l ≡ₚ d :: l.
Proof.
  induction l as [|x l IH]; [by intros ?%elem_of_nil|]. simpl.
  destruct (Nat.eqb_spec x t) as [->|Hne]; [intros _; apply perm_swap|].
  intros [?|Ht]%elem_of_cons; [done|]. rewrite (IH Ht). apply perm_swap.
Qed.

Lemma insert_before_perm t d l : t ∈ l -> insert_before t d l ≡ₚ d :: l.
Proof.
  induction l as [|x l IH]; [by intros ?%elem_of_nil|]. simpl.
  destruct (Nat.eqb_spec x t) as [->|Hne]; [done|].
  intros [?|Ht]%elem_of_cons; [done|]. rewrite (IH Ht). apply perm_swap.
Qed.

Lemma without_insert_after t d l : d <> t -> without d (insert_after t d l) = without d l.
Proof.
  intros Hne. induction l as [|x l IH]; simpl; [done|].
  destruct (Nat.eqb_spec x t) as [->|Hx]; simpl.
  - destruct (Nat.eqb_spec d t); [done|]. simpl. by rewrite Nat.eqb_refl.
  - by rewrite IH.
Qed.

Lemma without_insert_before t d l : d <> t -> without d (insert_before t d l) = without d l.
Proof.
  intros Hne. induction l as [|x l IH]; simpl; [done|].
  destruct (Nat.eqb_spec x t) as [->|Hx]; simpl.
  - rewrite Nat.eqb_refl. simpl. by destruct (Nat.eqb_spec d t).
  - by rewrite IH.
Qed.

Lemma without_elem d t l : d <> t -> t ∈ l -> t ∈ without d l.
Proof.
  intros Hne Ht. apply list_elem_of_In, filter_In. split; [by apply list_elem_of_In|].
  by destruct (Nat.eqb_spec d t).
Qed.

Lemma filter_perm {A} (P : A -> bool) l l' :
  l ≡ₚ l' -> List.filter P l ≡ₚ List.filter P l'.
Proof.
  induction 1 as [|x l l' _ IH|x y l|l1 l2 l3 _ IH1 _ IH2]; simpl; [done|..].
  - destruct (P x); [by apply perm_skip|done].
  - destruct (P x), (P y); try done. apply perm_swap.
  - by rewrite IH1.
Qed.

Lemma updateWidgetOrders_visible s :
  truthy (Dom.boardElId (dom s)) = true -> truthy (Dom.viewElId (dom s)) = true ->
  existsb (hasView (Dom.viewElId (dom s))) (boards (storage s)) = true ->
  visibleWidgets (dom (updateWidgetOrders s)) = visibleWidgets (dom s).
Proof.
  intros Hb Hv Hview. unfold updateWidgetOrders, saveWidgetState.
  cbn [dom with_dom Dom.boardElId Dom.viewElId Dom.with_elements storage].
  rewrite Hb, Hv, Hview. cbn [negb orb]. simpl.
  rewrite (visible_renumber _ 0
             (Dom.with_elements
                (renumber (visibleWidgets (dom s)) 0 (Dom.elements (dom s))) (dom s))).
  apply visible_renumber.
Qed.

End DragDropFacts.

(** X22: dropping a widget on another puts it on the target's place.
    In a document whose visible widgets carry the numbers 0, 1, 2, ...
    in document order, [handleDrop] of the visible widget number [i]
    on the visible widget number [j] returns; the children of the
    container are the same elements, the others in the same relative
    order; the dragged widget now has the number [j]; the visible
    widgets are again numbered 0, 1, 2, ... in document order; and they
    are saved in that order, with these numbers, as the [widgetState]
    of the current view. *)
Theorem handleDrop_moves (draggedId : string) (dragged target i j : nat) (s : App.State) :
  NoDup (Dom.container (App.dom s)) ->
  DragDrop.querySelector draggedId (App.dom s) = Some dragged ->
  App.visibleWidgets (App.dom s) !! i = Some dragged ->
  App.visibleWidgets (App.dom s) !! j = Some target ->
  (forall k h, App.visibleWidgets (App.dom s) !! k = Some h ->
     DragDrop.order_of (App.dom s) h = Z.of_nat k) ->
  Js.truthy (Dom.boardElId (App.dom s)) = true ->
  Js.truthy (Dom.viewElId (App.dom s)) = true ->
  existsb (App.hasView (Dom.viewElId (App.dom s))) (App.boards (App.storage s)) = true ->
  exists s',
    DragDrop.handleDrop draggedId (Some target) s = Some s'
    /\ Dom.container (App.dom s') ≡ₚ Dom.container (App.dom s)
    /\ List.filter (fun h => negb (Nat.eqb dragged h)) (Dom.container (App.dom s'))
       = List.filter (fun h => negb (Nat.eqb dragged h)) (Dom.container (App.dom s))
    /\ App.visibleWidgets (App.dom s') !! j = Some dragged
    /\ (forall k h, App.visibleWidgets (App.dom s') !! k = Some h ->
          DragDrop.order_of (App.dom s') h = Z.of_nat k)
    /\ exists ws,
         App.boards (App.storage s')
         = App.updateBoardOfView (Dom.viewElId (App.dom s)) ws (App.boards (App.storage s))
         /\ length ws = length (App.visibleWidgets (App.dom s))
         /\ forall k h, App.visibleWidgets (App.dom s') !! k = Some h ->
              exists e,
                Dom.elements (App.dom s) !! h = Some e
                /\ ws !! k = Some (App.serializeWidgetState (Dom.set_order (Z.of_nat k) e)).
Proof.
  intros Hnd Hq Hi Hj Hnum Hb Hv Hview.
  set (d := App.dom s) in *. set (vis := App.visibleWidgets d) in *.
  assert (NoDup vis) as Hnv.
  { unfold vis, App.visibleWidgets. by apply NoDup_ListNoDup, List.NoDup_filter, NoDup_ListNoDup. }
  assert (forall h, h ∈ vis -> h ∈ Dom.container d) as Hsub.
  { intros h Hh. unfold vis, App.visibleWidgets in Hh.
    apply list_elem_of_In, filter_In in Hh as [Hh _]. by apply list_elem_of_In. }
  assert (dragged ∈ Dom.container d) as Hdin by (apply Hsub; by eapply list_elem_of_lookup_2).
  assert (target ∈ Dom.container d) as Htin by (apply Hsub; by eapply list_elem_of_lookup_2).
  set (P := fun h => match Dom.elements d !! h with
                     | Some e => negb (Dom.hidden e) | None => false end).
  assert (P dragged = true /\ P target = true) as [HPd HPt].
  { split.
    - apply list_elem_of_lookup_2 in Hi. unfold vis, App.visibleWidgets in Hi.
      by apply list_elem_of_In, filter_In in Hi as [_ ?].
    - apply list_elem_of_lookup_2 in Hj. unfold vis, App.visibleWidgets in Hj.
      by apply list_elem_of_In, filter_In in Hj as [_ ?]. }
  (* the children after the move *)
  set (children :=
         if Nat.eqb dragged target then Dom.container d
         else if (DragDrop.order_of d dragged <? DragDrop.order_of d target)%Z
              then DragDrop.insert_after target dragged
                     (List.filter (fun h => negb (Nat.eqb dragged h)) (Dom.container d))
              else DragDrop.insert_before target dragged
                     (List.filter (fun h => negb (Nat.eqb dragged h)) (Dom.container d))).
  set (s1 := App.with_dom (Dom.with_container children d) s).
  assert (DragDrop.handleDrop draggedId (Some target) s
          = Some (WidgetManagement.updateWidgetOrders s1)) as Hrun.
  { unfold DragDrop.handleDrop. fold d. rewrite Hq.
    by rewrite bool_decide_eq_true_2. }
  assert (children ≡ₚ Dom.container d
          /\ List.filter (fun h => negb (Nat.eqb dragged h)) children
             = List.filter (fun h => negb (Nat.eqb dragged h)) (Dom.container d)
          /\ List.filter P children !! j = Some dragged) as (Hperm & Hrest & Hland).
  { unfold children. rewrite (Hnum _ _ Hi), (Hnum _ _ Hj).
    destruct (Nat.eqb_spec dragged target) as [->|Hne].
    - split; [done|]. split; [done|]. exact Hj.
    - destruct (Z.ltb_spec (Z.of_nat i) (Z.of_nat j)) as [Hlt|Hge].
      + split; [|split].
        * rewrite insert_after_perm by (by apply without_elem).
          by apply without_perm.
        * rewrite without_insert_after by done. apply filter_twice.
        * rewrite filter_insert_after by done. rewrite filter_swap.
          change (List.filter P (Dom.container d)) with vis.
          apply (moved_forward vis i j); [done|done|done|lia].
      + assert (i <> j) by (intros ->; rewrite Hi in Hj; congruence).
        split; [|split].
        * rewrite insert_before_perm by (by apply without_elem).
          by apply without_perm.
        * rewrite without_insert_before by done. apply filter_twice.
        * rewrite filter_insert_before by done. rewrite filter_swap.
          change (List.filter P (Dom.container d)) with vis.
          apply (moved_backward vis i j); [done|done|done|lia]. }
  assert (App.visibleWidgets (App.dom s1) = List.filter P children) as Hvis1 by done.
  destruct (updateWidgetOrders_spec s1) as (ws & Hboards & Hlen & Hcont & _ & Hall);
    [change (NoDup children); by rewrite Hperm|done|done|done|].
  pose proof (updateWidgetOrders_visible s1 Hb Hv Hview) as Hvis'.
  exists (WidgetManagement.updateWidgetOrders s1).
  split; [done|]. rewrite Hcont, Hvis'. split; [done|]. split; [done|].
  split; [by rewrite Hvis1|]. split; [|exists ws; split; [done|split]].
  - intros k h Hk. destruct (Hall _ _ Hk) as (e & _ & He' & _).
    unfold DragDrop.order_of. by rewrite He'.
  - rewrite Hlen, Hvis1. unfold vis, App.visibleWidgets. fold P.
    apply Permutation_length. by apply filter_perm.
  - intros k h Hk. destruct (Hall _ _ Hk) as (e & He & _ & Hw). by exists e.
Qed.

Lemma handleDrop_moves_witness :
  exists s',
    DragDrop.handleDrop "widget-1" (Some 1) DragDrop.twoWidgets = Some s'
    /\ App.visibleWidgets (App.dom s') !! 1 = Some 0.
Proof.
  destruct (handleDrop_moves "widget-1" 0 1 0 1 DragDrop.twoWidgets)
    as (s' & Hrun & _ & _ & Hland & _).
  - apply (bool_decide_unpack _). vm_compute. exact I.
  - reflexivity.
  - reflexivity.
  - reflexivity.
  - intros [|[|k]] h H; vm_compute in H; [| |discriminate H];
      injection H as <-; reflexivity.
  - reflexivity.
  - reflexivity.
  - reflexivity.
  - exists s'. split; assumption.
Defined.

(** ** encodeConfig and decodeConfig *)
Section CodecFacts.
Import Js Minimizer Keymap Checksum Base64Url ConfigCodec.

Lemma base64_there_and_back bytes : base64UrlDecode (base64UrlEncode bytes) = Some bytes.
Proof.
  unfold base64UrlDecode.
  set (s := String.string_of_list_byte bytes).
  set (str := base64UrlEncode bytes).
  pose proof (encode_chars bytes) as Hstr. fold s str in Hstr.
  destruct (sextets_length s) as (Hp & _ & _ & Hpad).
  pose proof (sextets_small s) as Hsmall.
  assert (String.length str = length (sextets s)) as Hlen.
  { by rewrite <- chars_length, Hstr, !length_map. }
  rewrite Hlen, Hpad.
  assert (replace_char "_" "/" (replace_char "-" "+" str) +:+ slice "====" 0 (padding s)
          = btoa s) as ->.
  { rewrite <- (String.string_of_list_ascii_of_string (btoa s)).
    rewrite <- (String.string_of_list_ascii_of_string (_ +:+ _)). f_equal.
    rewrite list_ascii_append, chars_of_url, Hstr, btoa_chars. f_equal.
    - rewrite !map_map. apply map_ext_in. intros n Hn.
      rewrite Forall_forall in Hsmall.
      by destruct (sextet_char_facts n (Hsmall n (proj2 (list_elem_of_In _ _) Hn)))
        as (_ & _ & ? & _).
    - by destruct (padding s) as [|[|[|p]]]; [| | |lia]. }
  rewrite atob_btoa. simpl. subst s.
  by rewrite String.list_byte_of_string_of_list_byte.
Qed.


Local Abbreviation digit_step :=
  (fun (acc : Z) (c : ascii) =>
     (acc * 16
      + Z.of_nat (default 0%nat
                    (index_of c (String.list_ascii_of_string "0123456789abcdef"))))%Z).

Lemma digit_value d :
  (0 <= d < 16)%Z ->
  Z.of_nat (default 0%nat
              (index_of (hex_digit d) (String.list_ascii_of_string "0123456789abcdef")))
  = d.
Proof.
  intros Hd.
  assert (d = 0 \/ d = 1 \/ d = 2 \/ d = 3 \/ d = 4 \/ d = 5 \/ d = 6 \/ d = 7 \/ d = 8
          \/ d = 9 \/ d = 10 \/ d = 11 \/ d = 12 \/ d = 13 \/ d = 14 \/ d = 15)%Z as H by lia.
  repeat (destruct H as [->|H]; [reflexivity|]). by subst.
Qed.

Lemma fold_digits l : forall acc,
  fold_left digit_step l acc
  = (acc * 16 ^ Z.of_nat (length l) + fold_left digit_step l 0)%Z.
Proof.
  induction l as [|c l IH]; intros acc; cbn [fold_left length]; [simpl; lia|].
  rewrite (IH (acc * 16 + _)%Z), (IH (0 * 16 + _)%Z).
  rewrite Nat2Z.inj_succ, Z.pow_succ_r by lia. lia.
Qed.

Lemma toString16_loop_digits fuel : forall n acc,
  (0 <= n < 16 ^ Z.of_nat fuel)%Z -> 1 <= fuel ->
  exists ds,
    String.list_ascii_of_string (toString16_loop fuel n acc)
    = (ds ++ String.list_ascii_of_string acc)%list
    /\ ds <> []
    /\ fold_left digit_step ds 0%Z = n.
Proof.
  induction fuel as [|fuel IH]; intros n acc Hn Hf; [lia|].
  cbn [toString16_loop].
  assert (0 <= n mod 16 < 16)%Z as Hd by (apply Z.mod_pos_bound; lia).
  destruct (Z.eqb_spec (n / 16) 0) as [Hz|Hnz].
  - exists [hex_digit (n mod 16)]. split; [done|]. split; [done|]. cbn [fold_left].
    rewrite digit_value by done. rewrite (Z.div_mod n 16) at 2 by lia. lia.
  - assert (0 <= n / 16 < 16 ^ Z.of_nat fuel)%Z as Hq.
    { rewrite Nat2Z.inj_succ, Z.pow_succ_r in Hn by lia.
      split; [apply Z.div_pos; lia|apply Z.div_lt_upper_bound; lia]. }
    assert (1 <= fuel) as Hf'.
    { destruct fuel; [|lia]. simpl in Hq. lia. }
    destruct (IH (n / 16)%Z (String (hex_digit (n mod 16)) acc) Hq Hf')
      as (ds & Hds & Hne & Hv).
    exists (ds ++ [hex_digit (n mod 16)])%list. split; [|split].
    + rewrite Hds. simpl. by rewrite <- app_assoc.
    + by destruct ds.
    + rewrite fold_left_app, Hv. cbn [fold_left]. rewrite digit_value by done.
      rewrite (Z.div_mod n 16) at 3 by lia. lia.
Qed.

Lemma fold_zeros k : fold_left digit_step (repeat "0"%char k) 0%Z = 0%Z.
Proof. induction k as [|k IH]; simpl; [done|]. exact IH. Qed.

Lemma crc_range s : (0 <= computeCRC32 s < 2 ^ 32)%Z.
Proof. unfold computeCRC32. apply (ushr_range _ 0). lia. Qed.

Lemma hex_of_crc s :
  hex_value (computeCRC32Hex s) = computeCRC32 s
  /\ truthy (computeCRC32Hex s) = true.
Proof.
  unfold hex_value, computeCRC32Hex, padStart, toString16.
  set (n := computeCRC32 s). pose proof (crc_range s) as Hn. fold n in Hn.
  destruct (toString16_loop_digits (S (Z.to_nat (Z.log2 n))) n EmptyString)
    as (ds & Hds & Hne & Hv); [|lia|].
  { split; [lia|]. destruct (Z.eq_dec n 0) as [->|Hnz]; [simpl; lia|].
    rewrite Nat2Z.inj_succ, Z2Nat.id by apply Z.log2_nonneg.
    apply Z.lt_le_trans with (2 ^ Z.succ (Z.log2 n))%Z.
    - apply Z.log2_spec. lia.
    - apply Z.pow_le_mono_l. lia. }
  change (String.list_ascii_of_string EmptyString) with (@nil ascii) in Hds.
  rewrite app_nil_r in Hds.
  split.
  - rewrite list_ascii_append, String.list_ascii_of_string_of_list_ascii, Hds.
    rewrite fold_left_app, fold_zeros. exact Hv.
  - set (pad := String.string_of_list_ascii _).
    destruct (toString16_loop _ n EmptyString) eqn:E; [by destruct ds|].
    by destruct pad.
Qed.

End CodecFacts.

(** X23: what [encodeConfig] writes, [decodeConfig] reads back.  With
    compression streams that undo each other and a [JSON.parse] that
    gives back the value [JSON.stringify] was given, and, when a key
    map is used, for a well-formed value whose property names the map
    carries (distinct keys, distinct tokens, no token naming a member
    of [Object.prototype]): [encodeConfig] returns, and [decodeConfig]
    of its [data] with the same algorithm and key map returns the
    value, whether the checksum written is expected or none is. *)
Theorem encodeConfig_roundtrip
    (stringify : Minimizer.jsvalue -> option string)
    (parse : string -> option Minimizer.jsvalue)
    (compressString : string -> ConfigCodec.Algo -> list Byte.byte)
    (decompressToString : list Byte.byte -> ConfigCodec.Algo -> option string)
    (obj : Minimizer.jsvalue) (opts : ConfigCodec.EncodeOpts) :
  (forall t a, decompressToString (compressString t a) a = Some t) ->
  (forall e,
     match ConfigCodec.e_keyMap opts with
     | Some map => Keymap.applyKeyMap obj map Keymap.Encode
     | None => Some obj
     end = Some e ->
     exists j, stringify e = Some j /\ parse j = Some e) ->
  match ConfigCodec.e_keyMap opts with
  | Some map =>
      NoDup map.*1 /\ NoDup map.*2
      /\ Forall (fun t => Keymap.inherited t = false) map.*2
      /\ Keymap.all_keys (Keymap.carried map) obj = true
      /\ ObjectUtils.well_formed obj = true
  | None => True
  end ->
  exists enc,
    ConfigCodec.encodeConfig stringify compressString obj opts = Some enc
    /\ ConfigCodec.decodeConfig parse decompressToString (ConfigCodec.data enc)
         (ConfigCodec.mkDecodeOpts (ConfigCodec.e_algo opts) (ConfigCodec.e_keyMap opts)
            (ConfigCodec.checksum enc))
       = ConfigCodec.Value obj
    /\ ConfigCodec.decodeConfig parse decompressToString (ConfigCodec.data enc)
         (ConfigCodec.mkDecodeOpts (ConfigCodec.e_algo opts) (ConfigCodec.e_keyMap opts) None)
       = ConfigCodec.Value obj.
Proof.
  intros Hgz Hjson Hmap. unfold ConfigCodec.encodeConfig.
  assert (exists e,
            match ConfigCodec.e_keyMap opts with
            | Some map => Keymap.applyKeyMap obj map Keymap.Encode
            | None => Some obj
            end = Some e
            /\ match ConfigCodec.e_keyMap opts with
               | Some map => Keymap.applyKeyMap e map Keymap.Decode
               | None => Some e
               end = Some obj) as (e & Henc & Hdec).
  { destruct (ConfigCodec.e_keyMap opts) as [map|]; [|by exists obj].
    destruct Hmap as (Hk & Ht & Hp & Hall & Hwf).
    apply (keymap_there_and_back map Hk Ht Hp obj Hall Hwf). }
  destruct (Hjson e Henc) as (j & Hj & Hparse). rewrite Henc, Hj.
  eexists. split; [reflexivity|].
  unfold ConfigCodec.decodeConfig. cbn [ConfigCodec.data ConfigCodec.checksum
    ConfigCodec.d_algo ConfigCodec.d_keyMap ConfigCodec.expectChecksum].
  rewrite base64_there_and_back, Hgz, Hparse.
  assert (match ConfigCodec.e_keyMap opts with
          | Some map =>
              match Keymap.applyKeyMap e map Keymap.Decode with
              | Some v => ConfigCodec.Value v
              | None => ConfigCodec.Unmodelled
              end
          | None => ConfigCodec.Value e
          end = ConfigCodec.Value obj) as Hv.
  { destruct (ConfigCodec.e_keyMap opts); [by rewrite Hdec|by injection Hdec as ->]. }
  split; [|exact Hv].
  destruct (ConfigCodec.withChecksum opts); [|exact Hv].
  by rewrite String.eqb_refl, andb_false_r.
Qed.

Lemma encodeConfig_roundtrip_witness :
  exists enc,
    ConfigCodec.encodeConfig
      (fun _ => Some "{}") (fun t _ => String.list_byte_of_string t)
      (Minimizer.VObj []) (ConfigCodec.mkEncodeOpts None None true) = Some enc
    /\ ConfigCodec.decodeConfig
         (fun _ => Some (Minimizer.VObj []))
         (fun b _ => Some (String.string_of_list_byte b))
         (ConfigCodec.data enc)
         (ConfigCodec.mkDecodeOpts None None (ConfigCodec.checksum enc))
       = ConfigCodec.Value (Minimizer.VObj []).
Proof.
  destruct (encodeConfig_roundtrip
              (fun _ => Some "{}") (fun _ => Some (Minimizer.VObj []))
              (fun t _ => String.list_byte_of_string t)
              (fun b _ => Some (String.string_of_list_byte b))
              (Minimizer.VObj []) (ConfigCodec.mkEncodeOpts None None true))
    as (enc & Henc & Hdec & _).
  - intros t a. f_equal. apply String.string_of_list_byte_of_string.
  - intros e [= <-]. exists "{}". split; reflexivity.
  - exact I.
  - exists enc. split; assumption.
Defined.

(** X24: the checksum that [encodeConfig] writes loses nothing of the
    CRC-32: read as a hexadecimal number it is the CRC-32 of the text,
    and it is never the empty text.  So [decodeConfig], given as
    expected checksum the one of a text [original], rejects a payload
    with a checksum mismatch exactly when the CRC-32 of the text that
    the payload decompresses to differs from the CRC-32 of [original]. *)
Theorem decodeConfig_checksum
    (parse : string -> option Minimizer.jsvalue)
    (decompressToString : list Byte.byte -> ConfigCodec.Algo -> option string)
    (str json original : string) (bytes : list Byte.byte) (opts : ConfigCodec.DecodeOpts) :
  Base64Url.base64UrlDecode str = Some bytes ->
  decompressToString bytes (default ConfigCodec.Gzip (ConfigCodec.d_algo opts)) = Some json ->
  ConfigCodec.expectChecksum opts
  = Some (Checksum.computeCRC32Hex (ConfigCodec.codes original)) ->
  ConfigCodec.hex_value (Checksum.computeCRC32Hex (ConfigCodec.codes original))
  = Checksum.computeCRC32 (ConfigCodec.codes original)
  /\ (ConfigCodec.decodeConfig parse decompressToString str opts
      = ConfigCodec.Throws ConfigCodec.ChecksumMismatch
      <-> Checksum.computeCRC32 (ConfigCodec.codes json)
          <> Checksum.computeCRC32 (ConfigCodec.codes original)).
Proof.
  intros Hb Hz He. destruct (hex_of_crc (ConfigCodec.codes original)) as [Hval Htruthy].
  split; [exact Hval|].
  unfold ConfigCodec.decodeConfig. rewrite Hb, Hz, He, Htruthy. cbn [andb].
  destruct (String.eqb_spec (Checksum.computeCRC32Hex (ConfigCodec.codes json))
              (Checksum.computeCRC32Hex (ConfigCodec.codes original))) as [Heq|Hne];
    cbn [negb].
  - split.
    + destruct (parse json) as [parsed|]; [|done].
      destruct (ConfigCodec.d_keyMap opts); [|done].
      by destruct (Keymap.applyKeyMap parsed _ _).
    + intros Hcrc. exfalso. apply Hcrc.
      destruct (hex_of_crc (ConfigCodec.codes json)) as [Hval' _].
      by rewrite <- Hval, <- Hval', Heq.
  - split; [|done]. intros _ Hcrc. apply Hne.
    unfold Checksum.computeCRC32Hex. by rewrite Hcrc.
Qed.

Lemma decodeConfig_checksum_witness :
  ConfigCodec.decodeConfig (fun _ => None) (fun _ _ => Some "{}") ""
    (ConfigCodec.mkDecodeOpts None None
       (Some (Checksum.computeCRC32Hex (ConfigCodec.codes "[]"))))
  = ConfigCodec.Throws ConfigCodec.ChecksumMismatch.
Proof.
  apply (decodeConfig_checksum (fun _ => None) (fun _ _ => Some "{}") "" "{}" "[]" []
           (ConfigCodec.mkDecodeOpts None None
              (Some (Checksum.computeCRC32Hex (ConfigCodec.codes "[]"))))).
  - reflexivity.
  - reflexivity.
  - reflexivity.
  - vm_compute. discriminate.
Defined.

(** ** From the exported parameters to the loader *)
Section FragmentFacts.
Import Js Chunker Manifest Fragment.

Lemma params_set_absent k v ps : k ∉ ps.*1 -> params_set k v ps = (ps ++ [(k, v)])%list.
Proof.
  induction ps as [|[k' v'] ps IH]; [done|]. simpl. intros Hk.
  apply not_elem_of_cons in Hk as [Hne Hk].
  destruct (String.eqb_spec k k'); [done|]. by rewrite IH.
Qed.

Lemma fold_set_append (kvs : Params) : forall ps : Params,
  NoDup (ps.*1 ++ kvs.*1) ->
  fold_left (fun ps kv => params_set (fst kv) (snd kv) ps) kvs ps = (ps ++ kvs)%list.
Proof.
  induction kvs as [|[k v] kvs IH]; intros ps Hnd; simpl; [by rewrite app_nil_r|].
  rewrite params_set_absent.
  - rewrite IH; [by rewrite <- app_assoc|].
    rewrite fmap_app. simpl. by rewrite <- app_assoc.
  - simpl in Hnd. apply NoDup_app in Hnd as (_ & Hd & _). intros H.
    apply (Hd _ H). by left.
Qed.

(** The chunks of a text: what [splitIntoParams] returns. *)
Lemma split_shape name S maxLen :
  1 <= maxLen ->
  exists ps,
    splitIntoParams name S maxLen = Some ps
    /\ joinFromParams name ps = Some S
    /\ NoDup ps.*1
    /\ Forall (fun kv => String.prefix name (fst kv) = true) ps.
Proof.
  intros Hmax. unfold splitIntoParams.
  destruct (Nat.leb_spec (String.length S) maxLen) as [Hle|Hgt].
  - exists [(name, S)]. split; [done|]. split; [apply join_single|].
    split; [apply NoDup_singleton|]. constructor; [apply prefix_refl|done].
  - destruct (split_loop_shape name S maxLen (String.length S) Hmax 0 0 [])
      as (res & Hres & Hkeys & Hjoin & Hne); [lia|].
    exists res. split; [exact Hres|].
    split; [eapply join_numbered; [apply Hne; lia|exact Hkeys|exact Hjoin]|].
    split.
    + change (res.*1) with (map fst res). rewrite Hkeys. apply numbered_keys_nodup.
    + apply Forall_forall. intros [k v] Hkv.
      assert (k ∈ map fst res) as Hk by (apply list_elem_of_fmap; by exists (k, v)).
      rewrite Hkeys in Hk. unfold numbered_keys in Hk.
      apply list_elem_of_fmap in Hk as (j & -> & _). apply prefix_append.
Qed.

Lemma prefix_name_eq name k : String.prefix name k = false -> name <> k.
Proof. intros H ->. by rewrite prefix_refl in H. Qed.

Lemma params_get_app k (A B : Params) :
  params_get k (A ++ B) = match params_get k A with
                          | Some v => Some v
                          | None => params_get k B
                          end.
Proof.
  induction A as [|[k' v'] A IH]; simpl; [done|].
  by destruct (String.eqb k k').
Qed.

Lemma params_get_others name (A : Params) :
  Forall (fun kv => String.prefix name (fst kv) = false) A -> params_get name A = None.
Proof.
  induction 1 as [|[k v] A Hk _ IH]; simpl; [done|].
  destruct (String.eqb_spec name k) as [->|_]; [|done].
  simpl in Hk. by rewrite prefix_refl in Hk.
Qed.

Lemma collect_parts_app name (A B : Params) :
  collect_parts name (A ++ B) = (collect_parts name A ++ collect_parts name B)%list.
Proof. rewrite !collect_parts_omap. apply omap_app. Qed.

Lemma collect_parts_others name (A : Params) :
  Forall (fun kv => String.prefix name (fst kv) = false) A -> collect_parts name A = [].
Proof.
  induction 1 as [|[k v] A Hk _ IH]; simpl; [done|]. simpl in Hk. by rewrite Hk.
Qed.

(** Parameters with other names do not change what is joined. *)
Lemma join_among name (A ps B : Params) :
  Forall (fun kv => String.prefix name (fst kv) = false) A ->
  Forall (fun kv => String.prefix name (fst kv) = false) B ->
  joinFromParams name (A ++ ps ++ B) = joinFromParams name ps.
Proof.
  intros HA HB. unfold joinFromParams.
  rewrite !params_get_app, !collect_parts_app.
  rewrite (params_get_others _ _ HA), (params_get_others _ _ HB).
  rewrite (collect_parts_others _ _ HA), (collect_parts_others _ _ HB).
  rewrite app_nil_r. simpl. by destruct (params_get name ps).
Qed.


Lemma cfg_not_svc k : String.prefix "cfg" k = true -> String.prefix "svc" k = false.
Proof.
  destruct k as [|c k]; [done|]. cbn [String.prefix].
  destruct (ascii_dec "c" c) as [<-|Hne]; [|done]. intros _.
  destruct (ascii_dec "s" "c") as [E|_]; [discriminate E|reflexivity].
Qed.

Lemma svc_not_cfg k : String.prefix "svc" k = true -> String.prefix "cfg" k = false.
Proof.
  destruct k as [|c k]; [done|]. cbn [String.prefix].
  destruct (ascii_dec "s" c) as [<-|Hne]; [|done]. intros _.
  destruct (ascii_dec "c" "s") as [E|_]; [discriminate E|reflexivity].
Qed.

End FragmentFacts.

(** X25: the loader finds in the fragment what the export put there.
    For every name, algorithm, pair of checksums without a comma,
    checksum of both, pair of encoded texts and chunk length of at
    least 1: [exportConfig] builds its parameters, no key twice; from
    them [loadFromFragment] reads the name and the algorithm (or
    ['imported'] and ['gzip'] for empty ones), the two checksums
    ([null] for empty ones), the checksum of both, and, through
    [joinFromParams], the two encoded texts exactly, whether or not
    they were cut into chunks. *)
Theorem export_then_read (name algo cfgCrc svcCrc ccw cfgEnc svcEnc : string) (maxLen : nat) :
  1 <= maxLen ->
  Manifest.contains "," cfgCrc = false ->
  Manifest.contains "," svcCrc = false ->
  exists params,
    Fragment.exportParams name algo cfgCrc svcCrc ccw cfgEnc svcEnc maxLen = Some params
    /\ NoDup params.*1
    /\ Fragment.readFragment params
       = Fragment.mkFragment
           (Fragment.or_else (Some name) "imported")
           (Fragment.or_else (Some algo) "gzip")
           (Fragment.or_null (Some cfgCrc))
           (Fragment.or_null (Some svcCrc))
           (Some ccw) (Some cfgEnc) (Some svcEnc).
Proof.
  intros Hmax Hc1 Hc2.
  destruct (split_shape "cfg" cfgEnc maxLen Hmax) as (cp & Hcp & Hjc & Hndc & Hpc).
  destruct (split_shape "svc" svcEnc maxLen Hmax) as (sp & Hsp & Hjs & Hnds & Hps).
  unfold Fragment.exportParams. rewrite Hcp, Hsp.
  set (base := [("name", name); ("algo", algo); ("cc", cfgCrc +:+ "," +:+ svcCrc);
                ("ccw", ccw)]%string).
  change (Fragment.params_set "ccw" ccw _) with base.
  assert (Forall (fun kv : string * string => String.prefix "svc" (fst kv) = false) cp) as Hcs.
  { eapply Forall_impl; [exact Hpc|]. intros kv. apply cfg_not_svc. }
  assert (Forall (fun kv : string * string => String.prefix "cfg" (fst kv) = false) sp) as Hsc.
  { eapply Forall_impl; [exact Hps|]. intros kv. apply svc_not_cfg. }
  assert (forall name' (l : Chunker.Params) k,
            Forall (fun kv => String.prefix name' (fst kv) = true) l ->
            String.prefix name' k = false -> k ∉ l.*1) as Hout.
  { intros name' l k Hl Hk ((k' & v) & -> & Hin)%list_elem_of_fmap.
    rewrite Forall_forall in Hl. specialize (Hl _ Hin). simpl in *. congruence. }
  assert (forall k, k ∈ base.*1 -> String.prefix "cfg" k = false /\ String.prefix "svc" k = false)
    as Hbase.
  { intros k Hk. simpl in Hk. repeat (apply elem_of_cons in Hk as [->|Hk]; [done|]).
    by apply elem_of_nil in Hk. }
  assert (NoDup (base.*1 ++ (cp ++ sp).*1)) as Hnd.
  { apply NoDup_app. split; [|split].
    - apply (bool_decide_unpack _). vm_compute. exact I.
    - intros k Hk. destruct (Hbase k Hk) as [H1 H2]. rewrite fmap_app, elem_of_app.
      intros [H|H]; [by apply (Hout "cfg"%string cp k)|by apply (Hout "svc"%string sp k)].
    - rewrite fmap_app. apply NoDup_app. split; [done|]. split; [|done].
      intros k ((k' & v) & -> & Hin)%list_elem_of_fmap.
      rewrite Forall_forall in Hpc. specialize (Hpc _ Hin).
      apply (Hout "svc"%string sp). { done. } by apply cfg_not_svc. }
  rewrite (fold_set_append _ _ Hnd).
  set (manifest := Manifest.formatChunksManifest _).
  set (tail := if Js.truthy manifest then [("chunks"%string, manifest)] else []).
  assert ((if Js.truthy manifest
           then Fragment.params_set "chunks" manifest (base ++ cp ++ sp)
           else (base ++ cp ++ sp)%list) = (base ++ cp ++ sp ++ tail)%list) as ->.
  { unfold tail. destruct (Js.truthy manifest); [|by rewrite app_nil_r].
    rewrite params_set_absent; [by rewrite <- !app_assoc|].
    rewrite !fmap_app, !elem_of_app. intros [H|[H|H]].
    - simpl in H. repeat (apply elem_of_cons in H as [H|H]; [done|]).
      by apply elem_of_nil in H.
    - by apply (Hout "cfg"%string cp "chunks"%string).
    - by apply (Hout "svc"%string sp "chunks"%string). }
  assert (Forall (fun kv : string * string => String.prefix "cfg" (fst kv) = false) tail
          /\ Forall (fun kv : string * string => String.prefix "svc" (fst kv) = false) tail)
    as [Htc Hts].
  { unfold tail. destruct (Js.truthy manifest); split; by repeat constructor. }
  assert (Forall (fun kv : string * string => String.prefix "cfg" (fst kv) = false) base
          /\ Forall (fun kv : string * string => String.prefix "svc" (fst kv) = false) base)
    as [Hbc Hbs].
  { split; by repeat constructor. }
  eexists. split; [reflexivity|]. split.
  - rewrite !fmap_app. rewrite fmap_app in Hnd. rewrite !app_assoc.
    apply NoDup_app. split; [by rewrite <- app_assoc|]. split.
    + unfold tail. destruct (Js.truthy manifest); [|by intros ?? ?%elem_of_nil].
      intros k Hk ->%list_elem_of_singleton.
      rewrite !elem_of_app in Hk. destruct Hk as [[H|H]|H].
      * simpl in H. repeat (apply elem_of_cons in H as [H|H]; [done|]).
        by apply elem_of_nil in H.
      * by apply (Hout "cfg"%string cp "chunks"%string).
      * by apply (Hout "svc"%string sp "chunks"%string).
    + unfold tail. destruct (Js.truthy manifest); [apply NoDup_singleton|apply NoDup_nil_2].
  - unfold Fragment.readFragment.
    rewrite (join_among "cfg" base cp (sp ++ tail) Hbc)
      by (apply Forall_app; by split).
    replace (base ++ cp ++ sp ++ tail)%list with ((base ++ cp) ++ sp ++ tail)%list
      by (by rewrite <- app_assoc).
    rewrite (join_among "svc" (base ++ cp) sp tail) by (try apply Forall_app; done).
    rewrite Hjc, Hjs. rewrite <- app_assoc. unfold base. simpl.
    change (cfgCrc +:+ "," +:+ svcCrc) with (cfgCrc +:+ String "," svcCrc).
    rewrite (split_append "," cfgCrc svcCrc Hc1), (split_absent _ _ Hc2).
    replace (Js.truthy (cfgCrc +:+ String "," svcCrc)) with true; [done|].
    by destruct cfgCrc.
Qed.

Lemma export_then_read_witness :
  exists params,
    Fragment.exportParams "snap" "gzip" "0a1b2c3d" "deadbeef" "12345678" "abcdefg" "xy" 3
    = Some params
    /\ Fragment.cfgParam (Fragment.readFragment params) = Some "abcdefg"%string.
Proof.
  destruct (export_then_read "snap" "gzip" "0a1b2c3d" "deadbeef" "12345678" "abcdefg" "xy" 3)
    as (params & Hparams & _ & Hread); [lia|reflexivity|reflexivity|].
  exists params. split; [exact Hparams|]. by rewrite Hread.
Defined.
